(** * QNN quantization configuration: type-request resolution and operator policy

    A shallow embedding of
    [onnxruntime/python/tools/quantization/execution_providers/qnn/quant_config.py].

    The first part models the functions on values. Python dictionaries
    whose iteration order is observable ([tensor_quant_overrides],
    [type_requests]) are insertion-ordered association lists, in which a
    key occurs once; dictionaries that are only looked up ([producers],
    [consumers], [value_infos], [name_to_initializer]) are [gmap]s; Python
    sets of node names are [gset string]; exceptions are the [Raise] case
    of an error monad, and a function that mutates the override table
    returns the new table. A write to the record of one entry leaves the
    other entries as they are: this is what the program does when no
    record object, convert dictionary or [recv_nodes] set is held twice.

    The second part (module [Heap]) models the same functions on a store
    of mutable objects, where a mutation is a write to one object and is
    seen through every reference to it. It is the model for the properties
    that depend on which object is written: the caller's table or a copy
    of it, a record held by one entry or by several.

    The third part states and proves the properties. Its last sections
    relate the two models: on a store whose table holds no object twice,
    each function of [Heap] does what the function on values says
    ([Heap.refines]). *)

From Stdlib Require Import QArith.QArith_base.
From stdpp Require Import gmap strings list.

Open Scope string_scope.

(** ** Exceptions *)

Inductive Error :=
  | ValueError (msg : string)
  | KeyError (key : string)
  | IndexError
  | TypeError
  | AssertionError (msg : string).

Inductive result (A : Type) :=
  | Ok (a : A)
  | Raise (e : Error).
Arguments Ok {A} a.
Arguments Raise {A} e.

#[global] Instance result_ret : MRet result := @Ok.
#[global] Instance result_bind : MBind result := λ A B f m,
  match m with
  | Ok a => f a
  | Raise e => Raise e
  end.

(** A [for] loop whose body may raise: the first exception stops it. *)
Fixpoint for_each {A S : Type} (body : S → A → result S) (l : list A) (s : S)
  : result S :=
  match l with
  | [] => Ok s
  | x :: l' => s' ← body s x; for_each body l' s'
  end.

(** ** Insertion-ordered dictionaries with string keys *)

Section dict.
Context {V : Type}.

Fixpoint dict_get (k : string) (d : list (string * V)) : option V :=
  match d with
  | [] => None
  | (k', v) :: d' => if decide (k = k') then Some v else dict_get k d'
  end.

(** [d[k] = v]: an existing key keeps its position, a new key goes last. *)
Fixpoint dict_set (k : string) (v : V) (d : list (string * V))
  : list (string * V) :=
  match d with
  | [] => [(k, v)]
  | (k', v') :: d' =>
      if decide (k = k') then (k, v) :: d' else (k', v') :: dict_set k v d'
  end.

Definition dict_keys (d : list (string * V)) : list string := d.*1.

(** [d[k]], raising [KeyError] on a missing key. *)
Definition dict_item (k : string) (d : list (string * V)) : result V :=
  match dict_get k d with
  | Some v => Ok v
  | None => Raise (KeyError k)
  end.
End dict.

(** ** Data model *)

(** Modelled from the spec: [QuantType] is imported from [quant_utils],
    which is not part of the sources; the spec describes it as a closed
    enumeration of the signed and unsigned 8-bit and 16-bit integer types. *)
Inductive QuantType := QInt8 | QUInt8 | QInt16 | QUInt16.

#[global] Instance QuantType_eq_dec : EqDecision QuantType.
Proof. solve_decision. Defined.

Definition Q16_TYPES (t : QuantType) : bool :=
  match t with QInt16 | QUInt16 => true | _ => false end.

Definition Q8_TYPES (t : QuantType) : bool :=
  match t with QInt8 | QUInt8 => true | _ => false end.

(** The ["convert"] sub-dictionary of an override record: its target
    ["quant_type"] and, when the key is present, its ["recv_nodes"] set. *)
Record ConvertDict := {
  convert_quant_type : QuantType;
  recv_nodes : option (gset string)
}.

(** One override record: a dictionary with the keys this module reads or
    writes, each present ([Some]) or absent ([None]). Scales and ranges
    are rationals; the scales the policy writes are exact powers of two.
    The type [C] is what the ["convert"] key holds: the convert dictionary
    itself where records are plain values, a reference to it where object
    identity is modelled. *)
Record OverrideOf (C : Type) := {
  quant_type : option QuantType;
  symmetric : option bool;
  scale : option Q;
  zero_point : option Z;
  reduce_range : option bool;
  rmin : option Q;
  rmax : option Q;
  convert : option C
}.
Arguments quant_type {C} _.
Arguments symmetric {C} _.
Arguments scale {C} _.
Arguments zero_point {C} _.
Arguments reduce_range {C} _.
Arguments rmin {C} _.
Arguments rmax {C} _.
Arguments convert {C} _.

Abbreviation Override := (OverrideOf ConvertDict).

(** The empty dictionary [{}]. *)
Definition empty_override {C : Type} : OverrideOf C :=
  {| quant_type := None; symmetric := None; scale := None; zero_point := None;
     reduce_range := None; rmin := None; rmax := None; convert := None |}.

Definition set_quant_type {C : Type} (q : QuantType) (o : OverrideOf C) : OverrideOf C :=
  {| quant_type := Some q; symmetric := symmetric o; scale := scale o;
     zero_point := zero_point o; reduce_range := reduce_range o;
     rmin := rmin o; rmax := rmax o; convert := convert o |}.

Definition set_symmetric {C : Type} (b : bool) (o : OverrideOf C) : OverrideOf C :=
  {| quant_type := quant_type o; symmetric := Some b; scale := scale o;
     zero_point := zero_point o; reduce_range := reduce_range o;
     rmin := rmin o; rmax := rmax o; convert := convert o |}.

Definition set_scale {C : Type} (s : Q) (o : OverrideOf C) : OverrideOf C :=
  {| quant_type := quant_type o; symmetric := symmetric o; scale := Some s;
     zero_point := zero_point o; reduce_range := reduce_range o;
     rmin := rmin o; rmax := rmax o; convert := convert o |}.

Definition set_zero_point {C : Type} (z : Z) (o : OverrideOf C) : OverrideOf C :=
  {| quant_type := quant_type o; symmetric := symmetric o; scale := scale o;
     zero_point := Some z; reduce_range := reduce_range o;
     rmin := rmin o; rmax := rmax o; convert := convert o |}.

Definition set_convert {C : Type} (c : C) (o : OverrideOf C) : OverrideOf C :=
  {| quant_type := quant_type o; symmetric := symmetric o; scale := scale o;
     zero_point := zero_point o; reduce_range := reduce_range o;
     rmin := rmin o; rmax := rmax o; convert := Some c |}.

(** [tensor_quant_overrides]: tensor name -> list of override records. *)
Abbreviation Overrides := (list (string * list Override)).

(** The fields of an ONNX node this module reads. *)
Record NodeProto := {
  op_type : string;
  name : string;
  input : list string;
  output : list string
}.

(** An initializer; [data_type] is the ONNX element-type code. *)
Record TensorProto := { data_type : Z }.

(** A value-info entry: [tensor_elem_type] is [Some e] when the type has
    the [tensor_type] field with element type [e]. *)
Record ValueInfoProto := { tensor_elem_type : option Z }.

(** [onnx.TensorProto.FLOAT] *)
Definition FLOAT : Z := 1.

(** [k in d] for one key of a record-shaped dictionary. *)
Definition has_key {A : Type} (field : option A) : bool :=
  match field with Some _ => true | None => false end.

(** [set(overrides).intersection({"scale", "zero_point", "symmetric",
    "reduce_range", "rmin", "rmax"})] is non-empty. *)
Definition range_keys_present {C : Type} (overrides : OverrideOf C) : bool :=
  has_key (scale overrides) || has_key (zero_point overrides)
  || has_key (symmetric overrides) || has_key (reduce_range overrides)
  || has_key (rmin overrides) || has_key (rmax overrides).

(** ** Helper functions

    The three mutators write to [tensor_quant_overrides[tensor_name][0]] in
    place. Here they return the table in which the entry of [tensor_name]
    has the new record, which is the table after the call when that record
    object belongs to this entry only; [Heap._set_weight_type],
    [Heap._set_scale_zero_point] and [Heap._add_to_convert_recv_nodes] are
    the functions on objects. *)

Definition _is_tensor_quantizable (tensor_name : string)
    (value_infos : gmap string ValueInfoProto)
    (name_to_initializer : gmap string TensorProto) : bool :=
  match name_to_initializer !! tensor_name with
  | Some weight => bool_decide (data_type weight = FLOAT)
  | None =>
      match value_infos !! tensor_name with
      | Some vi =>
          match tensor_elem_type vi with
          | Some e => bool_decide (e = FLOAT)
          | None => false
          end
      | None => false
      end
  end.

Definition per_tensor_msg : string := "Do not yet support per-tensor quantization".

Definition _get_output_activation_qtype (tensor_name : string)
    (tensor_quant_overrides : Overrides) (activation_type : QuantType)
  : result QuantType :=
  match dict_get tensor_name tensor_quant_overrides with
  | None => Ok activation_type
  | Some override_list =>
      if decide (1 < length override_list) then Raise (ValueError per_tensor_msg)
      else
        match override_list with
        | [] => Raise IndexError
        | o :: _ => Ok (default activation_type (quant_type o))
        end
  end.

(** The guard shared by the mutators: a missing or empty entry becomes [[{}]]
    (or [[init]] for [_add_to_convert_recv_nodes]). *)
Definition ensure_entry (tensor_name : string) (init : Override)
    (tensor_quant_overrides : Overrides) : Overrides :=
  match dict_get tensor_name tensor_quant_overrides with
  | None | Some [] => dict_set tensor_name [init] tensor_quant_overrides
  | Some (_ :: _) => tensor_quant_overrides
  end.

(** [tensor_quant_overrides[tensor_name][0]] together with the other records
    of the list. *)
Definition first_record (tensor_name : string) (tensor_quant_overrides : Overrides)
  : result (Override * list Override) :=
  override_list ← dict_item tensor_name tensor_quant_overrides;
  match override_list with
  | [] => Raise IndexError
  | o :: rest => Ok (o, rest)
  end.

Definition _set_weight_type (tensor_quant_overrides : Overrides)
    (tensor_name : string) (weight_type : QuantType) (weight_symmetric : bool)
  : result Overrides :=
  let tqo := ensure_entry tensor_name empty_override tensor_quant_overrides in
  override_list ← dict_item tensor_name tqo;
  if decide (1 < length override_list) then Raise (ValueError per_tensor_msg)
  else
    '(overrides, rest) ← first_record tensor_name tqo;
    if negb (has_key (quant_type overrides)) && negb (has_key (symmetric overrides))
    then Ok (dict_set tensor_name
               (set_symmetric weight_symmetric (set_quant_type weight_type overrides)
                  :: rest) tqo)
    else Ok tqo.

Definition _set_scale_zero_point (tensor_quant_overrides : Overrides)
    (tensor_name : string) (quant_type' : QuantType) (scale' : Q) (zero_point' : Z)
  : result Overrides :=
  let tqo := ensure_entry tensor_name empty_override tensor_quant_overrides in
  override_list ← dict_item tensor_name tqo;
  if decide (1 < length override_list) then Raise (ValueError per_tensor_msg)
  else
    '(overrides, rest) ← first_record tensor_name tqo;
    let overrides :=
      match quant_type overrides with
      | None => set_quant_type quant_type' overrides
      | Some _ => overrides
      end in
    if bool_decide (quant_type overrides = Some quant_type') then
      if range_keys_present overrides
      then (* the warning is printed; nothing else is written *)
        Ok (dict_set tensor_name (overrides :: rest) tqo)
      else
        Ok (dict_set tensor_name
              (set_scale scale' (set_zero_point zero_point' overrides) :: rest) tqo)
    else Raise (AssertionError "Unexpected quant_type when overridding zp/scale").

Definition _add_to_convert_recv_nodes (tensor_quant_overrides : Overrides)
    (tensor_name : string) (prod_type consumer_type : QuantType)
    (consumer_names : gset string) : result Overrides :=
  let tqo := ensure_entry tensor_name (set_quant_type prod_type empty_override)
               tensor_quant_overrides in
  '(overrides, rest) ← first_record tensor_name tqo;
  let convert_dict :=
    match convert overrides with
    | None => {| convert_quant_type := consumer_type; recv_nodes := None |}
    | Some c => c
    end in
  if decide (consumer_type = convert_quant_type convert_dict) then
    let convert_dict :=
      {| convert_quant_type := convert_quant_type convert_dict;
         recv_nodes := Some (default ∅ (recv_nodes convert_dict) ∪ consumer_names) |} in
    Ok (dict_set tensor_name (set_convert convert_dict overrides :: rest) tqo)
  else Raise (AssertionError "Consumer type doesn't match convert type").

Definition _check_not_in_convert_recv_nodes (tensor_quant_overrides : Overrides)
    (tensor_name : string) (consumer_names : gset string) : bool :=
  match dict_get tensor_name tensor_quant_overrides with
  | None | Some [] => true
  | Some (overrides :: _) =>
      match convert overrides with
      | None => true
      | Some convert_dict =>
          match recv_nodes convert_dict with
          | None => true
          | Some nodes => bool_decide (nodes ∩ consumer_names = ∅)
          end
      end
  end.

Definition _get_input_activation_qtype (tensor_quant_overrides : Overrides)
    (input_name node_name : string) (activation_type : QuantType) : QuantType :=
  match dict_get input_name tensor_quant_overrides with
  | None | Some [] => activation_type
  | Some (overrides :: _) =>
      let producer_type := default activation_type (quant_type overrides) in
      match convert overrides with
      | None => producer_type
      | Some convert_dict =>
          match recv_nodes convert_dict with
          | None => convert_quant_type convert_dict
          | Some nodes =>
              if decide (node_name ∈ nodes) then convert_quant_type convert_dict
              else producer_type
          end
      end
  end.

(** ** Type requests *)

Module TensorTypeRequest.
Record t := mk {
  producer_type : option QuantType;
  consumers : option (QuantType * gset string)
}.
End TensorTypeRequest.

Abbreviation TensorTypeRequest := TensorTypeRequest.t.
Abbreviation TypeRequests := (list (string * TensorTypeRequest)).

Definition multiple_types_msg (tensor_name : string) : string :=
  "Tensor " +:+ tensor_name +:+ " has multiple types.".

Definition different_types_msg (input_name : string) : string :=
  "Tensor " +:+ input_name +:+ " has consumers requesting different types.".

(** The message of the third conflict is a plain string literal in the
    source (it has no [f] prefix), so the braces are part of the text. *)
Definition convert_conflict_msg : string :=
  "Tensor override for '{tensor_name}' converts the type for consumers that need the original type.".

(** Lines 168-174: the producer side of a request for [tensor_name]. *)
Definition add_producer_request (type_requests : TypeRequests)
    (tensor_name : string) (quant_type : QuantType) : result TypeRequests :=
  match dict_get tensor_name type_requests with
  | None =>
      Ok (dict_set tensor_name (TensorTypeRequest.mk (Some quant_type) None)
            type_requests)
  | Some req =>
      match TensorTypeRequest.producer_type req with
      | Some _ => Raise (ValueError (multiple_types_msg tensor_name))
      | None =>
          Ok (dict_set tensor_name
                (TensorTypeRequest.mk (Some quant_type) (TensorTypeRequest.consumers req))
                type_requests)
      end
  end.

(** Lines 179-181: the inputs of the producing node that receive a
    consumer-side request. *)
Definition is_activation_input (input_name : string)
    (value_infos : gmap string ValueInfoProto)
    (name_to_initializer : gmap string TensorProto) : bool :=
  bool_decide (input_name ≠ "")
  && bool_decide (name_to_initializer !! input_name = None)
  && _is_tensor_quantizable input_name value_infos name_to_initializer.

(** Lines 178-192: the body of the loop over [node.input]. *)
Definition add_consumer_request
    (value_infos : gmap string ValueInfoProto)
    (name_to_initializer : gmap string TensorProto)
    (quant_type : QuantType) (node_name : string)
    (type_requests : TypeRequests) (input_name : string) : result TypeRequests :=
  if is_activation_input input_name value_infos name_to_initializer
  then
    let req := default (TensorTypeRequest.mk None None)
                 (dict_get input_name type_requests) in
    let '(requested, names) :=
      default (quant_type, ∅) (TensorTypeRequest.consumers req) in
    if decide (requested ≠ quant_type)
    then Raise (ValueError (different_types_msg input_name))
    else
      Ok (dict_set input_name
            (TensorTypeRequest.mk (TensorTypeRequest.producer_type req)
               (Some (requested, names ∪ {[node_name]})))
            type_requests)
  else Ok type_requests.

(** Lines 153-192: the body of the scan over [tensor_quant_overrides.items()]. *)
Definition scan_override (activation_type : QuantType)
    (value_infos : gmap string ValueInfoProto)
    (name_to_initializer : gmap string TensorProto)
    (producers : gmap string NodeProto)
    (type_requests : TypeRequests) (item : string * list Override)
  : result TypeRequests :=
  let '(tensor_name, override_list) := item in
  if negb (_is_tensor_quantizable tensor_name value_infos name_to_initializer)
  then Ok type_requests
  else if bool_decide (is_Some (name_to_initializer !! tensor_name))
  then Ok type_requests
  else
    match override_list with
    | [override] =>
        let quant_type := default activation_type (quant_type override) in
        match producers !! tensor_name with
        | None => Raise (KeyError tensor_name)
        | Some node =>
            if bool_decide (quant_type ≠ activation_type)
               && negb (has_key (convert override))
            then
              type_requests ← add_producer_request type_requests tensor_name quant_type;
              for_each
                (add_consumer_request value_infos name_to_initializer quant_type
                   (name node))
                (input node) type_requests
            else Ok type_requests
        end
    | _ => Ok type_requests
    end.

(** Lines 196-233: the body of the loop over [type_requests.items()]. The
    write of line 198 is modelled like the writes of the mutators: on the
    entry of [tensor_name]; [Heap.process_request] writes to the record
    object. *)
Definition process_request (activation_type : QuantType)
    (consumers : gmap string (list NodeProto))
    (tensor_quant_overrides : Overrides) (item : string * TensorTypeRequest)
  : result Overrides :=
  let '(tensor_name, type_req) := item in
  match TensorTypeRequest.producer_type type_req,
        TensorTypeRequest.consumers type_req with
  | Some _, None =>
      '(overrides, rest) ← first_record tensor_name tensor_quant_overrides;
      Ok (dict_set tensor_name
            (set_convert {| convert_quant_type := activation_type;
                            recv_nodes := None |} overrides :: rest)
            tensor_quant_overrides)
  | None, None =>
      _ ← _get_output_activation_qtype tensor_name tensor_quant_overrides
            activation_type;
      Raise TypeError
  | None, Some (consumer_type, names) =>
      prod_type ← _get_output_activation_qtype tensor_name tensor_quant_overrides
                    activation_type;
      if decide (prod_type ≠ consumer_type) then
        _add_to_convert_recv_nodes tensor_quant_overrides tensor_name prod_type
          consumer_type names
      else if negb (_check_not_in_convert_recv_nodes tensor_quant_overrides
                      tensor_name names)
      then Raise (ValueError convert_conflict_msg)
      else Ok tensor_quant_overrides
  | Some prod_type, Some (consumer_type, names) =>
      if decide (prod_type ≠ consumer_type) then
        _add_to_convert_recv_nodes tensor_quant_overrides tensor_name prod_type
          consumer_type names
      else
        nodes ← match consumers !! tensor_name with
                | Some nodes => Ok nodes
                | None => Raise (KeyError tensor_name)
                end;
        let all_consumers : gset string := list_to_set (name <$> nodes) in
        let consumers_for_original_type := all_consumers ∖ names in
        if decide (size consumers_for_original_type = 0) then
          '(overrides, _) ← first_record tensor_name tensor_quant_overrides;
          if has_key (convert overrides) then Raise (AssertionError "")
          else Ok tensor_quant_overrides
        else
          _add_to_convert_recv_nodes tensor_quant_overrides tensor_name prod_type
            activation_type consumers_for_original_type
  end.

Definition _add_qtype_converts (tensor_quant_overrides : Overrides)
    (activation_type : QuantType)
    (value_infos : gmap string ValueInfoProto)
    (name_to_initializer : gmap string TensorProto)
    (producers : gmap string NodeProto)
    (consumers : gmap string (list NodeProto)) : result Overrides :=
  (* Scan tensor overrides for type conversion requests. *)
  type_requests ←
    for_each (scan_override activation_type value_infos name_to_initializer producers)
      tensor_quant_overrides [];
  (* Process type requests. *)
  for_each (process_request activation_type consumers) type_requests
    tensor_quant_overrides.

(** ** The configuration entry point *)

(** The parts of the loaded model that are read: [model.graph.node],
    [.initializer], [.value_info], [.output] and [.input], the last four
    as (name, message) pairs. *)
Record GraphProto := {
  node : list NodeProto;
  initializer : list (string * TensorProto);
  value_info : list (string * ValueInfoProto);
  graph_output : list (string * ValueInfoProto);
  graph_input : list (string * ValueInfoProto)
}.

(** [d.update({k: v for ...})]: later bindings replace earlier ones. *)
Definition dict_update {V : Type} (d : gmap string V) (l : list (string * V))
  : gmap string V :=
  foldl (λ m kv, <[kv.1 := kv.2]> m) d l.

(** Line 254: [name_to_initializer]. *)
Definition graph_initializers (model : GraphProto) : gmap string TensorProto :=
  dict_update ∅ (initializer model).

(** Lines 255-257: [value_infos]. *)
Definition graph_value_infos (model : GraphProto) : gmap string ValueInfoProto :=
  dict_update (dict_update (dict_update ∅ (value_info model)) (graph_output model))
    (graph_input model).

(** Lines 262-274: the body of the indexing loop over [model.graph.node]. *)
Definition index_node
    (st : gset string * gmap string (list NodeProto) * gmap string NodeProto)
    (n : NodeProto)
  : result (gset string * gmap string (list NodeProto) * gmap string NodeProto) :=
  let '(op_types, consumers, producers) := st in
  let op_types := op_types ∪ {[op_type n]} in
  let consumers :=
    foldl (λ consumers input_name,
             if bool_decide (input_name ≠ "")
             then <[input_name := (default [] (consumers !! input_name) ++ [n])%list]> consumers
             else consumers)
      consumers (input n) in
  producers ←
    for_each (λ producers output_name,
                if bool_decide (output_name = "")
                then Raise (AssertionError "Node output name cannot be empty")
                else if bool_decide (is_Some (producers !! output_name))
                then Raise (AssertionError "Tensor can only be generated by a single node")
                else Ok (<[output_name := n]> producers))
      (output n) producers;
  Ok (op_types, consumers, producers).

(** Truthiness of a variable that is [None] or a string. *)
Definition truthy (v : option string) : bool :=
  match v with
  | Some s => bool_decide (s ≠ "")
  | None => false
  end.

(** Lines 290-296: the body of the MatMul loop over [node.input]; the state
    is ([input_16bit_act], [input_wgt]). *)
Definition matmul_input (tensor_quant_overrides : Overrides)
    (name_to_initializer : gmap string TensorProto) (node_name : string)
    (activation_type : QuantType)
    (st : option string * option string) (input_name : string)
  : option string * option string :=
  let '(input_16bit_act, input_wgt) := st in
  if bool_decide (name_to_initializer !! input_name = None) then
    let qtype := _get_input_activation_qtype tensor_quant_overrides input_name
                   node_name activation_type in
    if Q16_TYPES qtype then (Some input_name, input_wgt)
    else (input_16bit_act, input_wgt)
  else (input_16bit_act, Some input_name).

(** Lines 304-310: the LayerNormalization loop with its [break]. *)
Fixpoint has_q16_activation (tensor_quant_overrides : Overrides)
    (name_to_initializer : gmap string TensorProto) (node_name : string)
    (activation_type : QuantType) (inputs : list string) : bool :=
  match inputs with
  | [] => false
  | input_name :: inputs' =>
      if bool_decide (name_to_initializer !! input_name = None) then
        let qtype := _get_input_activation_qtype tensor_quant_overrides input_name
                       node_name activation_type in
        if Q16_TYPES qtype then true
        else has_q16_activation tensor_quant_overrides name_to_initializer node_name
               activation_type inputs'
      else has_q16_activation tensor_quant_overrides name_to_initializer node_name
             activation_type inputs'
  end.

(** Lines 314-317: the body of [for i in range(2)]. *)
Definition layernorm_weight (name_to_initializer : gmap string TensorProto)
    (n : NodeProto) (weight_type : QuantType) (weight_symmetric : bool)
    (tensor_quant_overrides : Overrides) (i : nat) : result Overrides :=
  match input n !! i with
  | None => Raise IndexError
  | Some input_name =>
      if bool_decide (is_Some (name_to_initializer !! input_name))
      then _set_weight_type tensor_quant_overrides input_name weight_type
             weight_symmetric
      else Ok tensor_quant_overrides
  end.

(** [node.output[0]] *)
Definition output0 (n : NodeProto) : result string :=
  match output n with
  | [] => Raise IndexError
  | o :: _ => Ok o
  end.

(** Lines 284-355: the body of the policy loop over [model.graph.node]. *)
Definition apply_policy (activation_type weight_type : QuantType)
    (name_to_initializer : gmap string TensorProto)
    (tensor_quant_overrides : Overrides) (n : NodeProto) : result Overrides :=
  if bool_decide (op_type n = "MatMul") && Q8_TYPES weight_type then
    let weight_symmetric := bool_decide (weight_type = QInt8) in
    let '(input_16bit_act, input_wgt) :=
      foldl (matmul_input tensor_quant_overrides name_to_initializer (name n)
               activation_type)
        (None, None) (input n) in
    if truthy input_16bit_act && truthy input_wgt then
      _set_weight_type tensor_quant_overrides (default "" input_wgt) weight_type
        weight_symmetric
    else Ok tensor_quant_overrides
  else if bool_decide (op_type n = "LayerNormalization") && Q8_TYPES weight_type then
    let weight_symmetric := bool_decide (weight_type = QInt8) in
    if has_q16_activation tensor_quant_overrides name_to_initializer (name n)
         activation_type (input n)
    then
      for_each (layernorm_weight name_to_initializer n weight_type weight_symmetric)
        [0; 1] tensor_quant_overrides
    else Ok tensor_quant_overrides
  else if bool_decide (op_type n = "Sigmoid") then
    out ← output0 n;
    output_type ← _get_output_activation_qtype out tensor_quant_overrides
                    activation_type;
    if decide (output_type = QUInt16) then
      _set_scale_zero_point tensor_quant_overrides out output_type (1 # 65536) 0
    else if decide (output_type = QInt16) then
      _set_scale_zero_point tensor_quant_overrides out output_type (1 # 32768) 0
    else Ok tensor_quant_overrides
  else if bool_decide (op_type n = "Tanh") then
    out ← output0 n;
    output_type ← _get_output_activation_qtype out tensor_quant_overrides
                    activation_type;
    if decide (output_type = QUInt16) then
      _set_scale_zero_point tensor_quant_overrides out output_type (1 # 32768) 32768
    else if decide (output_type = QInt16) then
      _set_scale_zero_point tensor_quant_overrides out output_type (1 # 32768) 0
    else Ok tensor_quant_overrides
  else Ok tensor_quant_overrides.

(** [extra_options]; [Table] is what ["TensorQuantOverrides"] holds: the
    override table, or a reference to it where object identity is modelled. *)
Record ExtraOptions (Table : Type) := {
  MinimumRealRange : Q;
  DedicatedQDQPair : bool;
  TensorQuantOverrides : Table;
  UseQDQContribOps : option bool
}.
Arguments MinimumRealRange {Table} _.
Arguments DedicatedQDQPair {Table} _.
Arguments TensorQuantOverrides {Table} _.
Arguments UseQDQContribOps {Table} _.

Record StaticQuantConfig (Reader Method Table : Type) := {
  cfg_calibration_data_reader : Reader;
  cfg_calibrate_method : Method;
  cfg_activation_type : QuantType;
  cfg_weight_type : QuantType;
  cfg_op_types_to_quantize : gset string;
  cfg_extra_options : ExtraOptions Table
}.
Arguments cfg_extra_options {Reader Method Table} _.
Arguments cfg_op_types_to_quantize {Reader Method Table} _.

Definition OP_TYPES_TO_EXCLUDE : gset string := {["Cast"]}.

(** The model is passed in already loaded; [init_overrides] is [None] or a
    dictionary. *)
Definition get_qnn_qdq_config {Reader Method : Type}
    (model : GraphProto) (calibration_data_reader : Reader)
    (calibrate_method : Method)
    (activation_type weight_type : QuantType)
    (init_overrides : option Overrides)
    (add_qtype_converts per_channel : bool)
  : result (StaticQuantConfig Reader Method Overrides) :=
  if per_channel
  then Raise (ValueError "QNN EP does not yet support per-channel quantization.")
  else
    let name_to_initializer := graph_initializers model in
    let value_infos := graph_value_infos model in
    '(op_types, consumers, producers) ← for_each index_node (node model) (∅, ∅, ∅);
    let tensor_quant_overrides : Overrides := default [] init_overrides in
    tensor_quant_overrides ←
      (if bool_decide (tensor_quant_overrides ≠ []) && add_qtype_converts
       then _add_qtype_converts tensor_quant_overrides activation_type value_infos
              name_to_initializer producers consumers
       else Ok tensor_quant_overrides);
    tensor_quant_overrides ←
      for_each (apply_policy activation_type weight_type name_to_initializer)
        (node model) tensor_quant_overrides;
    Ok {| cfg_calibration_data_reader := calibration_data_reader;
          cfg_calibrate_method := calibrate_method;
          cfg_activation_type := activation_type;
          cfg_weight_type := weight_type;
          cfg_op_types_to_quantize := op_types ∖ OP_TYPES_TO_EXCLUDE;
          cfg_extra_options :=
            {| MinimumRealRange := 1 # 10000;
               DedicatedQDQPair := false;
               TensorQuantOverrides := tensor_quant_overrides;
               UseQDQContribOps :=
                 if Q16_TYPES activation_type || Q16_TYPES weight_type
                 then Some true else None |} |}.

(** * Object identity

    The caller's [init_overrides] and the table the function works on are
    Python objects: a dictionary whose values are lists of dictionaries,
    each of which may hold a ["convert"] dictionary, which may hold a
    ["recv_nodes"] set. This section models them as objects in a store,
    each mutation as a write to one object, and [copy.deepcopy] as the
    allocation of new objects. The lists are never mutated by this module,
    so a list is the sequence of references it holds. Reading (a lookup, a
    [.get], a membership test) goes through a snapshot of the table, on
    which the functions of the first part are evaluated. A location that
    holds an object of another kind than the one a function expects makes
    it raise [TypeError]; no Python run does that. *)

Module Heap.

Definition loc := nat.

Inductive obj :=
  | OTable (entries : list (string * list loc))
  | ORecord (fields : OverrideOf loc)
  | OConvert (quant_type : QuantType) (recv_nodes : option loc)
  | OSet (names : gset string).

Abbreviation heap := (gmap loc obj).

(** A computation on the store: it returns a value or raises, and leaves a
    store in both cases. *)
Definition M (A : Type) : Type := heap → result A * heap.

#[global] Instance M_ret : MRet M := λ A a h, (Ok a, h).
#[global] Instance M_bind : MBind M := λ A B f m h,
  match m h with
  | (Ok a, h') => f a h'
  | (Raise e, h') => (Raise e, h')
  end.

Definition raise {A : Type} (e : Error) : M A := λ h, (Raise e, h).

(** A step that does not touch the store. *)
Definition lift {A : Type} (r : result A) : M A := λ h, (r, h).

(** A new object, at a location no object of the store has. *)
Definition alloc (o : obj) : M loc := λ h,
  let l := fresh (dom h) in (Ok l, <[l := o]> h).

(** In-place update of the object at [l]. *)
Definition put (l : loc) (o : obj) : M unit := λ h, (Ok (), <[l := o]> h).

Definition get_table (l : loc) : M (list (string * list loc)) := λ h,
  match h !! l with
  | Some (OTable entries) => (Ok entries, h)
  | _ => (Raise TypeError, h)
  end.

Definition get_record (l : loc) : M (OverrideOf loc) := λ h,
  match h !! l with
  | Some (ORecord fields) => (Ok fields, h)
  | _ => (Raise TypeError, h)
  end.

Definition get_convert (l : loc) : M (QuantType * option loc) := λ h,
  match h !! l with
  | Some (OConvert q recv) => (Ok (q, recv), h)
  | _ => (Raise TypeError, h)
  end.

Definition get_set (l : loc) : M (gset string) := λ h,
  match h !! l with
  | Some (OSet names) => (Ok names, h)
  | _ => (Raise TypeError, h)
  end.

(** A [for] loop over [l] whose body works on the store. *)
Fixpoint iter {A : Type} (body : A → M unit) (l : list A) : M unit :=
  match l with
  | [] => mret ()
  | x :: l' => body x;; iter body l'
  end.

Fixpoint map_each {A B : Type} (f : A → M B) (l : list A) : M (list B) :=
  match l with
  | [] => mret []
  | x :: l' => y ← f x; ys ← map_each f l'; mret (y :: ys)
  end.

(** ** Snapshots *)

Definition with_convert {C D : Type} (c : option D) (o : OverrideOf C) : OverrideOf D :=
  {| quant_type := quant_type o; symmetric := symmetric o; scale := scale o;
     zero_point := zero_point o; reduce_range := reduce_range o;
     rmin := rmin o; rmax := rmax o; convert := c |}.

Definition snapshot_convert (c : loc) : M ConvertDict :=
  '(q, recv) ← get_convert c;
  match recv with
  | None => mret {| convert_quant_type := q; recv_nodes := None |}
  | Some s => names ← get_set s;
              mret {| convert_quant_type := q; recv_nodes := Some names |}
  end.

Definition snapshot_record (r : loc) : M Override :=
  fields ← get_record r;
  match convert fields with
  | None => mret (with_convert None fields)
  | Some c => convert_dict ← snapshot_convert c;
              mret (with_convert (Some convert_dict) fields)
  end.

(** The table at [tqo] as a value. *)
Definition snapshot (tqo : loc) : M Overrides :=
  entries ← get_table tqo;
  map_each (λ '(tensor_name, records),
              override_list ← map_each snapshot_record records;
              mret (tensor_name, override_list))
    entries.

(** ** [copy.deepcopy]

    The memo maps an object already copied to its copy, so that an object
    referenced twice is copied once. *)

Definition copy_set (memo : gmap loc loc) (s : loc) : M (loc * gmap loc loc) :=
  match memo !! s with
  | Some s' => mret (s', memo)
  | None => names ← get_set s;
            s' ← alloc (OSet names);
            mret (s', <[s := s']> memo)
  end.

Definition copy_convert (memo : gmap loc loc) (c : loc) : M (loc * gmap loc loc) :=
  match memo !! c with
  | Some c' => mret (c', memo)
  | None =>
      '(q, recv) ← get_convert c;
      '(recv', memo) ← match recv with
                       | None => mret (None, memo)
                       | Some s => '(s', memo) ← copy_set memo s; mret (Some s', memo)
                       end;
      c' ← alloc (OConvert q recv');
      mret (c', <[c := c']> memo)
  end.

Definition copy_record (memo : gmap loc loc) (r : loc) : M (loc * gmap loc loc) :=
  match memo !! r with
  | Some r' => mret (r', memo)
  | None =>
      fields ← get_record r;
      '(c', memo) ← match convert fields with
                    | None => mret (None, memo)
                    | Some c => '(c', memo) ← copy_convert memo c; mret (Some c', memo)
                    end;
      r' ← alloc (ORecord (with_convert c' fields));
      mret (r', <[r := r']> memo)
  end.

Fixpoint copy_records (memo : gmap loc loc) (records : list loc)
  : M (list loc * gmap loc loc) :=
  match records with
  | [] => mret ([], memo)
  | r :: records' =>
      '(r', memo) ← copy_record memo r;
      '(rs', memo) ← copy_records memo records';
      mret (r' :: rs', memo)
  end.

Fixpoint copy_entries (memo : gmap loc loc) (entries : list (string * list loc))
  : M (list (string * list loc) * gmap loc loc) :=
  match entries with
  | [] => mret ([], memo)
  | (tensor_name, records) :: entries' =>
      '(records', memo) ← copy_records memo records;
      '(entries'', memo) ← copy_entries memo entries';
      mret ((tensor_name, records') :: entries'', memo)
  end.

Definition deepcopy (tqo : loc) : M loc :=
  entries ← get_table tqo;
  '(entries', _) ← copy_entries ∅ entries;
  alloc (OTable entries').

(** ** The helper functions on the store *)

Definition _get_output_activation_qtype (tensor_name : string) (tqo : loc)
    (activation_type : QuantType) : M QuantType :=
  view ← snapshot tqo;
  lift (_get_output_activation_qtype tensor_name view activation_type).

Definition _check_not_in_convert_recv_nodes (tqo : loc) (tensor_name : string)
    (consumer_names : gset string) : M bool :=
  view ← snapshot tqo;
  mret (_check_not_in_convert_recv_nodes view tensor_name consumer_names).

(** Lines 49-50, 64-65, 87-88: a missing or empty entry becomes a list
    holding one new record. *)
Definition ensure_entry (tqo : loc) (tensor_name : string) (init : OverrideOf loc)
  : M unit :=
  entries ← get_table tqo;
  match dict_get tensor_name entries with
  | None | Some [] =>
      r ← alloc (ORecord init);
      put tqo (OTable (dict_set tensor_name [r] entries))
  | Some (_ :: _) => mret ()
  end.

(** [tensor_quant_overrides[tensor_name]] *)
Definition entry_list (tqo : loc) (tensor_name : string) : M (list loc) :=
  entries ← get_table tqo;
  lift (dict_item tensor_name entries).

(** [tensor_quant_overrides[tensor_name][0]] *)
Definition first_record (tqo : loc) (tensor_name : string) : M loc :=
  records ← entry_list tqo tensor_name;
  match records with
  | [] => raise IndexError
  | r :: _ => mret r
  end.

Definition _set_weight_type (tqo : loc) (tensor_name : string)
    (weight_type : QuantType) (weight_symmetric : bool) : M unit :=
  ensure_entry tqo tensor_name empty_override;;
  records ← entry_list tqo tensor_name;
  if decide (1 < length records) then raise (ValueError per_tensor_msg)
  else
    r ← first_record tqo tensor_name;
    overrides ← get_record r;
    if negb (has_key (quant_type overrides)) && negb (has_key (symmetric overrides))
    then put r (ORecord (set_symmetric weight_symmetric
                           (set_quant_type weight_type overrides)))
    else mret ().

Definition _set_scale_zero_point (tqo : loc) (tensor_name : string)
    (quant_type' : QuantType) (scale' : Q) (zero_point' : Z) : M unit :=
  ensure_entry tqo tensor_name empty_override;;
  records ← entry_list tqo tensor_name;
  if decide (1 < length records) then raise (ValueError per_tensor_msg)
  else
    r ← first_record tqo tensor_name;
    overrides ← get_record r;
    overrides ← match quant_type overrides with
                | None =>
                    put r (ORecord (set_quant_type quant_type' overrides));;
                    mret (set_quant_type quant_type' overrides)
                | Some _ => mret overrides
                end;
    if bool_decide (quant_type overrides = Some quant_type') then
      if range_keys_present overrides then mret ()
      else put r (ORecord (set_scale scale' (set_zero_point zero_point' overrides)))
    else raise (AssertionError "Unexpected quant_type when overridding zp/scale").

Definition _add_to_convert_recv_nodes (tqo : loc) (tensor_name : string)
    (prod_type consumer_type : QuantType) (consumer_names : gset string) : M unit :=
  ensure_entry tqo tensor_name (set_quant_type prod_type empty_override);;
  r ← first_record tqo tensor_name;
  overrides ← get_record r;
  c ← match convert overrides with
      | None =>
          c ← alloc (OConvert consumer_type None);
          put r (ORecord (set_convert c overrides));;
          mret c
      | Some c => mret c
      end;
  '(q, recv) ← get_convert c;
  if decide (consumer_type = q) then
    s ← match recv with
        | None =>
            s ← alloc (OSet ∅);
            put c (OConvert q (Some s));;
            mret s
        | Some s => mret s
        end;
    names ← get_set s;
    put s (OSet (names ∪ consumer_names))
  else raise (AssertionError "Consumer type doesn't match convert type").

(** ** The resolver on the store *)

Definition process_request (activation_type : QuantType)
    (consumers : gmap string (list NodeProto)) (tqo : loc)
    (item : string * TensorTypeRequest) : M unit :=
  let '(tensor_name, type_req) := item in
  match TensorTypeRequest.producer_type type_req,
        TensorTypeRequest.consumers type_req with
  | Some _, None =>
      r ← first_record tqo tensor_name;
      c ← alloc (OConvert activation_type None);
      overrides ← get_record r;
      put r (ORecord (set_convert c overrides))
  | None, None =>
      _get_output_activation_qtype tensor_name tqo activation_type;;
      raise TypeError
  | None, Some (consumer_type, names) =>
      prod_type ← _get_output_activation_qtype tensor_name tqo activation_type;
      if decide (prod_type ≠ consumer_type) then
        _add_to_convert_recv_nodes tqo tensor_name prod_type consumer_type names
      else
        ok ← _check_not_in_convert_recv_nodes tqo tensor_name names;
        if negb ok then raise (ValueError convert_conflict_msg) else mret ()
  | Some prod_type, Some (consumer_type, names) =>
      if decide (prod_type ≠ consumer_type) then
        _add_to_convert_recv_nodes tqo tensor_name prod_type consumer_type names
      else
        nodes ← match consumers !! tensor_name with
                | Some nodes => mret nodes
                | None => raise (KeyError tensor_name)
                end;
        let all_consumers : gset string := list_to_set (name <$> nodes) in
        let consumers_for_original_type := all_consumers ∖ names in
        if decide (size consumers_for_original_type = 0) then
          r ← first_record tqo tensor_name;
          overrides ← get_record r;
          if has_key (convert overrides) then raise (AssertionError "") else mret ()
        else
          _add_to_convert_recv_nodes tqo tensor_name prod_type activation_type
            consumers_for_original_type
  end.

Definition _add_qtype_converts (tqo : loc) (activation_type : QuantType)
    (value_infos : gmap string ValueInfoProto)
    (name_to_initializer : gmap string TensorProto)
    (producers : gmap string NodeProto)
    (consumers : gmap string (list NodeProto)) : M unit :=
  view ← snapshot tqo;
  type_requests ←
    lift (for_each (scan_override activation_type value_infos name_to_initializer
                      producers) view []);
  iter (process_request activation_type consumers tqo) type_requests.

(** ** The policy and the entry point on the store *)

Definition layernorm_weight (name_to_initializer : gmap string TensorProto)
    (n : NodeProto) (weight_type : QuantType) (weight_symmetric : bool)
    (tqo : loc) (i : nat) : M unit :=
  match input n !! i with
  | None => raise IndexError
  | Some input_name =>
      if bool_decide (is_Some (name_to_initializer !! input_name))
      then _set_weight_type tqo input_name weight_type weight_symmetric
      else mret ()
  end.

Definition apply_policy (activation_type weight_type : QuantType)
    (name_to_initializer : gmap string TensorProto) (tqo : loc) (n : NodeProto)
  : M unit :=
  if bool_decide (op_type n = "MatMul") && Q8_TYPES weight_type then
    let weight_symmetric := bool_decide (weight_type = QInt8) in
    view ← snapshot tqo;
    let '(input_16bit_act, input_wgt) :=
      foldl (matmul_input view name_to_initializer (name n) activation_type)
        (None, None) (input n) in
    if truthy input_16bit_act && truthy input_wgt then
      _set_weight_type tqo (default "" input_wgt) weight_type weight_symmetric
    else mret ()
  else if bool_decide (op_type n = "LayerNormalization") && Q8_TYPES weight_type then
    let weight_symmetric := bool_decide (weight_type = QInt8) in
    view ← snapshot tqo;
    if has_q16_activation view name_to_initializer (name n) activation_type (input n)
    then iter (layernorm_weight name_to_initializer n weight_type weight_symmetric tqo)
           [0; 1]
    else mret ()
  else if bool_decide (op_type n = "Sigmoid") then
    out ← lift (output0 n);
    output_type ← _get_output_activation_qtype out tqo activation_type;
    if decide (output_type = QUInt16) then
      _set_scale_zero_point tqo out output_type (1 # 65536) 0
    else if decide (output_type = QInt16) then
      _set_scale_zero_point tqo out output_type (1 # 32768) 0
    else mret ()
  else if bool_decide (op_type n = "Tanh") then
    out ← lift (output0 n);
    output_type ← _get_output_activation_qtype out tqo activation_type;
    if decide (output_type = QUInt16) then
      _set_scale_zero_point tqo out output_type (1 # 32768) 32768
    else if decide (output_type = QInt16) then
      _set_scale_zero_point tqo out output_type (1 # 32768) 0
    else mret ()
  else mret ().

(** [init_overrides] is [None] or a reference to the caller's dictionary;
    the configuration returned holds a reference to the table the function
    worked on. *)
Definition get_qnn_qdq_config {Reader Method : Type}
    (model : GraphProto) (calibration_data_reader : Reader)
    (calibrate_method : Method)
    (activation_type weight_type : QuantType)
    (init_overrides : option loc)
    (add_qtype_converts per_channel : bool)
  : M (StaticQuantConfig Reader Method loc) :=
  if per_channel
  then raise (ValueError "QNN EP does not yet support per-channel quantization.")
  else
    let name_to_initializer := graph_initializers model in
    let value_infos := graph_value_infos model in
    '(op_types, consumers, producers) ←
      lift (for_each index_node (node model) (∅, ∅, ∅));
    (* copy.deepcopy(init_overrides) if init_overrides else {} *)
    tensor_quant_overrides ←
      match init_overrides with
      | None => alloc (OTable [])
      | Some l =>
          entries ← get_table l;
          if bool_decide (entries ≠ []) then deepcopy l else alloc (OTable [])
      end;
    entries ← get_table tensor_quant_overrides;
    (if bool_decide (entries ≠ []) && add_qtype_converts
     then _add_qtype_converts tensor_quant_overrides activation_type value_infos
            name_to_initializer producers consumers
     else mret ());;
    iter (apply_policy activation_type weight_type name_to_initializer
            tensor_quant_overrides) (node model);;
    mret {| cfg_calibration_data_reader := calibration_data_reader;
            cfg_calibrate_method := calibrate_method;
            cfg_activation_type := activation_type;
            cfg_weight_type := weight_type;
            cfg_op_types_to_quantize := op_types ∖ OP_TYPES_TO_EXCLUDE;
            cfg_extra_options :=
              {| MinimumRealRange := 1 # 10000;
                 DedicatedQDQPair := false;
                 TensorQuantOverrides := tensor_quant_overrides;
                 UseQDQContribOps :=
                   if Q16_TYPES activation_type || Q16_TYPES weight_type
                   then Some true else None |} |}.

(** ** Running a call on a table given as a value

    The table is first built in the store, one object for the table, each
    record, each convert dictionary and each set; the call then receives
    the reference to it, and the table the returned configuration refers to
    is read back as a value. *)

Definition store_convert (c : ConvertDict) : M loc :=
  match recv_nodes c with
  | None => alloc (OConvert (convert_quant_type c) None)
  | Some names => s ← alloc (OSet names);
                  alloc (OConvert (convert_quant_type c) (Some s))
  end.

Definition store_record (o : Override) : M loc :=
  match convert o with
  | None => alloc (ORecord (with_convert None o))
  | Some c => l ← store_convert c; alloc (ORecord (with_convert (Some l) o))
  end.

Definition store_table (table : Overrides) : M loc :=
  entries ← map_each (λ '(tensor_name, override_list),
                        records ← map_each store_record override_list;
                        mret (tensor_name, records))
               table;
  alloc (OTable entries).

Definition run_on_value (model : GraphProto)
    (activation_type weight_type : QuantType) (init_overrides : Overrides)
    (add_qtype_converts : bool) : result Overrides :=
  fst ((init ← store_table init_overrides;
        cfg ← get_qnn_qdq_config model () () activation_type weight_type (Some init)
                add_qtype_converts false;
        snapshot (TensorQuantOverrides (cfg_extra_options cfg))) ∅).

(** ** What a computation may touch

    Relative to the store [h0] at the start of a call: a location is new
    when [h0] has no object there; an object is closed when every reference
    it holds is new. A computation is [safe] when it keeps every object of
    [h0] as it was and keeps the objects at new locations closed. *)

Definition fresh_in (h0 : heap) (l : loc) : Prop := h0 !! l = None.

Definition obj_closed (h0 : heap) (o : obj) : Prop :=
  match o with
  | OTable entries => ∀ k rs r, (k, rs) ∈ entries → r ∈ rs → fresh_in h0 r
  | ORecord fields => ∀ c, convert fields = Some c → fresh_in h0 c
  | OConvert _ recv => ∀ s, recv = Some s → fresh_in h0 s
  | OSet _ => True
  end.

Definition inv (h0 h : heap) : Prop :=
  (∀ l o, h0 !! l = Some o → h !! l = Some o) ∧
  (∀ l o, fresh_in h0 l → h !! l = Some o → obj_closed h0 o).

Definition safe {A : Type} (h0 : heap) (P : A → Prop) (m : M A) : Prop :=
  ∀ h, inv h0 h → inv h0 (m h).2 ∧ ∀ a, (m h).1 = Ok a → P a.

Definition memo_closed (h0 : heap) (memo : gmap loc loc) : Prop :=
  ∀ l l', memo !! l = Some l' → fresh_in h0 l'.

(** A computation that only reads: where it returns a value it leaves the
    store as it was, and it returns the same value on any larger store. *)
Definition reads_only {A : Type} (m : M A) : Prop :=
  ∀ h a, (m h).1 = Ok a →
         (m h).2 = h ∧ ∀ h', h ⊆ h' → m h' = (Ok a, h').

(** ** Tables whose objects are not shared

    What [snapshot] computes, as a relation: the convert dictionary at
    [c], the record at [r], an entry, and the table at [tqo] read as the
    values [convert_dict], [o], [t] and [table]. *)

Definition convert_at (h : heap) (c : loc) (convert_dict : ConvertDict) : Prop :=
  match recv_nodes convert_dict with
  | None => h !! c = Some (OConvert (convert_quant_type convert_dict) None)
  | Some names =>
      ∃ s, h !! c = Some (OConvert (convert_quant_type convert_dict) (Some s)) ∧
           h !! s = Some (OSet names)
  end.

Definition record_at (h : heap) (r : loc) (o : Override) : Prop :=
  match convert o with
  | None => h !! r = Some (ORecord (with_convert None o))
  | Some convert_dict =>
      ∃ c, h !! r = Some (ORecord (with_convert (Some c) o)) ∧
           convert_at h c convert_dict
  end.

Definition entry_at (h : heap) (e : string * list loc) (t : string * list Override)
  : Prop :=
  e.1 = t.1 ∧ Forall2 (record_at h) e.2 t.2.

Definition table_at (h : heap) (tqo : loc) (table : Overrides) : Prop :=
  ∃ entries, h !! tqo = Some (OTable entries) ∧ Forall2 (entry_at h) entries table.

(** The record objects a table refers to, with repetitions. *)
Definition record_locs (entries : list (string * list loc)) : list loc :=
  mjoin entries.*2.

(** The objects that can be written through the record at [r]: the record,
    its convert dictionary and the [recv_nodes] set of that dictionary. *)
Definition reach (h : heap) (r : loc) : list loc :=
  r :: match h !! r with
       | Some (ORecord fields) =>
           match convert fields with
           | Some c =>
               c :: match h !! c with
                    | Some (OConvert _ (Some s)) => [s]
                    | _ => []
                    end
           | None => []
           end
       | _ => []
       end.

(** No object is shared: the table at [tqo] refers to each record once,
    and no object can be written through two of its records. *)
Definition unshared (h : heap) (tqo : loc) : Prop :=
  ∃ entries,
    h !! tqo = Some (OTable entries) ∧
    NoDup (record_locs entries) ∧
    ∀ r1 r2 x, r1 ∈ record_locs entries → r2 ∈ record_locs entries →
               x ∈ reach h r1 → x ∈ reach h r2 → r1 = r2.

(** The store [h'] keeps the objects of [h], and the records [records]
    and everything they reach are objects [h] did not have, none of them
    shared between two of these records. *)
Definition copied (h h' : heap) (records : list loc) : Prop :=
  (∀ x, is_Some (h !! x) → h' !! x = h !! x) ∧
  NoDup records ∧
  (∀ r, r ∈ records → ∃ o, record_at h' r o) ∧
  (∀ r x, r ∈ records → x ∈ reach h' r → h !! x = None) ∧
  (∀ r1 r2 x, r1 ∈ records → r2 ∈ records →
              x ∈ reach h' r1 → x ∈ reach h' r2 → r1 = r2).

(** The argument [init_overrides] of a call: [None], or a reference to a
    table that reads as [table] and holds no object twice. *)
Definition init_at (h : heap) (init_overrides : option loc)
    (table : option Overrides) : Prop :=
  match init_overrides, table with
  | None, None => True
  | Some tqo, Some table => table_at h tqo table ∧ unshared h tqo
  | _, _ => False
  end.

(** On the store [h], the computation [m] does to the table at [tqo] what
    the result [v] of the computation on values says: it raises the same
    exception or leaves the table [v] holds, with no object shared. *)
Definition refines (h : heap) (tqo : loc) (m : M unit) (v : result Overrides) : Prop :=
  match v with
  | Ok table => ∃ h', m h = (Ok (), h') ∧ table_at h' tqo table ∧ unshared h' tqo
  | Raise e => ∃ h', m h = (Raise e, h')
  end.

(** ** The phases of a call

    Line 276: the table the function works on, a deep copy of the caller's
    table or a new empty table. *)
Definition working_copy (init_overrides : option loc) : M loc :=
  match init_overrides with
  | None => alloc (OTable [])
  | Some l =>
      entries ← get_table l;
      if bool_decide (entries ≠ []) then deepcopy l else alloc (OTable [])
  end.

(** Lines 278-281: the resolver runs when the table is not empty and
    [add_qtype_converts] is set. *)
Definition resolve (model : GraphProto) (activation_type : QuantType)
    (producers : gmap string NodeProto) (consumers : gmap string (list NodeProto))
    (add_qtype_converts : bool) (tqo : loc) : M unit :=
  entries ← get_table tqo;
  if bool_decide (entries ≠ []) && add_qtype_converts
  then _add_qtype_converts tqo activation_type (graph_value_infos model)
         (graph_initializers model) producers consumers
  else mret ().

(** The table at [tqo] has no entry for [tensor_name]. *)
Definition no_entry (h : heap) (tqo : loc) (tensor_name : string) : Prop :=
  ∃ entries, h !! tqo = Some (OTable entries) ∧ dict_get tensor_name entries = None.

(** A computation that gives [tensor_name] no entry in the table at [tqo];
    [P] holds of what it returns. *)
Definition adds_no_entry {A : Type} (tqo : loc) (tensor_name : string)
    (P : A → Prop) (m : M A) : Prop :=
  ∀ h, no_entry h tqo tensor_name →
       no_entry (m h).2 tqo tensor_name ∧ ∀ a, (m h).1 = Ok a → P a.
End Heap.

(** * Derived notions and examples *)

(** The record the mutators work on for [tensor_name]: the first record of
    its entry, or [{}] when the entry is missing or empty. *)
Definition entry_record (tensor_quant_overrides : Overrides) (tensor_name : string)
  : Override :=
  match dict_get tensor_name tensor_quant_overrides with
  | Some (o :: _) => o
  | _ => empty_override
  end.

(** The record [_set_weight_type] leaves for a record [o]: both keys are
    written unless one of them is already there. *)
Definition promoted (weight_type : QuantType) (weight_symmetric : bool)
    (o : Override) : Override :=
  if negb (has_key (quant_type o)) && negb (has_key (symmetric o))
  then set_symmetric weight_symmetric (set_quant_type weight_type o)
  else o.

(** [s] occurs in [msg] as a substring. *)
Fixpoint occurs_in (s msg : string) : bool :=
  String.prefix s msg ||
  match msg with
  | EmptyString => false
  | String _ msg' => occurs_in s msg'
  end.

(** The override table inside the configuration that was returned. *)
Definition resolved_overrides {Reader Method : Type}
    (r : result (StaticQuantConfig Reader Method Overrides)) : result Overrides :=
  cfg ← r; Ok (TensorQuantOverrides (cfg_extra_options cfg)).

(** The two sides of the request recorded for [tensor_name], if any. *)
Definition requested_producer_type (type_requests : TypeRequests)
    (tensor_name : string) : option QuantType :=
  dict_get tensor_name type_requests ≫= TensorTypeRequest.producer_type.

Definition requested_consumers (type_requests : TypeRequests)
    (tensor_name : string) : option (QuantType * gset string) :=
  dict_get tensor_name type_requests ≫= TensorTypeRequest.consumers.

(** The consumer side recorded for [x] asks for type [q]. *)
Definition consumers_typed (x : string) (q : QuantType) (reqs : TypeRequests) : Prop :=
  ∃ names, requested_consumers reqs x = Some (q, names).

(** Some override entry makes the node that produces its tensor ask for
    the input [x] at type [q]: the entry is one the scan records requests
    for (a quantizable non-initializer tensor with a single record of a
    non-default type and no convert), and [x] is an input of the producing
    node that receives a consumer-side request. *)
Definition requests_input_type (tqo : Overrides) (activation_type : QuantType)
    (value_infos : gmap string ValueInfoProto)
    (name_to_initializer : gmap string TensorProto)
    (producers : gmap string NodeProto) (x : string) (q : QuantType) : Prop :=
  ∃ y o nd,
    (y, [o]) ∈ tqo ∧
    _is_tensor_quantizable y value_infos name_to_initializer = true ∧
    name_to_initializer !! y = None ∧
    quant_type o = Some q ∧ q ≠ activation_type ∧ convert o = None ∧
    producers !! y = Some nd ∧
    x ∈ input nd ∧ is_activation_input x value_infos name_to_initializer = true.

(** Every entry for which the scan looks up [producers[tensor_name]]
    (line 164) has a producing node. *)
Definition producers_known (tqo : Overrides)
    (value_infos : gmap string ValueInfoProto)
    (name_to_initializer : gmap string TensorProto)
    (producers : gmap string NodeProto) : Prop :=
  ∀ y o, (y, [o]) ∈ tqo →
         _is_tensor_quantizable y value_infos name_to_initializer = true →
         name_to_initializer !! y = None →
         is_Some (producers !! y).

(** ** Example graphs *)

Module Ex.
Definition float_info : ValueInfoProto := {| tensor_elem_type := Some FLOAT |}.
Definition float_init : TensorProto := {| data_type := FLOAT |}.

(** The override record [{"quant_type": q}]. *)
Definition with_type (q : QuantType) : Override := set_quant_type q empty_override.

(** A MatMul of an activation [A] and a weight [W]. *)
Definition matmul : NodeProto :=
  {| op_type := "MatMul"; name := "mm"; input := ["A"; "W"]; output := ["O"] |}.
Definition matmul_inits : gmap string TensorProto := {["W" := float_init]}.
Definition matmul_user_tqo : Overrides :=
  [("A", [with_type QUInt16]); ("W", [with_type QUInt8])].

Definition ranged : Override :=
  {| quant_type := Some QUInt16; symmetric := None; scale := None;
     zero_point := None; reduce_range := None;
     rmin := Some (0 # 1); rmax := Some (1 # 1); convert := None |}.
Definition sigmoid_tqo : Overrides := [("s", [with_type QUInt16])].

(** A LayerNormalization of an activation [x] with weights [gamma], [beta]. *)
Definition layernorm : NodeProto :=
  {| op_type := "LayerNormalization"; name := "ln";
     input := ["x"; "gamma"; "beta"]; output := ["y"] |}.
Definition layernorm_inits : gmap string TensorProto :=
  {["gamma" := float_init; "beta" := float_init]}.
Definition layernorm_tqo : Overrides := [("x", [with_type QUInt16])].

(** A chain: [N0] makes [X] from the graph input [in]; [P] and [Q] both
    consume [X] and make [Y] and [Z]. *)
Definition N0 : NodeProto :=
  {| op_type := "Relu"; name := "N0"; input := ["in"]; output := ["X"] |}.
Definition P : NodeProto :=
  {| op_type := "Relu"; name := "P"; input := ["X"]; output := ["Y"] |}.
Definition Q : NodeProto :=
  {| op_type := "Relu"; name := "Q"; input := ["X"]; output := ["Z"] |}.
Definition chain : GraphProto :=
  {| node := [N0; P; Q]; initializer := [];
     value_info := [("X", float_info)];
     graph_output := [("Y", float_info); ("Z", float_info)];
     graph_input := [("in", float_info)] |}.
Definition chain_infos : gmap string ValueInfoProto :=
  {["in" := float_info; "X" := float_info; "Y" := float_info; "Z" := float_info]}.
Definition chain_producers : gmap string NodeProto :=
  {["X" := N0; "Y" := P; "Z" := Q]}.
Definition chain_consumers : gmap string (list NodeProto) :=
  {["in" := [N0]; "X" := [P; Q]]}.

(** [Y] with two records (a per-channel override). *)
Definition per_channel_tqo : Overrides :=
  [("Y", [with_type QInt16; with_type QInt16])].

(** [X] is produced at QInt16 and converted to QUInt8 for [P], while the
    override of [Y] makes [P] ask for [X] at QInt16. *)
Definition convert_conflict_tqo : Overrides :=
  [("X", [set_convert {| convert_quant_type := QUInt8; recv_nodes := Some {["P"]} |}
            (with_type QInt16)]);
   ("Y", [with_type QInt16])].

(** [P] is asked for [Y] at QInt16 and [Q] for [Z] at QUInt16: both then
    request their common input [X], at different types. *)
Definition conflict_tqo : Overrides :=
  [("Y", [with_type QInt16]); ("Z", [with_type QUInt16])].

(** The same conflict with an override on the graph input [in], which no
    node produces, in last and in first position. *)
Definition conflict_then_input_tqo : Overrides :=
  [("Y", [with_type QInt16]); ("Z", [with_type QUInt16]); ("in", [with_type QInt16])].
Definition input_then_conflict_tqo : Overrides :=
  [("in", [with_type QInt16]); ("Y", [with_type QInt16]); ("Z", [with_type QUInt16])].

(** The caller's store for scenario C below: the table at location 0 and
    its two records at locations 1 and 2. *)
Definition caller_heap : Heap.heap :=
  {[ 0 := Heap.OTable [("X", [1]); ("Y", [2])];
     1 := Heap.ORecord (set_quant_type QInt16 empty_override);
     2 := Heap.ORecord (set_quant_type QInt16 empty_override) ]}.

(** A Relu, a MatMul with the weight [W] and a Sigmoid in sequence; the
    caller overrides the MatMul input [A] and the Sigmoid output [s], table
    at location 0 of the caller's store. *)
Definition mlp : GraphProto :=
  {| node := [ {| op_type := "Relu"; name := "act"; input := ["in"]; output := ["A"] |};
               matmul;
               {| op_type := "Sigmoid"; name := "sig"; input := ["O"]; output := ["s"] |} ];
     initializer := [("W", float_init)];
     value_info := [("A", float_info); ("O", float_info)];
     graph_output := [("s", float_info)];
     graph_input := [("in", float_info)] |}.
Definition mlp_tqo : Overrides :=
  [("A", [with_type QUInt16]); ("s", [with_type QUInt16])].
Definition mlp_heap : Heap.heap :=
  {[ 0 := Heap.OTable [("A", [1]); ("s", [2])];
     1 := Heap.ORecord (set_quant_type QUInt16 empty_override);
     2 := Heap.ORecord (set_quant_type QUInt16 empty_override) ]}.

(** Scenario C: [X] and [Y] are both overridden to QInt16, so [P] requests
    [X] at QInt16 while [Q] requests nothing. *)
Definition scenario_c_tqo : Overrides :=
  [("X", [with_type QInt16]); ("Y", [with_type QInt16])].



(** The overrides of the LayerNormalization example in the store. *)
Definition layernorm_heap : Heap.heap :=
  {[ 0 := Heap.OTable [("x", [1])];
     1 := Heap.ORecord (set_quant_type QUInt16 empty_override) ]}.

(** The record [{"reduce_range": True}]. *)
Definition reduced {C : Type} : OverrideOf C :=
  {| quant_type := None; symmetric := None; scale := None; zero_point := None;
     reduce_range := Some true; rmin := None; rmax := None; convert := None |}.

(** The same overrides with one record [{"reduce_range": True}] for both
    weights [gamma] and [beta]. *)
Definition layernorm_shared_heap : Heap.heap :=
  {[ 0 := Heap.OTable [("x", [1]); ("gamma", [2]); ("beta", [2])];
     1 := Heap.ORecord (set_quant_type QUInt16 empty_override);
     2 := Heap.ORecord reduced ]}.
Definition layernorm_shared_tqo : Overrides :=
  [("x", [with_type QUInt16]); ("gamma", [reduced]); ("beta", [reduced])].

(** The caller's store with the single override [{"Y": [{"quant_type":
    QInt16}]}] for the chain graph, table at location 0. *)
Definition chain_y_heap : Heap.heap :=
  {[ 0 := Heap.OTable [("Y", [1])];
     1 := Heap.ORecord (set_quant_type QInt16 empty_override) ]}.
End Ex.

(** * Further derived notions *)

(** Lines 271-274: the body of the loop over [node.output]. *)
Definition register_output (n : NodeProto) (producers : gmap string NodeProto)
    (output_name : string) : result (gmap string NodeProto) :=
  if bool_decide (output_name = "")
  then Raise (AssertionError "Node output name cannot be empty")
  else if bool_decide (is_Some (producers !! output_name))
  then Raise (AssertionError "Tensor can only be generated by a single node")
  else Ok (<[output_name := n]> producers).

(** Lines 264-269: the body of the loop over [node.input]. *)
Definition register_input (n : NodeProto) (consumers : gmap string (list NodeProto))
    (input_name : string) : gmap string (list NodeProto) :=
  if bool_decide (input_name ≠ "")
  then <[input_name := (default [] (consumers !! input_name) ++ [n])%list]> consumers
  else consumers.

(** The output names of all nodes, in graph order. *)
Definition graph_outputs (nodes : list NodeProto) : list string :=
  mjoin (output <$> nodes).

(** A key that is present keeps its value. *)
Definition key_kept {A : Type} (before after : option A) : Prop :=
  ∀ v, before = Some v → after = Some v.

(** A [convert] dictionary that is present stays, with its target type;
    a [recv_nodes] set that is present loses no node. *)
Definition convert_kept (before after : option ConvertDict) : Prop :=
  ∀ cd, before = Some cd →
    ∃ cd', after = Some cd' ∧
           convert_quant_type cd' = convert_quant_type cd ∧
           ∀ nodes, recv_nodes cd = Some nodes →
                    ∃ nodes', recv_nodes cd' = Some nodes' ∧ nodes ⊆ nodes'.

(** The policy relation between a record and the record the policy loop
    leaves in its place: absent keys may have been filled in, nothing
    else differs. *)
Definition filled_in (o o' : Override) : Prop :=
  key_kept (quant_type o) (quant_type o') ∧ key_kept (symmetric o) (symmetric o') ∧
  key_kept (scale o) (scale o') ∧ key_kept (zero_point o) (zero_point o') ∧
  reduce_range o' = reduce_range o ∧ rmin o' = rmin o ∧ rmax o' = rmax o ∧
  convert o' = convert o.

(** The resolver relation: the records agree on every key but [convert]. *)
Definition same_but_convert (o o' : Override) : Prop :=
  quant_type o' = quant_type o ∧ symmetric o' = symmetric o ∧
  scale o' = scale o ∧ zero_point o' = zero_point o ∧
  reduce_range o' = reduce_range o ∧ rmin o' = rmin o ∧ rmax o' = rmax o.

(** The relation between the first record of an entry before and after
    the resolver: only [convert] may differ, and a [convert] that was there
    is still there. *)
Definition resolver_kept (o o' : Override) : Prop :=
  same_but_convert o o' ∧ convert_kept (convert o) (convert o').

(** An override entry for which the scan records requests (lines 153-166):
    a quantizable tensor that is not an initializer, with a single record
    of type [q] other than the default and without [convert]. *)
Definition requesting_entry (tqo : Overrides) (activation_type : QuantType)
    (value_infos : gmap string ValueInfoProto)
    (name_to_initializer : gmap string TensorProto)
    (y : string) (q : QuantType) : Prop :=
  ∃ o, (y, [o]) ∈ tqo ∧
       _is_tensor_quantizable y value_infos name_to_initializer = true ∧
       name_to_initializer !! y = None ∧
       quant_type o = Some q ∧ q ≠ activation_type ∧ convert o = None.

(** The node [nd] produces a tensor with such an entry and has [x] among
    the inputs that receive a consumer-side request (lines 178-181). *)
Definition node_requests_input (tqo : Overrides) (activation_type : QuantType)
    (value_infos : gmap string ValueInfoProto)
    (name_to_initializer : gmap string TensorProto)
    (producers : gmap string NodeProto)
    (nd : NodeProto) (x : string) (q : QuantType) : Prop :=
  ∃ y, requesting_entry tqo activation_type value_infos name_to_initializer y q ∧
       producers !! y = Some nd ∧
       x ∈ input nd ∧ is_activation_input x value_infos name_to_initializer = true.

(** The two facts about keys that every step of the two loops keeps. *)
Definition keys_grow (tqo tqo' : Overrides) : Prop :=
  dict_keys tqo `prefix_of` dict_keys tqo' ∧
  (NoDup (dict_keys tqo) → NoDup (dict_keys tqo')).

(** The consumer side recorded for [x] asks for [q] and lists [n]. *)
Definition consumer_recorded (x : string) (q : QuantType) (n : string)
    (reqs : TypeRequests) : Prop :=
  ∃ names, requested_consumers reqs x = Some (q, names) ∧ n ∈ names.

(** Every name recorded on a consumer side is the name of a node that
    requests the input, and there is at least one. *)
Definition consumers_sound (tqo : Overrides) (activation_type : QuantType)
    (value_infos : gmap string ValueInfoProto)
    (name_to_initializer : gmap string TensorProto)
    (producers : gmap string NodeProto) (reqs : TypeRequests) : Prop :=
  ∀ x q names,
    requested_consumers reqs x = Some (q, names) →
    (∃ n, n ∈ names) ∧
    ∀ n, n ∈ names →
         ∃ nd, node_requests_input tqo activation_type value_infos name_to_initializer
                 producers nd x q ∧ name nd = n.

(** A weight record the promotion leaves as it is: a single record that
    has [quant_type] or [symmetric]. *)
Definition weight_settled (tqo : Overrides) (k : string) : Prop :=
  ∃ o, dict_get k tqo = Some [o] ∧
       has_key (quant_type o) || has_key (symmetric o) = true.

(** An output whose type can be read and whose record, when the type is
    16-bit, has that type and a range-related key. *)
Definition output_settled (tqo : Overrides) (activation_type : QuantType)
    (out : string) : Prop :=
  ∃ T, _get_output_activation_qtype out tqo activation_type = Ok T ∧
       (Q16_TYPES T = true →
        ∃ o, dict_get out tqo = Some [o] ∧ quant_type o = Some T ∧
             range_keys_present o = true).

(** The rule of node [n] has nothing left to write in [tqo]. *)
Definition settled (activation_type weight_type : QuantType)
    (name_to_initializer : gmap string TensorProto)
    (tqo : Overrides) (n : NodeProto) : Prop :=
  if bool_decide (op_type n = "MatMul") && Q8_TYPES weight_type then
    ∀ a w,
      foldl (matmul_input tqo name_to_initializer (name n) activation_type)
        (None, None) (input n) = (a, w) →
      truthy a && truthy w = true → weight_settled tqo (default "" w)
  else if bool_decide (op_type n = "LayerNormalization") && Q8_TYPES weight_type then
    has_q16_activation tqo name_to_initializer (name n) activation_type (input n)
      = true →
    ∀ i, i ∈ [0; 1] →
         ∃ k, input n !! i = Some k ∧
              (is_Some (name_to_initializer !! k) → weight_settled tqo k)
  else if bool_decide (op_type n = "Sigmoid") || bool_decide (op_type n = "Tanh") then
    ∃ out, output0 n = Ok out ∧ output_settled tqo activation_type out
  else True.

(** * Properties *)

(** ** The error monad and loops *)

Lemma bind_Ok {A B : Type} (m : result A) (f : A → result B) (b : B) :
  m ≫= f = Ok b → ∃ a, m = Ok a ∧ f a = Ok b.
Proof. destruct m as [a|e]; [eauto | discriminate]. Qed.

Lemma for_each_app {A S : Type} (body : S → A → result S) (l1 l2 : list A) (s : S) :
  for_each body (l1 ++ l2)%list s = for_each body l1 s ≫= for_each body l2.
Proof.
  revert s. induction l1 as [|x l1 IH]; intros s; [done|].
  simpl. destruct (body s x) as [s'|e]; simpl; [apply IH | done].
Qed.

(** A property kept by every successful iteration holds after the loop. *)
Lemma for_each_invariant {A S : Type} (P : S → Prop) (body : S → A → result S)
    (l : list A) (s s' : S) :
  (∀ s1 s2 x, x ∈ l → P s1 → body s1 x = Ok s2 → P s2) →
  P s → for_each body l s = Ok s' → P s'.
Proof.
  revert s. induction l as [|x l IH]; intros s Hstep Hs Hrun; simpl in Hrun.
  - by injection Hrun as <-.
  - apply bind_Ok in Hrun as (s1 & Hx & Hrun).
    apply (IH s1); [| |done].
    + intros s2 s3 y Hy. apply Hstep. by right.
    + eapply Hstep; [|done..]. by left.
Qed.

(** A loop that raised did so in one iteration, after the iterations
    before it had succeeded. *)
Lemma for_each_Raise {A S : Type} (body : S → A → result S) (l : list A) (s : S) e :
  for_each body l s = Raise e →
  ∃ l1 x l2 s1,
    l = (l1 ++ x :: l2)%list ∧ for_each body l1 s = Ok s1 ∧ body s1 x = Raise e.
Proof.
  revert s. induction l as [|x l IH]; intros s Hrun; simpl in Hrun; [done|].
  destruct (body s x) as [s'|e'] eqn:Hx; simpl in Hrun.
  - destruct (IH _ Hrun) as (l1 & y & l2 & s1 & -> & Hl1 & Hy).
    exists (x :: l1), y, l2, s1. split_and!; [done| |done]. simpl. by rewrite Hx.
  - injection Hrun as ->. by exists [], x, l, s.
Qed.

(** ** Dictionaries *)

Section dict_facts.
Context {V : Type}.
Implicit Types (d : list (string * V)) (k : string) (v : V).

Lemma dict_get_set_eq d k v : dict_get k (dict_set k v d) = Some v.
Proof.
  induction d as [|[k' v'] d IH]; simpl.
  - by rewrite decide_True.
  - destruct (decide (k = k')) as [->|Hne]; simpl.
    + by rewrite decide_True.
    + by rewrite decide_False.
Qed.

Lemma dict_get_set_ne d k k' v : k ≠ k' → dict_get k' (dict_set k v d) = dict_get k' d.
Proof.
  intros Hne. induction d as [|[k1 v1] d IH]; simpl.
  - by rewrite decide_False.
  - destruct (decide (k = k1)) as [->|Hne1]; simpl.
    + by rewrite !decide_False.
    + by rewrite IH.
Qed.

Lemma dict_keys_set d k v :
  dict_keys (dict_set k v d) =
  if has_key (dict_get k d) then dict_keys d else (dict_keys d ++ [k])%list.
Proof.
  unfold dict_keys. induction d as [|[k' v'] d IH]; [done|].
  cbn [dict_set dict_get]. destruct (decide (k = k')) as [->|Hne]; [done|].
  rewrite !fmap_cons, IH. by destruct (dict_get k d).
Qed.

Lemma dict_get_None d k : dict_get k d = None ↔ k ∉ dict_keys d.
Proof.
  unfold dict_keys. induction d as [|[k' v'] d IH]; simpl.
  - split; [intros _; apply not_elem_of_nil | done].
  - rewrite not_elem_of_cons. destruct (decide (k = k')) as [->|Hne].
    + split; [done | by intros [? _]].
    + rewrite IH. tauto.
Qed.

Lemma dict_get_Some_elem d k v : dict_get k d = Some v → (k, v) ∈ d.
Proof.
  induction d as [|[k' v'] d IH]; simpl; [done|].
  destruct (decide (k = k')) as [->|Hne].
  - intros [= ->]. by left.
  - intros H. right. by apply IH.
Qed.

Lemma dict_get_NoDup d k v : NoDup (dict_keys d) → (k, v) ∈ d → dict_get k d = Some v.
Proof.
  unfold dict_keys. induction d as [|[k' v'] d IH]; simpl.
  - intros _ H. by apply elem_of_nil in H.
  - intros Hnd Hin. apply NoDup_cons in Hnd as [Hk' Hnd].
    apply elem_of_cons in Hin as [[= <- <-]|Hin].
    + by rewrite decide_True.
    + rewrite decide_False; [by apply IH|].
      intros ->. apply Hk'. apply list_elem_of_fmap. by exists (k', v).
Qed.

Lemma dict_keys_set_NoDup d k v : NoDup (dict_keys d) → NoDup (dict_keys (dict_set k v d)).
Proof.
  intros Hnd. rewrite dict_keys_set. destruct (dict_get k d) eqn:Hk; [done|].
  apply NoDup_app. split_and!; [done | | apply NoDup_singleton].
  intros x Hx ->%list_elem_of_singleton. by apply dict_get_None in Hk.
Qed.
End dict_facts.

(** ** The override mutators touch one entry *)

Lemma ensure_entry_ne (tqo : Overrides) k t init :
  t ≠ k → dict_get t (ensure_entry k init tqo) = dict_get t tqo.
Proof.
  intros Hne. unfold ensure_entry.
  destruct (dict_get k tqo) as [[|]|]; try done; by rewrite dict_get_set_ne.
Qed.

Lemma ensure_entry_eq (tqo : Overrides) k init :
  dict_get k (ensure_entry k init tqo) =
  Some (match dict_get k tqo with Some (o :: rest) => o :: rest | _ => [init] end).
Proof.
  unfold ensure_entry.
  destruct (dict_get k tqo) as [[|]|] eqn:Hk; try done; by rewrite dict_get_set_eq.
Qed.

Lemma ensure_entry_id (tqo : Overrides) k init o rest :
  dict_get k tqo = Some (o :: rest) → ensure_entry k init tqo = tqo.
Proof. intros Hk. unfold ensure_entry. by rewrite Hk. Qed.

Lemma first_record_Ok (tqo : Overrides) k o rest :
  first_record k tqo = Ok (o, rest) ↔ dict_get k tqo = Some (o :: rest).
Proof.
  unfold first_record, dict_item.
  destruct (dict_get k tqo) as [[|o' rest']|]; simpl; split; congruence.
Qed.

Lemma set_weight_type_frame (tqo tqo' : Overrides) k w s t :
  _set_weight_type tqo k w s = Ok tqo' → t ≠ k → dict_get t tqo' = dict_get t tqo.
Proof.
  unfold _set_weight_type. intros Hrun Hne.
  apply bind_Ok in Hrun as (l & _ & Hrun).
  destruct (decide (1 < length l)); [done|].
  apply bind_Ok in Hrun as ([o rest] & _ & Hrun).
  destruct (_ && _); injection Hrun as <-;
    rewrite ?dict_get_set_ne by done; by apply ensure_entry_ne.
Qed.

Lemma set_weight_type_user (tqo : Overrides) k w s o :
  dict_get k tqo = Some [o] →
  has_key (quant_type o) || has_key (symmetric o) = true →
  _set_weight_type tqo k w s = Ok tqo.
Proof.
  intros Hk Huser. unfold _set_weight_type.
  rewrite (ensure_entry_id _ _ _ _ _ Hk). unfold first_record, dict_item.
  rewrite Hk. simpl.
  by destruct (quant_type o), (symmetric o).
Qed.

Lemma set_scale_zero_point_frame (tqo tqo' : Overrides) k q sc zp t :
  _set_scale_zero_point tqo k q sc zp = Ok tqo' → t ≠ k →
  dict_get t tqo' = dict_get t tqo.
Proof.
  unfold _set_scale_zero_point. intros Hrun Hne.
  apply bind_Ok in Hrun as (l & _ & Hrun).
  destruct (decide (1 < length l)); [done|].
  apply bind_Ok in Hrun as ([o rest] & _ & Hrun).
  destruct (bool_decide _); [|done].
  destruct (range_keys_present _); injection Hrun as <-;
    rewrite dict_get_set_ne by done; by apply ensure_entry_ne.
Qed.

Lemma get_output_activation_qtype_single (tqo : Overrides) t o act :
  dict_get t tqo = Some [o] →
  _get_output_activation_qtype t tqo act = Ok (default act (quant_type o)).
Proof. intros Ht. unfold _get_output_activation_qtype. by rewrite Ht. Qed.

(** ** User overrides and the promotion rules (C5) *)

Section user_override.
Context (activation_type weight_type : QuantType).
Context (name_to_initializer : gmap string TensorProto).
Context (t : string) (o : Override) (q : QuantType).
Hypothesis Hq : quant_type o = Some q.

Lemma set_weight_type_keeps_user (tqo tqo' : Overrides) k w s :
  dict_get t tqo = Some [o] →
  _set_weight_type tqo k w s = Ok tqo' → dict_get t tqo' = Some [o].
Proof using Hq.
  intros Ht Hrun. destruct (decide (t = k)) as [<-|Hne].
  - rewrite (set_weight_type_user tqo t w s o) in Hrun; [congruence|done|].
    by rewrite Hq.
  - by rewrite (set_weight_type_frame _ _ _ _ _ _ Hrun).
Qed.

Lemma pin_keeps_narrow (tqo tqo' : Overrides) out sc1 zp1 sc2 zp2 :
  Q8_TYPES q = true →
  dict_get t tqo = Some [o] →
  (output_type ← _get_output_activation_qtype out tqo activation_type;
   if decide (output_type = QUInt16) then
     _set_scale_zero_point tqo out output_type sc1 zp1
   else if decide (output_type = QInt16) then
     _set_scale_zero_point tqo out output_type sc2 zp2
   else Ok tqo) = Ok tqo' →
  dict_get t tqo' = Some [o].
Proof using Hq.
  intros Hnarrow Ht Hrun. apply bind_Ok in Hrun as (ty & Hty & Hrun).
  destruct (decide (t = out)) as [<-|Hne].
  - rewrite (get_output_activation_qtype_single _ _ _ _ Ht), Hq in Hty.
    injection Hty as <-. by destruct q; try done; injection Hrun as <-.
  - repeat case_decide; try (by injection Hrun as <-);
      by rewrite (set_scale_zero_point_frame _ _ _ _ _ _ _ Hrun).
Qed.

Lemma apply_policy_keeps_narrow (tqo tqo' : Overrides) (n : NodeProto) :
  Q8_TYPES q = true →
  dict_get t tqo = Some [o] →
  apply_policy activation_type weight_type name_to_initializer tqo n = Ok tqo' →
  dict_get t tqo' = Some [o].
Proof using Hq.
  intros Hnarrow Ht. unfold apply_policy.
  destruct (_ && _).
  { destruct (foldl _ _ _) as [a w].
    destruct (_ && _); [|by intros [= <-]].
    by apply set_weight_type_keeps_user. }
  destruct (_ && _).
  { destruct (has_q16_activation _ _ _ _ _); [|by intros [= <-]]. apply (for_each_invariant (λ d, dict_get t d = Some [o])); [|done].
    intros d1 d2 i _ Hd1. unfold layernorm_weight.
    destruct (input n !! i); [|done].
    destruct (bool_decide _); [|by intros [= <-]].
    by apply set_weight_type_keeps_user. }
  destruct (bool_decide _).
  { intros Hrun. apply bind_Ok in Hrun as (out & _ & Hrun).
    by eapply pin_keeps_narrow. }
  destruct (bool_decide _).
  { intros Hrun. apply bind_Ok in Hrun as (out & _ & Hrun).
    by eapply pin_keeps_narrow. }
  by intros [= <-].
Qed.
End user_override.

(** C5. [_set_weight_type] is a no-op on an entry whose record already
    has a [quant_type] or a [symmetric] key: the call returns the table it
    was given. Consequently a tensor whose single override record carries a
    user-set narrow (8-bit) type keeps exactly that record through the
    whole policy loop, in particular through the MatMul and
    LayerNormalization promotion rules, for any list of nodes. *)
Theorem set_weight_type_respects_user_override :
  (∀ (tqo : Overrides) t o w s,
     dict_get t tqo = Some [o] →
     has_key (quant_type o) || has_key (symmetric o) = true →
     _set_weight_type tqo t w s = Ok tqo) ∧
  (∀ activation_type weight_type name_to_initializer (nodes : list NodeProto)
     (tqo tqo' : Overrides) t o q,
     dict_get t tqo = Some [o] →
     quant_type o = Some q → Q8_TYPES q = true →
     for_each (apply_policy activation_type weight_type name_to_initializer)
       nodes tqo = Ok tqo' →
     dict_get t tqo' = Some [o]).
Proof.
  split.
  - intros. by apply set_weight_type_user with o.
  - intros act wt inits nodes tqo tqo' t o q Ht Hq Hnarrow.
    apply (for_each_invariant (λ d, dict_get t d = Some [o])); [|done].
    intros d1 d2 n _ Hd1. by apply apply_policy_keeps_narrow with q.
Qed.

Lemma set_weight_type_respects_user_override_witness :
  _set_weight_type Ex.matmul_user_tqo "W" QInt8 true = Ok Ex.matmul_user_tqo ∧
  dict_get "W" Ex.matmul_user_tqo = Some [Ex.with_type QUInt8].
Proof.
  split.
  - apply (proj1 set_weight_type_respects_user_override) with (Ex.with_type QUInt8);
      reflexivity.
  - apply (proj2 set_weight_type_respects_user_override QUInt8 QInt8 Ex.matmul_inits
             [Ex.matmul] Ex.matmul_user_tqo Ex.matmul_user_tqo "W"
             (Ex.with_type QUInt8) QUInt8); reflexivity.
Defined.

(** ** Pinned scale and zero point of Sigmoid and Tanh (C4) *)

Lemma set_quant_type_id (o : Override) q : quant_type o = Some q → set_quant_type q o = o.
Proof. destruct o; simpl; by intros ->. Qed.

Lemma get_output_activation_qtype_Ok (tqo : Overrides) t act T :
  _get_output_activation_qtype t tqo act = Ok T →
  (dict_get t tqo = None ∧ T = act) ∨
  (∃ o, dict_get t tqo = Some [o] ∧ T = default act (quant_type o)).
Proof.
  unfold _get_output_activation_qtype.
  destruct (dict_get t tqo) as [l|]; [|intros [= <-]; by left].
  case_decide as Hlen; [done|]. destruct l as [|o [|o' l]]; [done| |simpl in Hlen; lia].
  intros [= <-]. right. by exists o.
Qed.

(** What [_set_scale_zero_point] leaves in the entry when it is called with
    the type the output lookup returned. *)
Lemma set_scale_zero_point_result (tqo : Overrides) t act T sc zp :
  _get_output_activation_qtype t tqo act = Ok T →
  let o := set_quant_type T (entry_record tqo t) in
  ∃ tqo',
    _set_scale_zero_point tqo t T sc zp = Ok tqo' ∧
    dict_get t tqo' =
      Some [if range_keys_present o then o else set_scale sc (set_zero_point zp o)].
Proof.
  intros Hty. unfold _set_scale_zero_point, entry_record, first_record, dict_item.
  rewrite ensure_entry_eq.
  apply get_output_activation_qtype_Ok in Hty as [[-> ->]|(o & -> & ->)]; simpl.
  - destruct act; eexists; (split; [done|]); by rewrite dict_get_set_eq.
  - destruct (quant_type o) as [q|] eqn:Hq; simpl.
    + rewrite bool_decide_eq_true_2 by done.
      rewrite (set_quant_type_id o q Hq).
      destruct (range_keys_present o); eexists; (split; [done|]);
        by rewrite dict_get_set_eq.
    + rewrite bool_decide_eq_true_2 by done.
      change (range_keys_present (set_quant_type act o)) with (range_keys_present o).
      destruct (range_keys_present o); eexists; (split; [done|]);
        by rewrite dict_get_set_eq.
Qed.




(** ** LayerNormalization weight promotion (C6) *)

Lemma set_weight_type_result (tqo : Overrides) k w s :
  (∀ l, dict_get k tqo = Some l → (length l ≤ 1)%nat) →
  ∃ tqo',
    _set_weight_type tqo k w s = Ok tqo' ∧
    dict_get k tqo' = Some [promoted w s (entry_record tqo k)].
Proof.
  intros Hlen. unfold _set_weight_type, entry_record, first_record, dict_item, promoted.
  rewrite ensure_entry_eq.
  destruct (dict_get k tqo) as [[|o [|o' l]]|] eqn:Hk; simpl.
  - eexists. split; [done|]. by rewrite dict_get_set_eq.
  - destruct (_ && _); eexists; (split; [done|]).
    + by rewrite dict_get_set_eq.
    + by rewrite ensure_entry_eq, Hk.
  - specialize (Hlen _ eq_refl). simpl in Hlen. lia.
  - eexists. split; [done|]. by rewrite dict_get_set_eq.
Qed.

Lemma promoted_idemp w s o : promoted w s (promoted w s o) = promoted w s o.
Proof. destruct o as [[q|] [sy|] ? ? ? ? ? ?]; reflexivity. Qed.

Lemma has_q16_activation_true (tqo : Overrides) inits node_name act inputs x :
  x ∈ inputs → inits !! x = None →
  Q16_TYPES (_get_input_activation_qtype tqo x node_name act) = true →
  has_q16_activation tqo inits node_name act inputs = true.
Proof.
  intros Hin Hx H16. induction inputs as [|y inputs IH]; [by apply elem_of_nil in Hin|].
  simpl. apply elem_of_cons in Hin as [<-|Hin].
  - by rewrite bool_decide_eq_true_2, H16.
  - rewrite IH by done. by repeat case_match.
Qed.

(** One iteration of [for i in range(2)]: the table afterwards, entry by entry. *)
Lemma layernorm_weight_result (tqo : Overrides) inits n w s i k :
  input n !! i = Some k →
  (is_Some (inits !! k) → ∀ l, dict_get k tqo = Some l → (length l ≤ 1)%nat) →
  ∃ tqo',
    layernorm_weight inits n w s tqo i = Ok tqo' ∧
    ∀ t, dict_get t tqo' =
         if bool_decide (t = k ∧ is_Some (inits !! k))
         then Some [promoted w s (entry_record tqo k)]
         else dict_get t tqo.
Proof.
  intros Hi Hlen. unfold layernorm_weight. rewrite Hi.
  destruct (decide (is_Some (inits !! k))) as [Hinit|Hinit].
  - rewrite bool_decide_eq_true_2 by done.
    destruct (set_weight_type_result tqo k w s (Hlen Hinit)) as (tqo' & Hrun & Hk).
    exists tqo'. split; [done|]. intros t. case_bool_decide as Ht.
    + by destruct Ht as [-> _].
    + apply (set_weight_type_frame _ _ _ _ _ _ Hrun). intros ->. by apply Ht.
  - rewrite bool_decide_eq_false_2 by done. exists tqo. split; [done|].
    intros t. rewrite bool_decide_eq_false_2; [done | by intros [_ ?]].
Qed.

(** On a table given as a value: for a LayerNormalization node with an
    8-bit weight type and some non-initializer input whose effective type
    at this node is 16-bit, the policy step looks at the inputs in
    positions 0 and 1 only:
    each of the two that is an initializer gets [quant_type = weight_type]
    and [symmetric = (weight_type = QInt8)] written on its record unless the
    record already has one of these keys, and the entry of every other
    tensor, the input in position 2 (the bias) included, is left as it was.
    The step succeeds whenever the two entries hold at most one record. *)
Lemma layernorm_promotes_initializers_among_first_two_inputs :
  ∀ (activation_type weight_type : QuantType)
    (name_to_initializer : gmap string TensorProto)
    (tqo : Overrides) (n : NodeProto) (i0 i1 : string) (others : list string),
    op_type n = "LayerNormalization" →
    Q8_TYPES weight_type = true →
    input n = i0 :: i1 :: others →
    (∃ x, x ∈ input n ∧ name_to_initializer !! x = None ∧
          Q16_TYPES (_get_input_activation_qtype tqo x (name n) activation_type)
          = true) →
    (∀ i l, i ∈ [i0; i1] → is_Some (name_to_initializer !! i) →
            dict_get i tqo = Some l → (length l ≤ 1)%nat) →
    ∃ tqo',
      apply_policy activation_type weight_type name_to_initializer tqo n = Ok tqo' ∧
      ∀ t, dict_get t tqo' =
           if bool_decide (t ∈ [i0; i1] ∧ is_Some (name_to_initializer !! t))
           then Some [promoted weight_type (bool_decide (weight_type = QInt8))
                        (entry_record tqo t)]
           else dict_get t tqo.
Proof.
  intros act wt inits tqo n i0 i1 others Hop Hnarrow Hin (x & Hx & Hxinit & Hx16) Hlen.
  set (s := bool_decide (wt = QInt8)).
  destruct (layernorm_weight_result tqo inits n wt s 0 i0) as (tqo1 & Hrun1 & Hget1).
  { by rewrite Hin. }
  { intros Hinit l. apply Hlen; [by left | done]. }
  destruct (layernorm_weight_result tqo1 inits n wt s 1 i1) as (tqo2 & Hrun2 & Hget2).
  { by rewrite Hin. }
  { intros Hinit l. rewrite Hget1. case_bool_decide.
    - intros [= <-]. simpl. lia.
    - apply Hlen; [set_solver | done]. }
  exists tqo2. split.
  - unfold apply_policy. rewrite Hop, Hnarrow. simpl.
    rewrite (has_q16_activation_true tqo inits (name n) act (input n) x) by done.
    simpl. fold s. rewrite Hrun1. simpl. by rewrite Hrun2.
  - intros t. rewrite Hget2. case_bool_decide as H1.
    + destruct H1 as [-> Hinit].
      rewrite bool_decide_eq_true_2 by (split; [set_solver | done]).
      unfold entry_record at 1. rewrite Hget1. case_bool_decide as H0.
      * destruct H0 as [<- _]. by rewrite promoted_idemp.
      * done.
    + rewrite Hget1. case_bool_decide as H0.
      * destruct H0 as [-> Hinit].
        by rewrite bool_decide_eq_true_2 by (split; [set_solver | done]).
      * rewrite bool_decide_eq_false_2; [done|].
        intros [Ht Hinit].
        apply elem_of_cons in Ht as [->|Ht]; [by apply H0|].
        apply elem_of_cons in Ht as [->|Ht]; [by apply H1|].
        by apply elem_of_nil in Ht.
Qed.

(** A LayerNormalization with a 16-bit activation input and two initializer
    weights: the scale [gamma] in position 1 is promoted, the bias [beta] in
    position 2 gets no entry. *)
Lemma layernorm_bias_not_promoted :
  Ex.layernorm_inits !! "x" = None ∧
  _get_input_activation_qtype Ex.layernorm_tqo "x" "ln" QUInt8 = QUInt16 ∧
  input Ex.layernorm = ["x"; "gamma"; "beta"] ∧
  Ex.layernorm_inits !! "gamma" = Some Ex.float_init ∧
  Ex.layernorm_inits !! "beta" = Some Ex.float_init ∧
  apply_policy QUInt8 QUInt8 Ex.layernorm_inits Ex.layernorm_tqo Ex.layernorm
    = Ok [("x", [Ex.with_type QUInt16]);
          ("gamma", [set_symmetric false (Ex.with_type QUInt8)])] ∧
  dict_get "beta" [("x", [Ex.with_type QUInt16]);
                   ("gamma", [set_symmetric false (Ex.with_type QUInt8)])] = None.
Proof. by repeat split. Qed.

(** ** Entries with several records (C7) *)

(** C7, as amended. The scan skips an entry with more than one record: it
    returns the type requests unchanged and raises nothing. Such an entry
    raises [ValueError] only where it is read through
    [_get_output_activation_qtype], which the resolver does when it
    processes a request that has consumers but no producer side. *)
Theorem multi_record_entry_skipped_by_scan :
  (∀ activation_type value_infos name_to_initializer producers
     (type_requests : TypeRequests) (tensor_name : string) (l : list Override),
     1 < length l →
     scan_override activation_type value_infos name_to_initializer producers
       type_requests (tensor_name, l) = Ok type_requests) ∧
  (∀ activation_type consumers (tqo : Overrides) tensor_name l consumer_request,
     dict_get tensor_name tqo = Some l → 1 < length l →
     process_request activation_type consumers tqo
       (tensor_name, TensorTypeRequest.mk None consumer_request)
     = Raise (ValueError per_tensor_msg)).
Proof.
  split.
  - intros act infos inits producers reqs t l Hlen. unfold scan_override.
    destruct l as [|o [|o' l]]; [simpl in Hlen; lia..|]. by repeat case_match.
  - intros act consumers tqo t l creq Ht Hlen.
    unfold process_request, _get_output_activation_qtype. simpl.
    rewrite Ht, decide_True by done. by destruct creq as [[]|].
Qed.

Lemma multi_record_entry_skipped_by_scan_witness :
  scan_override QUInt8 Ex.chain_infos ∅ Ex.chain_producers []
    ("Y", [Ex.with_type QInt16; Ex.with_type QInt16]) = Ok [] ∧
  process_request QUInt8 Ex.chain_consumers Ex.per_channel_tqo
    ("Y", TensorTypeRequest.mk None (Some (QInt16, {["P"]})))
  = Raise (ValueError per_tensor_msg).
Proof.
  split.
  - apply (proj1 multi_record_entry_skipped_by_scan). simpl. lia.
  - apply (proj2 multi_record_entry_skipped_by_scan) with
      (l := [Ex.with_type QInt16; Ex.with_type QInt16]); [reflexivity | simpl; lia].
Defined.

(** A quantizable, non-initializer tensor with a two-record entry: the
    resolver raises nothing and returns the table as it was. *)
Lemma per_channel_entry_passed_over :
  _add_qtype_converts Ex.per_channel_tqo QUInt8 Ex.chain_infos ∅
    Ex.chain_producers Ex.chain_consumers = Ok Ex.per_channel_tqo ∧
  _is_tensor_quantizable "Y" Ex.chain_infos ∅ = true.
Proof. by split. Qed.

(** ** Conflict messages (C8) *)

Lemma prefix_append (s t : string) : String.prefix s (s +:+ t) = true.
Proof.
  induction s as [|a s IH]; simpl; [by destruct t|].
  by destruct (Ascii.ascii_dec a a).
Qed.

Lemma occurs_in_append (s t : string) : occurs_in s (s +:+ t) = true.
Proof.
  pose proof (prefix_append s t) as Hp.
  destruct (s +:+ t); simpl in *; by rewrite Hp.
Qed.

Lemma occurs_in_middle (pre s post : string) :
  occurs_in s (pre +:+ s +:+ post) = true.
Proof.
  induction pre as [|a pre IH]; [exact (occurs_in_append s post)|].
  change (occurs_in s (String a (pre +:+ s +:+ post)) = true).
  simpl. rewrite IH. apply orb_true_r.
Qed.

(** C8. The two conflicts raised by the scan name the tensor in their
    message. The third one, raised when a consumer request contradicts an
    existing restricted convert, does not: on the table
    [Ex.convert_conflict_tqo] the resolver raises a [ValueError] whose
    message is the fixed text [convert_conflict_msg], in which the name of
    the tensor, [X], does not occur. *)
Theorem convert_conflict_message_lacks_tensor_name :
  _add_qtype_converts Ex.convert_conflict_tqo QUInt8 Ex.chain_infos ∅
    Ex.chain_producers Ex.chain_consumers
  = Raise (ValueError convert_conflict_msg) ∧
  occurs_in "X" convert_conflict_msg = false ∧
  (∀ tensor_name, occurs_in tensor_name (different_types_msg tensor_name) = true) ∧
  (∀ tensor_name, occurs_in tensor_name (multiple_types_msg tensor_name) = true).
Proof.
  split; [reflexivity|]. split; [reflexivity|].
  split; intros t; apply occurs_in_middle.
Qed.

(** ** Processing the type requests *)

Lemma add_to_convert_recv_nodes_frame (tqo tqo' : Overrides) k p c names t :
  _add_to_convert_recv_nodes tqo k p c names = Ok tqo' → t ≠ k →
  dict_get t tqo' = dict_get t tqo.
Proof.
  unfold _add_to_convert_recv_nodes. intros Hrun Hne.
  apply bind_Ok in Hrun as ([o rest] & _ & Hrun).
  case_decide; [|done]. injection Hrun as <-.
  rewrite dict_get_set_ne by done. by apply ensure_entry_ne.
Qed.

(** On a single record without a convert, [_add_to_convert_recv_nodes]
    writes a convert whose receivers are exactly [names]. *)
Lemma add_to_convert_recv_nodes_fresh (tqo : Overrides) k o p c names :
  dict_get k tqo = Some [o] → convert o = None →
  ∃ tqo',
    _add_to_convert_recv_nodes tqo k p c names = Ok tqo' ∧
    dict_get k tqo' =
      Some [set_convert {| convert_quant_type := c; recv_nodes := Some names |} o].
Proof.
  intros Hk Hconv. unfold _add_to_convert_recv_nodes, first_record, dict_item.
  rewrite (ensure_entry_id _ _ _ _ _ Hk), Hk. simpl. rewrite Hconv. simpl.
  rewrite decide_True by done. eexists. split; [done|].
  rewrite dict_get_set_eq. do 3 f_equal. f_equal. by rewrite (left_id_L ∅ (∪)).
Qed.

Lemma process_request_frame act consumers (tqo tqo' : Overrides) k req t :
  process_request act consumers tqo (k, req) = Ok tqo' → t ≠ k →
  dict_get t tqo' = dict_get t tqo.
Proof.
  intros Hrun Hne. unfold process_request in Hrun.
  destruct req as [[p|] [[c names]|]]; simpl in Hrun.
  - case_decide.
    { by apply (add_to_convert_recv_nodes_frame _ _ _ _ _ _ _ Hrun). }
    apply bind_Ok in Hrun as (nodes & _ & Hrun). case_decide.
    + apply bind_Ok in Hrun as ([o rest] & _ & Hrun).
      destruct (has_key _); [done|]. by injection Hrun as <-.
    + by apply (add_to_convert_recv_nodes_frame _ _ _ _ _ _ _ Hrun).
  - apply bind_Ok in Hrun as ([o rest] & _ & Hrun). injection Hrun as <-.
    by rewrite dict_get_set_ne.
  - apply bind_Ok in Hrun as (ty & _ & Hrun). case_decide.
    { by apply (add_to_convert_recv_nodes_frame _ _ _ _ _ _ _ Hrun). }
    destruct (negb _); [done|]. by injection Hrun as <-.
  - by apply bind_Ok in Hrun as (ty & _ & Hrun).
Qed.

Lemma process_requests_frame act consumers (reqs : TypeRequests)
    (tqo tqo' : Overrides) t :
  t ∉ dict_keys reqs →
  for_each (process_request act consumers) reqs tqo = Ok tqo' →
  dict_get t tqo' = dict_get t tqo.
Proof.
  intros Ht. apply (for_each_invariant (λ d, dict_get t d = dict_get t tqo)); [|done].
  intros d1 d2 [k req] Hin Hd1 Hrun. rewrite <-Hd1.
  apply (process_request_frame _ _ _ _ _ _ _ Hrun). intros ->. apply Ht.
  apply list_elem_of_fmap. by exists (k, req).
Qed.

(** The entry of a requested tensor after the loop is the one its own
    iteration leaves, and that iteration finds the entry as it was before
    the loop. *)
Lemma process_requests_at act consumers (reqs : TypeRequests)
    (tqo tqo' : Overrides) t req :
  NoDup (dict_keys reqs) → dict_get t reqs = Some req →
  for_each (process_request act consumers) reqs tqo = Ok tqo' →
  ∃ tqo1 tqo2,
    dict_get t tqo1 = dict_get t tqo ∧
    process_request act consumers tqo1 (t, req) = Ok tqo2 ∧
    dict_get t tqo' = dict_get t tqo2.
Proof.
  intros Hnd Ht Hrun. apply dict_get_Some_elem, list_elem_of_split in Ht as (l1 & l2 & ->).
  unfold dict_keys in Hnd. rewrite fmap_app, fmap_cons in Hnd. simpl in Hnd.
  apply NoDup_app in Hnd as (_ & Hl1 & Hl2). apply NoDup_cons in Hl2 as [Hl2 _].
  rewrite for_each_app in Hrun. apply bind_Ok in Hrun as (tqo1 & Hrun1 & Hrun).
  simpl in Hrun. apply bind_Ok in Hrun as (tqo2 & Hstep & Hrun2).
  exists tqo1, tqo2. split_and!; [|done|].
  - apply (process_requests_frame _ _ _ _ _ _ (λ H, Hl1 t H (list_elem_of_here _ _)) Hrun1).
  - by apply (process_requests_frame _ _ _ _ _ _ Hl2 Hrun2).
Qed.

(** ** Scanning the overrides *)

Section scan.
Context (act : QuantType) (infos : gmap string ValueInfoProto).
Context (inits : gmap string TensorProto) (producers : gmap string NodeProto).

Lemma add_producer_request_Ok (reqs reqs' : TypeRequests) k q :
  add_producer_request reqs k q = Ok reqs' →
  requested_producer_type reqs k = None ∧
  reqs' = dict_set k (TensorTypeRequest.mk (Some q) (requested_consumers reqs k)) reqs.
Proof.
  unfold add_producer_request, requested_producer_type, requested_consumers.
  destruct (dict_get k reqs) as [[[p|] c]|]; simpl; [done|by intros [= <-]..].
Qed.

Lemma add_consumer_request_Ok (reqs reqs' : TypeRequests) q nm x :
  add_consumer_request infos inits q nm reqs x = Ok reqs' →
  if is_activation_input x infos inits then
    ∃ names,
      requested_consumers reqs x ∈ [None; Some (q, names)] ∧
      reqs' = dict_set x (TensorTypeRequest.mk (requested_producer_type reqs x)
                            (Some (q, names ∪ {[nm]}))) reqs
  else reqs' = reqs.
Proof.
  unfold add_consumer_request, requested_producer_type, requested_consumers.
  destruct (is_activation_input x infos inits); [|by intros [= <-]].
  destruct (dict_get x reqs) as [[p [[q' names]|]]|]; simpl.
  - case_decide as Hq; [done|]. subst q'.
    intros [= <-]. exists names. split; [set_solver | done].
  - rewrite decide_False by (by intros []). intros [= <-]. exists ∅. split; [set_solver | done].
  - rewrite decide_False by (by intros []). intros [= <-]. exists ∅. split; [set_solver | done].
Qed.

Lemma add_consumer_request_producer (reqs reqs' : TypeRequests) q nm x t :
  add_consumer_request infos inits q nm reqs x = Ok reqs' →
  requested_producer_type reqs' t = requested_producer_type reqs t.
Proof.
  intros Hrun%add_consumer_request_Ok.
  destruct (is_activation_input x infos inits); [|by subst].
  destruct Hrun as (names & _ & ->). unfold requested_producer_type.
  destruct (decide (x = t)) as [->|Hne].
  - by rewrite dict_get_set_eq.
  - by rewrite dict_get_set_ne.
Qed.

Lemma add_consumer_request_NoDup (reqs reqs' : TypeRequests) q nm x :
  add_consumer_request infos inits q nm reqs x = Ok reqs' →
  NoDup (dict_keys reqs) → NoDup (dict_keys reqs').
Proof.
  intros Hrun%add_consumer_request_Ok.
  destruct (is_activation_input x infos inits); [|by subst].
  destruct Hrun as (names & _ & ->). apply dict_keys_set_NoDup.
Qed.

(** What a successful iteration of the scan did: nothing, or it recorded
    the producer side for a single record without a convert and then the
    consumer side for the inputs of the producing node. *)
Lemma scan_override_Ok (reqs reqs' : TypeRequests) k l :
  scan_override act infos inits producers reqs (k, l) = Ok reqs' →
  reqs' = reqs ∨
  ∃ o q nd reqs1,
    l = [o] ∧ quant_type o = Some q ∧ q ≠ act ∧ convert o = None ∧
    _is_tensor_quantizable k infos inits = true ∧ inits !! k = None ∧
    producers !! k = Some nd ∧
    add_producer_request reqs k q = Ok reqs1 ∧
    for_each (add_consumer_request infos inits q (name nd)) (input nd) reqs1 = Ok reqs'.
Proof.
  unfold scan_override. destruct (_is_tensor_quantizable k infos inits); simpl;
    [|intros [= <-]; by left].
  case_bool_decide as Hinit; [intros [= <-]; by left|].
  destruct l as [|o [|o' l]]; [intros [= <-]; by left| |intros [= <-]; by left].
  destruct (producers !! k) as [nd|] eqn:Hnd; [|done].
  case_bool_decide as Hq; simpl; [|intros [= <-]; by left].
  destruct (convert o) eqn:Hconv; simpl; [intros [= <-]; by left|].
  intros Hrun. apply bind_Ok in Hrun as (reqs1 & Hprod & Hrun). right.
  destruct (quant_type o) as [q|] eqn:Hqo; simpl in *; [|done].
  exists o, q, nd, reqs1. split_and!; try done.
  by apply eq_None_not_Some.
Qed.

Lemma scan_override_NoDup (reqs reqs' : TypeRequests) item :
  scan_override act infos inits producers reqs item = Ok reqs' →
  NoDup (dict_keys reqs) → NoDup (dict_keys reqs').
Proof.
  destruct item as [k l].
  intros [->|(o & q & nd & reqs1 & _ & _ & _ & _ & _ & _ & _ & Hprod & Hcons)]%scan_override_Ok;
    [done|].
  intros Hnd. apply add_producer_request_Ok in Hprod as [_ ->].
  revert Hcons.
  apply (for_each_invariant (λ r : TypeRequests, NoDup (dict_keys r)));
    [|by apply dict_keys_set_NoDup].
  intros r1 r2 x _ Hr1 Hrun. by apply (add_consumer_request_NoDup _ _ _ _ _ Hrun).
Qed.

Lemma scan_NoDup (items : Overrides) (reqs : TypeRequests) :
  for_each (scan_override act infos inits producers) items [] = Ok reqs →
  NoDup (dict_keys reqs).
Proof.
  apply (for_each_invariant (λ r : TypeRequests, NoDup (dict_keys r)));
    [|apply NoDup_nil_2].
  intros r1 r2 x _ Hr1 Hrun. by apply (scan_override_NoDup _ _ _ Hrun).
Qed.

(** A producer-side request comes from a single record without a convert
    whose type differs from the default. *)
Lemma scan_producer_origin (items : Overrides) (reqs : TypeRequests) t q :
  for_each (scan_override act infos inits producers) items [] = Ok reqs →
  requested_producer_type reqs t = Some q →
  ∃ o, (t, [o]) ∈ items ∧ quant_type o = Some q ∧ q ≠ act ∧ convert o = None.
Proof.
  intros Hrun. revert t q. revert Hrun.
  apply (for_each_invariant (λ reqs : TypeRequests, ∀ t q,
    requested_producer_type reqs t = Some q →
    ∃ o, (t, [o]) ∈ items ∧ quant_type o = Some q ∧ q ≠ act ∧ convert o = None));
    [|done].
  intros r1 r2 [k l] Hin Hr1 Hstep t q.
  apply scan_override_Ok in Hstep
    as [->|(o & q' & nd & reqs1 & -> & Hq' & Hne & Hconv & _ & _ & _ & Hprod & Hcons)];
    [apply Hr1|].
  assert (requested_producer_type r2 t = requested_producer_type reqs1 t) as ->.
  { revert Hcons. apply (for_each_invariant (λ r : TypeRequests,
      requested_producer_type r t = requested_producer_type reqs1 t)); [|done].
    intros ra rb x _ <- Hrun. by apply (add_consumer_request_producer _ _ _ _ _ _ Hrun). }
  apply add_producer_request_Ok in Hprod as [_ ->]. unfold requested_producer_type at 1.
  destruct (decide (k = t)) as [->|Hkt].
  - rewrite dict_get_set_eq. simpl. intros [= <-]. by exists o.
  - rewrite dict_get_set_ne by done. apply Hr1.
Qed.
End scan.

(** ** Resolution of producer-side requests, on values *)




(** ** An entry the resolver adds (C9) *)

(** The chain graph has only Relu nodes, so no policy rule applies; the
    only initial override is on [Y]. The returned table nevertheless has an
    entry for [X], the input of the node that produces [Y]. *)
Lemma resolver_adds_entry_for_requested_input :
  resolved_overrides
    (get_qnn_qdq_config Ex.chain tt tt QUInt8 QUInt8
       (Some [("Y", [Ex.with_type QInt16])]) true false)
  = Ok [("Y", [set_convert {| convert_quant_type := QUInt8; recv_nodes := None |}
                 (Ex.with_type QInt16)]);
        ("X", [set_convert {| convert_quant_type := QInt16; recv_nodes := Some {["P"]} |}
                 (Ex.with_type QUInt8)])] ∧
  dict_get "X" [("Y", [Ex.with_type QInt16])] = None ∧
  (∀ nd (tqo : Overrides),
     nd ∈ node Ex.chain → apply_policy QUInt8 QUInt8 ∅ tqo nd = Ok tqo).
Proof.
  split; [by vm_compute|]. split; [done|].
  intros nd tqo Hnd.
  repeat (apply elem_of_cons in Hnd as [->|Hnd]); [done..|].
  by apply elem_of_nil in Hnd.
Qed.

(** ** Conflicting consumer requests (C2) *)

Section conflicts.
Context (act : QuantType) (infos : gmap string ValueInfoProto).
Context (inits : gmap string TensorProto) (producers : gmap string NodeProto).

Lemma add_consumer_request_typed (reqs reqs' : TypeRequests) q' nm x' x q :
  add_consumer_request infos inits q' nm reqs x' = Ok reqs' →
  consumers_typed x q reqs → consumers_typed x q reqs'.
Proof.
  intros Hrun%add_consumer_request_Ok [names Hx].
  destruct (is_activation_input x' infos inits); [|subst; by exists names].
  destruct Hrun as (names' & Hold & ->). unfold consumers_typed, requested_consumers.
  destruct (decide (x' = x)) as [->|Hne].
  - rewrite dict_get_set_eq. simpl. rewrite Hx in Hold.
    apply elem_of_cons in Hold as [?|Hold]; [done|].
    apply list_elem_of_singleton in Hold. injection Hold as -> ->. by eexists.
  - rewrite dict_get_set_ne by done. by exists names.
Qed.

Lemma add_consumer_requests_typed (reqs reqs' : TypeRequests) q' nm inputs x q :
  for_each (add_consumer_request infos inits q' nm) inputs reqs = Ok reqs' →
  consumers_typed x q reqs → consumers_typed x q reqs'.
Proof.
  intros Hrun Hx. revert Hrun. apply (for_each_invariant (consumers_typed x q)); [|done].
  intros r1 r2 x' _ Hr1 Hrun. by apply (add_consumer_request_typed _ _ _ _ _ _ _ Hrun).
Qed.

Lemma add_consumer_request_records (reqs reqs' : TypeRequests) q nm x :
  is_activation_input x infos inits = true →
  add_consumer_request infos inits q nm reqs x = Ok reqs' →
  consumers_typed x q reqs'.
Proof.
  intros Hx Hrun%add_consumer_request_Ok. rewrite Hx in Hrun.
  destruct Hrun as (names & _ & ->). unfold consumers_typed, requested_consumers.
  rewrite dict_get_set_eq. by eexists.
Qed.

Lemma add_consumer_requests_records (reqs reqs' : TypeRequests) q nm inputs x :
  x ∈ inputs → is_activation_input x infos inits = true →
  for_each (add_consumer_request infos inits q nm) inputs reqs = Ok reqs' →
  consumers_typed x q reqs'.
Proof.
  intros (i1 & i2 & ->)%list_elem_of_split Hx Hrun.
  rewrite for_each_app in Hrun. apply bind_Ok in Hrun as (r1 & _ & Hrun).
  simpl in Hrun. apply bind_Ok in Hrun as (r2 & Hstep & Hrun).
  apply (add_consumer_requests_typed _ _ _ _ _ _ _ Hrun).
  by apply (add_consumer_request_records _ _ _ _ _ Hx Hstep).
Qed.

Lemma add_producer_request_typed (reqs reqs' : TypeRequests) k q' x q :
  add_producer_request reqs k q' = Ok reqs' →
  consumers_typed x q reqs → consumers_typed x q reqs'.
Proof.
  intros [_ ->]%add_producer_request_Ok [names Hx].
  exists names. unfold requested_consumers at 1. destruct (decide (k = x)) as [->|Hne].
  - by rewrite dict_get_set_eq.
  - by rewrite dict_get_set_ne.
Qed.

Lemma scan_override_typed (reqs reqs' : TypeRequests) item x q :
  scan_override act infos inits producers reqs item = Ok reqs' →
  consumers_typed x q reqs → consumers_typed x q reqs'.
Proof.
  destruct item as [k l].
  intros [->|(o & q' & nd & reqs1 & _ & _ & _ & _ & _ & _ & _ & Hprod & Hcons)]%scan_override_Ok;
    [done|].
  intros Hx. apply (add_consumer_requests_typed _ _ _ _ _ _ _ Hcons).
  by apply (add_producer_request_typed _ _ _ _ _ _ Hprod).
Qed.

(** After a successful scan every requested input type is the recorded one. *)
Lemma scan_records_requested_type (tqo : Overrides) (reqs : TypeRequests) x q :
  requests_input_type tqo act infos inits producers x q →
  for_each (scan_override act infos inits producers) tqo [] = Ok reqs →
  consumers_typed x q reqs.
Proof.
  intros (y & o & nd & Hin & Hquant & Hinit & Hq & Hne & Hconv & Hnd & Hx & Hact) Hrun.
  apply list_elem_of_split in Hin as (l1 & l2 & ->).
  rewrite for_each_app in Hrun. apply bind_Ok in Hrun as (r1 & _ & Hrun).
  simpl in Hrun. apply bind_Ok in Hrun as (r2 & Hstep & Hrun).
  revert Hrun. apply (for_each_invariant (consumers_typed x q)).
  { intros ra rb item _ Hra Hitem. by apply (scan_override_typed _ _ _ _ _ Hitem). }
  unfold scan_override in Hstep. rewrite Hquant, Hnd, Hq, Hconv in Hstep. simpl in Hstep.
  rewrite bool_decide_eq_false_2 in Hstep by (rewrite Hinit; by intros []).
  rewrite bool_decide_eq_true_2 in Hstep by done. simpl in Hstep.
  apply bind_Ok in Hstep as (r1' & _ & Hcons).
  by apply (add_consumer_requests_records _ _ _ _ _ _ Hx Hact Hcons).
Qed.

(** The only error the scan can raise on a table with unique keys whose
    scanned tensors all have producers is the consumer conflict. *)
Lemma scan_raises_only_conflicts (tqo : Overrides) e :
  NoDup (dict_keys tqo) → producers_known tqo infos inits producers →
  for_each (scan_override act infos inits producers) tqo [] = Raise e →
  ∃ x, e = ValueError (different_types_msg x).
Proof.
  intros Hnd Hknown (l1 & [k l] & l2 & r1 & -> & Hl1 & Hstep)%for_each_Raise.
  unfold scan_override in Hstep.
  destruct (_is_tensor_quantizable k infos inits) eqn:Hquant; simpl in Hstep; [|done].
  case_bool_decide as Hinit; [done|].
  destruct l as [|o [|o' l]]; [done| |done].
  destruct (Hknown k o) as [nd Hk]; [set_solver|done|by apply eq_None_not_Some|].
  rewrite Hk in Hstep. destruct (_ && _); [|done].
  destruct (add_producer_request r1 k _) as [r1'|e'] eqn:Hprod; simpl in Hstep.
  - apply for_each_Raise in Hstep as (i1 & x & i2 & r2 & _ & _ & Hx).
    exists x. unfold add_consumer_request in Hx.
    destruct (is_activation_input x infos inits); [|done].
    destruct (default (_, _) _) as [ty names]. by case_decide; [injection Hx as <-|].
  - exfalso. unfold add_producer_request in Hprod.
    destruct (dict_get k r1) as [[[p|] c]|] eqn:Hr1; [|done..].
    destruct (scan_producer_origin act infos inits producers l1 r1 k p Hl1)
      as (o' & Hin & _).
    { unfold requested_producer_type. by rewrite Hr1. }
    unfold dict_keys in Hnd. rewrite fmap_app, fmap_cons in Hnd.
    apply NoDup_app in Hnd as (_ & Hnd & _). apply (Hnd k); [|by left].
    apply list_elem_of_fmap. by exists (k, [o']).
Qed.
End conflicts.

(** Let the table have unique keys and let every tensor the scan looks
    up in [producers] have a producing node. If two override entries make
    the nodes producing their tensors request two different types for the
    same input tensor, then the resolver raises the consumer conflict
    [ValueError] - for the table in any order of its entries. *)
Theorem conflicting_consumer_requests_raise_in_any_order :
  ∀ (tqo : Overrides) (activation_type : QuantType)
    (value_infos : gmap string ValueInfoProto)
    (name_to_initializer : gmap string TensorProto)
    (producers : gmap string NodeProto) (consumers : gmap string (list NodeProto))
    (x : string) (q1 q2 : QuantType),
    NoDup (dict_keys tqo) →
    producers_known tqo value_infos name_to_initializer producers →
    requests_input_type tqo activation_type value_infos name_to_initializer producers x q1 →
    requests_input_type tqo activation_type value_infos name_to_initializer producers x q2 →
    q1 ≠ q2 →
    ∀ tqo' : Overrides, tqo' ≡ₚ tqo →
      ∃ x', _add_qtype_converts tqo' activation_type value_infos name_to_initializer
              producers consumers
            = Raise (ValueError (different_types_msg x')).
Proof.
  intros tqo act infos inits producers consumers x q1 q2 Hnd Hknown H1 H2 Hne tqo' Hperm.
  assert (NoDup (dict_keys tqo')) as Hnd'.
  { unfold dict_keys. by rewrite Hperm. }
  assert (producers_known tqo' infos inits producers) as Hknown'.
  { intros y o Hin. apply (Hknown y o). by rewrite <-Hperm. }
  assert (∀ q, requests_input_type tqo act infos inits producers x q →
               requests_input_type tqo' act infos inits producers x q) as Hreq.
  { intros q (y & o & nd & Hin & H). exists y, o, nd. split; [by rewrite Hperm | done]. }
  unfold _add_qtype_converts.
  destruct (for_each _ tqo' []) as [reqs|e] eqn:Hscan.
  - destruct (scan_records_requested_type _ _ _ _ _ _ _ _ (Hreq _ H1) Hscan) as [n1 Hn1].
    destruct (scan_records_requested_type _ _ _ _ _ _ _ _ (Hreq _ H2) Hscan) as [n2 Hn2].
    congruence.
  - destruct (scan_raises_only_conflicts _ _ _ _ _ _ Hnd' Hknown' Hscan) as [x' ->].
    by exists x'.
Qed.

Example conflict_raises_in_reverse_order :
  ∃ x', _add_qtype_converts (reverse Ex.conflict_tqo) QUInt8 Ex.chain_infos ∅
          Ex.chain_producers Ex.chain_consumers
        = Raise (ValueError (different_types_msg x')).
Proof.
  apply (conflicting_consumer_requests_raise_in_any_order Ex.conflict_tqo QUInt8
           Ex.chain_infos ∅ Ex.chain_producers Ex.chain_consumers "X" QInt16 QUInt16).
  - compute_done.
  - intros y o Hin _ _.
    repeat (apply elem_of_cons in Hin as [[= -> _]|Hin]); [by eexists..|].
    by apply elem_of_nil in Hin.
  - exists "Y", (Ex.with_type QInt16), Ex.P. split_and!; try done; by left.
  - exists "Z", (Ex.with_type QUInt16), Ex.Q. split_and!; try done.
    + right. by left.
    + by left.
  - done.
  - apply Permutation_swap.
Qed.

(** C2. The conflict error depends on the scan order when the table also
    overrides a quantizable tensor that no node produces. In the chain
    graph, [Y] at QInt16 and [Z] at QUInt16 make [P] and [Q] request their
    common input [X] at different types; [in] is a float graph input. With
    the entries in the order [Y], [Z], [in] the configuration call raises
    the consumer conflict for [X]; with [in] first, the lookup
    [producers[tensor_name]] of the scan raises [KeyError] and the conflict
    is not reported. *)
Theorem conflict_report_depends_on_scan_order :
  get_qnn_qdq_config Ex.chain tt tt QUInt8 QUInt8 (Some Ex.conflict_then_input_tqo)
    true false = Raise (ValueError (different_types_msg "X")) ∧
  get_qnn_qdq_config Ex.chain tt tt QUInt8 QUInt8 (Some Ex.input_then_conflict_tqo)
    true false = Raise (KeyError "in") ∧
  Ex.input_then_conflict_tqo ≡ₚ Ex.conflict_then_input_tqo ∧
  requests_input_type Ex.input_then_conflict_tqo QUInt8 (graph_value_infos Ex.chain)
    (graph_initializers Ex.chain) Ex.chain_producers "X" QInt16 ∧
  requests_input_type Ex.input_then_conflict_tqo QUInt8 (graph_value_infos Ex.chain)
    (graph_initializers Ex.chain) Ex.chain_producers "X" QUInt16.
Proof.
  split_and!.
  - by vm_compute.
  - by vm_compute.
  - symmetry. apply (Permutation_app_comm [_; _] [_]).
  - exists "Y", (Ex.with_type QInt16), Ex.P. split_and!; try done.
    + right. by left.
    + by left.
  - exists "Z", (Ex.with_type QUInt16), Ex.Q. split_and!; try done.
    + do 2 right. by left.
    + by left.
Qed.

(** ** The caller's table is not modified (C10) *)

Section frame.
Import Heap.
Context (h0 : Heap.heap).
Abbreviation new := (fresh_in h0).
Abbreviation closed := (obj_closed h0).
Abbreviation any := (λ _, True).

Lemma safe_ret {A : Type} (P : A → Prop) (a : A) : P a → safe h0 P (mret a).
Proof. intros Ha h Hh. split; [done|]. by intros a' [= <-]. Qed.

Lemma safe_raise {A : Type} (P : A → Prop) e : safe h0 P (raise e).
Proof. by intros h Hh. Qed.

Lemma safe_lift {A : Type} (P : A → Prop) (r : result A) :
  (∀ a, r = Ok a → P a) → safe h0 P (lift r).
Proof. by intros Hr h Hh. Qed.

Lemma safe_bind {A B : Type} (Q : A → Prop) (P : B → Prop) (m : M A) (f : A → M B) :
  safe h0 Q m → (∀ a, Q a → safe h0 P (f a)) → safe h0 P (m ≫= f).
Proof.
  intros Hm Hf h Hh. unfold mbind, M_bind. destruct (Hm h Hh) as [Hinv Hpost].
  destruct (m h) as [[a|e] h']; simpl in *; [|done].
  by apply Hf; [apply Hpost|].
Qed.

Lemma safe_weaken {A : Type} (Q P : A → Prop) (m : M A) :
  safe h0 Q m → (∀ a, Q a → P a) → safe h0 P m.
Proof. intros Hm HQP h Hh. destruct (Hm h Hh) as [Hinv Hpost]. naive_solver. Qed.

Lemma inv_insert h l o : inv h0 h → new l → closed o → inv h0 (<[l := o]> h).
Proof.
  intros [Hold Hnew] Hl Ho. split.
  - intros l' o' Hl'. rewrite lookup_insert_ne; [by apply Hold|].
    intros ->. unfold fresh_in in Hl. congruence.
  - intros l' o' Hl'. destruct (decide (l = l')) as [->|Hne].
    + rewrite lookup_insert_eq. by intros [= <-].
    + rewrite lookup_insert_ne by done. by apply Hnew.
Qed.

Lemma safe_alloc o : closed o → safe h0 new (alloc o).
Proof.
  intros Ho h Hh. unfold alloc. simpl.
  assert (new (fresh (dom h))) as Hfresh.
  { unfold fresh_in. destruct (h0 !! fresh (dom h)) as [o'|] eqn:Hl; [|done].
    apply Hh in Hl. apply (elem_of_dom_2 (D:=gset loc)) in Hl.
    by apply is_fresh in Hl. }
  split; [by apply inv_insert|]. by intros a [= <-].
Qed.

Lemma safe_put l o : new l → closed o → safe h0 any (put l o).
Proof. intros Hl Ho h Hh. split; [by apply inv_insert|done]. Qed.

Lemma safe_get_table l :
  safe h0 (λ entries, new l → closed (OTable entries)) (get_table l).
Proof.
  intros h Hh. unfold get_table. destruct (h !! l) as [[]|] eqn:Hl; simpl; try done.
  split; [done|]. intros a [= <-] Hfresh. exact (proj2 Hh l _ Hfresh Hl).
Qed.

Lemma safe_get_record l :
  safe h0 (λ fields, new l → closed (ORecord fields)) (get_record l).
Proof.
  intros h Hh. unfold get_record. destruct (h !! l) as [[]|] eqn:Hl; simpl; try done.
  split; [done|]. intros a [= <-] Hfresh. exact (proj2 Hh l _ Hfresh Hl).
Qed.

Lemma safe_get_convert l :
  safe h0 (λ c, new l → closed (OConvert c.1 c.2)) (get_convert l).
Proof.
  intros h Hh. unfold get_convert. destruct (h !! l) as [[]|] eqn:Hl; simpl; try done.
  split; [done|]. intros a [= <-] Hfresh. exact (proj2 Hh l _ Hfresh Hl).
Qed.

Lemma safe_get_set l : safe h0 any (get_set l).
Proof.
  intros h Hh. unfold get_set. by destruct (h !! l) as [[]|] eqn:Hl.
Qed.

Lemma safe_iter {A : Type} (body : A → M unit) (l : list A) :
  (∀ x, x ∈ l → safe h0 any (body x)) → safe h0 any (iter body l).
Proof.
  induction l as [|x l IH]; intros Hbody; simpl; [by apply safe_ret|].
  apply (safe_bind any); [apply Hbody; by left|].
  intros _ _. apply IH. intros y Hy. apply Hbody. by right.
Qed.

Lemma safe_map_each {A B : Type} (f : A → M B) (l : list A) :
  (∀ x, safe h0 any (f x)) → safe h0 any (map_each f l).
Proof.
  intros Hf. induction l as [|x l IH]; simpl; [by apply safe_ret|].
  apply (safe_bind any); [done|]. intros y _.
  apply (safe_bind any); [done|]. intros ys _. by apply safe_ret.
Qed.

Ltac safe_read :=
  eapply safe_weaken;
  [first [apply safe_get_table | apply safe_get_record
         | apply safe_get_convert | apply safe_get_set]
  | done].

(** *** Reading *)

Lemma safe_snapshot_convert c : safe h0 any (snapshot_convert c).
Proof.
  unfold snapshot_convert. apply (safe_bind any); [safe_read|].
  intros [q [s|]] _; [|by apply safe_ret].
  apply (safe_bind any); [safe_read|]. intros names _. by apply safe_ret.
Qed.

Lemma safe_snapshot_record r : safe h0 any (snapshot_record r).
Proof.
  unfold snapshot_record. apply (safe_bind any); [safe_read|].
  intros fields _. destruct (convert fields) as [c|]; [|by apply safe_ret].
  apply (safe_bind any); [apply safe_snapshot_convert|]. intros cd _. by apply safe_ret.
Qed.

Lemma safe_snapshot tqo : safe h0 any (snapshot tqo).
Proof.
  unfold snapshot. apply (safe_bind any); [safe_read|]. intros entries _.
  apply safe_map_each. intros [k rs]. apply (safe_bind any).
  - apply safe_map_each. apply safe_snapshot_record.
  - intros l _. by apply safe_ret.
Qed.

Lemma safe_get_output_activation_qtype t tqo act :
  safe h0 any (Heap._get_output_activation_qtype t tqo act).
Proof.
  unfold Heap._get_output_activation_qtype.
  apply (safe_bind any); [apply safe_snapshot|]. intros view _. by apply safe_lift.
Qed.

Lemma safe_check_not_in_convert_recv_nodes tqo t names :
  safe h0 any (Heap._check_not_in_convert_recv_nodes tqo t names).
Proof.
  unfold Heap._check_not_in_convert_recv_nodes.
  apply (safe_bind any); [apply safe_snapshot|]. intros view _. by apply safe_ret.
Qed.

(** *** The entry of a tensor *)

Lemma dict_set_elem {V : Type} (d : list (string * V)) k v k' v' :
  (k', v') ∈ dict_set k v d → (k', v') = (k, v) ∨ (k', v') ∈ d.
Proof.
  induction d as [|[k1 v1] d IH]; simpl.
  - intros ?%list_elem_of_singleton. by left.
  - case_decide as Hk.
    + intros [?|?]%elem_of_cons; [by left | right; by right].
    + intros [->|Hin]%elem_of_cons; [right; by left|].
      destruct (IH Hin) as [?|?]; [by left | right; by right].
Qed.

Lemma closed_table_set entries k rs :
  closed (OTable entries) → (∀ r, r ∈ rs → new r) →
  closed (OTable (dict_set k rs entries)).
Proof.
  intros Hentries Hrs k' rs' r [[= -> ->]|Hin]%dict_set_elem Hr; [by apply Hrs|].
  by apply (Hentries k' rs' r).
Qed.

Lemma safe_ensure_entry tqo t init :
  new tqo → closed (ORecord init) → safe h0 any (Heap.ensure_entry tqo t init).
Proof.
  intros Htqo Hinit. unfold Heap.ensure_entry.
  eapply safe_bind; [apply safe_get_table|]. intros entries Hentries.
  specialize (Hentries Htqo).
  assert (safe h0 any (r ← alloc (ORecord init);
                       put tqo (OTable (dict_set t [r] entries)))) as Hnew.
  { eapply safe_bind; [by apply safe_alloc|]. intros r Hr.
    apply safe_put; [done|]. apply closed_table_set; [done|].
    by intros r' ->%list_elem_of_singleton. }
  destruct (dict_get t entries) as [[|r rs]|]; [done| |done]. by apply safe_ret.
Qed.

Lemma safe_entry_list tqo t :
  new tqo → safe h0 (λ rs, ∀ r, r ∈ rs → new r) (entry_list tqo t).
Proof.
  intros Htqo. unfold entry_list.
  eapply safe_bind; [apply safe_get_table|]. intros entries Hentries.
  specialize (Hentries Htqo). apply safe_lift. unfold dict_item.
  destruct (dict_get t entries) as [rs|] eqn:Ht; [|done].
  intros rs' [= <-] r Hr. apply dict_get_Some_elem in Ht. by apply (Hentries t rs r).
Qed.

Lemma safe_first_record tqo t : new tqo → safe h0 new (Heap.first_record tqo t).
Proof.
  intros Htqo. unfold Heap.first_record.
  eapply safe_bind; [by apply safe_entry_list|]. intros [|r rs] Hrs; simpl.
  - apply safe_raise.
  - apply safe_ret. apply Hrs. by left.
Qed.

(** *** The mutators *)

Lemma safe_set_weight_type tqo t w sym :
  new tqo → safe h0 any (Heap._set_weight_type tqo t w sym).
Proof.
  intros Htqo. unfold Heap._set_weight_type.
  apply (safe_bind any); [by apply safe_ensure_entry|]. intros _ _.
  eapply safe_bind; [by apply safe_entry_list|]. intros rs _.
  case_decide; [apply safe_raise|].
  eapply safe_bind; [by apply safe_first_record|]. intros r Hr.
  eapply safe_bind; [apply safe_get_record|]. intros fields Hfields.
  specialize (Hfields Hr). destruct (_ && _); [|by apply safe_ret].
  by apply safe_put.
Qed.

Lemma safe_set_scale_zero_point tqo t q sc zp :
  new tqo → safe h0 any (Heap._set_scale_zero_point tqo t q sc zp).
Proof.
  intros Htqo. unfold Heap._set_scale_zero_point.
  apply (safe_bind any); [by apply safe_ensure_entry|]. intros _ _.
  eapply safe_bind; [by apply safe_entry_list|]. intros rs _.
  case_decide; [apply safe_raise|].
  eapply safe_bind; [by apply safe_first_record|]. intros r Hr.
  eapply safe_bind; [apply safe_get_record|]. intros fields Hfields.
  specialize (Hfields Hr).
  apply (safe_bind (λ fields, closed (ORecord fields))).
  { destruct (quant_type fields); [by apply safe_ret|].
    apply (safe_bind any); [by apply safe_put|]. intros _ _. by apply safe_ret. }
  intros fields' Hfields'. destruct (bool_decide _); [|apply safe_raise].
  destruct (range_keys_present fields'); [by apply safe_ret|]. by apply safe_put.
Qed.

Lemma safe_add_to_convert_recv_nodes tqo t p c names :
  new tqo → safe h0 any (Heap._add_to_convert_recv_nodes tqo t p c names).
Proof.
  intros Htqo. unfold Heap._add_to_convert_recv_nodes.
  apply (safe_bind any); [by apply safe_ensure_entry|]. intros _ _.
  eapply safe_bind; [by apply safe_first_record|]. intros r Hr.
  eapply safe_bind; [apply safe_get_record|]. intros fields Hfields.
  specialize (Hfields Hr).
  apply (safe_bind new).
  { destruct (convert fields) as [cv|] eqn:Hcv; [apply safe_ret; by apply Hfields|].
    eapply safe_bind; [by apply safe_alloc|]. intros cv Hcv'.
    apply (safe_bind any); [|intros _ _; by apply safe_ret].
    apply safe_put; [done|]. by intros ? [= <-]. }
  intros cv Hcv. eapply safe_bind; [apply safe_get_convert|].
  intros [q recv] Hconv. specialize (Hconv Hcv). simpl in Hconv.
  case_decide; [|apply safe_raise].
  apply (safe_bind new).
  { destruct recv as [s|]; [apply safe_ret; by apply Hconv|].
    eapply safe_bind; [by apply safe_alloc|]. intros s Hs.
    apply (safe_bind any); [|intros _ _; by apply safe_ret].
    apply safe_put; [done|]. by intros ? [= <-]. }
  intros s Hs. apply (safe_bind any); [safe_read|]. intros ns _. by apply safe_put.
Qed.

(** *** The resolver and the policy *)

Lemma safe_process_request act consumers tqo item :
  new tqo → safe h0 any (Heap.process_request act consumers tqo item).
Proof.
  intros Htqo. destruct item as [t [[p|] [[ct names]|]]]; unfold Heap.process_request; simpl.
  - case_decide; [by apply safe_add_to_convert_recv_nodes|].
    apply (safe_bind any).
    { destruct (consumers !! t); [by apply safe_ret | apply safe_raise]. }
    intros nodes _. case_decide; [|by apply safe_add_to_convert_recv_nodes].
    eapply safe_bind; [by apply safe_first_record|]. intros r Hr.
    apply (safe_bind any); [safe_read|]. intros fields _.
    destruct (has_key _); [apply safe_raise | by apply safe_ret].
  - eapply safe_bind; [by apply safe_first_record|]. intros r Hr.
    eapply safe_bind; [by apply safe_alloc|]. intros c Hc.
    eapply safe_bind; [apply safe_get_record|]. intros fields Hfields.
    apply safe_put; [done|]. by intros ? [= <-].
  - apply (safe_bind any); [apply safe_get_output_activation_qtype|]. intros pt _.
    case_decide; [by apply safe_add_to_convert_recv_nodes|].
    apply (safe_bind any); [apply safe_check_not_in_convert_recv_nodes|].
    intros [] _; [by apply safe_ret | apply safe_raise].
  - apply (safe_bind any); [apply safe_get_output_activation_qtype|]. intros pt _.
    apply safe_raise.
Qed.

Lemma safe_add_qtype_converts tqo act infos inits producers consumers :
  new tqo →
  safe h0 any (Heap._add_qtype_converts tqo act infos inits producers consumers).
Proof.
  intros Htqo. unfold Heap._add_qtype_converts.
  apply (safe_bind any); [apply safe_snapshot|]. intros view _.
  apply (safe_bind any); [by apply safe_lift|]. intros reqs _.
  apply safe_iter. intros item _. by apply safe_process_request.
Qed.

(** The Sigmoid and Tanh branches: the output type is read, then at most
    one call of [_set_scale_zero_point] follows. *)
Lemma safe_pin tqo act n sc1 zp1 sc2 zp2 :
  new tqo →
  safe h0 any
    (out ← lift (output0 n);
     output_type ← Heap._get_output_activation_qtype out tqo act;
     if decide (output_type = QUInt16) then
       Heap._set_scale_zero_point tqo out output_type sc1 zp1
     else if decide (output_type = QInt16) then
       Heap._set_scale_zero_point tqo out output_type sc2 zp2
     else mret ()).
Proof.
  intros Htqo.
  apply (safe_bind any); [by apply safe_lift|]. intros out _.
  apply (safe_bind any); [apply safe_get_output_activation_qtype|]. intros ty _.
  repeat case_decide; first [by apply safe_set_scale_zero_point | by apply safe_ret].
Qed.

Lemma safe_apply_policy act wt inits tqo n :
  new tqo → safe h0 any (Heap.apply_policy act wt inits tqo n).
Proof.
  intros Htqo. unfold Heap.apply_policy.
  destruct (_ && _).
  { apply (safe_bind any); [apply safe_snapshot|]. intros view _.
    destruct (foldl _ _ _) as [a w].
    destruct (_ && _); [by apply safe_set_weight_type | by apply safe_ret]. }
  destruct (_ && _).
  { apply (safe_bind any); [apply safe_snapshot|]. intros view _.
    destruct (has_q16_activation _ _ _ _ _); [|by apply safe_ret].
    apply safe_iter. intros i _. unfold Heap.layernorm_weight.
    destruct (input n !! i); [|apply safe_raise].
    destruct (bool_decide _); [by apply safe_set_weight_type | by apply safe_ret]. }
  destruct (bool_decide _); [by apply safe_pin|].
  destruct (bool_decide _); [by apply safe_pin|].
  by apply safe_ret.
Qed.

(** *** The deep copy *)

Lemma memo_closed_insert memo l l' :
  memo_closed h0 memo → new l' → memo_closed h0 (<[l := l']> memo).
Proof.
  intros Hmemo Hl' x x'. destruct (decide (l = x)) as [->|Hne].
  - rewrite lookup_insert_eq. by intros [= <-].
  - rewrite lookup_insert_ne by done. apply Hmemo.
Qed.

Lemma safe_copy_set memo s :
  memo_closed h0 memo →
  safe h0 (λ p, new p.1 ∧ memo_closed h0 p.2) (copy_set memo s).
Proof.
  intros Hmemo. unfold copy_set. destruct (memo !! s) as [s'|] eqn:Hs.
  { apply safe_ret. split; [by apply (Hmemo s)|done]. }
  apply (safe_bind any); [safe_read|]. intros names _.
  eapply safe_bind; [by apply safe_alloc|]. intros s' Hs'.
  apply safe_ret. split; [done|]. by apply memo_closed_insert.
Qed.

Lemma safe_copy_convert memo c :
  memo_closed h0 memo →
  safe h0 (λ p, new p.1 ∧ memo_closed h0 p.2) (copy_convert memo c).
Proof.
  intros Hmemo. unfold copy_convert. destruct (memo !! c) as [c'|] eqn:Hc.
  { apply safe_ret. split; [by apply (Hmemo c)|done]. }
  apply (safe_bind any); [safe_read|]. intros [q recv] _.
  apply (safe_bind (λ p, (∀ s, p.1 = Some s → new s) ∧ memo_closed h0 p.2)).
  { destruct recv as [s|]; [|by apply safe_ret].
    eapply safe_bind; [by apply safe_copy_set|]. intros [s' memo'] [Hs' Hmemo'].
    apply safe_ret. split; [by intros ? [= <-] | done]. }
  intros [recv' memo'] [Hrecv' Hmemo']. simpl in *.
  eapply safe_bind; [by apply safe_alloc|]. intros c' Hc'.
  apply safe_ret. split; [done|]. by apply memo_closed_insert.
Qed.

Lemma safe_copy_record memo r :
  memo_closed h0 memo →
  safe h0 (λ p, new p.1 ∧ memo_closed h0 p.2) (copy_record memo r).
Proof.
  intros Hmemo. unfold copy_record. destruct (memo !! r) as [r'|] eqn:Hr.
  { apply safe_ret. split; [by apply (Hmemo r)|done]. }
  apply (safe_bind any); [safe_read|]. intros fields _.
  apply (safe_bind (λ p, (∀ c, p.1 = Some c → new c) ∧ memo_closed h0 p.2)).
  { destruct (convert fields) as [c|]; [|by apply safe_ret].
    eapply safe_bind; [by apply safe_copy_convert|]. intros [c' memo'] [Hc' Hmemo'].
    apply safe_ret. split; [by intros ? [= <-] | done]. }
  intros [c' memo'] [Hc' Hmemo']. simpl in *.
  eapply safe_bind; [by apply safe_alloc|]. intros r' Hr'.
  apply safe_ret. split; [done|]. by apply memo_closed_insert.
Qed.

Lemma safe_copy_records memo rs :
  memo_closed h0 memo →
  safe h0 (λ p, (∀ r, r ∈ p.1 → new r) ∧ memo_closed h0 p.2) (copy_records memo rs).
Proof.
  revert memo. induction rs as [|r rs IH]; intros memo Hmemo; simpl.
  { apply safe_ret. split; [|done]. by intros r ?%elem_of_nil. }
  eapply safe_bind; [by apply safe_copy_record|]. intros [r' memo1] [Hr' Hmemo1].
  eapply safe_bind; [by apply IH|]. intros [rs' memo2] [Hrs' Hmemo2].
  apply safe_ret. split; [|done]. simpl in *.
  intros x [->|Hx]%elem_of_cons; [done | by apply Hrs'].
Qed.

Lemma safe_copy_entries memo entries :
  memo_closed h0 memo →
  safe h0 (λ p, closed (OTable p.1) ∧ memo_closed h0 p.2) (copy_entries memo entries).
Proof.
  revert memo. induction entries as [|[k rs] entries IH]; intros memo Hmemo; simpl.
  { apply safe_ret. split; [|done]. by intros k rs r ?%elem_of_nil. }
  eapply safe_bind; [by apply safe_copy_records|]. intros [rs' memo1] [Hrs' Hmemo1].
  eapply safe_bind; [by apply IH|]. intros [entries' memo2] [Hentries' Hmemo2].
  apply safe_ret. split; [|done]. simpl in *.
  intros k' rs'' r [[= -> ->]|Hin]%elem_of_cons Hr; [by apply Hrs'|].
  by apply (Hentries' k' rs'' r).
Qed.

Lemma safe_deepcopy l : safe h0 new (deepcopy l).
Proof.
  unfold deepcopy. apply (safe_bind any); [safe_read|]. intros entries _.
  eapply safe_bind; [by apply safe_copy_entries|]. intros [entries' memo] [Hentries' _].
  by apply safe_alloc.
Qed.

(** *** The entry point *)

Lemma safe_get_qnn_qdq_config {Reader Method : Type} model (reader : Reader)
    (method : Method) act wt init_overrides add_conv per_channel :
  safe h0 (λ cfg, new (TensorQuantOverrides (cfg_extra_options cfg)))
    (Heap.get_qnn_qdq_config model reader method act wt init_overrides add_conv
       per_channel).
Proof.
  unfold Heap.get_qnn_qdq_config. destruct per_channel; [apply safe_raise|].
  apply (safe_bind any); [by apply safe_lift|]. intros [[op_types consumers] producers] _.
  apply (safe_bind new).
  { assert (closed (OTable [])) as Hempty by (by intros k rs r ?%elem_of_nil).
    destruct init_overrides as [l|]; [|by apply safe_alloc].
    apply (safe_bind any); [safe_read|]. intros entries _.
    destruct (bool_decide _); [apply safe_deepcopy | by apply safe_alloc]. }
  intros tqo Htqo. apply (safe_bind any); [safe_read|]. intros entries _.
  apply (safe_bind any).
  { destruct (_ && _); [by apply safe_add_qtype_converts | by apply safe_ret]. }
  intros _ _. apply (safe_bind any).
  { apply safe_iter. intros n _. by apply safe_apply_policy. }
  intros _ _. by apply safe_ret.
Qed.
End frame.

Section reading.
Import Heap.

Lemma reads_only_ret {A : Type} (a : A) : reads_only (mret a).
Proof. intros h a' [= <-]. split; [done|]. by intros h' _. Qed.

Lemma reads_only_bind {A B : Type} (m : M A) (f : A → M B) :
  reads_only m → (∀ a, reads_only (f a)) → reads_only (m ≫= f).
Proof.
  intros Hm Hf h b. unfold mbind, M_bind.
  destruct (m h) as [[a|e] h1] eqn:Hmh; simpl; [|done].
  destruct (Hm h a) as [Hh1 Hm']; [by rewrite Hmh|].
  rewrite Hmh in Hh1. simpl in Hh1. subst h1. intros Hb.
  destruct (Hf a h b Hb) as [Hh2 Hf']. split; [done|].
  intros h' Hsub. rewrite (Hm' h' Hsub). by apply Hf'.
Qed.

Lemma reads_only_get_table l : reads_only (get_table l).
Proof.
  intros h a. unfold get_table. destruct (h !! l) as [[]|] eqn:Hl; simpl; try done.
  intros [= <-]. split; [done|]. intros h' Hsub.
  by rewrite (lookup_weaken _ _ _ _ Hl Hsub).
Qed.

Lemma reads_only_get_record l : reads_only (get_record l).
Proof.
  intros h a. unfold get_record. destruct (h !! l) as [[]|] eqn:Hl; simpl; try done.
  intros [= <-]. split; [done|]. intros h' Hsub.
  by rewrite (lookup_weaken _ _ _ _ Hl Hsub).
Qed.

Lemma reads_only_get_convert l : reads_only (get_convert l).
Proof.
  intros h a. unfold get_convert. destruct (h !! l) as [[]|] eqn:Hl; simpl; try done.
  intros [= <-]. split; [done|]. intros h' Hsub.
  by rewrite (lookup_weaken _ _ _ _ Hl Hsub).
Qed.

Lemma reads_only_get_set l : reads_only (get_set l).
Proof.
  intros h a. unfold get_set. destruct (h !! l) as [[]|] eqn:Hl; simpl; try done.
  intros [= <-]. split; [done|]. intros h' Hsub.
  by rewrite (lookup_weaken _ _ _ _ Hl Hsub).
Qed.

Lemma reads_only_map_each {A B : Type} (f : A → M B) (l : list A) :
  (∀ x, reads_only (f x)) → reads_only (map_each f l).
Proof.
  intros Hf. induction l as [|x l IH]; simpl; [apply reads_only_ret|].
  apply reads_only_bind; [done|]. intros y.
  apply reads_only_bind; [done|]. intros ys. apply reads_only_ret.
Qed.

Lemma reads_only_snapshot tqo : reads_only (snapshot tqo).
Proof.
  unfold snapshot. apply reads_only_bind; [apply reads_only_get_table|].
  intros entries. apply reads_only_map_each. intros [k rs].
  apply reads_only_bind; [|intros; apply reads_only_ret].
  apply reads_only_map_each. intros r. unfold snapshot_record.
  apply reads_only_bind; [apply reads_only_get_record|]. intros fields.
  destruct (convert fields) as [c|]; [|apply reads_only_ret].
  apply reads_only_bind; [|intros; apply reads_only_ret].
  unfold snapshot_convert. apply reads_only_bind; [apply reads_only_get_convert|].
  intros [q [s|]]; [|apply reads_only_ret].
  apply reads_only_bind; [apply reads_only_get_set|]. intros; apply reads_only_ret.
Qed.
End reading.

(** C10. A call with [init_overrides] a reference to the caller's table,
    on any store and whether it returns or raises, leaves every object
    that was in the store as it was: the store after the call extends the
    store before it. The table the returned configuration refers to is an
    object that did not exist before the call, and the caller's table, read
    as a value, is the same after the call as before. *)
Theorem init_overrides_left_unchanged :
  ∀ {Reader Method : Type} (model : GraphProto) (reader : Reader) (method : Method)
    (activation_type weight_type : QuantType) (init_overrides : Heap.loc)
    (add_qtype_converts per_channel : bool) (h : Heap.heap),
    let run := Heap.get_qnn_qdq_config model reader method activation_type weight_type
                 (Some init_overrides) add_qtype_converts per_channel h in
    h ⊆ run.2 ∧
    (∀ cfg, run.1 = Ok cfg → h !! TensorQuantOverrides (cfg_extra_options cfg) = None) ∧
    (∀ table, (Heap.snapshot init_overrides h).1 = Ok table →
              (Heap.snapshot init_overrides run.2).1 = Ok table).
Proof.
  intros R M model reader method act wt init add_conv per_channel h run.
  destruct (safe_get_qnn_qdq_config h model reader method act wt (Some init)
              add_conv per_channel h) as [[Hold _] Hnew].
  { split; [done|]. unfold Heap.fresh_in. congruence. }
  fold run in Hold, Hnew. assert (h ⊆ run.2) as Hsub.
  { apply map_subseteq_spec. apply Hold. }
  split_and!; [done | apply Hnew |].
  intros table Htable.
  destruct (reads_only_snapshot init h table Htable) as [_ Hlarger].
  by rewrite (Hlarger _ Hsub).
Qed.

Lemma init_overrides_left_unchanged_witness :
  let run := Heap.get_qnn_qdq_config Ex.chain tt tt QUInt8 QUInt8 (Some 0) true false
               Ex.caller_heap in
  Ex.caller_heap ⊆ run.2 ∧
  Ex.caller_heap !! 5 = None ∧
  (Heap.snapshot 0 run.2).1 = Ok Ex.scenario_c_tqo.
Proof.
  intros run.
  destruct (init_overrides_left_unchanged Ex.chain tt tt QUInt8 QUInt8 0 true false
              Ex.caller_heap) as (Hsub & Hnew & Hsame).
  split_and!.
  - exact Hsub.
  - apply (Hnew {| cfg_calibration_data_reader := tt; cfg_calibrate_method := tt;
                   cfg_activation_type := QUInt8; cfg_weight_type := QUInt8;
                   cfg_op_types_to_quantize := {["Relu"]};
                   cfg_extra_options :=
                     {| MinimumRealRange := 1 # 10000; DedicatedQDQPair := false;
                        TensorQuantOverrides := 5; UseQDQContribOps := None |} |}).
    vm_compute. reflexivity.
  - apply Hsame. vm_compute. reflexivity.
Defined.

(** The store model tells the copy from the original: the table the call
    worked on holds the resolved overrides of scenario C, as computed on
    values, while the resolver applied to the caller's own table changes
    the caller's record of [X]. *)
Example resolver_mutates_the_table_it_is_given :
  let run := Heap.get_qnn_qdq_config Ex.chain tt tt QUInt8 QUInt8 (Some 0) true false
               Ex.caller_heap in
  (Heap.snapshot 5 run.2).1
    = resolved_overrides
        (get_qnn_qdq_config Ex.chain tt tt QUInt8 QUInt8 (Some Ex.scenario_c_tqo)
           true false) ∧
  (Heap._add_qtype_converts 0 QUInt8 Ex.chain_infos ∅ Ex.chain_producers
     Ex.chain_consumers Ex.caller_heap).2 !! 1
    = Some (Heap.ORecord (set_convert 3 (set_quant_type QInt16 empty_override))).
Proof. split; vm_compute; reflexivity. Qed.

(** On these tables the call on the store returns the table, or raises
    the exception, that the call on values does. *)
Example models_agree_on_examples :
  Forall (λ '(model, activation_type, weight_type, init_overrides),
            Heap.run_on_value model activation_type weight_type init_overrides true
            = resolved_overrides
                (get_qnn_qdq_config model () () activation_type weight_type
                   (Some init_overrides) true false))
    [(Ex.chain, QUInt8, QUInt8, Ex.scenario_c_tqo);
     (Ex.chain, QUInt8, QUInt8, Ex.convert_conflict_tqo);
     (Ex.chain, QUInt8, QUInt8, Ex.conflict_tqo);
     (Ex.chain, QUInt8, QUInt8, Ex.input_then_conflict_tqo);
     (Ex.chain, QUInt8, QUInt8, Ex.per_channel_tqo);
     (Ex.mlp, QUInt8, QInt8, Ex.mlp_tqo);
     (Ex.mlp, QUInt16, QInt8, []);
     (Ex.mlp, QUInt16, QUInt8, [("s", [Ex.ranged])])].
Proof. repeat constructor; vm_compute; reflexivity. Qed.

(** The same agreement on a graph where the policy rules fire, with the
    resolver switched off: the MatMul weight is promoted and the Sigmoid
    output is pinned in the copy. *)
Example policy_on_store_agrees_with_policy_on_values :
  let run := Heap.get_qnn_qdq_config Ex.mlp tt tt QUInt8 QInt8 (Some 0) false false
               Ex.mlp_heap in
  (cfg ← run.1;
   (Heap.snapshot (TensorQuantOverrides (cfg_extra_options cfg)) run.2).1)
  = Ok [("A", [Ex.with_type QUInt16]);
        ("s", [set_scale (1 # 65536) (set_zero_point 0 (Ex.with_type QUInt16))]);
        ("W", [set_symmetric true (Ex.with_type QInt8)])] ∧
  resolved_overrides
    (get_qnn_qdq_config Ex.mlp tt tt QUInt8 QInt8 (Some Ex.mlp_tqo) false false)
  = Ok [("A", [Ex.with_type QUInt16]);
        ("s", [set_scale (1 # 65536) (set_zero_point 0 (Ex.with_type QUInt16))]);
        ("W", [set_symmetric true (Ex.with_type QInt8)])] ∧
  (Heap.snapshot 0 run.2).1 = Ok Ex.mlp_tqo.
Proof. split_and!; vm_compute; reflexivity. Qed.

(** Scenario D of the specification: a per-channel request is refused
    before the graph is looked at. *)
Example per_channel_is_refused (model : GraphProto) init_overrides add_qtype_converts :
  get_qnn_qdq_config model tt tt QUInt8 QUInt8 init_overrides add_qtype_converts true
  = Raise (ValueError "QNN EP does not yet support per-channel quantization.").
Proof. reflexivity. Qed.

(** * Further properties *)

(** ** Indexing the graph *)

Lemma index_node_unfold ops cons prods n :
  index_node (ops, cons, prods) n =
  (prods' ← for_each (register_output n) (output n) prods;
   Ok (ops ∪ {[op_type n]}, foldl (register_input n) cons (input n), prods')).
Proof. reflexivity. Qed.

Lemma register_output_Ok n (prods p : gmap string NodeProto) o :
  register_output n prods o = Ok p ↔ o ≠ "" ∧ prods !! o = None ∧ p = <[o := n]> prods.
Proof.
  unfold register_output. case_bool_decide as Hempty.
  { split; [done|]. by intros [? _]. }
  case_bool_decide as Hdup.
  - split; [done|]. intros (_ & Hnone & _). rewrite Hnone in Hdup. by destruct Hdup.
  - apply eq_None_not_Some in Hdup. split.
    + by intros [= <-].
    + by intros (_ & _ & ->).
Qed.

(** The loop over the outputs of one node succeeds exactly when the names
    are non-empty, distinct and not yet produced; it then maps each of them
    to the node. *)
Lemma register_outputs_Ok n outs (prods prods' : gmap string NodeProto) :
  for_each (register_output n) outs prods = Ok prods' ↔
  NoDup outs ∧ ("" ∉ outs) ∧ (∀ t, t ∈ outs → prods !! t = None) ∧
  (∀ t, prods' !! t = (if decide (t ∈ outs) then Some n else prods !! t)).
Proof.
  revert prods. induction outs as [|o outs IH]; intros prods; cbn [for_each].
  - split.
    + intros [= <-]. split_and!; [constructor|apply not_elem_of_nil| |].
      * by intros t ?%elem_of_nil.
      * intros t. destruct (decide (t ∈ [])) as [Ht|Ht]; [by apply elem_of_nil in Ht|done].
    + intros (_ & _ & _ & Hget). f_equal. apply map_eq. intros t.
      rewrite Hget. destruct (decide (t ∈ [])) as [Ht|Ht]; [by apply elem_of_nil in Ht|done].
  - destruct (register_output n prods o) as [p|e] eqn:Hreg; simpl.
    2:{ split; [done|]. intros (_ & Hne & Hfree & _). unfold register_output in Hreg.
        rewrite bool_decide_eq_false_2 in Hreg
          by (intros ->; apply Hne; by left).
        rewrite bool_decide_eq_false_2 in Hreg; [done|].
        rewrite (Hfree o) by (by left). by intros []. }
    apply register_output_Ok in Hreg as (Hempty & Hdup & ->).
    rewrite IH. split.
    + intros (Hnd & Hne & Hfree & Hget).
      assert (o ∉ outs) as Ho.
      { intros Ho. specialize (Hfree o Ho). by rewrite lookup_insert_eq in Hfree. }
      split_and!.
      * by constructor.
      * intros [?|?]%elem_of_cons; [by subst|done].
      * intros t [->|Ht]%elem_of_cons; [done|].
        specialize (Hfree t Ht). rewrite lookup_insert_ne in Hfree; [done|].
        by intros ->.
      * intros t. rewrite Hget. destruct (decide (t = o)) as [->|Hto].
        -- rewrite decide_False by done. rewrite lookup_insert_eq.
           by rewrite decide_True by (by left).
        -- rewrite lookup_insert_ne by done.
           destruct (decide (t ∈ outs)) as [Ht|Ht].
           ++ by rewrite decide_True by (by right).
           ++ rewrite decide_False; [done|]. by intros [?|?]%elem_of_cons.
    + intros (Hnd & Hne & Hfree & Hget). apply NoDup_cons in Hnd as [Ho Hnd].
      split_and!; [done| | |].
      * intros H. apply Hne. by right.
      * intros t Ht. rewrite lookup_insert_ne; [apply Hfree; by right|].
        by intros ->.
      * intros t. rewrite Hget. destruct (decide (t = o)) as [->|Hto].
        -- rewrite decide_True by (by left). rewrite decide_False by done.
           by rewrite lookup_insert_eq.
        -- rewrite lookup_insert_ne by done.
           destruct (decide (t ∈ outs)) as [Ht|Ht].
           ++ by rewrite decide_True by (by right).
           ++ rewrite decide_False; [done|]. by intros [?|?]%elem_of_cons.
Qed.

Lemma register_inputs_elem n ins (cons : gmap string (list NodeProto)) t m :
  m ∈ default [] (foldl (register_input n) cons ins !! t) ↔
  m ∈ default [] (cons !! t) ∨ (m = n ∧ t ≠ "" ∧ t ∈ ins).
Proof.
  revert cons. induction ins as [|i ins IH]; intros cons; simpl.
  - split; [by left|]. intros [?|(_ & _ & ?%elem_of_nil)]; done.
  - rewrite IH. unfold register_input. case_bool_decide as Hi.
    + destruct (decide (i = t)) as [->|Hit].
      * rewrite lookup_insert_eq. simpl. rewrite elem_of_app, list_elem_of_singleton.
        split.
        -- intros [[?| ->]|(-> & ? & ?)]; [by left|right..].
           ++ split_and!; [done..|by left].
           ++ split_and!; [done..|by right].
        -- intros [?|(-> & ? & _)]; left; [by left|by right].
      * rewrite lookup_insert_ne by done. split.
        -- intros [?|(-> & ? & ?)]; [by left|right]. split_and!; [done..|by right].
        -- intros [?|(-> & ? & [->|?]%elem_of_cons)]; [by left|done|right; done].
    + subst i. split.
      * intros [?|(-> & ? & ?)]; [by left|right]. split_and!; [done..|by right].
      * intros [?|(-> & ? & [->|?]%elem_of_cons)]; [by left|done|right; done].
Qed.

Lemma register_inputs_key n ins (cons : gmap string (list NodeProto)) t :
  is_Some (foldl (register_input n) cons ins !! t) ↔
  is_Some (cons !! t) ∨ (t ≠ "" ∧ t ∈ ins).
Proof.
  revert cons. induction ins as [|i ins IH]; intros cons; simpl.
  - split; [by left|]. intros [?|(_ & ?%elem_of_nil)]; done.
  - rewrite IH. unfold register_input. case_bool_decide as Hi.
    + destruct (decide (i = t)) as [->|Hit].
      * rewrite lookup_insert_eq. split; [|by left]. intros _. right.
        split; [done|by left].
      * rewrite lookup_insert_ne by done. split.
        -- intros [?|(? & ?)]; [by left|right]. split; [done|by right].
        -- intros [?|(? & [->|?]%elem_of_cons)]; [by left|done|right; done].
    + subst i. split.
      * intros [?|(? & ?)]; [by left|right]. split; [done|by right].
      * intros [?|(? & [->|?]%elem_of_cons)]; [by left|done|right; done].
Qed.

Section index.
Implicit Types (ops : gset string) (cons : gmap string (list NodeProto)).
Implicit Types (prods : gmap string NodeProto).

(** What a successful indexing loop has checked and built, from any
    starting state. *)
Lemma index_nodes_Ok nodes ops cons prods ops' cons' prods' :
  for_each index_node nodes (ops, cons, prods) = Ok (ops', cons', prods') →
  NoDup (graph_outputs nodes) ∧ ("" ∉ graph_outputs nodes) ∧
  (∀ t, t ∈ graph_outputs nodes → prods !! t = None) ∧
  ops' = ops ∪ list_to_set (op_type <$> nodes) ∧
  (∀ t m, prods' !! t = Some m ↔
          prods !! t = Some m ∨ (m ∈ nodes ∧ t ∈ output m)) ∧
  (∀ t m, m ∈ default [] (cons' !! t) ↔
          m ∈ default [] (cons !! t) ∨ (t ≠ "" ∧ m ∈ nodes ∧ t ∈ input m)) ∧
  (∀ t, is_Some (cons' !! t) ↔
        is_Some (cons !! t) ∨ (t ≠ "" ∧ ∃ m, m ∈ nodes ∧ t ∈ input m)).
Proof.
  revert ops cons prods. induction nodes as [|n nodes IH]; intros ops cons prods.
  { simpl. intros [= <- <- <-]. unfold graph_outputs. simpl.
    split_and!; [constructor|apply not_elem_of_nil|by intros t ?%elem_of_nil| | | |].
    - by rewrite (right_id_L ∅ (∪)).
    - intros t m. split; [by left|]. by intros [?|[?%elem_of_nil _]].
    - intros t m. split; [by left|]. by intros [?|(_ & ?%elem_of_nil & _)].
    - intros t. split; [by left|]. by intros [?|(_ & m & ?%elem_of_nil & _)]. }
  cbn [for_each]. rewrite index_node_unfold. intros Hrun.
  apply bind_Ok in Hrun as ([[ops1 cons1] prods1] & Hn & Hrest).
  apply bind_Ok in Hn as (p & Hp & [= <- <- <-]).
  apply register_outputs_Ok in Hp as (Hnd & Hne & Hfree & Hget).
  apply IH in Hrest as (Hnd' & Hne' & Hfree' & -> & Hprods & Hcons & Hkeys).
  assert (∀ t, t ∈ output n → t ∉ graph_outputs nodes) as Hdisj.
  { intros t Ht Ht'. specialize (Hfree' t Ht'). rewrite Hget in Hfree'.
    by rewrite decide_True in Hfree' by done. }
  unfold graph_outputs in *. simpl.
  split_and!.
  - apply NoDup_app. split_and!; done.
  - rewrite elem_of_app. by intros [?|?].
  - intros t [Ht|Ht]%elem_of_app; [by apply Hfree|].
    specialize (Hfree' t Ht). rewrite Hget in Hfree'.
    by destruct (decide (t ∈ output n)).
  - by rewrite (assoc_L (∪)).
  - intros t m. rewrite Hprods, Hget. destruct (decide (t ∈ output n)) as [Ht|Ht].
    + rewrite (Hfree t Ht). split.
      * intros [[= <-]|[Hm Htm]]; right; [split; [by left|done]|split; [by right|done]].
      * intros [?|[[->|Hm]%elem_of_cons Htm]]; [done|by left|].
        right. done.
    + split.
      * intros [?|[Hm Htm]]; [by left|right]. split; [by right|done].
      * intros [?|[[->|Hm]%elem_of_cons Htm]]; [by left|done|by right].
  - intros t m. rewrite Hcons, register_inputs_elem. split.
    + intros [[?|(-> & ? & ?)]|(? & ? & ?)]; [by left|right..].
      * split_and!; [done|by left|done].
      * split_and!; [done|by right|done].
    + intros [?|(? & [->|?]%elem_of_cons & ?)]; [left; by left|left; by right|by right].
  - intros t. rewrite Hkeys, register_inputs_key. split.
    + intros [[?|(? & ?)]|(? & m & ? & ?)]; [by left|right..].
      * split; [done|]. exists n. split; [by left|done].
      * split; [done|]. exists m. split; [by right|done].
    + intros [?|(? & m & [->|?]%elem_of_cons & ?)]; [left; by left|left; by right|right].
      split; [done|]. by exists m.
Qed.

Lemma register_outputs_succeeds n outs prods :
  NoDup outs → "" ∉ outs → (∀ t, t ∈ outs → prods !! t = None) →
  ∃ p, for_each (register_output n) outs prods = Ok p.
Proof.
  revert prods. induction outs as [|o outs IH]; intros prods Hnd Hne Hfree.
  { by eexists. }
  apply NoDup_cons in Hnd as [Ho Hnd]. cbn [for_each].
  destruct (register_output n prods o) as [p|e] eqn:Hreg.
  - apply register_output_Ok in Hreg as (_ & _ & ->). simpl. apply IH; [done| |].
    + intros H. apply Hne. by right.
    + intros t Ht. rewrite lookup_insert_ne; [apply Hfree; by right|]. by intros ->.
  - exfalso. unfold register_output in Hreg.
    rewrite bool_decide_eq_false_2 in Hreg by (intros ->; apply Hne; by left).
    rewrite bool_decide_eq_false_2 in Hreg; [done|].
    rewrite (Hfree o) by (by left). by intros [].
Qed.

(** The indexing loop succeeds when no output name is empty and no name is
    produced twice. *)
Lemma index_nodes_succeeds nodes ops cons prods :
  NoDup (graph_outputs nodes) → "" ∉ graph_outputs nodes →
  (∀ t, t ∈ graph_outputs nodes → prods !! t = None) →
  ∃ st, for_each index_node nodes (ops, cons, prods) = Ok st.
Proof.
  revert ops cons prods. induction nodes as [|n nodes IH]; intros ops cons prods.
  { intros _ _ _. by eexists. }
  intros Hnd Hne Hfree. cbn [for_each]. rewrite index_node_unfold.
  unfold graph_outputs in *. simpl in Hnd, Hne, Hfree.
  apply NoDup_app in Hnd as (Hnd & Hdisj & Hnd').
  destruct (register_outputs_succeeds n (output n) prods) as [p Hp]; [done| | |].
  { intros H. apply Hne, elem_of_app. by left. }
  { intros t Ht. apply Hfree, elem_of_app. by left. }
  rewrite Hp. simpl. apply register_outputs_Ok in Hp as (_ & _ & _ & Hget). apply IH.
  - done.
  - intros H. apply Hne, elem_of_app. by right.
  - intros t Ht. rewrite Hget. rewrite decide_False.
    + apply Hfree, elem_of_app. by right.
    + intros Ht'. by apply (Hdisj t).
Qed.
End index.

Lemma index_node_raises st n e :
  index_node st n = Raise e →
  e = AssertionError "Node output name cannot be empty" ∨
  e = AssertionError "Tensor can only be generated by a single node".
Proof.
  destruct st as [[ops cons] prods]. rewrite index_node_unfold.
  destruct (for_each (register_output n) (output n) prods) as [p|e'] eqn:Hp; [done|].
  simpl. intros [= ->].
  apply for_each_Raise in Hp as (l1 & o & l2 & s1 & _ & _ & Ho).
  unfold register_output in Ho.
  case_bool_decide; [injection Ho as <-; by left|].
  case_bool_decide; [injection Ho as <-; by right|done].
Qed.

(** X1. The indexing loop of the entry point accepts a graph exactly when
    no node output has the empty name and no name is the output of two
    nodes, or twice the output of one. *)
Theorem graph_indexing_succeeds_iff (nodes : list NodeProto) :
  (∃ st, for_each index_node nodes (∅, ∅, ∅) = Ok st) ↔
  NoDup (graph_outputs nodes) ∧ ("" ∉ graph_outputs nodes).
Proof.
  split.
  - intros [[[ops cons] prods] Hrun].
    apply index_nodes_Ok in Hrun as (Hnd & Hne & _). by split.
  - intros [Hnd Hne]. by apply index_nodes_succeeds.
Qed.

(** X2. A graph with an empty output name or with a name produced twice is
    refused with an [AssertionError], whatever the types, the overrides and
    the resolver switch are: the overrides are not looked at. *)
Theorem malformed_graph_is_refused :
  ∀ {Reader Method : Type} (model : GraphProto) (reader : Reader) (method : Method)
    (activation_type weight_type : QuantType) (init_overrides : option Overrides)
    (add_qtype_converts : bool),
    ¬ (NoDup (graph_outputs (node model)) ∧ ("" ∉ graph_outputs (node model))) →
    ∃ msg,
      msg ∈ ["Node output name cannot be empty";
             "Tensor can only be generated by a single node"] ∧
      get_qnn_qdq_config model reader method activation_type weight_type
        init_overrides add_qtype_converts false = Raise (AssertionError msg).
Proof.
  intros R M model reader method act wt init add Hbad. unfold get_qnn_qdq_config.
  destruct (for_each index_node (node model) (∅, ∅, ∅)) as [st|e] eqn:Hrun.
  { destruct st as [[ops cons] prods].
    apply index_nodes_Ok in Hrun as (Hnd & Hne & _). by destruct Hbad. }
  apply for_each_Raise in Hrun as (l1 & n & l2 & s1 & _ & _ & Hn).
  apply index_node_raises in Hn as [-> | ->]; eexists; (split; [|reflexivity]).
  - by left.
  - right. by left.
Qed.

Lemma malformed_graph_is_refused_witness :
  ∃ msg,
    msg ∈ ["Node output name cannot be empty";
           "Tensor can only be generated by a single node"] ∧
    get_qnn_qdq_config
      {| node := [Ex.P; Ex.P]; initializer := []; value_info := [];
         graph_output := []; graph_input := [] |} tt tt QUInt8 QUInt8 None true false
    = Raise (AssertionError msg).
Proof.
  apply (malformed_graph_is_refused
           {| node := [Ex.P; Ex.P]; initializer := []; value_info := [];
              graph_output := []; graph_input := [] |} tt tt QUInt8 QUInt8 None true).
  intros [Hnd _]. vm_compute in Hnd. apply NoDup_cons in Hnd as [Hin _].
  apply Hin. by left.
Defined.

(** X3. After the indexing loop, [producers] maps a name to a node exactly
    when the node is in the graph and has the name among its outputs. *)
Theorem indexed_producers (nodes : list NodeProto) op_types consumers producers :
  for_each index_node nodes (∅, ∅, ∅) = Ok (op_types, consumers, producers) →
  ∀ t m, producers !! t = Some m ↔ m ∈ nodes ∧ t ∈ output m.
Proof.
  intros (_ & _ & _ & _ & Hprods & _)%index_nodes_Ok t m. rewrite Hprods.
  rewrite lookup_empty. split; [|by right]. by intros [?|?].
Qed.

Lemma indexed_producers_witness :
  Ex.chain_producers !! "Y" = Some Ex.P ↔ Ex.P ∈ node Ex.chain ∧ "Y" ∈ output Ex.P.
Proof.
  apply (indexed_producers (node Ex.chain) {["Relu"]} Ex.chain_consumers
           Ex.chain_producers).
  vm_compute. reflexivity.
Defined.

(** X4. After the indexing loop, [consumers] has a key for every non-empty
    name that is an input of some node, and for no other name; the list
    under the key holds exactly the nodes that have the name among their
    inputs. *)
Theorem indexed_consumers (nodes : list NodeProto) op_types consumers producers :
  for_each index_node nodes (∅, ∅, ∅) = Ok (op_types, consumers, producers) →
  (∀ t, is_Some (consumers !! t) ↔ t ≠ "" ∧ ∃ m, m ∈ nodes ∧ t ∈ input m) ∧
  (∀ t m, m ∈ default [] (consumers !! t) ↔ t ≠ "" ∧ m ∈ nodes ∧ t ∈ input m).
Proof.
  intros (_ & _ & _ & _ & _ & Hcons & Hkeys)%index_nodes_Ok. split.
  - intros t. rewrite Hkeys, lookup_empty. split; [|by right].
    by intros [[? [=]]|?].
  - intros t m. rewrite Hcons, lookup_empty. simpl. split; [|by right].
    by intros [?%elem_of_nil|?].
Qed.

Lemma indexed_consumers_witness :
  (∀ t, is_Some (Ex.chain_consumers !! t) ↔
        t ≠ "" ∧ ∃ m, m ∈ node Ex.chain ∧ t ∈ input m) ∧
  (∀ t m, m ∈ default [] (Ex.chain_consumers !! t) ↔
          t ≠ "" ∧ m ∈ node Ex.chain ∧ t ∈ input m).
Proof.
  apply (indexed_consumers (node Ex.chain) {["Relu"]} Ex.chain_consumers
           Ex.chain_producers).
  vm_compute. reflexivity.
Defined.

(** X5. A configuration that is returned was asked for without
    [per_channel]; it quantizes the operator types that occur in the graph
    except [Cast], carries the two types it was given, and switches the
    contrib QDQ operators on exactly when one of the types is 16-bit. *)
Theorem returned_configuration_fields :
  ∀ {Reader Method : Type} (model : GraphProto) (reader : Reader) (method : Method)
    (activation_type weight_type : QuantType) (init_overrides : option Overrides)
    (add_qtype_converts per_channel : bool)
    (cfg : StaticQuantConfig Reader Method Overrides),
    get_qnn_qdq_config model reader method activation_type weight_type init_overrides
      add_qtype_converts per_channel = Ok cfg →
    per_channel = false ∧
    cfg_op_types_to_quantize cfg = list_to_set (op_type <$> node model) ∖ {["Cast"]} ∧
    cfg_activation_type _ _ _ cfg = activation_type ∧
    cfg_weight_type _ _ _ cfg = weight_type ∧
    UseQDQContribOps (cfg_extra_options cfg) =
      (if bool_decide (activation_type ∈ [QInt16; QUInt16] ∨
                       weight_type ∈ [QInt16; QUInt16])
       then Some true else None).
Proof.
  intros R M model reader method act wt init add per_channel cfg.
  unfold get_qnn_qdq_config. destruct per_channel; [done|].
  intros ([[ops cons] prods] & Hidx & Hrun)%bind_Ok.
  apply bind_Ok in Hrun as (tqo1 & _ & Hrun).
  apply bind_Ok in Hrun as (tqo2 & _ & [= <-]). simpl.
  apply index_nodes_Ok in Hidx as (_ & _ & _ & -> & _).
  split_and!; [done| |done|done|].
  - by rewrite (left_id_L ∅ (∪)).
  - destruct act, wt; reflexivity.
Qed.

Lemma returned_configuration_fields_witness :
  false = false ∧
  cfg_op_types_to_quantize
    {| cfg_calibration_data_reader := tt; cfg_calibrate_method := tt;
       cfg_activation_type := QUInt8; cfg_weight_type := QUInt8;
       cfg_op_types_to_quantize := ({["Relu"]} : gset string);
       cfg_extra_options :=
         {| MinimumRealRange := 1 # 10000; DedicatedQDQPair := false;
            TensorQuantOverrides := ([] : Overrides); UseQDQContribOps := None |} |}
  = list_to_set (op_type <$> node Ex.chain) ∖ {["Cast"]}.
Proof.
  destruct (returned_configuration_fields Ex.chain tt tt QUInt8 QUInt8 None true false
              {| cfg_calibration_data_reader := tt; cfg_calibrate_method := tt;
                 cfg_activation_type := QUInt8; cfg_weight_type := QUInt8;
                 cfg_op_types_to_quantize := {["Relu"]};
                 cfg_extra_options :=
                   {| MinimumRealRange := 1 # 10000; DedicatedQDQPair := false;
                      TensorQuantOverrides := []; UseQDQContribOps := None |} |})
    as (H1 & H2 & _).
  - vm_compute. reflexivity.
  - split; [exact H1|exact H2].
Defined.

(** ** The helper functions, one at a time *)

Section dict_more.
Context {V : Type}.
Implicit Types (d : list (string * V)) (k : string) (v : V).

Lemma dict_set_set d k v v' : dict_set k v (dict_set k v' d) = dict_set k v d.
Proof.
  induction d as [|[k1 v1] d IH]; simpl.
  - by rewrite decide_True.
  - destruct (decide (k = k1)) as [->|Hne]; simpl.
    + by rewrite decide_True.
    + by rewrite decide_False, IH.
Qed.

Lemma dict_set_get d k v : dict_get k d = Some v → dict_set k v d = d.
Proof.
  induction d as [|[k1 v1] d IH]; simpl; [done|].
  destruct (decide (k = k1)) as [->|Hne].
  - by intros [= ->].
  - intros H. by rewrite IH.
Qed.

Lemma dict_keys_set_prefix d k v : dict_keys d `prefix_of` dict_keys (dict_set k v d).
Proof.
  rewrite dict_keys_set. destruct (has_key (dict_get k d)); [done|].
  by apply prefix_app_r.
Qed.
End dict_more.

Lemma ensure_entry_keys_prefix (tqo : Overrides) k init :
  dict_keys tqo `prefix_of` dict_keys (ensure_entry k init tqo).
Proof.
  unfold ensure_entry.
  destruct (dict_get k tqo) as [[|]|]; try done; apply dict_keys_set_prefix.
Qed.

(** The entry the mutators work on: the entry of the table when it holds
    a record, a one-record entry made of [init] otherwise. *)
Lemma first_record_ensure_entry (tqo : Overrides) k init :
  ∃ o rest,
    first_record k (ensure_entry k init tqo) = Ok (o, rest) ∧
    o :: rest = match dict_get k tqo with
                | Some (o :: rest) => o :: rest
                | _ => [init]
                end.
Proof.
  pose proof (ensure_entry_eq tqo k init) as Hk.
  destruct (dict_get k tqo) as [[|o rest]|]; eexists _, _;
    (split; [by apply first_record_Ok|done]).
Qed.

Lemma add_to_convert_recv_nodes_Raise :
  ∀ (tqo : Overrides) (tensor_name : string) (prod_type consumer_type : QuantType)
    (consumer_names : gset string) (e : Error),
    _add_to_convert_recv_nodes tqo tensor_name prod_type consumer_type consumer_names
      = Raise e ↔
    e = AssertionError "Consumer type doesn't match convert type" ∧
    ∃ o rest cd,
      dict_get tensor_name tqo = Some (o :: rest) ∧ convert o = Some cd ∧
      convert_quant_type cd ≠ consumer_type.
Proof.
  intros tqo k p c names e. unfold _add_to_convert_recv_nodes.
  destruct (first_record_ensure_entry tqo k (set_quant_type p empty_override))
    as (o & rest & -> & Hentry). simpl.
  destruct (dict_get k tqo) as [[|o' rest']|] eqn:Hk.
  - injection Hentry as -> ->. simpl. rewrite decide_True by done.
    split; [done|]. by intros (_ & ? & ? & ? & ? & _).
  - injection Hentry as -> ->. destruct (convert o') as [cd|] eqn:Hcd.
    + case_decide as Hc.
      * split; [done|]. intros (_ & o & rest & cd' & [= <- <-] & Hcd' & Hne).
        rewrite Hcd in Hcd'. by injection Hcd' as <-.
      * split.
        -- intros [= <-]. split; [done|]. exists o', rest', cd. by split_and!.
        -- by intros [-> _].
    + simpl. rewrite decide_True by done. split; [done|].
      intros (_ & o & rest & cd' & [= <- <-] & Hcd' & _). congruence.
  - injection Hentry as -> ->. simpl. rewrite decide_True by done.
    split; [done|]. by intros (_ & ? & ? & ? & ? & _).
Qed.

(** X6. [_add_to_convert_recv_nodes] raises in one case only: the first
    record of the tensor's entry already converts to another type than
    the one asked for, and the error is then the assertion of line 96; a
    missing key or an empty entry never makes it raise. *)
Theorem add_to_convert_recv_nodes_raises_iff :
  ∀ (tqo : Overrides) (tensor_name : string) (prod_type consumer_type : QuantType)
    (consumer_names : gset string) (e : Error),
    _add_to_convert_recv_nodes tqo tensor_name prod_type consumer_type consumer_names
      = Raise e ↔
    e = AssertionError "Consumer type doesn't match convert type" ∧
    ∃ o rest cd,
      dict_get tensor_name tqo = Some (o :: rest) ∧ convert o = Some cd ∧
      convert_quant_type cd ≠ consumer_type.
Proof. exact add_to_convert_recv_nodes_Raise. Qed.

Lemma add_to_convert_recv_nodes_Ok (tqo tqo' : Overrides) k p c names :
  _add_to_convert_recv_nodes tqo k p c names = Ok tqo' →
  ∃ o rest,
    o :: rest = match dict_get k tqo with
                | Some (o :: rest) => o :: rest
                | _ => [set_quant_type p empty_override]
                end ∧
    (∀ cd, convert o = Some cd → convert_quant_type cd = c) ∧
    tqo' = dict_set k
             (set_convert
                {| convert_quant_type := c;
                   recv_nodes := Some (default ∅ (convert o ≫= recv_nodes) ∪ names) |} o
              :: rest)
             (ensure_entry k (set_quant_type p empty_override) tqo).
Proof.
  unfold _add_to_convert_recv_nodes.
  destruct (first_record_ensure_entry tqo k (set_quant_type p empty_override))
    as (o & rest & -> & Hentry). simpl.
  intros Hrun. exists o, rest. split; [done|].
  destruct (convert o) as [cd|]; simpl in *.
  - case_decide as Hc; [|done]. injection Hrun as <-. split; [|by rewrite Hc].
    by intros ? [= <-].
  - rewrite decide_True in Hrun by done. by injection Hrun as <-.
Qed.

(** X7. After [_add_to_convert_recv_nodes] has returned, each of the nodes
    it was given reads the tensor at the consumer type, and a set of names
    passes [_check_not_in_convert_recv_nodes] only if it has none of those
    nodes. *)
Theorem added_recv_nodes_read_the_consumer_type :
  ∀ (tqo tqo' : Overrides) (tensor_name : string) (prod_type consumer_type : QuantType)
    (consumer_names : gset string),
    _add_to_convert_recv_nodes tqo tensor_name prod_type consumer_type consumer_names
      = Ok tqo' →
    (∀ node_name activation_type,
       node_name ∈ consumer_names →
       _get_input_activation_qtype tqo' tensor_name node_name activation_type
       = consumer_type) ∧
    (∀ names : gset string,
       _check_not_in_convert_recv_nodes tqo' tensor_name names = true →
       names ∩ consumer_names = ∅).
Proof.
  intros tqo tqo' k p c names Hrun.
  apply add_to_convert_recv_nodes_Ok in Hrun as (o & rest & _ & _ & ->).
  split.
  - intros n act Hn. unfold _get_input_activation_qtype.
    rewrite dict_get_set_eq. simpl. rewrite decide_True; [done|].
    apply elem_of_union. by right.
  - intros S. unfold _check_not_in_convert_recv_nodes.
    rewrite dict_get_set_eq. simpl. intros HS%bool_decide_eq_true.
    apply leibniz_equiv, elem_of_equiv_empty. intros x [Hx Hx']%elem_of_intersection.
    assert (x ∈ (∅ : gset string)) as []%elem_of_empty.
    rewrite <-HS. apply elem_of_intersection. split; [|done].
    apply elem_of_union. by right.
Qed.

Lemma added_recv_nodes_read_the_consumer_type_witness :
  _get_input_activation_qtype
    [("X", [set_convert {| convert_quant_type := QInt16; recv_nodes := Some {["P"]} |}
              (Ex.with_type QUInt8)])] "X" "P" QUInt8 = QInt16.
Proof.
  destruct (added_recv_nodes_read_the_consumer_type []
              [("X", [set_convert {| convert_quant_type := QInt16;
                                     recv_nodes := Some {["P"]} |}
                        (Ex.with_type QUInt8)])] "X" QUInt8 QInt16 {["P"]})
    as (Hread & _).
  - vm_compute. reflexivity.
  - apply Hread. by apply elem_of_singleton.
Defined.

Lemma set_weight_type_Raise :
  ∀ (tqo : Overrides) (tensor_name : string) (weight_type : QuantType)
    (weight_symmetric : bool) (e : Error),
    _set_weight_type tqo tensor_name weight_type weight_symmetric = Raise e ↔
    e = ValueError per_tensor_msg ∧
    ∃ l, dict_get tensor_name tqo = Some l ∧ 1 < length l.
Proof.
  intros tqo k w s e. unfold _set_weight_type, dict_item.
  destruct (first_record_ensure_entry tqo k empty_override) as (o & rest & Hfirst & Hentry).
  rewrite Hfirst. apply first_record_Ok in Hfirst. rewrite Hfirst. simpl.
  case_decide as Hlen.
  - split.
    + intros [= <-]. split; [done|].
      destruct (dict_get k tqo) as [[|o' rest']|]; injection Hentry as -> ->;
        [simpl in Hlen; lia| |simpl in Hlen; lia].
      by eexists.
    + by intros [-> _].
  - split.
    + by destruct (_ && _).
    + intros (_ & l & Hl & Hlen'). rewrite Hl in Hentry.
      destruct l as [|o' rest']; [simpl in Hlen'; lia|]. by injection Hentry as -> ->.
Qed.

(** X8. [_set_weight_type] raises exactly when the tensor's entry holds
    more than one record, and then the per-channel [ValueError]; on a
    missing key or an empty entry it creates the record. *)
Theorem set_weight_type_raises_iff :
  ∀ (tqo : Overrides) (tensor_name : string) (weight_type : QuantType)
    (weight_symmetric : bool) (e : Error),
    _set_weight_type tqo tensor_name weight_type weight_symmetric = Raise e ↔
    e = ValueError per_tensor_msg ∧
    ∃ l, dict_get tensor_name tqo = Some l ∧ 1 < length l.
Proof. exact set_weight_type_Raise. Qed.

(** X9. [_set_scale_zero_point] raises in two cases only: the per-channel
    [ValueError] when the entry holds more than one record, and the
    assertion of line 75 when its single record has another [quant_type]
    than the one to pin. *)
Theorem set_scale_zero_point_raises_iff :
  ∀ (tqo : Overrides) (tensor_name : string) (quant_type' : QuantType)
    (scale' : Q) (zero_point' : Z) (e : Error),
    _set_scale_zero_point tqo tensor_name quant_type' scale' zero_point' = Raise e ↔
    (e = ValueError per_tensor_msg ∧
     ∃ l, dict_get tensor_name tqo = Some l ∧ 1 < length l) ∨
    (e = AssertionError "Unexpected quant_type when overridding zp/scale" ∧
     ∃ o q, dict_get tensor_name tqo = Some [o] ∧ quant_type o = Some q ∧
            q ≠ quant_type').
Proof.
  intros tqo k q sc zp e. unfold _set_scale_zero_point, dict_item.
  destruct (first_record_ensure_entry tqo k empty_override) as (o & rest & Hfirst & Hentry).
  rewrite Hfirst. apply first_record_Ok in Hfirst. rewrite Hfirst. simpl.
  case_decide as Hlen.
  - split.
    + intros [= <-]. left. split; [done|].
      destruct (dict_get k tqo) as [[|o' rest']|]; injection Hentry as -> ->;
        [simpl in Hlen; lia| |simpl in Hlen; lia].
      by eexists.
    + intros [[-> _]|(_ & o' & q' & Hk & _)]; [done|].
      rewrite Hk in Hentry. injection Hentry as -> ->. simpl in Hlen. lia.
  - assert (rest = []) as -> by (destruct rest; [done|simpl in Hlen; lia]).
    destruct (quant_type o) as [q0|] eqn:Hq0.
    + rewrite Hq0. case_bool_decide as Hq.
      * split; [by destruct (range_keys_present o)|].
        intros [(_ & l & Hl & Hlen')|(_ & o' & q' & Hk & Hq' & Hne)].
        -- rewrite Hl in Hentry. destruct l as [|? [|]]; simpl in Hlen'; try lia.
           done.
        -- rewrite Hk in Hentry. injection Hentry as ->. congruence.
      * split.
        -- intros [= <-]. right. split; [done|]. exists o, q0.
           destruct (dict_get k tqo) as [[|o' rest']|]; simplify_eq/=.
           split_and!; [done..|congruence].
        -- intros [(_ & l & Hl & Hlen')|[-> _]]; [|done].
           rewrite Hl in Hentry. destruct l as [|? [|]]; simpl in Hlen'; try lia.
           done.
    + destruct o; simpl in *. subst. rewrite bool_decide_eq_true_2 by done.
      split; [by destruct (range_keys_present _)|].
      intros [(_ & l & Hl & Hlen')|(_ & o' & q' & Hk & Hq' & Hne)].
      * rewrite Hl in Hentry. destruct l as [|? [|]]; simpl in Hlen'; try lia.
        done.
      * rewrite Hk in Hentry. injection Hentry as <-. done.
Qed.

Lemma set_weight_type_Ok (tqo tqo' : Overrides) k w s :
  _set_weight_type tqo k w s = Ok tqo' →
  ∃ o,
    [o] = match dict_get k tqo with
          | Some (o :: rest) => o :: rest
          | _ => [empty_override]
          end ∧
    tqo' = (if negb (has_key (quant_type o)) && negb (has_key (symmetric o))
            then dict_set k [set_symmetric s (set_quant_type w o)]
                   (ensure_entry k empty_override tqo)
            else ensure_entry k empty_override tqo) ∧
    dict_get k tqo' = Some [promoted w s o].
Proof.
  unfold _set_weight_type, dict_item.
  destruct (first_record_ensure_entry tqo k empty_override) as (o & rest & Hfirst & Hentry).
  rewrite Hfirst. apply first_record_Ok in Hfirst. rewrite Hfirst. simpl.
  case_decide as Hlen; [done|].
  assert (rest = []) as -> by (destruct rest; [done|simpl in Hlen; lia]).
  intros Hrun. exists o. split; [done|]. unfold promoted.
  destruct (_ && _); injection Hrun as <-; (split; [done|]).
  - by rewrite dict_get_set_eq.
  - done.
Qed.

Lemma set_scale_zero_point_Ok (tqo tqo' : Overrides) k q sc zp :
  _set_scale_zero_point tqo k q sc zp = Ok tqo' →
  ∃ o,
    [o] = match dict_get k tqo with
          | Some (o :: rest) => o :: rest
          | _ => [empty_override]
          end ∧
    quant_type o ∈ [None; Some q] ∧
    tqo' = dict_set k
             [if range_keys_present o then set_quant_type q o
              else set_scale sc (set_zero_point zp (set_quant_type q o))]
             (ensure_entry k empty_override tqo).
Proof.
  unfold _set_scale_zero_point, dict_item.
  destruct (first_record_ensure_entry tqo k empty_override) as (o & rest & Hfirst & Hentry).
  rewrite Hfirst. apply first_record_Ok in Hfirst. rewrite Hfirst. simpl.
  case_decide as Hlen; [done|].
  assert (rest = []) as -> by (destruct rest; [done|simpl in Hlen; lia]).
  intros Hrun. exists o. split; [done|].
  destruct (quant_type o) as [q0|] eqn:Hq0.
  - rewrite Hq0 in Hrun. case_bool_decide as Hq; [|done]. injection Hq as ->.
    rewrite (set_quant_type_id o q) by done.
    split; [right; by left|]. by destruct (range_keys_present o); injection Hrun as <-.
  - split; [by left|]. simpl in Hrun. rewrite bool_decide_eq_true_2 in Hrun by done.
    assert (range_keys_present (set_quant_type q o) = range_keys_present o) as Hr
      by by destruct o.
    rewrite Hr in Hrun. by destruct (range_keys_present o); injection Hrun as <-.
Qed.

(** A record that has the type to pin and a range-related key is left
    as it is. *)
Lemma set_scale_zero_point_pinned (tqo : Overrides) k q sc zp o :
  dict_get k tqo = Some [o] → quant_type o = Some q → range_keys_present o = true →
  _set_scale_zero_point tqo k q sc zp = Ok tqo.
Proof.
  intros Hk Hq Hr. unfold _set_scale_zero_point, dict_item.
  rewrite (ensure_entry_id _ _ _ _ _ Hk), Hk. simpl.
  rewrite (proj2 (first_record_Ok _ _ _ _) Hk). simpl. rewrite Hq.
  rewrite bool_decide_eq_true_2 by done. rewrite Hr. by rewrite dict_set_get.
Qed.

(** X10. Each of the three mutators is idempotent: called again with the
    same arguments on the table it returned, it returns that table. *)
Theorem mutators_are_idempotent :
  (∀ (tqo tqo' : Overrides) tensor_name weight_type weight_symmetric,
     _set_weight_type tqo tensor_name weight_type weight_symmetric = Ok tqo' →
     _set_weight_type tqo' tensor_name weight_type weight_symmetric = Ok tqo') ∧
  (∀ (tqo tqo' : Overrides) tensor_name quant_type' scale' zero_point',
     _set_scale_zero_point tqo tensor_name quant_type' scale' zero_point' = Ok tqo' →
     _set_scale_zero_point tqo' tensor_name quant_type' scale' zero_point' = Ok tqo') ∧
  (∀ (tqo tqo' : Overrides) tensor_name prod_type consumer_type consumer_names,
     _add_to_convert_recv_nodes tqo tensor_name prod_type consumer_type consumer_names
       = Ok tqo' →
     _add_to_convert_recv_nodes tqo' tensor_name prod_type consumer_type consumer_names
       = Ok tqo').
Proof.
  split_and!.
  - intros tqo tqo' k w s (o & _ & _ & Hk)%set_weight_type_Ok.
    apply (set_weight_type_user _ _ _ _ _ Hk). unfold promoted.
    by destruct o as [[?|] [?|] ? ? ? ? ? ?].
  - intros tqo tqo' k q sc zp (o & _ & Hq & ->)%set_scale_zero_point_Ok.
    apply (set_scale_zero_point_pinned _ _ _ _ _ _ (dict_get_set_eq _ _ _)).
    + by destruct (range_keys_present o).
    + destruct (range_keys_present o) eqn:Hr; [|done]. by destruct o.
  - intros tqo tqo' k p c names (o & rest & _ & _ & ->)%add_to_convert_recv_nodes_Ok.
    unfold _add_to_convert_recv_nodes.
    rewrite (ensure_entry_id _ k _ _ rest (dict_get_set_eq _ _ _)).
    rewrite (proj2 (first_record_Ok _ _ _ _) (dict_get_set_eq _ _ _)). simpl.
    rewrite decide_True by done. rewrite dict_set_set. do 3 f_equal.
    destruct o; unfold set_convert; simpl. do 3 f_equal.
    by rewrite <-(assoc_L (∪)), (idemp_L (∪)).
Qed.

Lemma mutators_are_idempotent_witness :
  _set_weight_type [("W", [promoted QInt8 true empty_override])] "W" QInt8 true
    = Ok [("W", [promoted QInt8 true empty_override])] ∧
  _set_scale_zero_point
    [("s", [set_scale (1 # 65536) (set_zero_point 0 (Ex.with_type QUInt16))])]
    "s" QUInt16 (1 # 65536) 0
    = Ok [("s", [set_scale (1 # 65536) (set_zero_point 0 (Ex.with_type QUInt16))])] ∧
  _add_to_convert_recv_nodes
    [("X", [set_convert {| convert_quant_type := QInt16; recv_nodes := Some {["P"]} |}
              (Ex.with_type QUInt8)])] "X" QUInt8 QInt16 {["P"]}
    = Ok [("X", [set_convert {| convert_quant_type := QInt16;
                                recv_nodes := Some {["P"]} |}
                   (Ex.with_type QUInt8)])].
Proof.
  destruct mutators_are_idempotent as (Hw & Hs & Hc). split_and!.
  - apply (Hw []). vm_compute. reflexivity.
  - apply (Hs Ex.sigmoid_tqo). vm_compute. reflexivity.
  - apply (Hc []). vm_compute. reflexivity.
Defined.

(** ** What the policy loop leaves alone *)

Lemma key_kept_trans {A : Type} (a b c : option A) :
  key_kept a b → key_kept b c → key_kept a c.
Proof. intros Hab Hbc v Hv. by apply Hbc, Hab. Qed.

Lemma filled_in_refl o : filled_in o o.
Proof. unfold filled_in, key_kept. split_and!; done. Qed.

Lemma filled_in_trans o1 o2 o3 : filled_in o1 o2 → filled_in o2 o3 → filled_in o1 o3.
Proof.
  intros (Ha1 & Ha2 & Ha3 & Ha4 & Ha5 & Ha6 & Ha7 & Ha8)
         (Hb1 & Hb2 & Hb3 & Hb4 & Hb5 & Hb6 & Hb7 & Hb8).
  split_and!; try (eapply key_kept_trans; eassumption); congruence.
Qed.

Lemma filled_in_promoted w s o : filled_in o (promoted w s o).
Proof.
  unfold promoted, filled_in, key_kept.
  destruct o as [[?|] [?|] ? ? ? ? ? ?]; simpl; split_and!; done.
Qed.

Lemma filled_in_pinned q sc zp o :
  quant_type o ∈ [None; Some q] →
  filled_in o (if range_keys_present o then set_quant_type q o
               else set_scale sc (set_zero_point zp (set_quant_type q o))).
Proof.
  intros Hq. assert (key_kept (quant_type o) (Some q)) as Hkept.
  { intros v Hv. rewrite Hv in Hq.
    apply elem_of_cons in Hq as [?|Hq]; [done|].
    by apply list_elem_of_singleton in Hq. }
  unfold filled_in, key_kept in *.
  destruct o as [qt [?|] [?|] [?|] [?|] [?|] [?|] cv]; simpl in *;
    split_and!; done.
Qed.

(** What one call of [_set_weight_type] or [_set_scale_zero_point] does to
    the first record of any entry. *)
Lemma set_weight_type_filled_in (tqo tqo' : Overrides) k w s t o rest :
  _set_weight_type tqo k w s = Ok tqo' →
  dict_get t tqo = Some (o :: rest) →
  ∃ o', dict_get t tqo' = Some (o' :: rest) ∧ filled_in o o'.
Proof.
  intros Hrun Ht. destruct (decide (t = k)) as [->|Hne].
  - apply set_weight_type_Ok in Hrun as (o1 & Hentry & _ & Hk).
    rewrite Ht in Hentry. injection Hentry as <- <-.
    eexists. split; [done|]. apply filled_in_promoted.
  - rewrite <-(set_weight_type_frame _ _ _ _ _ _ Hrun Hne) in Ht.
    eexists. split; [done|]. apply filled_in_refl.
Qed.

Lemma set_scale_zero_point_filled_in (tqo tqo' : Overrides) k q sc zp t o rest :
  _set_scale_zero_point tqo k q sc zp = Ok tqo' →
  dict_get t tqo = Some (o :: rest) →
  ∃ o', dict_get t tqo' = Some (o' :: rest) ∧ filled_in o o'.
Proof.
  intros Hrun Ht. destruct (decide (t = k)) as [->|Hne].
  - apply set_scale_zero_point_Ok in Hrun as (o1 & Hentry & Hq & ->).
    rewrite Ht in Hentry. injection Hentry as <- <-.
    rewrite dict_get_set_eq. eexists. split; [done|]. by apply filled_in_pinned.
  - rewrite <-(set_scale_zero_point_frame _ _ _ _ _ _ _ Hrun Hne) in Ht.
    eexists. split; [done|]. apply filled_in_refl.
Qed.

Lemma pin_filled_in act (tqo tqo' : Overrides) out sc1 zp1 sc2 zp2 t o rest :
  (output_type ← _get_output_activation_qtype out tqo act;
   if decide (output_type = QUInt16) then
     _set_scale_zero_point tqo out output_type sc1 zp1
   else if decide (output_type = QInt16) then
     _set_scale_zero_point tqo out output_type sc2 zp2
   else Ok tqo) = Ok tqo' →
  dict_get t tqo = Some (o :: rest) →
  ∃ o', dict_get t tqo' = Some (o' :: rest) ∧ filled_in o o'.
Proof.
  intros (T & _ & Hrun)%bind_Ok Ht. repeat case_decide.
  - by apply (set_scale_zero_point_filled_in _ _ _ _ _ _ _ _ _ Hrun).
  - by apply (set_scale_zero_point_filled_in _ _ _ _ _ _ _ _ _ Hrun).
  - injection Hrun as <-. eexists. split; [done|]. apply filled_in_refl.
Qed.

Lemma apply_policy_filled_in act wt inits (tqo tqo' : Overrides) n t o rest :
  apply_policy act wt inits tqo n = Ok tqo' →
  dict_get t tqo = Some (o :: rest) →
  ∃ o', dict_get t tqo' = Some (o' :: rest) ∧ filled_in o o'.
Proof.
  intros Hrun Ht. unfold apply_policy in Hrun.
  assert (∃ o', dict_get t tqo = Some (o' :: rest) ∧ filled_in o o') as Hsame.
  { eexists. split; [done|]. apply filled_in_refl. }
  destruct (_ && _).
  { destruct (foldl _ _ _) as [a16 wgt]. destruct (_ && _).
    - by apply (set_weight_type_filled_in _ _ _ _ _ _ _ _ Hrun).
    - by injection Hrun as <-. }
  destruct (_ && _).
  { destruct (has_q16_activation _ _ _ _ _); [|by injection Hrun as <-].
    simpl in Hrun. apply bind_Ok in Hrun as (tqo1 & H0 & Hrun).
    apply bind_Ok in Hrun as (tqo2 & H1 & [= <-]).
    assert (∀ (ta tb : Overrides) i oa,
              layernorm_weight inits n wt (bool_decide (wt = QInt8)) ta i = Ok tb →
              dict_get t ta = Some (oa :: rest) →
              ∃ ob, dict_get t tb = Some (ob :: rest) ∧ filled_in oa ob) as Hstep.
    { intros ta tb i oa Hi Hta. unfold layernorm_weight in Hi.
      destruct (input n !! i); [|done]. case_bool_decide.
      - by apply (set_weight_type_filled_in _ _ _ _ _ _ _ _ Hi).
      - injection Hi as <-. eexists. split; [done|]. apply filled_in_refl. }
    destruct (Hstep _ _ _ _ H0 Ht) as (o1 & Ht1 & Ho1).
    destruct (Hstep _ _ _ _ H1 Ht1) as (o2 & Ht2 & Ho2).
    exists o2. split; [done|]. by apply (filled_in_trans _ o1). }
  case_bool_decide.
  { apply bind_Ok in Hrun as (out & _ & Hrun).
    by apply (pin_filled_in _ _ _ _ _ _ _ _ _ _ _ Hrun). }
  case_bool_decide.
  { apply bind_Ok in Hrun as (out & _ & Hrun).
    by apply (pin_filled_in _ _ _ _ _ _ _ _ _ _ _ Hrun). }
  by injection Hrun as <-.
Qed.

Lemma policy_loop_filled_in act wt inits nodes (tqo tqo' : Overrides) t o rest :
  for_each (apply_policy act wt inits) nodes tqo = Ok tqo' →
  dict_get t tqo = Some (o :: rest) →
  ∃ o', dict_get t tqo' = Some (o' :: rest) ∧ filled_in o o'.
Proof.
  intros Hrun Ht. revert Hrun.
  apply (for_each_invariant
           (λ s, ∃ o', dict_get t s = Some (o' :: rest) ∧ filled_in o o')).
  - intros s1 s2 n _ (o1 & Ht1 & Ho1) Hstep.
    destruct (apply_policy_filled_in _ _ _ _ _ _ _ _ _ Hstep Ht1) as (o2 & Ht2 & Ho2).
    exists o2. split; [done|]. by apply (filled_in_trans _ o1).
  - exists o. split; [done|]. apply filled_in_refl.
Qed.

(** X11. The policy loop never overwrites a key and never touches
    [convert]: whatever the graph, the first record of an entry keeps each
    of [quant_type], [symmetric], [scale], [zero_point] that it had, with
    its value, and its [reduce_range], [rmin], [rmax] and [convert] are the
    same after the loop; the other records of the entry are the same. *)
Theorem policy_never_overwrites_a_key :
  ∀ (activation_type weight_type : QuantType)
    (name_to_initializer : gmap string TensorProto) (nodes : list NodeProto)
    (tqo tqo' : Overrides) (t : string) (o : Override) (rest : list Override),
    for_each (apply_policy activation_type weight_type name_to_initializer) nodes tqo
      = Ok tqo' →
    dict_get t tqo = Some (o :: rest) →
    ∃ o', dict_get t tqo' = Some (o' :: rest) ∧ filled_in o o'.
Proof. intros. by eapply policy_loop_filled_in. Qed.

Lemma policy_never_overwrites_a_key_witness :
  ∃ o', dict_get "s" [("A", [Ex.with_type QUInt16]);
                      ("s", [set_scale (1 # 65536)
                               (set_zero_point 0 (Ex.with_type QUInt16))]);
                      ("W", [set_symmetric true (Ex.with_type QInt8)])]
        = Some [o'] ∧
        filled_in (Ex.with_type QUInt16) o'.
Proof.
  apply (policy_never_overwrites_a_key QUInt8 QInt8 (graph_initializers Ex.mlp)
           (node Ex.mlp) Ex.mlp_tqo _ "s" (Ex.with_type QUInt16) []).
  - vm_compute. reflexivity.
  - vm_compute. reflexivity.
Defined.

(** ** What the resolver leaves alone *)

Lemma same_but_convert_refl o : same_but_convert o o.
Proof. unfold same_but_convert. split_and!; done. Qed.

Lemma same_but_convert_trans o1 o2 o3 :
  same_but_convert o1 o2 → same_but_convert o2 o3 → same_but_convert o1 o3.
Proof.
  unfold same_but_convert. intros (? & ? & ? & ? & ? & ? & ?) (? & ? & ? & ? & ? & ? & ?).
  split_and!; congruence.
Qed.

Lemma same_but_convert_set c o : same_but_convert o (set_convert c o).
Proof. unfold same_but_convert. destruct o. split_and!; done. Qed.

Lemma convert_kept_refl c : convert_kept c c.
Proof. intros cd ->. exists cd. split_and!; [done..|]. intros s ->. by exists s. Qed.

Lemma convert_kept_trans c1 c2 c3 :
  convert_kept c1 c2 → convert_kept c2 c3 → convert_kept c1 c3.
Proof.
  intros H12 H23 cd1 Hc1. destruct (H12 _ Hc1) as (cd2 & Hc2 & Hty12 & Hrecv12).
  destruct (H23 _ Hc2) as (cd3 & Hc3 & Hty23 & Hrecv23).
  exists cd3. split_and!; [done|congruence|].
  intros s1 Hs1. destruct (Hrecv12 _ Hs1) as (s2 & Hs2 & Hsub12).
  destruct (Hrecv23 _ Hs2) as (s3 & Hs3 & Hsub23).
  exists s3. split; [done|]. by transitivity s2.
Qed.

Lemma convert_kept_None c : convert_kept None c.
Proof. by intros cd. Qed.

Lemma resolver_kept_refl o : resolver_kept o o.
Proof. split; [apply same_but_convert_refl|apply convert_kept_refl]. Qed.

Lemma add_to_convert_recv_nodes_kept (tqo tqo' : Overrides) k p c names t o rest :
  _add_to_convert_recv_nodes tqo k p c names = Ok tqo' →
  dict_get t tqo = Some (o :: rest) →
  ∃ o', dict_get t tqo' = Some (o' :: rest) ∧ resolver_kept o o'.
Proof.
  intros Hrun Ht. destruct (decide (t = k)) as [->|Hne].
  - apply add_to_convert_recv_nodes_Ok in Hrun as (o1 & rest1 & Hentry & Hty & ->).
    rewrite Ht in Hentry. injection Hentry as -> ->.
    rewrite dict_get_set_eq. eexists. split; [done|].
    split; [apply same_but_convert_set|].
    intros cd Hcd. destruct o; simpl in *. subst. eexists. split; [done|]. simpl.
    split; [by rewrite (Hty cd)|].
    intros s ->. simpl. eexists. split; [done|]. apply union_subseteq_l.
  - rewrite <-(add_to_convert_recv_nodes_frame _ _ _ _ _ _ _ Hrun Hne) in Ht.
    eexists. split; [done|]. apply resolver_kept_refl.
Qed.

Lemma process_request_kept act consumers (tqo tqo' : Overrides) k req t o rest :
  process_request act consumers tqo (k, req) = Ok tqo' →
  dict_get t tqo = Some (o :: rest) →
  (TensorTypeRequest.consumers req = None → t = k → convert o = None) →
  ∃ o', dict_get t tqo' = Some (o' :: rest) ∧ resolver_kept o o'.
Proof.
  intros Hrun Ht Hfree. unfold process_request in Hrun.
  assert (∃ o', dict_get t tqo = Some (o' :: rest) ∧ resolver_kept o o') as Hsame.
  { eexists. split; [done|]. apply resolver_kept_refl. }
  destruct req as [[p|] [[c names]|]]; simpl in Hrun, Hfree.
  - case_decide.
    { by apply (add_to_convert_recv_nodes_kept _ _ _ _ _ _ _ _ _ Hrun). }
    apply bind_Ok in Hrun as (nodes & _ & Hrun). case_decide.
    + apply bind_Ok in Hrun as ([o1 rest1] & _ & Hrun).
      destruct (has_key _); [done|]. by injection Hrun as <-.
    + by apply (add_to_convert_recv_nodes_kept _ _ _ _ _ _ _ _ _ Hrun).
  - apply bind_Ok in Hrun as ([o1 rest1] & Hfirst & Hrun). injection Hrun as <-.
    destruct (decide (t = k)) as [->|Hne]; [|by rewrite dict_get_set_ne].
    apply first_record_Ok in Hfirst. rewrite Ht in Hfirst. injection Hfirst as <- <-.
    rewrite dict_get_set_eq. eexists. split; [done|].
    split; [apply same_but_convert_set|]. rewrite Hfree by done.
    apply convert_kept_None.
  - apply bind_Ok in Hrun as (ty & _ & Hrun). case_decide.
    { by apply (add_to_convert_recv_nodes_kept _ _ _ _ _ _ _ _ _ Hrun). }
    destruct (negb _); [done|]. by injection Hrun as <-.
  - by apply bind_Ok in Hrun as (ty & _ & Hrun).
Qed.

Lemma process_requests_kept act consumers (reqs : TypeRequests)
    (tqo tqo' : Overrides) t o rest :
  NoDup (dict_keys reqs) →
  (∀ req, (t, req) ∈ reqs → TensorTypeRequest.consumers req = None →
          convert o = None) →
  for_each (process_request act consumers) reqs tqo = Ok tqo' →
  dict_get t tqo = Some (o :: rest) →
  ∃ o', dict_get t tqo' = Some (o' :: rest) ∧ resolver_kept o o'.
Proof.
  intros Hnd Hfree Hrun Ht.
  destruct (dict_get t reqs) as [req|] eqn:Hreq.
  - destruct (process_requests_at _ _ _ _ _ _ _ Hnd Hreq Hrun)
      as (tqo1 & tqo2 & H1 & Hstep & H2).
    rewrite H2. rewrite <-H1 in Ht.
    apply (process_request_kept _ _ _ _ _ _ _ _ _ Hstep Ht).
    intros Hnone _. apply (Hfree req); [|done]. by apply dict_get_Some_elem.
  - apply dict_get_None in Hreq.
    rewrite (process_requests_frame _ _ _ _ _ _ Hreq Hrun).
    eexists. split; [done|]. apply resolver_kept_refl.
Qed.

Lemma add_qtype_converts_kept (tqo tqo' : Overrides) act infos inits prods cons
    t o rest :
  NoDup (dict_keys tqo) →
  _add_qtype_converts tqo act infos inits prods cons = Ok tqo' →
  dict_get t tqo = Some (o :: rest) →
  ∃ o', dict_get t tqo' = Some (o' :: rest) ∧ resolver_kept o o'.
Proof.
  intros Hnd Hrun Ht.
  unfold _add_qtype_converts in Hrun. apply bind_Ok in Hrun as (reqs & Hscan & Hrun).
  apply (process_requests_kept _ _ _ _ _ _ _ _ (scan_NoDup _ _ _ _ _ _ Hscan)) with (2:=Hrun);
    [|done].
  intros [[p|] c] Hreq Hc; simpl in Hc; subst c.
  - destruct (scan_producer_origin _ _ _ _ _ _ t p Hscan) as (o1 & Hin & _ & _ & Hconv).
    { unfold requested_producer_type.
      by rewrite (dict_get_NoDup _ _ _ (scan_NoDup _ _ _ _ _ _ Hscan) Hreq). }
    rewrite (dict_get_NoDup _ _ _ Hnd Hin) in Ht. by injection Ht as <- <-.
  - (* a request without either side makes the second loop raise *)
    exfalso.
    destruct (process_requests_at _ _ _ _ _ _ _ (scan_NoDup _ _ _ _ _ _ Hscan)
                (dict_get_NoDup _ _ _ (scan_NoDup _ _ _ _ _ _ Hscan) Hreq) Hrun)
      as (tqo1 & tqo2 & _ & Hstep & _).
    simpl in Hstep. by apply bind_Ok in Hstep as (ty & _ & Hstep).
Qed.


(** X12. On a table with unique keys the resolver changes nothing but
    [convert]: for every entry that holds a record, the first record after
    resolution agrees with the one before on every other key, the other
    records of the entry are the same, and a [convert] that was there is
    still there, with its target type and at least the [recv_nodes] it
    had. *)
Theorem resolver_changes_convert_only :
  ∀ (tqo tqo' : Overrides) (activation_type : QuantType)
    (value_infos : gmap string ValueInfoProto)
    (name_to_initializer : gmap string TensorProto)
    (producers : gmap string NodeProto) (consumers : gmap string (list NodeProto))
    (t : string) (o : Override) (rest : list Override),
    NoDup (dict_keys tqo) →
    _add_qtype_converts tqo activation_type value_infos name_to_initializer
      producers consumers = Ok tqo' →
    dict_get t tqo = Some (o :: rest) →
    ∃ o', dict_get t tqo' = Some (o' :: rest) ∧ resolver_kept o o'.
Proof. intros. by eapply add_qtype_converts_kept. Qed.

Lemma resolver_changes_convert_only_witness :
  ∃ o', dict_get "X"
          [("X", [set_convert {| convert_quant_type := QUInt8;
                                 recv_nodes := Some {["Q"]} |} (Ex.with_type QInt16)]);
           ("Y", [set_convert {| convert_quant_type := QUInt8; recv_nodes := None |}
                    (Ex.with_type QInt16)]);
           ("in", [set_convert {| convert_quant_type := QInt16;
                                  recv_nodes := Some {["N0"]} |} (Ex.with_type QUInt8)])]
        = Some [o'] ∧
        resolver_kept (Ex.with_type QInt16) o'.
Proof.
  apply (resolver_changes_convert_only Ex.scenario_c_tqo _ QUInt8 Ex.chain_infos ∅
           Ex.chain_producers Ex.chain_consumers "X" (Ex.with_type QInt16) []).
  - compute_done.
  - vm_compute. reflexivity.
  - vm_compute. reflexivity.
Defined.

(** ** Keys are only added, and at the end *)

Lemma ensure_entry_NoDup (tqo : Overrides) k init :
  NoDup (dict_keys tqo) → NoDup (dict_keys (ensure_entry k init tqo)).
Proof.
  intros Hnd. unfold ensure_entry.
  destruct (dict_get k tqo) as [[|]|]; try done; by apply dict_keys_set_NoDup.
Qed.

Lemma keys_grow_refl tqo : keys_grow tqo tqo.
Proof. by split. Qed.

Lemma keys_grow_trans tqo1 tqo2 tqo3 :
  keys_grow tqo1 tqo2 → keys_grow tqo2 tqo3 → keys_grow tqo1 tqo3.
Proof. intros [? ?] [? ?]. split; [by transitivity (dict_keys tqo2)|auto]. Qed.

Lemma keys_grow_set (tqo : Overrides) k v : keys_grow tqo (dict_set k v tqo).
Proof. split; [apply dict_keys_set_prefix|apply dict_keys_set_NoDup]. Qed.

Lemma keys_grow_ensure_entry (tqo : Overrides) k init :
  keys_grow tqo (ensure_entry k init tqo).
Proof. split; [apply ensure_entry_keys_prefix|apply ensure_entry_NoDup]. Qed.

Lemma keys_grow_set_ensure (tqo : Overrides) k init v :
  keys_grow tqo (dict_set k v (ensure_entry k init tqo)).
Proof.
  apply (keys_grow_trans _ (ensure_entry k init tqo));
    [apply keys_grow_ensure_entry|apply keys_grow_set].
Qed.

Lemma set_weight_type_keys (tqo tqo' : Overrides) k w s :
  _set_weight_type tqo k w s = Ok tqo' → keys_grow tqo tqo'.
Proof.
  intros (o & _ & -> & _)%set_weight_type_Ok.
  destruct (_ && _); [apply keys_grow_set_ensure|apply keys_grow_ensure_entry].
Qed.

Lemma set_scale_zero_point_keys (tqo tqo' : Overrides) k q sc zp :
  _set_scale_zero_point tqo k q sc zp = Ok tqo' → keys_grow tqo tqo'.
Proof. intros (o & _ & _ & ->)%set_scale_zero_point_Ok. apply keys_grow_set_ensure. Qed.

Lemma add_to_convert_recv_nodes_keys (tqo tqo' : Overrides) k p c names :
  _add_to_convert_recv_nodes tqo k p c names = Ok tqo' → keys_grow tqo tqo'.
Proof.
  intros (o & rest & _ & _ & ->)%add_to_convert_recv_nodes_Ok.
  apply keys_grow_set_ensure.
Qed.

Lemma process_request_keys act consumers (tqo tqo' : Overrides) item :
  process_request act consumers tqo item = Ok tqo' → keys_grow tqo tqo'.
Proof.
  destruct item as [k req]. intros Hrun. unfold process_request in Hrun.
  destruct req as [[p|] [[c names]|]]; simpl in Hrun.
  - case_decide.
    { by apply (add_to_convert_recv_nodes_keys _ _ _ _ _ _ Hrun). }
    apply bind_Ok in Hrun as (nodes & _ & Hrun). case_decide.
    + apply bind_Ok in Hrun as ([o1 rest1] & _ & Hrun).
      destruct (has_key _); [done|]. injection Hrun as <-. apply keys_grow_refl.
    + by apply (add_to_convert_recv_nodes_keys _ _ _ _ _ _ Hrun).
  - apply bind_Ok in Hrun as ([o1 rest1] & Hfirst & Hrun). injection Hrun as <-.
    apply keys_grow_set.
  - apply bind_Ok in Hrun as (ty & _ & Hrun). case_decide.
    { by apply (add_to_convert_recv_nodes_keys _ _ _ _ _ _ Hrun). }
    destruct (negb _); [done|]. injection Hrun as <-. apply keys_grow_refl.
  - by apply bind_Ok in Hrun as (ty & _ & Hrun).
Qed.

Lemma pin_keys act (tqo tqo' : Overrides) out sc1 zp1 sc2 zp2 :
  (output_type ← _get_output_activation_qtype out tqo act;
   if decide (output_type = QUInt16) then
     _set_scale_zero_point tqo out output_type sc1 zp1
   else if decide (output_type = QInt16) then
     _set_scale_zero_point tqo out output_type sc2 zp2
   else Ok tqo) = Ok tqo' →
  keys_grow tqo tqo'.
Proof.
  intros (T & _ & Hrun)%bind_Ok. repeat case_decide.
  - by apply (set_scale_zero_point_keys _ _ _ _ _ _ Hrun).
  - by apply (set_scale_zero_point_keys _ _ _ _ _ _ Hrun).
  - injection Hrun as <-. apply keys_grow_refl.
Qed.

Lemma for_each_keys {A : Type} (body : Overrides → A → result Overrides)
    (l : list A) (tqo tqo' : Overrides) :
  (∀ s1 s2 x, body s1 x = Ok s2 → keys_grow s1 s2) →
  for_each body l tqo = Ok tqo' → keys_grow tqo tqo'.
Proof.
  intros Hbody. apply (for_each_invariant (keys_grow tqo)); [|apply keys_grow_refl].
  intros s1 s2 x _ Hs1 Hstep. apply (keys_grow_trans _ s1); [done|].
  by apply (Hbody _ _ x).
Qed.

Lemma apply_policy_keys act wt inits (tqo tqo' : Overrides) n :
  apply_policy act wt inits tqo n = Ok tqo' → keys_grow tqo tqo'.
Proof.
  intros Hrun. unfold apply_policy in Hrun.
  destruct (_ && _).
  { destruct (foldl _ _ _) as [a16 wgt]. destruct (_ && _).
    - by apply (set_weight_type_keys _ _ _ _ _ Hrun).
    - injection Hrun as <-. apply keys_grow_refl. }
  destruct (_ && _).
  { destruct (has_q16_activation _ _ _ _ _);
      [|injection Hrun as <-; apply keys_grow_refl].
    revert Hrun. apply for_each_keys. intros s1 s2 i Hi. unfold layernorm_weight in Hi.
    destruct (input n !! i); [|done]. case_bool_decide.
    - by apply (set_weight_type_keys _ _ _ _ _ Hi).
    - injection Hi as <-. apply keys_grow_refl. }
  case_bool_decide.
  { apply bind_Ok in Hrun as (out & _ & Hrun). by apply (pin_keys _ _ _ _ _ _ _ _ Hrun). }
  case_bool_decide.
  { apply bind_Ok in Hrun as (out & _ & Hrun). by apply (pin_keys _ _ _ _ _ _ _ _ Hrun). }
  injection Hrun as <-. apply keys_grow_refl.
Qed.

Lemma add_qtype_converts_keys (tqo tqo' : Overrides) act infos inits prods cons :
  _add_qtype_converts tqo act infos inits prods cons = Ok tqo' → keys_grow tqo tqo'.
Proof.
  unfold _add_qtype_converts. intros (reqs & _ & Hrun)%bind_Ok. revert Hrun.
  apply for_each_keys. intros s1 s2 x. apply process_request_keys.
Qed.

(** The table of a returned configuration, as the two loops made it. *)
Lemma get_qnn_qdq_config_Ok {Reader Method : Type} (model : GraphProto)
    (reader : Reader) (method : Method) act wt init add per_channel
    (cfg : StaticQuantConfig Reader Method Overrides) :
  get_qnn_qdq_config model reader method act wt init add per_channel = Ok cfg →
  ∃ op_types consumers producers (tqo1 : Overrides),
    for_each index_node (node model) (∅, ∅, ∅) = Ok (op_types, consumers, producers) ∧
    (if bool_decide (default [] init ≠ []) && add
     then _add_qtype_converts (default [] init) act (graph_value_infos model)
            (graph_initializers model) producers consumers
     else Ok (default [] init)) = Ok tqo1 ∧
    for_each (apply_policy act wt (graph_initializers model)) (node model) tqo1
      = Ok (TensorQuantOverrides (cfg_extra_options cfg)).
Proof.
  unfold get_qnn_qdq_config. destruct per_channel; [done|].
  intros ([[ops cons] prods] & Hidx & Hrun)%bind_Ok.
  apply bind_Ok in Hrun as (tqo1 & Hres & Hrun).
  apply bind_Ok in Hrun as (tqo2 & Hpol & [= <-]). simpl.
  by exists ops, cons, prods, tqo1.
Qed.

(** X13. The function only adds to the caller's overrides. When a
    configuration is returned for overrides with unique keys, the keys of
    its table are unique and start with the caller's keys in the caller's
    order; and for every entry of the caller's that holds a record, the
    entry in the returned table has the same records after the first, and
    a first record that went through two changes at most: the resolver's,
    which touches [convert] only and keeps a [convert] that was there, and
    the policy's, which fills in absent keys. *)
Theorem configuration_extends_the_overrides :
  ∀ {Reader Method : Type} (model : GraphProto) (reader : Reader) (method : Method)
    (activation_type weight_type : QuantType) (init_overrides : Overrides)
    (add_qtype_converts per_channel : bool)
    (cfg : StaticQuantConfig Reader Method Overrides),
    NoDup (dict_keys init_overrides) →
    get_qnn_qdq_config model reader method activation_type weight_type
      (Some init_overrides) add_qtype_converts per_channel = Ok cfg →
    let tqo' := TensorQuantOverrides (cfg_extra_options cfg) in
    NoDup (dict_keys tqo') ∧
    dict_keys init_overrides `prefix_of` dict_keys tqo' ∧
    ∀ t o rest,
      dict_get t init_overrides = Some (o :: rest) →
      ∃ o1 o', resolver_kept o o1 ∧ filled_in o1 o' ∧
               dict_get t tqo' = Some (o' :: rest).
Proof.
  intros R M model reader method act wt init add per_channel cfg Hnd Hrun tqo'.
  apply get_qnn_qdq_config_Ok in Hrun
    as (ops & cons & prods & tqo1 & _ & Hres & Hpol). fold tqo' in Hpol. simpl in Hres.
  assert (keys_grow init tqo1 ∧
          ∀ t o rest, dict_get t init = Some (o :: rest) →
                      ∃ o1, dict_get t tqo1 = Some (o1 :: rest) ∧ resolver_kept o o1)
    as [Hkeys1 Hkept1].
  { destruct (_ && _).
    - split; [by apply (add_qtype_converts_keys _ _ _ _ _ _ _ Hres)|].
      intros t o rest Ht.
      apply (add_qtype_converts_kept _ _ _ _ _ _ _ _ _ _ Hnd Hres Ht).
    - injection Hres as <-. split; [apply keys_grow_refl|].
      intros t o rest Ht. exists o. split; [done|apply resolver_kept_refl]. }
  assert (keys_grow tqo1 tqo') as Hkeys2.
  { revert Hpol. apply for_each_keys. intros s1 s2 n. apply apply_policy_keys. }
  destruct (keys_grow_trans _ _ _ Hkeys1 Hkeys2) as [Hprefix Hnodup].
  split_and!; [by apply Hnodup|done|].
  intros t o rest Ht. destruct (Hkept1 _ _ _ Ht) as (o1 & Ht1 & Ho1).
  destruct (policy_loop_filled_in _ _ _ _ _ _ _ _ _ Hpol Ht1) as (o' & Ht' & Ho').
  by exists o1, o'.
Qed.

Lemma configuration_extends_the_overrides_witness :
  ∃ cfg : StaticQuantConfig unit unit Overrides,
    get_qnn_qdq_config Ex.mlp tt tt QUInt8 QInt8 (Some Ex.mlp_tqo) true false = Ok cfg ∧
    NoDup (dict_keys (TensorQuantOverrides (cfg_extra_options cfg))) ∧
    dict_keys Ex.mlp_tqo `prefix_of`
      dict_keys (TensorQuantOverrides (cfg_extra_options cfg)).
Proof.
  eexists. split; [vm_compute; reflexivity|].
  destruct (configuration_extends_the_overrides Ex.mlp tt tt QUInt8 QInt8 Ex.mlp_tqo
              true false
              {| cfg_calibration_data_reader := tt; cfg_calibrate_method := tt;
                 cfg_activation_type := QUInt8; cfg_weight_type := QInt8;
                 cfg_op_types_to_quantize := {["Relu"; "MatMul"; "Sigmoid"]};
                 cfg_extra_options :=
                   {| MinimumRealRange := 1 # 10000; DedicatedQDQPair := false;
                      TensorQuantOverrides :=
                        [("A", [set_convert {| convert_quant_type := QUInt8;
                                               recv_nodes := None |}
                                  (Ex.with_type QUInt16)]);
                         ("s", [set_scale (1 # 65536)
                                  (set_zero_point 0
                                     (set_convert {| convert_quant_type := QUInt8;
                                                     recv_nodes := None |}
                                        (Ex.with_type QUInt16)))]);
                         ("in", [set_convert {| convert_quant_type := QUInt16;
                                                recv_nodes := Some {["act"]} |}
                                   (Ex.with_type QUInt8)]);
                         ("O", [set_convert {| convert_quant_type := QUInt16;
                                               recv_nodes := Some {["sig"]} |}
                                  (Ex.with_type QUInt8)])];
                      UseQDQContribOps := None |} |})
    as (Hnd & Hprefix & _).
  - compute_done.
  - vm_compute. reflexivity.
  - split; [exact Hnd|exact Hprefix].
Defined.

(** ** What the scan records *)

Section scan_records.
Context (act : QuantType) (infos : gmap string ValueInfoProto).
Context (inits : gmap string TensorProto) (producers : gmap string NodeProto).

Lemma add_consumer_request_names (reqs reqs' : TypeRequests) q nm x :
  add_consumer_request infos inits q nm reqs x = Ok reqs' →
  is_activation_input x infos inits = true →
  ∃ names,
    requested_consumers reqs x ∈ [None; Some (q, names)] ∧
    (requested_consumers reqs x = None → names = ∅) ∧
    reqs' = dict_set x (TensorTypeRequest.mk (requested_producer_type reqs x)
                          (Some (q, names ∪ {[nm]}))) reqs.
Proof.
  unfold add_consumer_request, requested_producer_type, requested_consumers.
  intros Hrun Hact. rewrite Hact in Hrun.
  destruct (dict_get x reqs) as [[p [[q' names]|]]|]; simpl in *.
  - case_decide as Hq; [done|]. subst q'. injection Hrun as <-.
    exists names. split_and!; [right; by left|done|done].
  - rewrite decide_False in Hrun by (by intros []). injection Hrun as <-.
    exists ∅. split_and!; [by left|done|done].
  - rewrite decide_False in Hrun by (by intros []). injection Hrun as <-.
    exists ∅. split_and!; [by left|done|done].
Qed.

Lemma add_producer_request_consumers (reqs reqs' : TypeRequests) k q x :
  add_producer_request reqs k q = Ok reqs' →
  requested_consumers reqs' x = requested_consumers reqs x.
Proof.
  intros [_ ->]%add_producer_request_Ok. unfold requested_consumers at 1.
  destruct (decide (k = x)) as [->|Hne].
  - by rewrite dict_get_set_eq.
  - by rewrite dict_get_set_ne.
Qed.

Lemma add_producer_request_producer (reqs reqs' : TypeRequests) k q t :
  add_producer_request reqs k q = Ok reqs' →
  requested_producer_type reqs' t =
    if decide (t = k) then Some q else requested_producer_type reqs t.
Proof.
  intros [_ ->]%add_producer_request_Ok. unfold requested_producer_type at 1.
  case_decide as Ht.
  - subst. by rewrite dict_get_set_eq.
  - by rewrite dict_get_set_ne.
Qed.

Lemma add_consumer_requests_producer (reqs reqs' : TypeRequests) q nm inputs t :
  for_each (add_consumer_request infos inits q nm) inputs reqs = Ok reqs' →
  requested_producer_type reqs' t = requested_producer_type reqs t.
Proof.
  apply (for_each_invariant (λ r : TypeRequests,
    requested_producer_type r t = requested_producer_type reqs t)); [|done].
  intros ra rb x _ <- Hrun. by apply (add_consumer_request_producer _ _ _ _ _ _ _ _ Hrun).
Qed.

(** The producer side of the request for [t] after one iteration. *)
Lemma scan_override_producer (reqs reqs' : TypeRequests) k l t :
  scan_override act infos inits producers reqs (k, l) = Ok reqs' →
  requested_producer_type reqs' t = requested_producer_type reqs t ∨
  (t = k ∧ ∃ o q, l = [o] ∧ quant_type o = Some q ∧ q ≠ act ∧ convert o = None ∧
                  _is_tensor_quantizable k infos inits = true ∧ inits !! k = None ∧
                  requested_producer_type reqs' t = Some q).
Proof.
  intros [->|(o & q & nd & reqs1 & -> & Hq & Hne & Hconv & Hquant & Hinit & _ & Hprod
              & Hcons)]%scan_override_Ok; [by left|].
  rewrite (add_consumer_requests_producer _ _ _ _ _ _ Hcons).
  rewrite (add_producer_request_producer _ _ _ _ _ Hprod).
  case_decide as Ht; [right|by left].
  split; [done|]. exists o, q. by split_and!.
Qed.

(** An entry for which requests are recorded leaves a producer side. *)
Lemma scan_override_requesting (reqs reqs' : TypeRequests) k o q :
  scan_override act infos inits producers reqs (k, [o]) = Ok reqs' →
  _is_tensor_quantizable k infos inits = true → inits !! k = None →
  quant_type o = Some q → q ≠ act → convert o = None →
  requested_producer_type reqs' k = Some q.
Proof.
  intros Hrun Hquant Hinit Hq Hne Hconv. unfold scan_override in Hrun.
  rewrite Hquant, Hq, Hconv in Hrun. simpl in Hrun.
  rewrite bool_decide_eq_false_2 in Hrun by (rewrite Hinit; by intros []).
  destruct (producers !! k) as [nd|]; [|done].
  rewrite bool_decide_eq_true_2 in Hrun by done. simpl in Hrun.
  apply bind_Ok in Hrun as (reqs1 & Hprod & Hcons).
  rewrite (add_consumer_requests_producer _ _ _ _ _ _ Hcons).
  rewrite (add_producer_request_producer _ _ _ _ _ Hprod). by rewrite decide_True.
Qed.

Lemma scan_producer_requests_origin (items : Overrides) (reqs : TypeRequests) t q :
  for_each (scan_override act infos inits producers) items [] = Ok reqs →
  requested_producer_type reqs t = Some q →
  requesting_entry items act infos inits t q.
Proof.
  intros Hrun. revert t q. revert Hrun.
  apply (for_each_invariant (λ reqs : TypeRequests, ∀ t q,
    requested_producer_type reqs t = Some q →
    requesting_entry items act infos inits t q)); [|done].
  intros r1 r2 [k l] Hin Hr1 Hstep t q.
  destruct (scan_override_producer _ _ _ _ t Hstep)
    as [->|(-> & o & q' & -> & Hq' & Hne & Hconv & Hquant & Hinit & ->)]; [apply Hr1|].
  intros [= <-]. exists o. by split_and!.
Qed.

Lemma scan_producer_requests_recorded (items : Overrides) (reqs : TypeRequests) t q :
  NoDup (dict_keys items) →
  for_each (scan_override act infos inits producers) items [] = Ok reqs →
  requesting_entry items act infos inits t q →
  requested_producer_type reqs t = Some q.
Proof.
  intros Hnd Hrun (o & Hin & Hquant & Hinit & Hq & Hne & Hconv).
  apply list_elem_of_split in Hin as (l1 & l2 & ->).
  rewrite for_each_app in Hrun. apply bind_Ok in Hrun as (r1 & _ & Hrun).
  simpl in Hrun. apply bind_Ok in Hrun as (r2 & Hstep & Hrun).
  unfold dict_keys in Hnd. rewrite fmap_app, fmap_cons in Hnd. simpl in Hnd.
  apply NoDup_app in Hnd as (_ & _ & Hnd). apply NoDup_cons in Hnd as [Hl2 _].
  pose proof (scan_override_requesting _ _ _ _ _ Hstep Hquant Hinit Hq Hne Hconv) as Hr2.
  revert Hrun. apply (for_each_invariant (λ r : TypeRequests,
    requested_producer_type r t = Some q)); [|done].
  intros ra rb [k l] Hk Hra Hitem.
  destruct (scan_override_producer _ _ _ _ t Hitem) as [->|[-> _]]; [done|].
  destruct Hl2. apply list_elem_of_fmap. by exists (k, l).
Qed.
End scan_records.

(** X14. On a table with unique keys, a successful scan has recorded a
    producer-side request of type [q] for a tensor exactly when the table
    has an entry for it that is a single record of type [q], other than
    the default type and without [convert], the tensor being quantizable
    and not an initializer. *)
Theorem scan_records_producer_requests :
  ∀ (tqo : Overrides) (activation_type : QuantType)
    (value_infos : gmap string ValueInfoProto)
    (name_to_initializer : gmap string TensorProto)
    (producers : gmap string NodeProto) (type_requests : TypeRequests)
    (t : string) (q : QuantType),
    NoDup (dict_keys tqo) →
    for_each (scan_override activation_type value_infos name_to_initializer producers)
      tqo [] = Ok type_requests →
    (requested_producer_type type_requests t = Some q ↔
     requesting_entry tqo activation_type value_infos name_to_initializer t q).
Proof.
  intros tqo act infos inits prods reqs t q Hnd Hrun. split.
  - by apply scan_producer_requests_origin with (1:=Hrun).
  - by apply scan_producer_requests_recorded with (2:=Hrun).
Qed.

Lemma scan_records_producer_requests_witness :
  ∃ reqs,
    for_each (scan_override QUInt8 Ex.chain_infos ∅ Ex.chain_producers)
      Ex.scenario_c_tqo [] = Ok reqs ∧
    (requested_producer_type reqs "Y" = Some QInt16 ↔
     requesting_entry Ex.scenario_c_tqo QUInt8 Ex.chain_infos ∅ "Y" QInt16).
Proof.
  eexists. split; [vm_compute; reflexivity|].
  apply (scan_records_producer_requests Ex.scenario_c_tqo QUInt8 Ex.chain_infos ∅
           Ex.chain_producers).
  - compute_done.
  - vm_compute. reflexivity.
Defined.

Section scan_consumers.
Context (act : QuantType) (infos : gmap string ValueInfoProto).
Context (inits : gmap string TensorProto) (producers : gmap string NodeProto).
Context (items : Overrides).

Abbreviation sound := (consumers_sound items act infos inits producers).

Lemma add_consumer_request_sound (reqs reqs' : TypeRequests) k q nd x :
  requesting_entry items act infos inits k q → producers !! k = Some nd →
  x ∈ input nd →
  add_consumer_request infos inits q (name nd) reqs x = Ok reqs' →
  sound reqs → sound reqs'.
Proof.
  intros Hentry Hnd Hx Hrun Hsound.
  destruct (is_activation_input x infos inits) eqn:Hact.
  2:{ apply add_consumer_request_Ok in Hrun. rewrite Hact in Hrun. by subst. }
  apply add_consumer_request_names in Hrun as (names0 & Hold & Hnone & ->); [|done].
  intros x' q' names'. unfold requested_consumers at 1.
  destruct (decide (x = x')) as [<-|Hne]; [|rewrite dict_get_set_ne by done; apply Hsound].
  rewrite dict_get_set_eq. simpl. intros [= <- <-]. split.
  { exists (name nd). apply elem_of_union. right. by apply elem_of_singleton. }
  intros n [Hn|Hn]%elem_of_union.
  - apply elem_of_cons in Hold as [Hold|Hold].
    + rewrite (Hnone Hold) in Hn. by apply elem_of_empty in Hn.
    + apply list_elem_of_singleton in Hold. by apply (Hsound _ _ _ Hold).
  - apply elem_of_singleton in Hn as ->. exists nd. split; [|done]. by exists k.
Qed.

Lemma scan_override_sound (reqs reqs' : TypeRequests) item :
  item ∈ items →
  scan_override act infos inits producers reqs item = Ok reqs' →
  sound reqs → sound reqs'.
Proof.
  destruct item as [k l]. intros Hin Hrun Hsound.
  apply scan_override_Ok in Hrun
    as [->|(o & q & nd & reqs1 & -> & Hq & Hne & Hconv & Hquant & Hinit & Hnd & Hprod
            & Hcons)]; [done|].
  assert (requesting_entry items act infos inits k q) as Hentry.
  { exists o. by split_and!. }
  revert Hcons. apply (for_each_invariant sound).
  - intros r1 r2 x Hx Hr1 Hstep.
    by apply (add_consumer_request_sound _ _ _ _ _ _ Hentry Hnd Hx Hstep).
  - intros x q' names. rewrite (add_producer_request_consumers _ _ _ _ _ Hprod).
    apply Hsound.
Qed.

Lemma scan_consumers_sound (reqs : TypeRequests) :
  for_each (scan_override act infos inits producers) items [] = Ok reqs →
  sound reqs.
Proof.
  apply (for_each_invariant sound); [|done].
  intros r1 r2 item Hin Hr1 Hstep. by apply (scan_override_sound _ _ _ Hin Hstep).
Qed.

Lemma add_consumer_request_recorded_kept (reqs reqs' : TypeRequests) q' nm x' x q n :
  add_consumer_request infos inits q' nm reqs x' = Ok reqs' →
  consumer_recorded x q n reqs → consumer_recorded x q n reqs'.
Proof.
  intros Hrun (names & Hx & Hn).
  destruct (is_activation_input x' infos inits) eqn:Hact.
  2:{ apply add_consumer_request_Ok in Hrun. rewrite Hact in Hrun. subst.
      by exists names. }
  apply add_consumer_request_names in Hrun as (names0 & Hold & _ & ->); [|done].
  unfold consumer_recorded, requested_consumers.
  destruct (decide (x' = x)) as [->|Hne].
  - rewrite dict_get_set_eq. simpl. rewrite Hx in Hold.
    apply elem_of_cons in Hold as [?|Hold]; [done|].
    apply list_elem_of_singleton in Hold. injection Hold as -> ->.
    eexists. split; [done|]. apply elem_of_union. by left.
  - rewrite dict_get_set_ne by done. by exists names.
Qed.

Lemma add_consumer_request_recorded (reqs reqs' : TypeRequests) q nm x :
  is_activation_input x infos inits = true →
  add_consumer_request infos inits q nm reqs x = Ok reqs' →
  consumer_recorded x q nm reqs'.
Proof.
  intros Hact Hrun.
  apply add_consumer_request_names in Hrun as (names0 & _ & _ & ->); [|done].
  unfold consumer_recorded, requested_consumers. rewrite dict_get_set_eq. simpl.
  eexists. split; [done|]. apply elem_of_union. right. by apply elem_of_singleton.
Qed.

Lemma scan_override_recorded_kept (reqs reqs' : TypeRequests) item x q n :
  scan_override act infos inits producers reqs item = Ok reqs' →
  consumer_recorded x q n reqs → consumer_recorded x q n reqs'.
Proof.
  destruct item as [k l].
  intros [->|(o & q' & nd & reqs1 & _ & _ & _ & _ & _ & _ & _ & Hprod & Hcons)]%scan_override_Ok;
    [done|].
  intros Hx. revert Hcons. apply (for_each_invariant (consumer_recorded x q n)).
  - intros r1 r2 x' _ Hr1 Hstep.
    by apply (add_consumer_request_recorded_kept _ _ _ _ _ _ _ _ Hstep).
  - destruct Hx as (names & Hx & Hn). exists names.
    by rewrite (add_producer_request_consumers _ _ _ _ _ Hprod).
Qed.

Lemma scan_consumers_complete (reqs : TypeRequests) nd x q :
  for_each (scan_override act infos inits producers) items [] = Ok reqs →
  node_requests_input items act infos inits producers nd x q →
  consumer_recorded x q (name nd) reqs.
Proof.
  intros Hrun (y & (o & Hin & Hquant & Hinit & Hq & Hne & Hconv) & Hnd & Hx & Hact).
  apply list_elem_of_split in Hin as (l1 & l2 & Hitems). rewrite Hitems in Hrun.
  rewrite for_each_app in Hrun. apply bind_Ok in Hrun as (r1 & _ & Hrun).
  simpl in Hrun. apply bind_Ok in Hrun as (r2 & Hstep & Hrun).
  revert Hrun. apply (for_each_invariant (consumer_recorded x q (name nd))).
  { intros ra rb item _ Hra Hitem. by apply (scan_override_recorded_kept _ _ _ _ _ _ Hitem). }
  unfold scan_override in Hstep. rewrite Hquant, Hnd, Hq, Hconv in Hstep. simpl in Hstep.
  rewrite bool_decide_eq_false_2 in Hstep by (rewrite Hinit; by intros []).
  rewrite bool_decide_eq_true_2 in Hstep by done. simpl in Hstep.
  apply bind_Ok in Hstep as (r1' & _ & Hcons).
  apply list_elem_of_split in Hx as (i1 & i2 & Hinputs). rewrite Hinputs in Hcons.
  rewrite for_each_app in Hcons. apply bind_Ok in Hcons as (ra & _ & Hcons).
  simpl in Hcons. apply bind_Ok in Hcons as (rb & Hadd & Hcons).
  revert Hcons. apply (for_each_invariant (consumer_recorded x q (name nd))).
  { intros rc rd x' _ Hrc Hx'.
    by apply (add_consumer_request_recorded_kept _ _ _ _ _ _ _ _ Hx'). }
  by apply (add_consumer_request_recorded _ _ _ _ _ Hact Hadd).
Qed.
End scan_consumers.

(** X15. After a successful scan, the consumer side recorded for a tensor
    [x] asks for type [q] and lists the name [n] exactly when a node named
    [n] produces a tensor whose entry makes the scan record requests at
    type [q] and has [x] among the inputs that receive one: a non-empty
    name of a quantizable tensor that is not an initializer. A consumer
    side that is recorded lists at least one name. *)
Theorem scan_records_consumer_requests :
  ∀ (tqo : Overrides) (activation_type : QuantType)
    (value_infos : gmap string ValueInfoProto)
    (name_to_initializer : gmap string TensorProto)
    (producers : gmap string NodeProto) (type_requests : TypeRequests),
    for_each (scan_override activation_type value_infos name_to_initializer producers)
      tqo [] = Ok type_requests →
    (∀ x q n,
       (∃ names, requested_consumers type_requests x = Some (q, names) ∧ n ∈ names) ↔
       (∃ nd, node_requests_input tqo activation_type value_infos name_to_initializer
                producers nd x q ∧ name nd = n)) ∧
    (∀ x q names,
       requested_consumers type_requests x = Some (q, names) → ∃ n, n ∈ names).
Proof.
  intros tqo act infos inits prods reqs Hrun. split.
  - intros x q n. split.
    + intros (names & Hx & Hn).
      by apply (scan_consumers_sound _ _ _ _ _ _ Hrun _ _ _ Hx).
    + intros (nd & Hreq & <-). by apply (scan_consumers_complete _ _ _ _ _ _ _ _ _ Hrun).
  - intros x q names Hx. by apply (scan_consumers_sound _ _ _ _ _ _ Hrun _ _ _ Hx).
Qed.

Lemma scan_records_consumer_requests_witness :
  ∃ names,
    requested_consumers
      [("X", TensorTypeRequest.mk (Some QInt16) (Some (QInt16, {["P"]})));
       ("in", TensorTypeRequest.mk None (Some (QInt16, {["N0"]})));
       ("Y", TensorTypeRequest.mk (Some QInt16) None)] "X" = Some (QInt16, names) ∧
    "P" ∈ names.
Proof.
  destruct (scan_records_consumer_requests Ex.scenario_c_tqo QUInt8 Ex.chain_infos ∅
              Ex.chain_producers
              [("X", TensorTypeRequest.mk (Some QInt16) (Some (QInt16, {["P"]})));
               ("in", TensorTypeRequest.mk None (Some (QInt16, {["N0"]})));
               ("Y", TensorTypeRequest.mk (Some QInt16) None)])
    as [Hiff _].
  - vm_compute. reflexivity.
  - apply Hiff. exists Ex.P. split; [|done]. exists "Y". split_and!.
    + exists (Ex.with_type QInt16). split_and!; try done. right. by left.
    + done.
    + by left.
    + done.
Defined.

(** ** What the requesting nodes read after resolution *)

Lemma get_input_activation_qtype_ext (tqo1 tqo2 : Overrides) x n act :
  dict_get x tqo1 = dict_get x tqo2 →
  _get_input_activation_qtype tqo1 x n act = _get_input_activation_qtype tqo2 x n act.
Proof. unfold _get_input_activation_qtype. by intros ->. Qed.

Lemma get_output_activation_qtype_ext (tqo1 tqo2 : Overrides) x act :
  dict_get x tqo1 = dict_get x tqo2 →
  _get_output_activation_qtype x tqo1 act = _get_output_activation_qtype x tqo2 act.
Proof. unfold _get_output_activation_qtype. by intros ->. Qed.

Lemma add_to_convert_recv_nodes_read (tqo tqo' : Overrides) k p c names n act :
  _add_to_convert_recv_nodes tqo k p c names = Ok tqo' → n ∈ names →
  _get_input_activation_qtype tqo' k n act = c.
Proof.
  intros (o & rest & _ & _ & ->)%add_to_convert_recv_nodes_Ok Hn.
  unfold _get_input_activation_qtype. rewrite dict_get_set_eq. simpl.
  rewrite decide_True; [done|]. apply elem_of_union. by right.
Qed.

Lemma add_to_convert_recv_nodes_read_others (tqo tqo' : Overrides) k o p c names n act :
  dict_get k tqo = Some [o] → convert o = None →
  _add_to_convert_recv_nodes tqo k p c names = Ok tqo' → n ∉ names →
  _get_input_activation_qtype tqo' k n act = default act (quant_type o).
Proof.
  intros Hk Hconv Hrun Hn.
  destruct (add_to_convert_recv_nodes_fresh _ _ _ p c names Hk Hconv) as (tqo2 & Hrun' & Hk').
  rewrite Hrun in Hrun'. injection Hrun' as <-.
  unfold _get_input_activation_qtype. rewrite Hk'. destruct o; simpl in *.
  by rewrite decide_False.
Qed.

(** The iteration of the second loop for a tensor with a consumer-side
    request, seen from a requesting node. *)
Lemma process_request_read act consumers (tqo1 tqo2 : Overrides) x pt q names n :
  process_request act consumers tqo1 (x, TensorTypeRequest.mk pt (Some (q, names)))
    = Ok tqo2 →
  n ∈ names →
  (∀ p, pt = Some p →
        ∃ o, dict_get x tqo1 = Some [o] ∧ quant_type o = Some p ∧ convert o = None) →
  (∀ o rest cd, dict_get x tqo1 = Some (o :: rest) → convert o = Some cd →
                recv_nodes cd = None → convert_quant_type cd = q) →
  _get_input_activation_qtype tqo2 x n act = q.
Proof.
  intros Hrun Hn Horigin Hall. unfold process_request in Hrun.
  destruct pt as [p|]; simpl in Hrun.
  - destruct (Horigin p eq_refl) as (o & Hx & Hp & Hconv).
    case_decide as Hpq.
    { by apply (add_to_convert_recv_nodes_read _ _ _ _ _ _ _ _ Hrun). }
    subst p.
    apply bind_Ok in Hrun as (nodes & _ & Hrun). case_decide.
    + apply bind_Ok in Hrun as ([o1 rest1] & _ & Hrun).
      destruct (has_key _); [done|]. injection Hrun as <-.
      unfold _get_input_activation_qtype. by rewrite Hx, Hconv, Hp.
    + rewrite (add_to_convert_recv_nodes_read_others _ _ _ _ _ _ _ _ _ Hx Hconv Hrun).
      * by rewrite Hp.
      * intros [_ Hn']%elem_of_difference. done.
  - apply bind_Ok in Hrun as (ty & Hty & Hrun). case_decide as Hpq.
    { by apply (add_to_convert_recv_nodes_read _ _ _ _ _ _ _ _ Hrun). }
    subst ty.
    destruct (_check_not_in_convert_recv_nodes tqo1 x names) eqn:Hcheck; [|done].
    injection Hrun as <-.
    unfold _get_input_activation_qtype, _check_not_in_convert_recv_nodes in *.
    apply get_output_activation_qtype_Ok in Hty as [[Hx ->]|(o & Hx & ->)];
      rewrite Hx in *; [done|].
    destruct (convert o) as [cd|] eqn:Hconv; [|done].
    destruct (recv_nodes cd) as [nodes|] eqn:Hrecv.
    + apply bool_decide_eq_true in Hcheck. rewrite decide_False; [done|].
      intros Hn'. assert (n ∈ nodes ∩ names) as Hboth by by apply elem_of_intersection.
      rewrite Hcheck in Hboth. by apply elem_of_empty in Hboth.
    + by apply (Hall o [] cd).
Qed.

(** On a table given as a value: after a successful resolution on a table
    with unique keys, a node reads each of its inputs at the type it asked
    for: if the node
    produces a tensor whose entry makes the scan record requests at type
    [q], and [x] is one of its inputs that receive a request, then
    [_get_input_activation_qtype] gives [q] for [x] and that node -
    provided that the caller's entry for [x] does not hold a [convert]
    without [recv_nodes] to another type than [q]. *)
Lemma requesting_node_reads_the_requested_type :
  ∀ (tqo tqo' : Overrides) (activation_type : QuantType)
    (value_infos : gmap string ValueInfoProto)
    (name_to_initializer : gmap string TensorProto)
    (producers : gmap string NodeProto) (consumers : gmap string (list NodeProto))
    (nd : NodeProto) (x : string) (q : QuantType),
    NoDup (dict_keys tqo) →
    _add_qtype_converts tqo activation_type value_infos name_to_initializer
      producers consumers = Ok tqo' →
    node_requests_input tqo activation_type value_infos name_to_initializer producers
      nd x q →
    (∀ o rest cd, dict_get x tqo = Some (o :: rest) → convert o = Some cd →
                  recv_nodes cd = None → convert_quant_type cd = q) →
    _get_input_activation_qtype tqo' x (name nd) activation_type = q.
Proof.
  intros tqo tqo' act infos inits prods cons nd x q.
  intros Hnd Hrun Hreq Hall. unfold _add_qtype_converts in Hrun.
  apply bind_Ok in Hrun as (reqs & Hscan & Hrun).
  destruct (scan_consumers_complete _ _ _ _ _ _ _ _ _ Hscan Hreq) as (names & Hx & Hn).
  unfold requested_consumers in Hx.
  destruct (dict_get x reqs) as [[pt c]|] eqn:Hget; [|done]. simpl in Hx. subst c.
  destruct (process_requests_at _ _ _ _ _ _ _ (scan_NoDup _ _ _ _ _ _ Hscan) Hget Hrun)
    as (tqo1 & tqo2 & H1 & Hstep & H2).
  rewrite (get_input_activation_qtype_ext _ _ _ _ _ H2).
  apply (process_request_read _ _ _ _ _ _ _ _ _ Hstep Hn).
  - intros p ->. rewrite H1.
    destruct (scan_producer_origin _ _ _ _ _ _ x p Hscan) as (o & Hin & Hp & _ & Hconv).
    { unfold requested_producer_type. by rewrite Hget. }
    exists o. split_and!; [|done..]. by apply dict_get_NoDup.
  - rewrite H1. apply Hall.
Qed.

(** ** A convert without receivers *)

(** X17. A consumer-side request for the type the tensor already has is
    accepted without any change when the tensor's record converts for all
    consumers ([convert] without [recv_nodes]): the check of line 209
    passes, the table stays as it is, and every node, the requesting ones
    included, reads the tensor at the type of the convert. *)
Theorem convert_for_all_consumers_passes_the_check :
  ∀ (activation_type : QuantType) (consumers : gmap string (list NodeProto))
    (tqo : Overrides) (x : string) (o : Override) (cd : ConvertDict)
    (names : gset string),
    dict_get x tqo = Some [o] → convert o = Some cd → recv_nodes cd = None →
    process_request activation_type consumers tqo
      (x, TensorTypeRequest.mk None
            (Some (default activation_type (quant_type o), names))) = Ok tqo ∧
    ∀ n, _get_input_activation_qtype tqo x n activation_type = convert_quant_type cd.
Proof.
  intros act cons tqo x o cd names Hx Hconv Hrecv. split.
  - unfold process_request. simpl.
    rewrite (get_output_activation_qtype_single _ _ _ _ Hx). simpl.
    rewrite decide_False by (by intros []).
    unfold _check_not_in_convert_recv_nodes. by rewrite Hx, Hconv, Hrecv.
  - intros n. unfold _get_input_activation_qtype. by rewrite Hx, Hconv, Hrecv.
Qed.

Lemma convert_for_all_consumers_passes_the_check_witness :
  let tqo := [("X", [set_convert {| convert_quant_type := QUInt8; recv_nodes := None |}
                       (Ex.with_type QInt16)])] in
  process_request QUInt8 Ex.chain_consumers tqo
    ("X", TensorTypeRequest.mk None (Some (QInt16, {["P"]}))) = Ok tqo ∧
  ∀ n, _get_input_activation_qtype tqo "X" n QUInt8 = QUInt8.
Proof.
  intros tqo.
  apply (convert_for_all_consumers_passes_the_check QUInt8 Ex.chain_consumers tqo "X"
           (set_convert {| convert_quant_type := QUInt8; recv_nodes := None |}
              (Ex.with_type QInt16))
           {| convert_quant_type := QUInt8; recv_nodes := None |} {["P"]});
    reflexivity.
Defined.

(** X18. [_add_to_convert_recv_nodes] narrows a convert that had no
    [recv_nodes]: before the call every node reads the tensor at the type
    of the convert; after it, the nodes that were not passed read it at
    the type of the record. *)
Theorem add_to_convert_recv_nodes_narrows_a_convert_for_all :
  ∀ (tqo tqo' : Overrides) (tensor_name : string) (o : Override)
    (rest : list Override) (cd : ConvertDict) (prod_type consumer_type : QuantType)
    (consumer_names : gset string),
    dict_get tensor_name tqo = Some (o :: rest) →
    convert o = Some cd → recv_nodes cd = None →
    _add_to_convert_recv_nodes tqo tensor_name prod_type consumer_type consumer_names
      = Ok tqo' →
    consumer_type = convert_quant_type cd ∧
    ∀ n activation_type,
      _get_input_activation_qtype tqo tensor_name n activation_type
        = convert_quant_type cd ∧
      (n ∉ consumer_names →
       _get_input_activation_qtype tqo' tensor_name n activation_type
         = default activation_type (quant_type o)).
Proof.
  intros tqo tqo' k o rest cd p c names Hk Hconv Hrecv Hrun.
  apply add_to_convert_recv_nodes_Ok in Hrun as (o1 & rest1 & Hentry & Hty & ->).
  rewrite Hk in Hentry. injection Hentry as -> ->.
  split; [by rewrite (Hty cd)|]. intros n act. split.
  - unfold _get_input_activation_qtype. by rewrite Hk, Hconv, Hrecv.
  - intros Hn. unfold _get_input_activation_qtype. rewrite dict_get_set_eq.
    destruct o; simpl in *. subst. simpl. rewrite Hrecv. simpl.
    rewrite decide_False; [done|]. rewrite (left_id_L ∅ (∪)). done.
Qed.

Lemma add_to_convert_recv_nodes_narrows_a_convert_for_all_witness :
  let tqo := [("X", [set_convert {| convert_quant_type := QInt16; recv_nodes := None |}
                       empty_override])] in
  let tqo' := [("X", [set_convert {| convert_quant_type := QInt16;
                                     recv_nodes := Some {["P"]} |} empty_override])] in
  QInt16 = QInt16 ∧
  ∀ n activation_type,
    _get_input_activation_qtype tqo "X" n activation_type = QInt16 ∧
    (n ∉ ({["P"]} : gset string) →
     _get_input_activation_qtype tqo' "X" n activation_type = activation_type).
Proof.
  intros tqo tqo'.
  apply (add_to_convert_recv_nodes_narrows_a_convert_for_all tqo tqo' "X"
           (set_convert {| convert_quant_type := QInt16; recv_nodes := None |}
              empty_override) []
           {| convert_quant_type := QInt16; recv_nodes := None |} QUInt8 QInt16 {["P"]});
    reflexivity.
Defined.

(** ** The exceptions that can be raised *)

Lemma get_output_activation_qtype_Raise (tqo : Overrides) t act e :
  _get_output_activation_qtype t tqo act = Raise e →
  (e = ValueError per_tensor_msg ∧ ∃ l, dict_get t tqo = Some l ∧ 1 < length l) ∨
  (e = IndexError ∧ dict_get t tqo = Some []).
Proof.
  unfold _get_output_activation_qtype.
  destruct (dict_get t tqo) as [l|]; [|done]. case_decide as Hlen.
  - intros [= <-]. left. split; [done|]. by exists l.
  - destruct l; [|done]. intros [= <-]. by right.
Qed.

Lemma pin_Raise act (tqo : Overrides) out sc1 zp1 sc2 zp2 e :
  (output_type ← _get_output_activation_qtype out tqo act;
   if decide (output_type = QUInt16) then
     _set_scale_zero_point tqo out output_type sc1 zp1
   else if decide (output_type = QInt16) then
     _set_scale_zero_point tqo out output_type sc2 zp2
   else Ok tqo) = Raise e →
  e = ValueError per_tensor_msg ∨ e = IndexError.
Proof.
  destruct (_get_output_activation_qtype out tqo act) as [T|e'] eqn:HT; simpl.
  - intros Hrun.
    destruct (set_scale_zero_point_result _ _ _ _ sc1 zp1 HT) as (tqo1 & H1 & _).
    destruct (set_scale_zero_point_result _ _ _ _ sc2 zp2 HT) as (tqo2 & H2 & _).
    repeat case_decide; congruence.
  - intros [= <-]. apply get_output_activation_qtype_Raise in HT as [[-> _]|[-> _]];
      [by left|by right].
Qed.

Lemma apply_policy_Raise act wt inits (tqo : Overrides) n e :
  apply_policy act wt inits tqo n = Raise e →
  e = ValueError per_tensor_msg ∨ e = IndexError.
Proof.
  intros Hrun. unfold apply_policy in Hrun.
  destruct (_ && _).
  { destruct (foldl _ _ _) as [a16 wgt]. destruct (_ && _); [|done].
    apply set_weight_type_Raise in Hrun as [-> _]. by left. }
  destruct (_ && _).
  { destruct (has_q16_activation _ _ _ _ _); [|done].
    apply for_each_Raise in Hrun as (l1 & i & l2 & s1 & _ & _ & Hi).
    unfold layernorm_weight in Hi. destruct (input n !! i).
    - case_bool_decide; [|done]. apply set_weight_type_Raise in Hi as [-> _]. by left.
    - injection Hi as <-. by right. }
  unfold output0 in Hrun. case_bool_decide.
  { destruct (output n) as [|out ?]; simpl in Hrun; [injection Hrun as <-; by right|].
    by apply pin_Raise in Hrun. }
  case_bool_decide; [|done].
  destruct (output n) as [|out ?]; simpl in Hrun; [injection Hrun as <-; by right|].
  by apply pin_Raise in Hrun.
Qed.

Lemma policy_loop_Raise act wt inits nodes (tqo : Overrides) e :
  for_each (apply_policy act wt inits) nodes tqo = Raise e →
  e = ValueError per_tensor_msg ∨ e = IndexError.
Proof.
  intros (l1 & n & l2 & s1 & _ & _ & Hn)%for_each_Raise.
  by apply apply_policy_Raise in Hn.
Qed.

(** X19. The policy loop raises nothing but the per-channel [ValueError]
    and [IndexError]: no [KeyError], and the assertion of
    [_set_scale_zero_point] never fails there, the type it is given being
    the one read from the entry. *)
Theorem policy_raises_only_per_channel_or_index_errors :
  ∀ (activation_type weight_type : QuantType)
    (name_to_initializer : gmap string TensorProto) (nodes : list NodeProto)
    (tqo : Overrides) (e : Error),
    for_each (apply_policy activation_type weight_type name_to_initializer) nodes tqo
      = Raise e →
    e = ValueError per_tensor_msg ∨ e = IndexError.
Proof. intros. by eapply policy_loop_Raise. Qed.

Lemma policy_raises_only_per_channel_or_index_errors_witness :
  ValueError per_tensor_msg = ValueError per_tensor_msg ∨
  ValueError per_tensor_msg = IndexError.
Proof.
  apply (policy_raises_only_per_channel_or_index_errors QUInt8 QUInt8 ∅
           [{| op_type := "Tanh"; name := "t"; input := ["X"]; output := ["Y"] |}]
           Ex.per_channel_tqo).
  vm_compute. reflexivity.
Defined.

Section resolver_errors.
Context (act : QuantType) (infos : gmap string ValueInfoProto).
Context (inits : gmap string TensorProto) (producers : gmap string NodeProto).

(** Every request the scan records has a producer side or a consumer
    side. *)
Lemma scan_sides (items : Overrides) (reqs : TypeRequests) x req :
  for_each (scan_override act infos inits producers) items [] = Ok reqs →
  dict_get x reqs = Some req →
  is_Some (TensorTypeRequest.producer_type req) ∨
  is_Some (TensorTypeRequest.consumers req).
Proof.
  intros Hrun. revert x req. revert Hrun.
  apply (for_each_invariant (λ reqs : TypeRequests, ∀ x req,
    dict_get x reqs = Some req →
    is_Some (TensorTypeRequest.producer_type req) ∨
    is_Some (TensorTypeRequest.consumers req))); [|done].
  intros r1 r2 [k l] _ Hr1 Hstep.
  apply scan_override_Ok in Hstep
    as [->|(o & q & nd & reqs1 & _ & _ & _ & _ & _ & _ & _ & Hprod & Hcons)]; [done|].
  revert Hcons. apply (for_each_invariant (λ reqs : TypeRequests, ∀ x req,
    dict_get x reqs = Some req →
    is_Some (TensorTypeRequest.producer_type req) ∨
    is_Some (TensorTypeRequest.consumers req))).
  - intros ra rb x' _ Hra Hadd x req. apply add_consumer_request_Ok in Hadd.
    destruct (is_activation_input x' infos inits); [|subst; apply Hra].
    destruct Hadd as (names & _ & ->). destruct (decide (x' = x)) as [->|Hne].
    + rewrite dict_get_set_eq. intros [= <-]. right. by eexists.
    + rewrite dict_get_set_ne by done. apply Hra.
  - apply add_producer_request_Ok in Hprod as [_ ->]. intros x req.
    destruct (decide (k = x)) as [->|Hne].
    + rewrite dict_get_set_eq. intros [= <-]. left. by eexists.
    + rewrite dict_get_set_ne by done. apply Hr1.
Qed.

(** On a table with unique keys the scan raises at two places only: the
    lookup of the producing node and the consumer conflict. *)
Lemma scan_Raise (tqo : Overrides) e :
  NoDup (dict_keys tqo) →
  for_each (scan_override act infos inits producers) tqo [] = Raise e →
  (∃ k o, e = KeyError k ∧ (k, [o]) ∈ tqo ∧
          _is_tensor_quantizable k infos inits = true ∧ inits !! k = None ∧
          producers !! k = None) ∨
  (∃ x, e = ValueError (different_types_msg x)).
Proof.
  intros Hnd (l1 & [k l] & l2 & r1 & -> & Hl1 & Hstep)%for_each_Raise.
  unfold scan_override in Hstep.
  destruct (_is_tensor_quantizable k infos inits) eqn:Hquant; simpl in Hstep; [|done].
  case_bool_decide as Hinit; [done|]. apply eq_None_not_Some in Hinit.
  destruct l as [|o [|o' l]]; [done| |done].
  destruct (producers !! k) as [nd|] eqn:Hk.
  2:{ injection Hstep as <-. left. exists k, o. split_and!; try done.
      apply elem_of_app. right. by left. }
  right. destruct (_ && _); [|done].
  destruct (add_producer_request r1 k _) as [r1'|e'] eqn:Hprod; simpl in Hstep.
  - apply for_each_Raise in Hstep as (i1 & x & i2 & r2 & _ & _ & Hx).
    exists x. unfold add_consumer_request in Hx.
    destruct (is_activation_input x infos inits); [|done].
    destruct (default (_, _) _) as [ty names]. by case_decide; [injection Hx as <-|].
  - exfalso. unfold add_producer_request in Hprod.
    destruct (dict_get k r1) as [[[p|] c]|] eqn:Hr1; [|done..].
    destruct (scan_producer_origin act infos inits producers l1 r1 k p Hl1)
      as (o' & Hin & _).
    { unfold requested_producer_type. by rewrite Hr1. }
    unfold dict_keys in Hnd. rewrite fmap_app, fmap_cons in Hnd.
    apply NoDup_app in Hnd as (_ & Hnd & _). apply (Hnd k); [|by left].
    apply list_elem_of_fmap. by exists (k, [o']).
Qed.
End resolver_errors.

(** One iteration of the second loop, for a request with one side at
    least, whose producer side, if any, comes from a single record
    without [convert]. *)
Lemma process_request_Raise act consumers (tqo : Overrides) x req e :
  process_request act consumers tqo (x, req) = Raise e →
  is_Some (TensorTypeRequest.producer_type req) ∨
    is_Some (TensorTypeRequest.consumers req) →
  (is_Some (TensorTypeRequest.producer_type req) →
   ∃ o, dict_get x tqo = Some [o] ∧ convert o = None) →
  (e = KeyError x ∧ consumers !! x = None ∧
   is_Some (TensorTypeRequest.consumers req)) ∨
  e = ValueError convert_conflict_msg ∨ e = ValueError per_tensor_msg ∨
  e = IndexError ∨ e = AssertionError "Consumer type doesn't match convert type".
Proof.
  intros Hrun Hside Horigin. unfold process_request in Hrun.
  destruct req as [[p|] [[c names]|]]; simpl in *.
  - destruct Horigin as (o & Hx & Hconv); [by eexists|].
    destruct (add_to_convert_recv_nodes_fresh _ _ _ p c names Hx Hconv) as (t1 & H1 & _).
    case_decide; [congruence|].
    destruct (consumers !! x) as [nodes|] eqn:Hcons; simpl in Hrun.
    + case_decide.
      * rewrite (proj2 (first_record_Ok _ _ _ _) Hx) in Hrun. simpl in Hrun.
        by rewrite Hconv in Hrun.
      * destruct (add_to_convert_recv_nodes_fresh _ _ _ p act
                    (list_to_set (name <$> nodes) ∖ names) Hx Hconv) as (t2 & H2 & _).
        congruence.
    + injection Hrun as <-. left. split_and!; [done..|by eexists].
  - destruct Horigin as (o & Hx & Hconv); [by eexists|].
    rewrite (proj2 (first_record_Ok _ _ _ _) Hx) in Hrun. done.
  - destruct (_get_output_activation_qtype x tqo act) as [ty|e'] eqn:Hty; simpl in Hrun.
    + case_decide.
      * apply add_to_convert_recv_nodes_Raise in Hrun as [-> _]. by do 4 right.
      * destruct (negb _); [|done]. injection Hrun as <-. right. by left.
    + injection Hrun as <-.
      apply get_output_activation_qtype_Raise in Hty as [[-> _]|[-> _]].
      * do 2 right. by left.
      * do 3 right. by left.
  - by destruct Hside as [[? ?]|[? ?]].
Qed.

Lemma add_qtype_converts_Raise (tqo : Overrides) act infos inits prods cons e :
  NoDup (dict_keys tqo) →
  _add_qtype_converts tqo act infos inits prods cons = Raise e →
  (∃ k o, e = KeyError k ∧ (k, [o]) ∈ tqo ∧
          _is_tensor_quantizable k infos inits = true ∧ inits !! k = None ∧
          prods !! k = None) ∨
  (∃ k nd q, e = KeyError k ∧ cons !! k = None ∧
             node_requests_input tqo act infos inits prods nd k q) ∨
  (∃ x, e = ValueError (different_types_msg x)) ∨
  e = ValueError convert_conflict_msg ∨ e = ValueError per_tensor_msg ∨
  e = IndexError ∨ e = AssertionError "Consumer type doesn't match convert type".
Proof.
  intros Hnd Hrun. unfold _add_qtype_converts in Hrun.
  destruct (for_each _ tqo []) as [reqs|e'] eqn:Hscan; simpl in Hrun.
  2:{ injection Hrun as <-. apply scan_Raise in Hscan as [?|?]; [by left| |done].
      do 2 right. by left. }
  pose proof (scan_NoDup _ _ _ _ _ _ Hscan) as Hreqs.
  apply for_each_Raise in Hrun as (l1 & [x req] & l2 & s1 & -> & Hl1 & Hstep).
  assert (dict_get x (l1 ++ (x, req) :: l2)%list = Some req) as Hget.
  { apply dict_get_NoDup; [done|]. apply elem_of_app. right. by left. }
  assert (dict_get x s1 = dict_get x tqo) as Hs1.
  { apply (process_requests_frame act cons l1 tqo s1 x); [|done].
    unfold dict_keys in Hreqs. rewrite fmap_app, fmap_cons in Hreqs.
    apply NoDup_app in Hreqs as (_ & Hdisj & _). intros Hx. apply (Hdisj x Hx).
    by left. }
  apply process_request_Raise in Hstep
    as [(-> & Hcons & [[q names] Hc])|Hother].
  - right. left. destruct req as [pt c]. simpl in Hc. subst c.
    destruct (scan_consumers_sound _ _ _ _ _ _ Hscan x q names) as [[n Hn] Hsound].
    { unfold requested_consumers. by rewrite Hget. }
    destruct (Hsound n Hn) as (nd & Hreq & _). by exists x, nd, q.
  - do 3 right. done.
  - by apply (scan_sides _ _ _ _ _ _ x req Hscan).
  - intros [p Hp]. rewrite Hs1.
    destruct (scan_producer_origin _ _ _ _ _ _ x p Hscan) as (o & Hin & _ & _ & Hconv).
    { unfold requested_producer_type. rewrite Hget. by destruct req. }
    exists o. split; [|done]. by apply dict_get_NoDup.
Qed.

Lemma is_activation_input_nonempty x infos inits :
  is_activation_input x infos inits = true → x ≠ "".
Proof.
  unfold is_activation_input. intros [[Hx _]%andb_prop _]%andb_prop.
  by apply bool_decide_eq_true in Hx.
Qed.

(** On a table given as a value: with overrides whose keys are unique, the
    function raises one of these and nothing else: the [ValueError] for [per_channel]; an
    [AssertionError] of the indexing loop or of
    [_add_to_convert_recv_nodes]; the [ValueError] of the consumer
    conflict, of the convert conflict, or for an entry with several
    records; an [IndexError]; or a [KeyError], which then names a tensor
    with a single-record override that is quantizable, not an initializer,
    and produced by no node of the graph. *)
Lemma configuration_raises_only_these :
  ∀ {Reader Method : Type} (model : GraphProto) (reader : Reader) (method : Method)
    (activation_type weight_type : QuantType) (init_overrides : option Overrides)
    (add_qtype_converts per_channel : bool) (e : Error),
    NoDup (dict_keys (default [] init_overrides)) →
    get_qnn_qdq_config model reader method activation_type weight_type init_overrides
      add_qtype_converts per_channel = Raise e →
    (per_channel = true ∧
     e = ValueError "QNN EP does not yet support per-channel quantization.") ∨
    (∃ msg, e = AssertionError msg ∧
            msg ∈ ["Node output name cannot be empty";
                   "Tensor can only be generated by a single node";
                   "Consumer type doesn't match convert type"]) ∨
    (∃ k o, e = KeyError k ∧ (k, [o]) ∈ default [] init_overrides ∧
            _is_tensor_quantizable k (graph_value_infos model) (graph_initializers model)
              = true ∧
            graph_initializers model !! k = None ∧
            k ∉ graph_outputs (node model)) ∨
    (∃ x, e = ValueError (different_types_msg x)) ∨
    e = ValueError convert_conflict_msg ∨ e = ValueError per_tensor_msg ∨
    e = IndexError.
Proof.
  intros R M model reader method act wt init add per_channel e.
  intros Hnd Hrun. unfold get_qnn_qdq_config in Hrun.
  destruct per_channel; [injection Hrun as <-; by left|]. right.
  destruct (for_each index_node (node model) (∅, ∅, ∅)) as [[[ops cons] prods]|e']
    eqn:Hidx; simpl in Hrun.
  2:{ injection Hrun as <-. left.
      apply for_each_Raise in Hidx as (l1 & n & l2 & s1 & _ & _ & Hn).
      apply index_node_raises in Hn as [-> | ->]; eexists; (split; [done|]).
      - by left.
      - right. by left. }
  apply index_nodes_Ok in Hidx as (_ & _ & _ & _ & Hprods & _ & Hkeys).
  match type of Hrun with (?r ≫= _) = _ => destruct r as [tqo1|e'] eqn:Hres end;
    simpl in Hrun.
  2:{ injection Hrun as <-. destruct (_ && _); [|done].
      apply add_qtype_converts_Raise in Hres
        as [(k & o & -> & Hin & Hquant & Hinit & Hk)
           |[(k & nd & q & -> & Hcons & (y & _ & Hy & Hk & Hact))
            |[?|[?|[?|[?| ->]]]]]]; [| |tauto..| |done].
      - right. left. exists k, o. split_and!; try done.
        intros (outs & Hk' & (m & -> & Hm)%list_elem_of_fmap)%list_elem_of_join.
        assert (prods !! k = Some m) as Hsome; [|congruence].
        apply Hprods. right. by split.
      - exfalso. assert (is_Some (cons !! k)) as [? ?]; [|congruence].
        apply Hkeys. right. split; [by apply is_activation_input_nonempty in Hact|].
        exists nd. split; [|done].
        apply Hprods in Hy as [Hy|[Hy _]]; [by rewrite lookup_empty in Hy|done].
      - left. eexists. split; [done|]. do 2 right. by left. }
  match type of Hrun with (?r ≫= _) = _ => destruct r as [tqo2|e'] eqn:Hpol end;
    simpl in Hrun; [done|].
  injection Hrun as <-. apply policy_loop_Raise in Hpol as [-> | ->]; tauto.
Qed.

(** ** The MatMul rule *)

Section matmul.
Context (tqo : Overrides) (inits : gmap string TensorProto).
Context (node_name : string) (act : QuantType).

Abbreviation reads16 := (λ x : string,
  inits !! x = None ∧
  Q16_TYPES (_get_input_activation_qtype tqo x node_name act) = true).

Lemma matmul_input_step a w x :
  matmul_input tqo inits node_name act (a, w) x =
  (if bool_decide (reads16 x) then Some x else a,
   if bool_decide (is_Some (inits !! x)) then Some x else w).
Proof.
  unfold matmul_input. destruct (inits !! x) as [i|] eqn:Hx.
  - rewrite bool_decide_eq_false_2 by done.
    rewrite bool_decide_eq_false_2 by (by intros [? _]).
    by rewrite bool_decide_eq_true_2 by (by eexists).
  - rewrite bool_decide_eq_true_2 by done.
    rewrite (bool_decide_eq_false_2 (is_Some None)) by (by intros [? ?]).
    destruct (Q16_TYPES _) eqn:H16.
    + by rewrite bool_decide_eq_true_2.
    + rewrite bool_decide_eq_false_2; [done|]. intros [_ ?]. congruence.
Qed.

(** The loop over the inputs keeps the last input that is read at a
    16-bit type and the last input that is an initializer. *)
Lemma matmul_inputs_fold l a0 w0 :
  ∃ a w,
    foldl (matmul_input tqo inits node_name act) (a0, w0) l = (a, w) ∧
    ((a = a0 ∧ ∀ x, x ∈ l → ¬ reads16 x) ∨ (∃ x, a = Some x ∧ x ∈ l ∧ reads16 x)) ∧
    ((w = w0 ∧ ∀ x, x ∈ l → inits !! x = None) ∨
     (∃ pre x post, w = Some x ∧ l = (pre ++ x :: post)%list ∧ is_Some (inits !! x) ∧
                    ∀ y, y ∈ post → inits !! y = None)).
Proof.
  induction l as [|x l IH] using rev_ind.
  { exists a0, w0. split_and!; [done|left|left]; (split; [done|]);
      by intros x ?%elem_of_nil. }
  destruct IH as (a & w & Hfold & Ha & Hw).
  rewrite foldl_app, Hfold. cbn [foldl]. rewrite matmul_input_step.
  eexists _, _. split; [done|]. split.
  - case_bool_decide as Hx.
    + right. exists x. split; [done|]. split; [|done]. apply elem_of_app. right. by left.
    + destruct Ha as [[-> Hnone]|(y & -> & Hy & Hy16)].
      * left. split; [done|]. intros y [Hy|Hy]%elem_of_app; [by apply Hnone|].
        by apply list_elem_of_singleton in Hy as ->.
      * right. exists y. split; [done|]. split; [|done]. apply elem_of_app. by left.
  - case_bool_decide as Hx.
    + right. exists l, x, []. split_and!; [done..|]. by intros y ?%elem_of_nil.
    + apply eq_None_not_Some in Hx.
      destruct Hw as [[-> Hnone]|(pre & y & post & -> & -> & Hy & Hpost)].
      * left. split; [done|]. intros y [Hy|Hy]%elem_of_app; [by apply Hnone|].
        by apply list_elem_of_singleton in Hy as ->.
      * right. exists pre, y, (post ++ [x])%list. split_and!; [done| |done|].
        -- by rewrite <-(assoc_L (++)).
        -- intros z [Hz|Hz]%elem_of_app; [by apply Hpost|].
           by apply list_elem_of_singleton in Hz as ->.
Qed.
End matmul.

(** The initializer in a list of inputs after which no initializer
    comes is determined. *)
Lemma last_initializer_unique (inits : gmap string TensorProto)
    (pre1 pre2 post1 post2 : list string) (x1 x2 : string) :
  (pre1 ++ x1 :: post1 = pre2 ++ x2 :: post2)%list →
  is_Some (inits !! x1) → is_Some (inits !! x2) →
  (∀ y, y ∈ post1 → inits !! y = None) → (∀ y, y ∈ post2 → inits !! y = None) →
  x1 = x2.
Proof.
  revert pre2. induction pre1 as [|a pre1 IH]; intros [|b pre2]; simpl.
  - by intros [= -> _].
  - intros [= -> ->] _ [i Hx2] Hpost1 _.
    rewrite (Hpost1 x2) in Hx2; [done|]. apply elem_of_app. right. by left.
  - intros [= -> <-] [i Hx1] _ _ Hpost2.
    rewrite (Hpost2 x1) in Hx1; [done|]. apply elem_of_app. right. by left.
  - intros [= -> Heq]. by apply (IH pre2).
Qed.

Lemma matmul_policy_promotes act wt inits (tqo : Overrides) n pre wname post :
  op_type n = "MatMul" → Q8_TYPES wt = true →
  ("" ∉ input n) →
  input n = (pre ++ wname :: post)%list →
  is_Some (inits !! wname) → (∀ y, y ∈ post → inits !! y = None) →
  (∃ x, x ∈ input n ∧ inits !! x = None ∧
        Q16_TYPES (_get_input_activation_qtype tqo x (name n) act) = true) →
  (∀ l, dict_get wname tqo = Some l → (length l ≤ 1)%nat) →
  ∃ tqo',
    apply_policy act wt inits tqo n = Ok tqo' ∧
    dict_get wname tqo' =
      Some [promoted wt (bool_decide (wt = QInt8)) (entry_record tqo wname)] ∧
    ∀ t, t ≠ wname → dict_get t tqo' = dict_get t tqo.
Proof.
  intros Hop Hwt Hnamed Hinputs Hwname Hpost (x & Hx & Hxinit & Hx16) Hlen.
  unfold apply_policy. rewrite Hop, Hwt. simpl.
  destruct (matmul_inputs_fold tqo inits (name n) act (input n) None None)
    as (a & w & -> & Ha & Hw).
  destruct Ha as [[_ Hnone]|(xa & -> & Hxa & _)]; [by destruct (Hnone x Hx)|].
  destruct Hw as [[_ Hnone]|(pre' & w' & post' & -> & Hsplit & Hw' & Hpost')].
  { destruct Hwname as [i Hi]. rewrite (Hnone wname) in Hi; [done|].
    rewrite Hinputs. apply elem_of_app. right. by left. }
  rewrite Hinputs in Hsplit.
  rewrite <-(last_initializer_unique inits _ _ _ _ _ _ Hsplit Hwname Hw' Hpost Hpost').
  assert (truthy (Some xa) = true) as ->.
  { apply bool_decide_eq_true_2. by intros ->. }
  assert (truthy (Some wname) = true) as ->.
  { apply bool_decide_eq_true_2. intros ->. apply Hnamed. rewrite Hinputs.
    apply elem_of_app. right. by left. }
  cbn [andb default].
  destruct (set_weight_type_result tqo wname wt (bool_decide (wt = QInt8)) Hlen)
    as (tqo' & Hrun & Hget).
  exists tqo'. split_and!; [done..|]. intros t Ht.
  by apply (set_weight_type_frame _ _ _ _ _ _ Hrun).
Qed.

Lemma matmul_policy_skips act wt inits (tqo : Overrides) n :
  op_type n = "MatMul" →
  (∀ x, x ∈ input n → inits !! x = None →
        Q16_TYPES (_get_input_activation_qtype tqo x (name n) act) = false) ∨
  (∀ x, x ∈ input n → inits !! x = None) →
  apply_policy act wt inits tqo n = Ok tqo.
Proof.
  intros Hop Hnone. unfold apply_policy. rewrite Hop. simpl.
  destruct (Q8_TYPES wt); simpl; [|done].
  destruct (matmul_inputs_fold tqo inits (name n) act (input n) None None)
    as (a & w & -> & Ha & Hw).
  destruct Hnone as [Hnone|Hnone].
  - destruct Ha as [[-> _]|(xa & -> & Hxa & Hinit & H16)]; [done|].
    by rewrite (Hnone xa) in H16.
  - destruct Hw as [[-> _]|(pre' & w' & post' & -> & Hsplit & [i Hw'] & _)];
      [by destruct (truthy a)|].
    rewrite (Hnone w') in Hw'; [done|]. rewrite Hsplit. apply elem_of_app. right.
    by left.
Qed.

(** X21. The MatMul rule. For a MatMul node with named inputs and an 8-bit
    weight type, if some input that is not an initializer is read by the
    node at a 16-bit type, the last initializer among the inputs is
    promoted: its entry becomes one record with [quant_type] the weight
    type and [symmetric] set for QInt8, unless the record already has one
    of the two keys. If no such input exists, or the node has no
    initializer input, the rule changes nothing. *)
Theorem matmul_rule :
  (∀ (activation_type weight_type : QuantType)
     (name_to_initializer : gmap string TensorProto) (tqo : Overrides)
     (n : NodeProto) (pre : list string) (wname : string) (post : list string),
     op_type n = "MatMul" → Q8_TYPES weight_type = true →
     ("" ∉ input n) →
     input n = (pre ++ wname :: post)%list →
     is_Some (name_to_initializer !! wname) →
     (∀ y, y ∈ post → name_to_initializer !! y = None) →
     (∃ x, x ∈ input n ∧ name_to_initializer !! x = None ∧
           Q16_TYPES (_get_input_activation_qtype tqo x (name n) activation_type)
           = true) →
     (∀ l, dict_get wname tqo = Some l → (length l ≤ 1)%nat) →
     ∃ tqo',
       apply_policy activation_type weight_type name_to_initializer tqo n = Ok tqo' ∧
       dict_get wname tqo' =
         Some [promoted weight_type (bool_decide (weight_type = QInt8))
                 (entry_record tqo wname)]) ∧
  (∀ (activation_type weight_type : QuantType)
     (name_to_initializer : gmap string TensorProto) (tqo : Overrides)
     (n : NodeProto),
     op_type n = "MatMul" →
     (∀ x, x ∈ input n → name_to_initializer !! x = None →
           Q16_TYPES (_get_input_activation_qtype tqo x (name n) activation_type)
           = false) ∨
     (∀ x, x ∈ input n → name_to_initializer !! x = None) →
     apply_policy activation_type weight_type name_to_initializer tqo n = Ok tqo).
Proof.
  split.
  - intros act wt inits tqo n pre wname post Hop Hnarrow Hnamed Hin Hw Hlast Hx Hlen.
    destruct (matmul_policy_promotes act wt inits tqo n pre wname post Hop Hnarrow
                Hnamed Hin Hw Hlast Hx Hlen) as (tqo' & Hrun & Hget & _).
    by exists tqo'.
  - intros. by eapply matmul_policy_skips.
Qed.

Lemma matmul_rule_witness :
  (∃ tqo',
     apply_policy QUInt8 QInt8 Ex.matmul_inits [("A", [Ex.with_type QUInt16])] Ex.matmul
       = Ok tqo' ∧
     dict_get "W" tqo' = Some [set_symmetric true (Ex.with_type QInt8)]) ∧
  apply_policy QUInt8 QInt8 Ex.matmul_inits [] Ex.matmul = Ok [].
Proof.
  destruct matmul_rule as [Hpromotes Hskips]. split.
  - destruct (Hpromotes QUInt8 QInt8 Ex.matmul_inits [("A", [Ex.with_type QUInt16])]
                Ex.matmul ["A"] "W" [])
      as (tqo' & Hrun & Hw).
    + reflexivity.
    + reflexivity.
    + compute_done.
    + reflexivity.
    + by eexists.
    + by intros y ?%elem_of_nil.
    + exists "A". split_and!; [by left|done|done].
    + intros l [=].
    + exists tqo'. split; [exact Hrun|exact Hw].
  - apply Hskips; [reflexivity|]. left. intros x Hx Hinit.
    apply elem_of_cons in Hx as [->|Hx]; [done|].
    apply list_elem_of_singleton in Hx as ->. done.
Defined.

(** ** The maps built from the graph *)

Lemma dict_update_snoc {V : Type} (d : gmap string V) l k v :
  dict_update d (l ++ [(k, v)])%list = <[k := v]> (dict_update d l).
Proof. unfold dict_update. by rewrite foldl_app. Qed.

(** A lookup in an updated map finds the last binding of the name in the
    list of updates, and falls back to the map. *)
Lemma dict_update_lookup {V : Type} (d : gmap string V) l k :
  dict_update d l !! k =
  match dict_get k (reverse l) with
  | Some v => Some v
  | None => d !! k
  end.
Proof.
  induction l as [|[k' v'] l IH] using rev_ind; [done|].
  rewrite dict_update_snoc, reverse_app. simpl.
  destruct (decide (k = k')) as [->|Hne].
  - by rewrite lookup_insert_eq.
  - by rewrite lookup_insert_ne.
Qed.

(** X22. [value_infos] is filled from [value_info], then the graph outputs,
    then the graph inputs, each update replacing what was there: a name is
    looked up among the graph inputs first, then the graph outputs, then
    [value_info], and within one list its last occurrence counts. The
    same holds for the list of initializers. *)
Theorem graph_maps_lookup (model : GraphProto) (k : string) :
  graph_value_infos model !! k =
    match dict_get k (reverse (graph_input model)) with
    | Some vi => Some vi
    | None =>
        match dict_get k (reverse (graph_output model)) with
        | Some vi => Some vi
        | None => dict_get k (reverse (value_info model))
        end
    end ∧
  graph_initializers model !! k = dict_get k (reverse (initializer model)).
Proof.
  unfold graph_value_infos, graph_initializers. rewrite !dict_update_lookup.
  split.
  - repeat (destruct (dict_get k (reverse _)); [done|]). apply lookup_empty.
  - destruct (dict_get k (reverse _)); [done|]. apply lookup_empty.
Qed.

(** ** Reading a tensor as its producer and as a consumer *)

(** X23. When [_get_output_activation_qtype] returns a type for a tensor,
    what a node reads for that tensor as its input is determined by the
    [convert] of the tensor's record: if the record holds a [convert] that
    applies to the node (it has no [recv_nodes], or the node is one of
    them), the node reads the type of the convert; if it holds none, or one
    whose [recv_nodes] does not list the node, the node reads the type
    that was returned. *)
Theorem input_type_is_output_type_unless_converted :
  ∀ (tqo : Overrides) (tensor_name node_name : string)
    (activation_type T : QuantType),
    _get_output_activation_qtype tensor_name tqo activation_type = Ok T →
    (∀ o cd,
       dict_get tensor_name tqo = Some [o] → convert o = Some cd →
       (∀ nodes, recv_nodes cd = Some nodes → node_name ∈ nodes) →
       _get_input_activation_qtype tqo tensor_name node_name activation_type
       = convert_quant_type cd) ∧
    ((∀ o cd,
        dict_get tensor_name tqo = Some [o] → convert o = Some cd →
        ∃ nodes, recv_nodes cd = Some nodes ∧ node_name ∉ nodes) →
     _get_input_activation_qtype tqo tensor_name node_name activation_type = T).
Proof.
  intros tqo x n act T Hout. unfold _get_input_activation_qtype.
  apply get_output_activation_qtype_Ok in Hout as [[-> ->]|(o & -> & ->)].
  { split; [by intros o cd [=]|done]. }
  split.
  - intros o' cd [= <-] -> Hn.
    destruct (recv_nodes cd) as [nodes|]; [|done].
    by rewrite decide_True by (by apply Hn).
  - intros Hnone. destruct (convert o) as [cd|] eqn:Hconv; [|done].
    destruct (Hnone o cd eq_refl Hconv) as (nodes & -> & Hn).
    by rewrite decide_False.
Qed.

Lemma input_type_is_output_type_unless_converted_witness :
  (∀ o cd,
     dict_get "X" Ex.convert_conflict_tqo = Some [o] → convert o = Some cd →
     (∀ nodes, recv_nodes cd = Some nodes → "P" ∈ nodes) →
     _get_input_activation_qtype Ex.convert_conflict_tqo "X" "P" QUInt8
     = convert_quant_type cd) ∧
  ((∀ o cd,
      dict_get "X" Ex.convert_conflict_tqo = Some [o] → convert o = Some cd →
      ∃ nodes, recv_nodes cd = Some nodes ∧ "P" ∉ nodes) →
   _get_input_activation_qtype Ex.convert_conflict_tqo "X" "P" QUInt8 = QInt16).
Proof.
  apply (input_type_is_output_type_unless_converted Ex.convert_conflict_tqo "X" "P"
           QUInt8 QInt16).
  reflexivity.
Defined.

(** ** The default configuration *)

Lemma has_q16_activation_false (tqo : Overrides) inits node_name act inputs :
  (∀ x, x ∈ inputs → inits !! x = None →
        Q16_TYPES (_get_input_activation_qtype tqo x node_name act) = false) →
  has_q16_activation tqo inits node_name act inputs = false.
Proof.
  induction inputs as [|x inputs IH]; intros Hall; [done|]. simpl.
  case_bool_decide as Hx.
  - rewrite (Hall x) by (done || by left). apply IH. intros y Hy. apply Hall. by right.
  - apply IH. intros y Hy. apply Hall. by right.
Qed.

Lemma apply_policy_empty_8bit act wt inits n (tqo' : Overrides) :
  Q8_TYPES act = true →
  apply_policy act wt inits [] n = Ok tqo' → tqo' = [].
Proof.
  intros Hact Hrun.
  assert (Q16_TYPES act = false) as H16 by by destruct act.
  unfold apply_policy in Hrun.
  destruct (bool_decide (op_type n = "MatMul") && Q8_TYPES wt).
  { destruct (matmul_inputs_fold [] inits (name n) act (input n) None None)
      as (a & w & Hfold & Ha & _).
    rewrite Hfold in Hrun. destruct Ha as [[-> _]|(x & _ & _ & _ & Hx16)].
    - simpl in Hrun. by injection Hrun.
    - unfold _get_input_activation_qtype in Hx16. simpl in Hx16. congruence. }
  destruct (bool_decide (op_type n = "LayerNormalization") && Q8_TYPES wt).
  { rewrite has_q16_activation_false in Hrun by done. by injection Hrun. }
  unfold output0 in Hrun.
  assert (act ≠ QUInt16 ∧ act ≠ QInt16) as [? ?] by by destruct act.
  case_bool_decide.
  { destruct (output n); [done|]. simpl in Hrun.
    rewrite !decide_False in Hrun by done. by injection Hrun. }
  case_bool_decide; [|by injection Hrun].
  destruct (output n); [done|]. simpl in Hrun.
  rewrite !decide_False in Hrun by done. by injection Hrun.
Qed.

(** X24. Without overrides and with an 8-bit activation type, the
    configuration that is returned carries an empty override table: no
    rule of the policy fires, whatever the graph and the weight type. *)
Theorem default_8bit_configuration_has_no_overrides :
  ∀ {Reader Method : Type} (model : GraphProto) (reader : Reader) (method : Method)
    (activation_type weight_type : QuantType) (init_overrides : option Overrides)
    (add_qtype_converts per_channel : bool)
    (cfg : StaticQuantConfig Reader Method Overrides),
    Q8_TYPES activation_type = true →
    default [] init_overrides = [] →
    get_qnn_qdq_config model reader method activation_type weight_type init_overrides
      add_qtype_converts per_channel = Ok cfg →
    TensorQuantOverrides (cfg_extra_options cfg) = [].
Proof.
  intros R M model reader method act wt init add per_channel cfg Hact Hinit Hrun.
  apply get_qnn_qdq_config_Ok in Hrun as (ops & cons & prods & tqo1 & _ & Hres & Hpol).
  rewrite Hinit in Hres. simpl in Hres. injection Hres as <-. revert Hpol.
  apply (for_each_invariant (λ s : Overrides, s = [])); [|done].
  intros s1 s2 n _ -> Hstep. by apply (apply_policy_empty_8bit _ _ _ _ _ Hact Hstep).
Qed.

Lemma default_8bit_configuration_has_no_overrides_witness :
  ∃ cfg : StaticQuantConfig unit unit Overrides,
    get_qnn_qdq_config Ex.mlp tt tt QUInt8 QInt8 None true false = Ok cfg ∧
    TensorQuantOverrides (cfg_extra_options cfg) = [].
Proof.
  eexists. split; [vm_compute; reflexivity|].
  apply (default_8bit_configuration_has_no_overrides Ex.mlp tt tt QUInt8 QInt8 None
           true false).
  - reflexivity.
  - reflexivity.
  - vm_compute. reflexivity.
Defined.

(** ** The saturating outputs in the returned configuration *)

Lemma pin_frame act (tqo tqo' : Overrides) out sc1 zp1 sc2 zp2 t :
  (output_type ← _get_output_activation_qtype out tqo act;
   if decide (output_type = QUInt16) then
     _set_scale_zero_point tqo out output_type sc1 zp1
   else if decide (output_type = QInt16) then
     _set_scale_zero_point tqo out output_type sc2 zp2
   else Ok tqo) = Ok tqo' →
  t ≠ out → dict_get t tqo' = dict_get t tqo.
Proof.
  intros (T & _ & Hrun)%bind_Ok Ht. repeat case_decide.
  - by apply (set_scale_zero_point_frame _ _ _ _ _ _ _ Hrun).
  - by apply (set_scale_zero_point_frame _ _ _ _ _ _ _ Hrun).
  - by injection Hrun as <-.
Qed.

(** A rule changes the entry of a tensor that is not an initializer only
    if the tensor is the first output of the node. *)
Lemma apply_policy_frame act wt inits (tqo tqo' : Overrides) n t :
  apply_policy act wt inits tqo n = Ok tqo' →
  inits !! t = None → head (output n) ≠ Some t →
  dict_get t tqo' = dict_get t tqo.
Proof.
  intros Hrun Ht Hout. unfold apply_policy in Hrun.
  destruct (_ && _).
  { destruct (matmul_inputs_fold tqo inits (name n) act (input n) None None)
      as (a & w & Hfold & _ & Hw).
    rewrite Hfold in Hrun.
    destruct Hw as [[-> _]|(pre & x & post & -> & _ & [i Hx] & _)].
    - rewrite andb_false_r in Hrun. by injection Hrun as <-.
    - destruct (_ && _); [|by injection Hrun as <-]. simpl in Hrun.
      apply (set_weight_type_frame _ _ _ _ _ _ Hrun). intros ->. congruence. }
  destruct (_ && _).
  { destruct (has_q16_activation _ _ _ _ _); [|by injection Hrun as <-].
    revert Hrun. apply (for_each_invariant (λ s, dict_get t s = dict_get t tqo)); [|done].
    intros s1 s2 i _ <- Hi. unfold layernorm_weight in Hi.
    destruct (input n !! i) as [k|]; [|done]. case_bool_decide as Hk.
    - apply (set_weight_type_frame _ _ _ _ _ _ Hi). intros ->.
      destruct Hk as [? Hk]. congruence.
    - by injection Hi as <-. }
  unfold output0 in Hrun. case_bool_decide.
  { destruct (output n) as [|out ?]; [done|]. simpl in Hrun.
    apply (pin_frame _ _ _ _ _ _ _ _ _ Hrun). intros ->. by apply Hout. }
  case_bool_decide; [|by injection Hrun as <-].
  destruct (output n) as [|out ?]; [done|]. simpl in Hrun.
  apply (pin_frame _ _ _ _ _ _ _ _ _ Hrun). intros ->. by apply Hout.
Qed.

Lemma policy_loop_frame act wt inits nodes (tqo tqo' : Overrides) t :
  for_each (apply_policy act wt inits) nodes tqo = Ok tqo' →
  inits !! t = None → (∀ m, m ∈ nodes → head (output m) ≠ Some t) →
  dict_get t tqo' = dict_get t tqo.
Proof.
  intros Hrun Ht Hout. revert Hrun.
  apply (for_each_invariant (λ s, dict_get t s = dict_get t tqo)); [|done].
  intros s1 s2 m Hm <- Hstep. apply (apply_policy_frame _ _ _ _ _ _ _ Hstep Ht).
  by apply Hout.
Qed.

Lemma saturating_step act wt inits (tqo tqo' : Overrides) n out op T sc zp :
  (op, T, sc, zp) ∈ [("Sigmoid", QUInt16, 1 # 65536, 0%Z);
                     ("Sigmoid", QInt16, 1 # 32768, 0%Z);
                     ("Tanh", QUInt16, 1 # 32768, 32768%Z);
                     ("Tanh", QInt16, 1 # 32768, 0%Z)] →
  op_type n = op → head (output n) = Some out →
  _get_output_activation_qtype out tqo act = Ok T →
  apply_policy act wt inits tqo n = Ok tqo' →
  let o := set_quant_type T (entry_record tqo out) in
  dict_get out tqo' =
    Some [if range_keys_present o then o else set_scale sc (set_zero_point zp o)].
Proof.
  intros Hcase Hop Hout Hty Hrun o.
  destruct (set_scale_zero_point_result tqo out act T sc zp Hty) as (tqo2 & Hpin & Hget).
  assert (apply_policy act wt inits tqo n = Ok tqo2) as Hrun'.
  2:{ rewrite Hrun in Hrun'. by injection Hrun' as ->. }
  unfold apply_policy, output0. destruct (output n) as [|out' outs]; [done|].
  injection Hout as ->. rewrite Hop.
  repeat (apply elem_of_cons in Hcase as [Hcase|Hcase]);
    [injection Hcase as -> -> -> ->; simpl; by rewrite Hty ..|].
  by apply elem_of_nil in Hcase.
Qed.

(** The resolver keeps the output type of every tensor and the
    range-related keys of its record. *)
Lemma add_qtype_converts_output_type (tqo tqo' : Overrides) act infos inits prods cons
    t T :
  NoDup (dict_keys tqo) →
  _add_qtype_converts tqo act infos inits prods cons = Ok tqo' →
  _get_output_activation_qtype t tqo act = Ok T →
  _get_output_activation_qtype t tqo' act = Ok T ∧
  range_keys_present (entry_record tqo' t) = range_keys_present (entry_record tqo t).
Proof.
  intros Hnd Hrun Hty.
  apply get_output_activation_qtype_Ok in Hty as [[Ht ->]|(o & Ht & ->)].
  - unfold _add_qtype_converts in Hrun. apply bind_Ok in Hrun as (reqs & Hscan & Hrun).
    assert (dict_get t tqo' = None ∨
            ∃ cd, dict_get t tqo' = Some [set_convert cd (set_quant_type act empty_override)])
      as [Ht'|[cd Ht']].
    { destruct (dict_get t reqs) as [req|] eqn:Hreq.
      2:{ left. apply dict_get_None in Hreq.
          by rewrite (process_requests_frame _ _ _ _ _ _ Hreq Hrun). }
      destruct (process_requests_at _ _ _ _ _ _ _ (scan_NoDup _ _ _ _ _ _ Hscan) Hreq Hrun)
        as (tqo1 & tqo2 & H1 & Hstep & H2).
      rewrite H2. rewrite Ht in H1. unfold process_request in Hstep.
      destruct req as [[p|] [[c names]|]]; simpl in Hstep.
      - destruct (scan_producer_origin _ _ _ _ _ _ t p Hscan) as (o & Hin & _).
        { unfold requested_producer_type. by rewrite Hreq. }
        by rewrite (dict_get_NoDup _ _ _ Hnd Hin) in Ht.
      - apply bind_Ok in Hstep as ([o rest] & Hfirst & _).
        apply first_record_Ok in Hfirst. congruence.
      - unfold _get_output_activation_qtype in Hstep. rewrite H1 in Hstep.
        simpl in Hstep. case_decide.
        + apply add_to_convert_recv_nodes_Ok in Hstep as (o & rest & Hentry & _ & ->).
          rewrite H1 in Hentry. injection Hentry as -> ->. right.
          rewrite dict_get_set_eq. by eexists.
        + destruct (negb _); [done|]. injection Hstep as <-. by left.
      - by apply bind_Ok in Hstep as (ty & _ & Hstep). }
    + unfold _get_output_activation_qtype, entry_record. by rewrite Ht', Ht.
    + unfold _get_output_activation_qtype, entry_record. rewrite Ht', Ht. simpl.
      split; [|done]. by destruct act.
  - destruct (add_qtype_converts_kept _ _ _ _ _ _ _ _ _ _ Hnd Hrun Ht)
      as (o' & Ht' & (Hq & Hsy & Hsc & Hzp & Hrr & Hmin & Hmax) & _).
    split.
    + rewrite (get_output_activation_qtype_single _ _ _ _ Ht'). by rewrite Hq.
    + unfold entry_record. rewrite Ht', Ht. unfold range_keys_present.
      by rewrite Hsy, Hsc, Hzp, Hrr, Hmin, Hmax.
Qed.

Lemma graph_outputs_app nodes1 nodes2 :
  graph_outputs (nodes1 ++ nodes2) = (graph_outputs nodes1 ++ graph_outputs nodes2)%list.
Proof. unfold graph_outputs. by rewrite fmap_app, join_app. Qed.

Lemma graph_outputs_elem nodes m t : m ∈ nodes → t ∈ output m → t ∈ graph_outputs nodes.
Proof.
  intros Hm Ht. apply list_elem_of_join. exists (output m). split; [done|].
  apply list_elem_of_fmap. by exists m.
Qed.

(** In a graph whose output names are all different, a name among the
    outputs of a node is no output of the nodes before and after it. *)
Lemma graph_outputs_elsewhere l1 n l2 t m :
  NoDup (graph_outputs (l1 ++ n :: l2)) → t ∈ output n →
  m ∈ l1 ∨ m ∈ l2 → t ∉ output m.
Proof.
  rewrite graph_outputs_app. change (n :: l2) with ([n] ++ l2)%list.
  rewrite graph_outputs_app.
  intros (_ & Hdisj1 & (_ & Hdisj2 & _)%NoDup_app)%NoDup_app Ht [Hm|Hm] Htm.
  - apply (Hdisj1 t); [by apply (graph_outputs_elem _ m)|].
    apply elem_of_app. left. apply (graph_outputs_elem _ n); [by left|done].
  - apply (Hdisj2 t); [apply (graph_outputs_elem _ n); [by left|done]|].
    by apply (graph_outputs_elem _ m).
Qed.

(** On a table given as a value: the saturating outputs in the returned
    configuration. Let the overrides have unique keys and let a
    configuration be returned. For
    every Sigmoid or Tanh node of the graph whose first output is not an
    initializer, has a 16-bit effective type in the caller's overrides
    and none of the range-related keys there, the record of that output
    in the returned table has the type, and scale and zero point pinned:
    Sigmoid/QUInt16 to 1/65536 and 0, Sigmoid/QInt16 to 1/32768 and 0,
    Tanh/QUInt16 to 1/32768 and 32768, Tanh/QInt16 to 1/32768 and 0 -
    whatever the resolver and the rules of the other nodes have done. *)
Lemma saturating_outputs_are_pinned_in_the_configuration :
  ∀ {Reader Method : Type} (model : GraphProto) (reader : Reader) (method : Method)
    (activation_type weight_type : QuantType) (init_overrides : option Overrides)
    (add_qtype_converts per_channel : bool)
    (cfg : StaticQuantConfig Reader Method Overrides)
    (n : NodeProto) (out op : string) (T : QuantType) (sc : Q) (zp : Z),
    NoDup (dict_keys (default [] init_overrides)) →
    get_qnn_qdq_config model reader method activation_type weight_type init_overrides
      add_qtype_converts per_channel = Ok cfg →
    n ∈ node model →
    (op, T, sc, zp) ∈ [("Sigmoid", QUInt16, 1 # 65536, 0%Z);
                       ("Sigmoid", QInt16, 1 # 32768, 0%Z);
                       ("Tanh", QUInt16, 1 # 32768, 32768%Z);
                       ("Tanh", QInt16, 1 # 32768, 0%Z)] →
    op_type n = op → head (output n) = Some out →
    graph_initializers model !! out = None →
    _get_output_activation_qtype out (default [] init_overrides) activation_type
      = Ok T →
    range_keys_present (entry_record (default [] init_overrides) out) = false →
    ∃ o', dict_get out (TensorQuantOverrides (cfg_extra_options cfg)) = Some [o'] ∧
          quant_type o' = Some T ∧ scale o' = Some sc ∧ zero_point o' = Some zp.
Proof.
  intros R M model reader method act wt init add per_channel cfg n out op T sc zp.
  intros Hnd Hrun Hn Hcase Hop Hout Hinit Hty Hrange.
  apply get_qnn_qdq_config_Ok in Hrun as (ops & cons & prods & tqo1 & Hidx & Hres & Hpol).
  apply index_nodes_Ok in Hidx as (Hgraph & _).
  assert (_get_output_activation_qtype out tqo1 act = Ok T ∧
          range_keys_present (entry_record tqo1 out) = false) as [Hty1 Hrange1].
  { destruct (_ && _); [|by injection Hres as <-]. rewrite <-Hrange.
    by apply (add_qtype_converts_output_type _ _ _ _ _ _ _ _ _ Hnd Hres). }
  apply list_elem_of_split in Hn as (l1 & l2 & Hnodes). rewrite Hnodes in Hpol, Hgraph.
  rewrite for_each_app in Hpol. apply bind_Ok in Hpol as (s1 & Hl1 & Hpol).
  simpl in Hpol. apply bind_Ok in Hpol as (s2 & Hstep & Hl2).
  assert (out ∈ output n) as Hin.
  { destruct (output n); [done|]. injection Hout as ->. by left. }
  assert (∀ m, m ∈ l1 ∨ m ∈ l2 → head (output m) ≠ Some out) as Hothers.
  { intros m Hm Hhead. apply (graph_outputs_elsewhere _ _ _ _ m Hgraph Hin Hm).
    destruct (output m); [done|]. injection Hhead as ->. by left. }
  pose proof (policy_loop_frame _ _ _ _ _ _ out Hl1 Hinit
                (λ m Hm, Hothers m (or_introl Hm))) as H1.
  pose proof (policy_loop_frame _ _ _ _ _ _ out Hl2 Hinit
                (λ m Hm, Hothers m (or_intror Hm))) as H2.
  rewrite (get_output_activation_qtype_ext _ _ _ _ (eq_sym H1)) in Hty1.
  assert (entry_record s1 out = entry_record tqo1 out) as Hrec
    by (unfold entry_record; by rewrite H1).
  pose proof (saturating_step _ _ _ _ _ _ _ _ _ _ _ Hcase Hop Hout Hty1 Hstep) as Hpin.
  simpl in Hpin. rewrite Hrec in Hpin.
  assert (range_keys_present (set_quant_type T (entry_record tqo1 out)) = false) as Hr.
  { rewrite <-Hrange1. by destruct (entry_record tqo1 out). }
  rewrite Hr in Hpin. rewrite H2, Hpin. eexists. split; [done|].
  by destruct (entry_record tqo1 out).
Qed.

(** ** What the nodes read while the policy runs *)

Lemma set_scale_zero_point_reads (tqo tqo' : Overrides) k act T sc zp x m :
  _get_output_activation_qtype k tqo act = Ok T →
  _set_scale_zero_point tqo k T sc zp = Ok tqo' →
  _get_input_activation_qtype tqo' x m act = _get_input_activation_qtype tqo x m act.
Proof.
  intros Hty Hrun. destruct (decide (x = k)) as [->|Hne].
  2:{ apply get_input_activation_qtype_ext.
      by apply (set_scale_zero_point_frame _ _ _ _ _ _ _ Hrun). }
  apply set_scale_zero_point_Ok in Hrun as (o & Hentry & _ & ->).
  unfold _get_input_activation_qtype. rewrite dict_get_set_eq.
  apply get_output_activation_qtype_Ok in Hty as [[Hk ->]|(o1 & Hk & ->)];
    rewrite Hk in *; injection Hentry as ->.
  - by destruct (range_keys_present _).
  - destruct o1 as [[q|] ? ? ? ? ? ? ?]; by destruct (range_keys_present _).
Qed.

Lemma pin_reads act (tqo tqo' : Overrides) out sc1 zp1 sc2 zp2 x m :
  (output_type ← _get_output_activation_qtype out tqo act;
   if decide (output_type = QUInt16) then
     _set_scale_zero_point tqo out output_type sc1 zp1
   else if decide (output_type = QInt16) then
     _set_scale_zero_point tqo out output_type sc2 zp2
   else Ok tqo) = Ok tqo' →
  _get_input_activation_qtype tqo' x m act = _get_input_activation_qtype tqo x m act.
Proof.
  intros (T & Hty & Hrun)%bind_Ok. repeat case_decide.
  - by apply (set_scale_zero_point_reads _ _ _ _ _ _ _ _ _ Hty Hrun).
  - by apply (set_scale_zero_point_reads _ _ _ _ _ _ _ _ _ Hty Hrun).
  - by injection Hrun as <-.
Qed.

Lemma apply_policy_reads act wt inits (tqo tqo' : Overrides) n x m :
  apply_policy act wt inits tqo n = Ok tqo' → inits !! x = None →
  _get_input_activation_qtype tqo' x m act = _get_input_activation_qtype tqo x m act.
Proof.
  intros Hrun Hx. destruct (decide (head (output n) = Some x)) as [Hout|Hout].
  2:{ apply get_input_activation_qtype_ext.
      by apply (apply_policy_frame _ _ _ _ _ _ _ Hrun). }
  unfold apply_policy in Hrun.
  destruct (_ && _).
  { destruct (matmul_inputs_fold tqo inits (name n) act (input n) None None)
      as (a & w & Hfold & _ & Hw).
    rewrite Hfold in Hrun.
    destruct Hw as [[-> _]|(pre & k & post & -> & _ & [i Hk] & _)].
    - rewrite andb_false_r in Hrun. by injection Hrun as <-.
    - destruct (_ && _); [|by injection Hrun as <-]. simpl in Hrun.
      apply get_input_activation_qtype_ext.
      apply (set_weight_type_frame _ _ _ _ _ _ Hrun). intros ->. congruence. }
  destruct (_ && _).
  { destruct (has_q16_activation _ _ _ _ _); [|by injection Hrun as <-].
    apply get_input_activation_qtype_ext. revert Hrun.
    apply (for_each_invariant (λ s, dict_get x s = dict_get x tqo)); [|done].
    intros s1 s2 i _ <- Hi. unfold layernorm_weight in Hi.
    destruct (input n !! i) as [k|]; [|done]. case_bool_decide as Hk.
    - apply (set_weight_type_frame _ _ _ _ _ _ Hi). intros ->.
      destruct Hk as [? Hk]. congruence.
    - by injection Hi as <-. }
  unfold output0 in Hrun. case_bool_decide.
  { destruct (output n) as [|out ?]; [done|]. simpl in Hrun.
    by apply (pin_reads _ _ _ _ _ _ _ _ _ _ Hrun). }
  case_bool_decide; [|by injection Hrun as <-].
  destruct (output n) as [|out ?]; [done|]. simpl in Hrun.
  by apply (pin_reads _ _ _ _ _ _ _ _ _ _ Hrun).
Qed.

Lemma policy_loop_reads act wt inits nodes (tqo tqo' : Overrides) x m :
  for_each (apply_policy act wt inits) nodes tqo = Ok tqo' → inits !! x = None →
  _get_input_activation_qtype tqo' x m act = _get_input_activation_qtype tqo x m act.
Proof.
  intros Hrun Hx. revert Hrun.
  apply (for_each_invariant (λ s,
    _get_input_activation_qtype s x m act = _get_input_activation_qtype tqo x m act));
    [|done].
  intros s1 s2 n _ <- Hstep. by apply (apply_policy_reads _ _ _ _ _ _ _ _ Hstep).
Qed.

(** ** 16-bit activations with 8-bit weights *)

Lemma set_weight_type_entry (tqo tqo' : Overrides) k w s :
  _set_weight_type tqo k w s = Ok tqo' →
  dict_get k tqo' = Some [promoted w s (entry_record tqo k)].
Proof.
  intros (o & Hentry & _ & ->)%set_weight_type_Ok. unfold entry_record.
  by destruct (dict_get k tqo) as [[|o' rest]|]; injection Hentry as <-.
Qed.

(** What a rule can do to the entry of a tensor that is not the first
    output of the node: nothing, or the promotion of a weight. *)
Lemma apply_policy_weight act wt inits (tqo tqo' : Overrides) n t :
  apply_policy act wt inits tqo n = Ok tqo' → head (output n) ≠ Some t →
  dict_get t tqo' = dict_get t tqo ∨
  dict_get t tqo' = Some [promoted wt (bool_decide (wt = QInt8)) (entry_record tqo t)].
Proof.
  intros Hrun Hout. unfold apply_policy in Hrun.
  set (sym := bool_decide (wt = QInt8)) in *. clearbody sym.
  assert (∀ (s s' : Overrides) k,
            _set_weight_type s k wt sym = Ok s' →
            dict_get t s' = dict_get t s ∨
            dict_get t s' =
              Some [promoted wt sym (entry_record s t)]) as Hset.
  { intros s s' k Hk. destruct (decide (t = k)) as [->|Hne].
    - right. by apply set_weight_type_entry.
    - left. by apply (set_weight_type_frame _ _ _ _ _ _ Hk). }
  destruct (_ && _).
  { destruct (foldl _ _ _) as [a w]. destruct (_ && _); [|injection Hrun as <-; by left].
    by apply (Hset _ _ _ Hrun). }
  destruct (_ && _).
  { destruct (has_q16_activation _ _ _ _ _); [|injection Hrun as <-; by left].
    simpl in Hrun. apply bind_Ok in Hrun as (s1 & H0 & Hrun).
    apply bind_Ok in Hrun as (s2 & H1 & [= <-]).
    assert (∀ (s s' : Overrides) i,
              layernorm_weight inits n wt sym s i = Ok s' →
              dict_get t s' = dict_get t s ∨
              dict_get t s' =
                Some [promoted wt sym (entry_record s t)])
      as Hstep.
    { intros s s' i Hi. unfold layernorm_weight in Hi.
      destruct (input n !! i); [|done]. case_bool_decide.
      - by apply (Hset _ _ _ Hi).
      - injection Hi as <-. by left. }
    destruct (Hstep _ _ _ H0) as [Ha|Ha], (Hstep _ _ _ H1) as [Hb|Hb].
    - left. congruence.
    - right. rewrite Hb. unfold entry_record. by rewrite Ha.
    - right. congruence.
    - right. rewrite Hb. unfold entry_record at 1. rewrite Ha.
      by rewrite promoted_idemp. }
  unfold output0 in Hrun. case_bool_decide.
  { destruct (output n) as [|out ?]; [done|]. simpl in Hrun. left.
    apply (pin_frame _ _ _ _ _ _ _ _ _ Hrun). intros ->. by apply Hout. }
  case_bool_decide; [|injection Hrun as <-; by left].
  destruct (output n) as [|out ?]; [done|]. simpl in Hrun. left.
  apply (pin_frame _ _ _ _ _ _ _ _ _ Hrun). intros ->. by apply Hout.
Qed.

Lemma policy_loop_weight act wt inits nodes (tqo tqo' : Overrides) t :
  for_each (apply_policy act wt inits) nodes tqo = Ok tqo' →
  (∀ m, m ∈ nodes → head (output m) ≠ Some t) →
  let W := promoted wt (bool_decide (wt = QInt8)) empty_override in
  (dict_get t tqo = None ∨ dict_get t tqo = Some [W]) →
  (dict_get t tqo' = None ∨ dict_get t tqo' = Some [W]) ∧
  (dict_get t tqo = Some [W] → dict_get t tqo' = Some [W]).
Proof.
  intros Hrun Hout W Hstart. revert Hrun.
  apply (for_each_invariant (λ s,
    (dict_get t s = None ∨ dict_get t s = Some [W]) ∧
    (dict_get t tqo = Some [W] → dict_get t s = Some [W]))); [|by split].
  intros s1 s2 m Hm [Hs1 Hkeep] Hstep.
  destruct (apply_policy_weight _ _ _ _ _ _ t Hstep (Hout m Hm)) as [Hsame|Hprom].
  { rewrite Hsame. by split. }
  assert (dict_get t s2 = Some [W]) as Hs2.
  { rewrite Hprom. unfold entry_record. destruct Hs1 as [-> | ->]; [done|].
    unfold W. by rewrite promoted_idemp. }
  split; [by right|done].
Qed.

(** X27. 16-bit activations with 8-bit weights and no overrides. When a
    configuration is returned, every MatMul node with named inputs, one
    of which is not an initializer, has had the last initializer among
    its inputs promoted: provided no node outputs a tensor of that name,
    the returned table holds for it the single record with [quant_type]
    the weight type and [symmetric] set exactly for QInt8. *)
Theorem a16w8_matmul_weights_are_promoted :
  ∀ {Reader Method : Type} (model : GraphProto) (reader : Reader) (method : Method)
    (activation_type weight_type : QuantType) (init_overrides : option Overrides)
    (add_qtype_converts per_channel : bool)
    (cfg : StaticQuantConfig Reader Method Overrides)
    (n : NodeProto) (pre : list string) (wname : string) (post : list string),
    Q16_TYPES activation_type = true → Q8_TYPES weight_type = true →
    default [] init_overrides = [] →
    get_qnn_qdq_config model reader method activation_type weight_type init_overrides
      add_qtype_converts per_channel = Ok cfg →
    n ∈ node model → op_type n = "MatMul" → ("" ∉ input n) →
    input n = (pre ++ wname :: post)%list →
    is_Some (graph_initializers model !! wname) →
    (∀ y, y ∈ post → graph_initializers model !! y = None) →
    (∃ x, x ∈ input n ∧ graph_initializers model !! x = None) →
    wname ∉ graph_outputs (node model) →
    dict_get wname (TensorQuantOverrides (cfg_extra_options cfg)) =
      Some [set_symmetric (bool_decide (weight_type = QInt8))
              (set_quant_type weight_type empty_override)].
Proof.
  intros R M model reader method act wt init add per_channel cfg n pre wname post.
  intros Hact Hwt Hinit Hrun Hn Hop Hnamed Hinputs Hwname Hpost (x & Hx & Hxinit) Hout.
  apply get_qnn_qdq_config_Ok in Hrun as (ops & cons & prods & tqo1 & _ & Hres & Hpol).
  rewrite Hinit in Hres. simpl in Hres. injection Hres as <-.
  assert (∀ m, m ∈ node model → head (output m) ≠ Some wname) as Hheads.
  { intros m Hm Hhead. apply Hout. apply (graph_outputs_elem _ m); [done|].
    destruct (output m); [done|]. injection Hhead as ->. by left. }
  apply list_elem_of_split in Hn as (l1 & l2 & Hnodes). rewrite Hnodes in Hpol, Hheads.
  rewrite for_each_app in Hpol. apply bind_Ok in Hpol as (s1 & Hl1 & Hpol).
  simpl in Hpol. apply bind_Ok in Hpol as (s2 & Hstep & Hl2).
  set (W := promoted wt (bool_decide (wt = QInt8)) empty_override).
  destruct (policy_loop_weight _ _ _ _ _ _ wname Hl1) as [Hs1 _].
  { intros m Hm. apply Hheads. apply elem_of_app. by left. }
  { by left. }
  fold W in Hs1.
  destruct (matmul_policy_promotes act wt (graph_initializers model) s1 n pre wname post)
    as (s2' & Hstep' & Hs2 & _); try done.
  { exists x. split_and!; [done..|].
    rewrite (policy_loop_reads _ _ _ _ _ _ x (name n) Hl1 Hxinit).
    unfold _get_input_activation_qtype. done. }
  { intros l Hl. destruct Hs1 as [Hs1|Hs1]; rewrite Hs1 in Hl; [done|].
    injection Hl as <-. simpl. lia. }
  rewrite Hstep in Hstep'. injection Hstep' as <-.
  assert (dict_get wname s2 = Some [W]) as Hs2'.
  { rewrite Hs2. unfold entry_record. destruct Hs1 as [-> | ->]; [done|].
    unfold W. by rewrite promoted_idemp. }
  destruct (policy_loop_weight _ _ _ _ _ _ wname Hl2) as [_ Hkeep].
  { intros m Hm. apply Hheads. apply elem_of_app. right. by right. }
  { by right. }
  by apply Hkeep.
Qed.

Lemma a16w8_matmul_weights_are_promoted_witness :
  ∃ cfg : StaticQuantConfig unit unit Overrides,
    get_qnn_qdq_config Ex.mlp tt tt QUInt16 QInt8 None true false = Ok cfg ∧
    dict_get "W" (TensorQuantOverrides (cfg_extra_options cfg)) =
      Some [set_symmetric (bool_decide (QInt8 = QInt8))
              (set_quant_type QInt8 empty_override)].
Proof.
  eexists. split; [vm_compute; reflexivity|].
  apply (a16w8_matmul_weights_are_promoted Ex.mlp tt tt QUInt16 QInt8 None true false _
           Ex.matmul ["A"] "W" []).
  - reflexivity.
  - reflexivity.
  - reflexivity.
  - vm_compute. reflexivity.
  - right. by left.
  - reflexivity.
  - compute_done.
  - reflexivity.
  - by eexists.
  - by intros y ?%elem_of_nil.
  - exists "A". split; [by left|done].
  - compute_done.
Defined.

(** ** Running the policy again *)

Section settled.
Context (act wt : QuantType) (inits : gmap string TensorProto).

(** The tests of the MatMul and LayerNormalization rules depend on the
    table through the types read for inputs that are not initializers. *)
Lemma matmul_inputs_ext (tqo tqo' : Overrides) node_name l st :
  (∀ x, inits !! x = None →
        _get_input_activation_qtype tqo' x node_name act
        = _get_input_activation_qtype tqo x node_name act) →
  foldl (matmul_input tqo' inits node_name act) st l
  = foldl (matmul_input tqo inits node_name act) st l.
Proof.
  intros Hreads. revert st. induction l as [|x l IH]; intros [a w]; [done|].
  simpl. rewrite <-IH. f_equal. unfold matmul_input. case_bool_decide; [|done].
  by rewrite Hreads.
Qed.

Lemma has_q16_activation_ext (tqo tqo' : Overrides) node_name l :
  (∀ x, inits !! x = None →
        _get_input_activation_qtype tqo' x node_name act
        = _get_input_activation_qtype tqo x node_name act) →
  has_q16_activation tqo' inits node_name act l
  = has_q16_activation tqo inits node_name act l.
Proof.
  intros Hreads. induction l as [|x l IH]; [done|]. simpl.
  case_bool_decide; [|done]. by rewrite Hreads, IH.
Qed.

Lemma weight_settled_fix (tqo : Overrides) k s :
  weight_settled tqo k → _set_weight_type tqo k wt s = Ok tqo.
Proof. intros (o & Hk & Hkey). by apply (set_weight_type_user _ _ _ _ _ Hk). Qed.

Lemma promoted_has_key w s (o : Override) :
  has_key (quant_type (promoted w s o)) || has_key (symmetric (promoted w s o)) = true.
Proof. unfold promoted. by destruct o as [[?|] [?|] ? ? ? ? ? ?]. Qed.

Lemma set_weight_type_settles (tqo tqo' : Overrides) k s :
  _set_weight_type tqo k wt s = Ok tqo' → weight_settled tqo' k.
Proof.
  intros Hrun%set_weight_type_entry. eexists. split; [done|]. apply promoted_has_key.
Qed.

Lemma filled_in_has_key (o o' : Override) :
  filled_in o o' →
  has_key (quant_type o) || has_key (symmetric o) = true →
  has_key (quant_type o') || has_key (symmetric o') = true.
Proof.
  intros (Hq & Hs & _). destruct (quant_type o) as [q|] eqn:Hqo.
  { by rewrite (Hq q). }
  destruct (symmetric o) as [sy|] eqn:Hso; [|done].
  rewrite (Hs sy) by done. intros _. by destruct (quant_type o').
Qed.

Lemma weight_settled_stable (tqo tqo' : Overrides) n k :
  apply_policy act wt inits tqo n = Ok tqo' →
  weight_settled tqo k → weight_settled tqo' k.
Proof.
  intros Hrun (o & Hk & Hkey).
  destruct (apply_policy_filled_in _ _ _ _ _ _ _ _ _ Hrun Hk) as (o' & Hk' & Hfill).
  exists o'. split; [done|]. by apply (filled_in_has_key o).
Qed.

Lemma weight_settled_stable_set (tqo tqo' : Overrides) k' s k :
  _set_weight_type tqo k' wt s = Ok tqo' →
  weight_settled tqo k → weight_settled tqo' k.
Proof.
  intros Hrun (o & Hk & Hkey).
  destruct (set_weight_type_filled_in _ _ _ _ _ _ _ _ Hrun Hk) as (o' & Hk' & Hfill).
  exists o'. split; [done|]. by apply (filled_in_has_key o).
Qed.

(** The entry of a tensor after a rule: as before, or promoted, or
    pinned. *)
Lemma apply_policy_entry (tqo tqo' : Overrides) n t :
  apply_policy act wt inits tqo n = Ok tqo' →
  dict_get t tqo' = dict_get t tqo ∨
  (Q8_TYPES wt = true ∧
   dict_get t tqo' =
     Some [promoted wt (bool_decide (wt = QInt8)) (entry_record tqo t)]) ∨
  (∃ T sc zp,
     _get_output_activation_qtype t tqo act = Ok T ∧
     dict_get t tqo' =
       Some [if range_keys_present (set_quant_type T (entry_record tqo t))
             then set_quant_type T (entry_record tqo t)
             else set_scale sc (set_zero_point zp
                                  (set_quant_type T (entry_record tqo t)))]).
Proof.
  intros Hrun.
  destruct (decide (head (output n) = Some t)) as [Hout|Hout].
  2:{ unfold apply_policy in Hrun. destruct (Q8_TYPES wt) eqn:Hwt.
      - destruct (apply_policy_weight act wt inits tqo tqo' n t) as [?|?];
          [by unfold apply_policy; rewrite Hwt|done|by left|right; left; by split].
      - left. rewrite !andb_false_r in Hrun. unfold output0 in Hrun.
        destruct (bool_decide (op_type n = "Sigmoid")).
        { destruct (output n) as [|out ?]; [done|]. simpl in Hrun.
          apply (pin_frame _ _ _ _ _ _ _ _ _ Hrun). intros ->. by apply Hout. }
        destruct (bool_decide (op_type n = "Tanh")); [|by injection Hrun as <-].
        destruct (output n) as [|out ?]; [done|]. simpl in Hrun.
        apply (pin_frame _ _ _ _ _ _ _ _ _ Hrun). intros ->. by apply Hout. }
  assert (∀ sc1 zp1 sc2 zp2,
            (output_type ← _get_output_activation_qtype t tqo act;
             if decide (output_type = QUInt16) then
               _set_scale_zero_point tqo t output_type sc1 zp1
             else if decide (output_type = QInt16) then
               _set_scale_zero_point tqo t output_type sc2 zp2
             else Ok tqo) = Ok tqo' →
            dict_get t tqo' = dict_get t tqo ∨
            ∃ T sc zp,
              _get_output_activation_qtype t tqo act = Ok T ∧
              dict_get t tqo' =
                Some [if range_keys_present (set_quant_type T (entry_record tqo t))
                      then set_quant_type T (entry_record tqo t)
                      else set_scale sc (set_zero_point zp
                                           (set_quant_type T (entry_record tqo t)))])
    as Hpin.
  { intros sc1 zp1 sc2 zp2 (T & Hty & Hpin)%bind_Ok.
    destruct (set_scale_zero_point_result _ _ _ _ sc1 zp1 Hty) as (t1 & H1 & Hget1).
    destruct (set_scale_zero_point_result _ _ _ _ sc2 zp2 Hty) as (t2 & H2 & Hget2).
    repeat case_decide.
    - right. exists T, sc1, zp1. split; [done|]. congruence.
    - right. exists T, sc2, zp2. split; [done|]. congruence.
    - left. by injection Hpin as <-. }
  unfold apply_policy in Hrun.
  destruct (bool_decide (op_type n = "MatMul") && Q8_TYPES wt) eqn:Hmm.
  { apply andb_prop in Hmm as [_ Hwt].
    destruct (foldl _ _ _) as [a w]. destruct (_ && _); [|injection Hrun as <-; by left].
    destruct (decide (t = default "" w)) as [->|Hne].
    - right. left. split; [done|]. by apply set_weight_type_entry.
    - left. by apply (set_weight_type_frame _ _ _ _ _ _ Hrun). }
  destruct (bool_decide (op_type n = "LayerNormalization") && Q8_TYPES wt) eqn:Hln.
  { apply andb_prop in Hln as [_ Hwt].
    destruct (has_q16_activation _ _ _ _ _); [|injection Hrun as <-; by left].
    simpl in Hrun. apply bind_Ok in Hrun as (s1 & H0 & Hrun).
    apply bind_Ok in Hrun as (s2 & H1 & [= <-]).
    assert (∀ (s s' : Overrides) i,
              layernorm_weight inits n wt (bool_decide (wt = QInt8)) s i = Ok s' →
              dict_get t s' = dict_get t s ∨
              dict_get t s' =
                Some [promoted wt (bool_decide (wt = QInt8)) (entry_record s t)])
      as Hstep.
    { intros s s' i Hi. unfold layernorm_weight in Hi.
      destruct (input n !! i) as [k|]; [|done]. case_bool_decide.
      - destruct (decide (t = k)) as [->|Hne].
        + right. by apply set_weight_type_entry.
        + left. by apply (set_weight_type_frame _ _ _ _ _ _ Hi).
      - injection Hi as <-. by left. }
    destruct (Hstep _ _ _ H0) as [Ha|Ha], (Hstep _ _ _ H1) as [Hb|Hb].
    - left. congruence.
    - right. left. split; [done|]. rewrite Hb. unfold entry_record. by rewrite Ha.
    - right. left. split; [done|]. congruence.
    - right. left. split; [done|]. rewrite Hb. unfold entry_record at 1. rewrite Ha.
      by rewrite promoted_idemp. }
  unfold output0 in Hrun.
  destruct (bool_decide (op_type n = "Sigmoid")).
  { destruct (output n) as [|out ?]; [done|]. injection Hout as ->. simpl in Hrun.
    destruct (Hpin _ _ _ _ Hrun) as [?|?]; [by left|by do 2 right]. }
  destruct (bool_decide (op_type n = "Tanh")); [|injection Hrun as <-; by left].
  destruct (output n) as [|out ?]; [done|]. injection Hout as ->. simpl in Hrun.
  destruct (Hpin _ _ _ _ Hrun) as [?|?]; [by left|by do 2 right].
Qed.

Lemma output_settled_stable (tqo tqo' : Overrides) n out :
  apply_policy act wt inits tqo n = Ok tqo' →
  output_settled tqo act out → output_settled tqo' act out.
Proof.
  intros Hrun (T & Hty & Hpinned).
  destruct (apply_policy_entry _ _ _ out Hrun)
    as [Hsame|[[Hwt Hprom]|(T' & sc & zp & Hty' & Hpin)]].
  - exists T. split; [by rewrite (get_output_activation_qtype_ext _ _ _ _ Hsame)|].
    by rewrite Hsame.
  - destruct (Q16_TYPES T) eqn:H16.
    + destruct (Hpinned eq_refl) as (o & Hk & Hq & Hr).
      assert (dict_get out tqo' = Some [o]) as Hk'.
      { rewrite Hprom. unfold entry_record. rewrite Hk. unfold promoted.
        by rewrite Hq. }
      exists T. split.
      * rewrite (get_output_activation_qtype_single _ _ _ _ Hk'). by rewrite Hq.
      * intros _. by exists o.
    + apply get_output_activation_qtype_Ok in Hty as [[Hk ->]|(o & Hk & ->)].
      * unfold entry_record in Hprom. rewrite Hk in Hprom. exists wt.
        split; [by rewrite (get_output_activation_qtype_single _ _ _ _ Hprom)|].
        intros H16'. by destruct wt.
      * unfold entry_record in Hprom. rewrite Hk in Hprom.
        exists (default act (quant_type (promoted wt (bool_decide (wt = QInt8)) o))).
        split; [by rewrite (get_output_activation_qtype_single _ _ _ _ Hprom)|].
        intros H16'. exfalso. unfold promoted in H16'.
        destruct (quant_type o) as [q|] eqn:Hq; simpl in *.
        -- rewrite Hq in H16'. simpl in H16'. congruence.
        -- destruct (symmetric o); simpl in H16'.
           ++ rewrite Hq in H16'. simpl in H16'. congruence.
           ++ by destruct wt.
  - rewrite Hty in Hty'. injection Hty' as <-. exists T.
    assert (quant_type (set_quant_type T (entry_record tqo out)) = Some T) as Hq
      by by destruct (entry_record tqo out).
    split.
    + rewrite (get_output_activation_qtype_single _ _ _ _ Hpin).
      destruct (range_keys_present _); [by rewrite Hq|].
      by destruct (entry_record tqo out).
    + intros _. eexists. split; [done|].
      destruct (range_keys_present _) eqn:Hr; [by split|].
      split; by destruct (entry_record tqo out).
Qed.

Lemma settled_fix (tqo : Overrides) n :
  settled act wt inits tqo n → apply_policy act wt inits tqo n = Ok tqo.
Proof.
  unfold settled, apply_policy. destruct (_ && _).
  { destruct (foldl _ _ _) as [a w]. intros Hset.
    destruct (truthy a && truthy w) eqn:Htr; [|done].
    by apply weight_settled_fix, (Hset a w). }
  destruct (_ && _).
  { destruct (has_q16_activation _ _ _ _ _); [|done]. intros Hset. simpl.
    assert (∀ i, i ∈ [0; 1] →
                 layernorm_weight inits n wt (bool_decide (wt = QInt8)) tqo i = Ok tqo)
      as Hstep.
    { intros i Hi. destruct (Hset eq_refl i Hi) as (k & Hk & Hinit).
      unfold layernorm_weight. rewrite Hk. case_bool_decide; [|done].
      by apply weight_settled_fix, Hinit. }
    rewrite (Hstep 0) by (by left). simpl. rewrite (Hstep 1) by (right; by left).
    done. }
  assert (∀ out sc1 zp1 sc2 zp2,
            output_settled tqo act out →
            (output_type ← _get_output_activation_qtype out tqo act;
             if decide (output_type = QUInt16) then
               _set_scale_zero_point tqo out output_type sc1 zp1
             else if decide (output_type = QInt16) then
               _set_scale_zero_point tqo out output_type sc2 zp2
             else Ok tqo) = Ok tqo) as Hpin.
  { intros out sc1 zp1 sc2 zp2 (T & -> & Hpinned). simpl. repeat case_decide; [| |done].
    - destruct Hpinned as (o & Hk & Hq & Hr); [by subst|].
      by apply (set_scale_zero_point_pinned _ _ _ _ _ o).
    - destruct Hpinned as (o & Hk & Hq & Hr); [by subst|].
      by apply (set_scale_zero_point_pinned _ _ _ _ _ o). }
  destruct (bool_decide (op_type n = "Sigmoid")); simpl.
  { intros (out & -> & Hout). simpl. by apply Hpin. }
  destruct (bool_decide (op_type n = "Tanh")); simpl; [|done].
  intros (out & -> & Hout). simpl. by apply Hpin.
Qed.

Lemma settled_after (tqo tqo' : Overrides) n :
  apply_policy act wt inits tqo n = Ok tqo' → settled act wt inits tqo' n.
Proof.
  intros Hrun.
  pose proof (λ x m, apply_policy_reads act wt inits tqo tqo' n x m Hrun) as Hreads.
  unfold settled. unfold apply_policy in Hrun. destruct (_ && _).
  { intros a w. rewrite (matmul_inputs_ext _ _ _ _ _ (λ x, Hreads x (name n))).
    intros Hfold Htr. rewrite Hfold, Htr in Hrun.
    by apply (set_weight_type_settles _ _ _ _ Hrun). }
  destruct (_ && _).
  { rewrite (has_q16_activation_ext _ _ _ _ (λ x, Hreads x (name n))).
    intros H16. rewrite H16 in Hrun. simpl in Hrun.
    apply bind_Ok in Hrun as (s1 & H0 & Hrun).
    apply bind_Ok in Hrun as (s2 & H1 & [= <-]).
    unfold layernorm_weight in H0, H1.
    destruct (input n !! 0) as [k0|] eqn:Hk0; [|done].
    destruct (input n !! 1) as [k1|] eqn:Hk1; [|done].
    intros i Hi. apply elem_of_cons in Hi as [->|Hi].
    - exists k0. split; [done|]. intros Hinit.
      rewrite bool_decide_eq_true_2 in H0 by done.
      apply set_weight_type_settles in H0. case_bool_decide.
      + by apply (weight_settled_stable_set _ _ _ _ _ H1).
      + by injection H1 as <-.
    - apply list_elem_of_singleton in Hi as ->. exists k1. split; [done|].
      intros Hinit. rewrite (bool_decide_eq_true_2 _ Hinit) in H1.
      by apply (set_weight_type_settles _ _ _ _ H1). }
  assert (∀ out sc1 zp1 sc2 zp2,
            (output_type ← _get_output_activation_qtype out tqo act;
             if decide (output_type = QUInt16) then
               _set_scale_zero_point tqo out output_type sc1 zp1
             else if decide (output_type = QInt16) then
               _set_scale_zero_point tqo out output_type sc2 zp2
             else Ok tqo) = Ok tqo' →
            output_settled tqo' act out) as Hpin.
  { clear Hrun. intros out sc1 zp1 sc2 zp2 (T & Hty & Hpin)%bind_Ok.
    assert (∀ sc zp, _set_scale_zero_point tqo out T sc zp = Ok tqo' →
                     output_settled tqo' act out) as Hset.
    { intros sc zp Hset.
      destruct (set_scale_zero_point_result _ _ _ _ sc zp Hty) as (t1 & H1 & Hget).
      rewrite Hset in H1. injection H1 as <-. simpl in Hget. exists T.
      assert (quant_type (set_quant_type T (entry_record tqo out)) = Some T) as Hq
        by by destruct (entry_record tqo out).
      split.
      - rewrite (get_output_activation_qtype_single _ _ _ _ Hget).
        destruct (range_keys_present _); [by rewrite Hq|].
        by destruct (entry_record tqo out).
      - intros _. eexists. split; [done|].
        destruct (range_keys_present _) eqn:Hr; [by split|].
        split; by destruct (entry_record tqo out). }
    repeat case_decide; [by apply (Hset sc1 zp1)|by apply (Hset sc2 zp2)|].
    injection Hpin as <-. exists T. split; [done|]. intros H16. by destruct T. }
  unfold output0 in *.
  destruct (bool_decide (op_type n = "Sigmoid")); simpl.
  { destruct (output n) as [|out ?]; [done|]. simpl in Hrun.
    exists out. split; [done|]. by apply (Hpin _ _ _ _ _ Hrun). }
  destruct (bool_decide (op_type n = "Tanh")); simpl; [|done].
  destruct (output n) as [|out ?]; [done|]. simpl in Hrun.
  exists out. split; [done|]. by apply (Hpin _ _ _ _ _ Hrun).
Qed.

Lemma settled_stable (tqo tqo' : Overrides) n m :
  apply_policy act wt inits tqo m = Ok tqo' →
  settled act wt inits tqo n → settled act wt inits tqo' n.
Proof.
  intros Hrun.
  pose proof (λ x k, apply_policy_reads act wt inits tqo tqo' m x k Hrun) as Hreads.
  unfold settled. destruct (_ && _).
  { intros Hset a w. rewrite (matmul_inputs_ext _ _ _ _ _ (λ x, Hreads x (name n))).
    intros Hfold Htr. apply (weight_settled_stable _ _ _ _ Hrun). by apply (Hset a w). }
  destruct (_ && _).
  { rewrite (has_q16_activation_ext _ _ _ _ (λ x, Hreads x (name n))).
    intros Hset H16 i Hi. destruct (Hset H16 i Hi) as (k & Hk & Hinit).
    exists k. split; [done|]. intros Hk'.
    apply (weight_settled_stable _ _ _ _ Hrun). by apply Hinit. }
  destruct (_ || _); [|done].
  intros (out & Hout & Hset). exists out. split; [done|].
  by apply (output_settled_stable _ _ _ _ Hrun).
Qed.

Lemma policy_loop_settles nodes (tqo tqo' : Overrides) n :
  for_each (apply_policy act wt inits) nodes tqo = Ok tqo' →
  n ∈ nodes → settled act wt inits tqo' n.
Proof.
  intros Hrun (l1 & l2 & ->)%list_elem_of_split.
  rewrite for_each_app in Hrun. apply bind_Ok in Hrun as (s1 & _ & Hrun).
  simpl in Hrun. apply bind_Ok in Hrun as (s2 & Hstep & Hrun).
  revert Hrun. apply (for_each_invariant (λ s, settled act wt inits s n)).
  - intros sa sb m _ Hsa Hm. by apply (settled_stable _ _ _ _ Hm).
  - by apply (settled_after _ _ _ Hstep).
Qed.

Lemma policy_loop_fix nodes (tqo : Overrides) :
  (∀ n, n ∈ nodes → settled act wt inits tqo n) →
  for_each (apply_policy act wt inits) nodes tqo = Ok tqo.
Proof.
  induction nodes as [|n nodes IH]; intros Hall; [done|]. simpl.
  rewrite (settled_fix tqo n) by (apply Hall; by left). simpl.
  apply IH. intros m Hm. apply Hall. by right.
Qed.

Lemma policy_loop_idemp nodes (tqo tqo' : Overrides) :
  for_each (apply_policy act wt inits) nodes tqo = Ok tqo' →
  for_each (apply_policy act wt inits) nodes tqo' = Ok tqo'.
Proof.
  intros Hrun. apply policy_loop_fix. intros n Hn.
  by apply (policy_loop_settles _ _ _ _ Hrun).
Qed.
End settled.

(** X28. The policy loop is idempotent: run again on the table it
    returned, over the same nodes, it returns that table. Hence a
    configuration that was returned is returned again when the function
    is called with its table as [init_overrides] and the resolver switched
    off. *)
Theorem policy_is_idempotent :
  (∀ (activation_type weight_type : QuantType)
     (name_to_initializer : gmap string TensorProto) (nodes : list NodeProto)
     (tqo tqo' : Overrides),
     for_each (apply_policy activation_type weight_type name_to_initializer) nodes tqo
       = Ok tqo' →
     for_each (apply_policy activation_type weight_type name_to_initializer) nodes tqo'
       = Ok tqo') ∧
  (∀ {Reader Method : Type} (model : GraphProto) (reader : Reader) (method : Method)
     (activation_type weight_type : QuantType) (init_overrides : option Overrides)
     (add_qtype_converts per_channel : bool)
     (cfg : StaticQuantConfig Reader Method Overrides),
     get_qnn_qdq_config model reader method activation_type weight_type init_overrides
       add_qtype_converts per_channel = Ok cfg →
     get_qnn_qdq_config model reader method activation_type weight_type
       (Some (TensorQuantOverrides (cfg_extra_options cfg))) false per_channel = Ok cfg).
Proof.
  split; [intros act wt inits nodes tqo tqo' Hrun; by apply (policy_loop_idemp _ _ _ _ tqo)|].
  intros R M model reader method act wt init add per_channel cfg.
  unfold get_qnn_qdq_config. destruct per_channel; [done|].
  destruct (for_each index_node (node model) (∅, ∅, ∅)) as [[[ops cons] prods]|e];
    [|done].
  simpl. intros (tqo1 & _ & Hrun)%bind_Ok.
  apply bind_Ok in Hrun as (tqo2 & Hpol & [= <-]). simpl.
  rewrite andb_false_r. simpl. by rewrite (policy_loop_idemp _ _ _ _ _ _ Hpol).
Qed.

Lemma policy_is_idempotent_witness :
  let tqo' := [("A", [Ex.with_type QUInt16]);
               ("s", [set_scale (1 # 65536) (set_zero_point 0 (Ex.with_type QUInt16))]);
               ("W", [set_symmetric true (Ex.with_type QInt8)])] in
  for_each (apply_policy QUInt8 QInt8 (graph_initializers Ex.mlp)) (node Ex.mlp) tqo'
    = Ok tqo' ∧
  ∃ cfg : StaticQuantConfig unit unit Overrides,
    get_qnn_qdq_config Ex.mlp tt tt QUInt8 QInt8
      (Some (TensorQuantOverrides (cfg_extra_options cfg))) false false = Ok cfg.
Proof.
  intros tqo'. destruct policy_is_idempotent as [Hloop Hcfg]. split.
  - apply (Hloop QUInt8 QInt8 (graph_initializers Ex.mlp) (node Ex.mlp) Ex.mlp_tqo).
    vm_compute. reflexivity.
  - eexists. apply (Hcfg unit unit Ex.mlp tt tt QUInt8 QInt8 (Some Ex.mlp_tqo) true false).
    vm_compute. reflexivity.
Defined.

(** * Tables whose objects are not shared

    The functions of the first part return the table after a call; the
    program writes to record objects. The two agree when the table holds
    no object twice ([Heap.unshared]): on such a store each function of
    [Heap] raises what its counterpart on values raises, or leaves a store
    whose table reads as the table the counterpart returns, again without
    a shared object ([Heap.refines]). When two entries hold the same
    record, a write through one of them is a write to the other, and the
    two models differ. *)

Section unshared_tables.

Implicit Types (h : Heap.heap) (l r c s : Heap.loc)
  (entries : list (string * list Heap.loc))
  (tqo : Overrides) (o : Override).

(** ** Running the primitives *)

Lemma bind_run {A B : Type} (m : Heap.M A) (f : A → Heap.M B) h a h' :
  m h = (Ok a, h') → (m ≫= f) h = f a h'.
Proof. intros Hm. unfold mbind, Heap.M_bind. by rewrite Hm. Qed.

Lemma bind_run_raise {A B : Type} (m : Heap.M A) (f : A → Heap.M B) h e h' :
  m h = (Raise e, h') → (m ≫= f) h = (Raise e, h').
Proof. intros Hm. unfold mbind, Heap.M_bind. by rewrite Hm. Qed.

Lemma get_table_run h l entries :
  h !! l = Some (Heap.OTable entries) → Heap.get_table l h = (Ok entries, h).
Proof. intros Hl. unfold Heap.get_table. by rewrite Hl. Qed.

Lemma get_record_run h r fields :
  h !! r = Some (Heap.ORecord fields) → Heap.get_record r h = (Ok fields, h).
Proof. intros Hr. unfold Heap.get_record. by rewrite Hr. Qed.

Lemma get_convert_run h c q recv :
  h !! c = Some (Heap.OConvert q recv) → Heap.get_convert c h = (Ok (q, recv), h).
Proof. intros Hc. unfold Heap.get_convert. by rewrite Hc. Qed.

Lemma get_set_run h s names :
  h !! s = Some (Heap.OSet names) → Heap.get_set s h = (Ok names, h).
Proof. intros Hs. unfold Heap.get_set. by rewrite Hs. Qed.

Lemma map_each_run {A B : Type} (f : A → Heap.M B) (xs : list A) (ys : list B) h :
  Forall2 (λ x y, f x h = (Ok y, h)) xs ys → Heap.map_each f xs h = (Ok ys, h).
Proof.
  induction 1 as [|x y xs ys Hx _ IH]; [done|].
  cbn [Heap.map_each]. rewrite (bind_run _ _ _ _ _ Hx), (bind_run _ _ _ _ _ IH). done.
Qed.

Lemma fresh_lookup h : h !! fresh (dom h) = None.
Proof. apply (not_elem_of_dom (D:=gset Heap.loc)), is_fresh. Qed.

(** ** Reading a table of the store as a value *)

Lemma snapshot_convert_run h c cd :
  Heap.convert_at h c cd → Heap.snapshot_convert c h = (Ok cd, h).
Proof.
  unfold Heap.convert_at, Heap.snapshot_convert. destruct cd as [q [names|]]; simpl.
  - intros (s & Hc & Hs). rewrite (bind_run _ _ _ _ _ (get_convert_run _ _ _ _ Hc)).
    by rewrite (bind_run _ _ _ _ _ (get_set_run _ _ _ Hs)).
  - intros Hc. by rewrite (bind_run _ _ _ _ _ (get_convert_run _ _ _ _ Hc)).
Qed.

Lemma snapshot_record_run h r o :
  Heap.record_at h r o → Heap.snapshot_record r h = (Ok o, h).
Proof.
  unfold Heap.record_at, Heap.snapshot_record. destruct o as [q sy sc zp rr mi ma [cd|]]; simpl.
  - intros (c & Hr & Hc). rewrite (bind_run _ _ _ _ _ (get_record_run _ _ _ Hr)). simpl.
    by rewrite (bind_run _ _ _ _ _ (snapshot_convert_run _ _ _ Hc)).
  - intros Hr. by rewrite (bind_run _ _ _ _ _ (get_record_run _ _ _ Hr)).
Qed.

Lemma snapshot_run h l tqo : Heap.table_at h l tqo → Heap.snapshot l h = (Ok tqo, h).
Proof.
  intros (entries & Hl & Hall). unfold Heap.snapshot.
  rewrite (bind_run _ _ _ _ _ (get_table_run _ _ _ Hl)).
  apply map_each_run. eapply Forall2_impl; [exact Hall|].
  intros [k rs] [k' os] [Hk Hrs]; simpl in *. subst k'.
  erewrite bind_run; [done|]. apply map_each_run.
  eapply Forall2_impl; [exact Hrs|]. intros r o. apply snapshot_record_run.
Qed.

Lemma entries_lookup h entries tqo k :
  Forall2 (Heap.entry_at h) entries tqo →
  match dict_get k entries, dict_get k tqo with
  | Some rs, Some os => Forall2 (Heap.record_at h) rs os
  | None, None => True
  | _, _ => False
  end.
Proof.
  induction 1 as [|[k1 rs] [k2 os] entries tqo [Hk Hrs] _ IH]; [done|].
  simpl in *. subst k2. by case_decide.
Qed.

(** ** What a record reaches *)

Lemma reach_self h r : r ∈ Heap.reach h r.
Proof. unfold Heap.reach. by left. Qed.

Lemma reach_agree h h' r :
  (∀ x, x ∈ Heap.reach h r → h' !! x = h !! x) → Heap.reach h' r = Heap.reach h r.
Proof.
  intros Hagree. unfold Heap.reach. rewrite (Hagree r (reach_self h r)).
  destruct (h !! r) as [[|fields| |]|] eqn:Hr; try done.
  destruct (convert fields) as [c|] eqn:Hc; [|done].
  rewrite (Hagree c); [done|]. unfold Heap.reach. rewrite Hr, Hc. right. by left.
Qed.

Lemma convert_at_agree h h' c cd :
  Heap.convert_at h c cd →
  h' !! c = h !! c →
  (∀ q s, h !! c = Some (Heap.OConvert q (Some s)) → h' !! s = h !! s) →
  Heap.convert_at h' c cd.
Proof.
  unfold Heap.convert_at. destruct (recv_nodes cd) as [names|].
  - intros (s & Hc & Hs) Hc' Hs'. exists s. split; [congruence|].
    rewrite (Hs' _ _ Hc). done.
  - congruence.
Qed.

Lemma record_at_agree h h' r o :
  Heap.record_at h r o → (∀ x, x ∈ Heap.reach h r → h' !! x = h !! x) → Heap.record_at h' r o.
Proof.
  unfold Heap.record_at. intros Hr Hagree.
  pose proof (Hagree r (reach_self h r)) as Hr'.
  destruct (convert o) as [cd|] eqn:Hcd; [|congruence].
  destruct Hr as (c & Hr & Hc). exists c. split; [congruence|].
  assert (c ∈ Heap.reach h r) as Hcin.
  { unfold Heap.reach. rewrite Hr. simpl. right. by left. }
  apply (convert_at_agree h); [done | by apply Hagree |].
  intros q s Hcs. apply Hagree. unfold Heap.reach. rewrite Hr. simpl. rewrite Hcs.
  right. right. by left.
Qed.

(** Every object a record reaches is there, and none is a table. *)
Lemma record_at_reach h r o x :
  Heap.record_at h r o → x ∈ Heap.reach h r →
  ∃ y, h !! x = Some y ∧ ∀ entries, y ≠ Heap.OTable entries.
Proof.
  unfold Heap.record_at, Heap.reach. intros Hr Hx.
  destruct (convert o) as [cd|] eqn:Hcd.
  - destruct Hr as (c & Hr & Hc). rewrite Hr in Hx. simpl in Hx.
    unfold Heap.convert_at in Hc. destruct (recv_nodes cd) as [names|].
    + destruct Hc as (s & Hc & Hs). rewrite Hc in Hx.
      repeat (apply elem_of_cons in Hx as [->|Hx]); [by eexists..|].
      by apply elem_of_nil in Hx.
    + rewrite Hc in Hx.
      repeat (apply elem_of_cons in Hx as [->|Hx]); [by eexists..|].
      by apply elem_of_nil in Hx.
  - rewrite Hr in Hx. simpl in Hx.
    repeat (apply elem_of_cons in Hx as [->|Hx]); [by eexists..|].
    by apply elem_of_nil in Hx.
Qed.

Lemma elem_of_record_locs entries r :
  r ∈ Heap.record_locs entries ↔ ∃ k rs, (k, rs) ∈ entries ∧ r ∈ rs.
Proof.
  unfold Heap.record_locs. rewrite list_elem_of_join. split.
  - intros (rs & Hr & Hrs). apply list_elem_of_fmap in Hrs as ([k rs'] & -> & Hin).
    by exists k, rs'.
  - intros (k & rs & Hin & Hr). exists rs. split; [done|].
    apply list_elem_of_fmap. by exists (k, rs).
Qed.

Lemma Forall2_impl_elem {A B : Type} (P Q : A → B → Prop) (l : list A) (k : list B) :
  Forall2 P l k → (∀ x y, x ∈ l → P x y → Q x y) → Forall2 Q l k.
Proof.
  induction 1 as [|x y l k Hxy _ IH]; intros Himpl; constructor.
  - apply Himpl; [by left | done].
  - apply IH. intros x' y' Hx'. apply Himpl. by right.
Qed.

Lemma entries_transport h h' entries tqo :
  Forall2 (Heap.entry_at h) entries tqo →
  (∀ r o, r ∈ Heap.record_locs entries → Heap.record_at h r o → Heap.record_at h' r o) →
  Forall2 (Heap.entry_at h') entries tqo.
Proof.
  intros Hall Himpl. eapply Forall2_impl_elem; [exact Hall|].
  intros [k rs] [k' os] Hin [Hk Hrs]. split; [done|]. simpl in *.
  eapply Forall2_impl_elem; [exact Hrs|]. intros r o Hr. apply Himpl.
  apply elem_of_record_locs. by exists k, rs.
Qed.

Lemma record_locs_cons k rs entries :
  Heap.record_locs ((k, rs) :: entries) = (rs ++ Heap.record_locs entries)%list.
Proof. done. Qed.

(** Replacing the first record of the entry of [k], in a table that holds
    each record once. *)
Lemma entries_update h h' entries tqo k r rs o rest o' :
  Forall2 (Heap.entry_at h) entries tqo →
  NoDup (Heap.record_locs entries) →
  dict_get k entries = Some (r :: rs) → dict_get k tqo = Some (o :: rest) →
  (∀ r' o'', r' ∈ Heap.record_locs entries → r' ≠ r →
             Heap.record_at h r' o'' → Heap.record_at h' r' o'') →
  Heap.record_at h' r o' →
  Forall2 (Heap.entry_at h') entries (dict_set k (o' :: rest) tqo).
Proof.
  intros Hall. revert k.
  induction Hall as [|[k1 rs1] [k2 os1] entries tqo [Hk Hrs] Hrest IH];
    intros k Hnd Hget Hget' Hother Hr; [done|].
  simpl in *. subst k2. rewrite record_locs_cons in Hnd, Hother.
  apply NoDup_app in Hnd as (Hnd1 & Hdisj & Hnd2).
  case_decide as Hk.
  - subst k1. injection Hget as ->. injection Hget' as ->.
    apply Forall2_cons_1 in Hrs as [_ Hrs]. apply NoDup_cons in Hnd1 as [Hr1 Hnd1].
    constructor.
    + split; [done|]. simpl. constructor; [done|].
      eapply Forall2_impl_elem; [exact Hrs|]. intros r' o'' Hr'. apply Hother.
      * apply elem_of_app. left. by right.
      * by intros ->.
    + apply (entries_transport h); [done|]. intros r' o'' Hr'. apply Hother.
      * apply elem_of_app. by right.
      * intros ->. apply (Hdisj r); [by left | done].
  - constructor.
    + split; [done|]. simpl. eapply Forall2_impl_elem; [exact Hrs|].
      intros r' o'' Hr'. apply Hother.
      * apply elem_of_app. by left.
      * intros ->. apply (Hdisj r); [done|].
        apply elem_of_record_locs. exists k, (r :: rs). split; [|by left].
        by apply dict_get_Some_elem.
    + apply IH; try done. intros r' o'' Hr'. apply Hother. apply elem_of_app. by right.
Qed.

(** The first record of an entry is one of the records of the table. *)
Lemma first_record_loc entries k r rs :
  dict_get k entries = Some (r :: rs) → r ∈ Heap.record_locs entries.
Proof.
  intros Hget. apply elem_of_record_locs. exists k, (r :: rs).
  split; [by apply dict_get_Some_elem | by left].
Qed.

(** A write through the first record [r] of the entry of [k] that leaves
    every other object of the store as it was: the table read as a value
    changes at that record only, and no object becomes shared. *)
Lemma tracks_update h h' l entries tqo k r rs o rest o' :
  Heap.table_at h l tqo → Heap.unshared h l →
  h !! l = Some (Heap.OTable entries) →
  dict_get k entries = Some (r :: rs) → dict_get k tqo = Some (o :: rest) →
  (∀ x, is_Some (h !! x) → x ∉ Heap.reach h r → h' !! x = h !! x) →
  Heap.record_at h' r o' →
  (∀ x, x ∈ Heap.reach h' r → x ∈ Heap.reach h r ∨ h !! x = None) →
  Heap.table_at h' l (dict_set k (o' :: rest) tqo) ∧ Heap.unshared h' l.
Proof.
  intros (entries1 & Hl1 & Hall) (entries2 & Hl2 & Hnd & Hsep) Hl Hget Hget'
    Hagree Hr Hreach.
  assert (entries1 = entries) as -> by congruence.
  assert (entries2 = entries) as -> by congruence.
  pose proof (first_record_loc _ _ _ _ Hget) as Hrin.
  assert (∀ r', r' ∈ Heap.record_locs entries → ∃ o'', Heap.record_at h r' o'') as Hrep.
  { intros r' (k' & rs' & Hin & Hr')%elem_of_record_locs.
    apply list_elem_of_lookup in Hin as [i Hi].
    destruct (Forall2_lookup_l _ _ _ _ _ Hall Hi) as ([k'' os] & _ & _ & Hrs').
    simpl in Hrs'. apply list_elem_of_lookup in Hr' as [j Hj].
    destruct (Forall2_lookup_l _ _ _ _ _ Hrs' Hj) as (o'' & _ & Ho''). by exists o''. }
  assert (∀ r' x, r' ∈ Heap.record_locs entries → r' ≠ r → x ∈ Heap.reach h r' →
                  h' !! x = h !! x) as Hother.
  { intros r' x Hr' Hne Hx. destruct (Hrep r' Hr') as [o'' Ho''].
    destruct (record_at_reach _ _ _ _ Ho'' Hx) as (y & Hy & _).
    apply Hagree; [by rewrite Hy|]. intros Hxr. by apply Hne, (Hsep r' r x). }
  assert (h' !! l = Some (Heap.OTable entries)) as Hl'.
  { rewrite Hagree; [done | by rewrite Hl |]. intros Hlr.
    destruct (Hrep r Hrin) as [o'' Ho''].
    destruct (record_at_reach _ _ _ _ Ho'' Hlr) as (y & Hy & Hty).
    rewrite Hl in Hy. injection Hy as <-. by apply (Hty entries). }
  split.
  - exists entries. split; [done|].
    apply (entries_update h h' entries tqo k r rs o rest o'); try done.
    intros r' o'' Hr' Hne Ho''. apply (record_at_agree h); [done|].
    intros x Hx. by apply (Hother r').
  - exists entries. split; [done|]. split; [done|].
    intros r1 r2 x Hr1 Hr2 Hx1 Hx2.
    destruct (decide (r1 = r)) as [->|Hne1]; destruct (decide (r2 = r)) as [->|Hne2];
      try done.
    + rewrite (reach_agree h h' r2) in Hx2 by (intros y Hy; by apply (Hother r2)).
      destruct (Hreach x Hx1) as [Hx|Hx]; [by apply (Hsep r r2 x)|].
      destruct (Hrep r2 Hr2) as [o'' Ho''].
      destruct (record_at_reach _ _ _ _ Ho'' Hx2) as (y & Hy & _). congruence.
    + rewrite (reach_agree h h' r1) in Hx1 by (intros y Hy; by apply (Hother r1)).
      destruct (Hreach x Hx2) as [Hx|Hx]; [by apply (Hsep r1 r x)|].
      destruct (Hrep r1 Hr1) as [o'' Ho''].
      destruct (record_at_reach _ _ _ _ Ho'' Hx1) as (y & Hy & _). congruence.
    + rewrite (reach_agree h h' r1) in Hx1 by (intros y Hy; by apply (Hother r1)).
      rewrite (reach_agree h h' r2) in Hx2 by (intros y Hy; by apply (Hother r2)).
      by apply (Hsep r1 r2 x).
Qed.

(** ** The entry of a tensor *)

Lemma record_locs_set_new entries k r :
  dict_get k entries = None ∨ dict_get k entries = Some [] →
  Heap.record_locs (dict_set k [r] entries) ≡ₚ r :: Heap.record_locs entries.
Proof.
  induction entries as [|[k1 rs1] entries IH]; [done|]. simpl.
  case_decide as Hk.
  - intros [?|[= ->]]; [done|]. done.
  - intros Hget. rewrite !record_locs_cons, (IH Hget). by rewrite Permutation_middle.
Qed.

Lemma entries_set h entries tqo k rs os :
  Forall2 (Heap.entry_at h) entries tqo → Forall2 (Heap.record_at h) rs os →
  Forall2 (Heap.entry_at h) (dict_set k rs entries) (dict_set k os tqo).
Proof.
  intros Hall Hrs.
  induction Hall as [|[k1 rs1] [k2 os1] entries tqo [Hk Hrs1] Hrest IH]; simpl in *.
  - by constructor.
  - subst k2. case_decide; (constructor; [by split | done]).
Qed.

Lemma table_records h l entries tqo r :
  h !! l = Some (Heap.OTable entries) → Heap.table_at h l tqo → r ∈ Heap.record_locs entries →
  ∃ o, Heap.record_at h r o.
Proof.
  intros Hl (entries' & Hl' & Hall) (k' & rs' & Hin & Hr')%elem_of_record_locs.
  assert (entries' = entries) as -> by congruence.
  apply list_elem_of_lookup in Hin as [i Hi].
  destruct (Forall2_lookup_l _ _ _ _ _ Hall Hi) as ([k'' os] & _ & _ & Hrs').
  simpl in Hrs'. apply list_elem_of_lookup in Hr' as [j Hj].
  destruct (Forall2_lookup_l _ _ _ _ _ Hrs' Hj) as (o'' & _ & Ho''). by exists o''.
Qed.

Lemma with_convert_None_id (init : OverrideOf Heap.loc) :
  convert init = None →
  Heap.with_convert None (Heap.with_convert (D:=ConvertDict) None init) = init.
Proof. destruct init. simpl. by intros ->. Qed.

Lemma ensure_entry_refines h l tqo k (init : OverrideOf Heap.loc) :
  convert init = None → Heap.table_at h l tqo → Heap.unshared h l →
  ∃ h', Heap.ensure_entry l k init h = (Ok (), h') ∧
        Heap.table_at h' l (ensure_entry k (Heap.with_convert None init) tqo) ∧ Heap.unshared h' l.
Proof.
  intros Hinit Htable Hunshared.
  pose proof Htable as (entries & Hl & Hall).
  pose proof Hunshared as (entries' & Hl' & Hnd & Hsep).
  assert (entries' = entries) as -> by congruence.
  unfold Heap.ensure_entry, ensure_entry.
  rewrite (bind_run _ _ _ _ _ (get_table_run _ _ _ Hl)).
  pose proof (entries_lookup h entries tqo k Hall) as Hk.
  set (r := fresh (dom h)).
  set (h' := <[l := Heap.OTable (dict_set k [r] entries)]> (<[r := Heap.ORecord init]> h)).
  assert (h !! r = None) as Hr by apply fresh_lookup.
  assert (l ≠ r) as Hlr by congruence.
  assert (dict_get k entries = None ∨ dict_get k entries = Some [] →
          Heap.table_at h' l (dict_set k [Heap.with_convert None init] tqo) ∧ Heap.unshared h' l)
    as Hnew.
  { intros Hget.
    assert (∀ r' x, r' ∈ Heap.record_locs entries → x ∈ Heap.reach h r' → h' !! x = h !! x)
      as Hold.
    { intros r' x Hr' Hx. destruct (table_records _ _ _ _ _ Hl Htable Hr') as [o Ho].
      destruct (record_at_reach _ _ _ _ Ho Hx) as (y & Hy & Hty).
      unfold h'. rewrite !lookup_insert_ne; [done | congruence |].
      intros <-. rewrite Hl in Hy. injection Hy as <-. by apply (Hty entries). }
    assert (h' !! r = Some (Heap.ORecord init)) as Hr'.
    { unfold h'. by rewrite lookup_insert_ne, lookup_insert_eq. }
    assert (Heap.reach h' r = [r]) as Hreach.
    { unfold Heap.reach. by rewrite Hr', Hinit. }
    assert (r ∉ Heap.record_locs entries) as Hrnew.
    { intros Hin. destruct (table_records _ _ _ _ _ Hl Htable Hin) as [o Ho].
      destruct (record_at_reach _ _ _ _ Ho (reach_self h r)) as (y & Hy & _).
      congruence. }
    split.
    - exists (dict_set k [r] entries). split; [apply lookup_insert_eq|].
      apply entries_set.
      + apply (entries_transport h); [done|]. intros r' o Hr'' Ho.
        apply (record_at_agree h); [done|]. intros x Hx. by apply (Hold r').
      + constructor; [|constructor]. unfold Heap.record_at. simpl.
        by rewrite with_convert_None_id.
    - exists (dict_set k [r] entries). split; [apply lookup_insert_eq|]. split.
      + rewrite (record_locs_set_new _ _ _ Hget). by apply NoDup_cons.
      + intros r1 r2 x. rewrite !(record_locs_set_new _ _ _ Hget), !elem_of_cons.
        intros [->|Hr1] [->|Hr2]; [done |..].
        * rewrite Hreach, (reach_agree h h' r2) by (intros y Hy; by apply (Hold r2)).
          intros ->%list_elem_of_singleton Hx.
          destruct (table_records _ _ _ _ _ Hl Htable Hr2) as [o Ho].
          destruct (record_at_reach _ _ _ _ Ho Hx) as (y & Hy & _). congruence.
        * rewrite Hreach, (reach_agree h h' r1) by (intros y Hy; by apply (Hold r1)).
          intros Hx ->%list_elem_of_singleton.
          destruct (table_records _ _ _ _ _ Hl Htable Hr1) as [o Ho].
          destruct (record_at_reach _ _ _ _ Ho Hx) as (y & Hy & _). congruence.
        * rewrite (reach_agree h h' r1) by (intros y Hy; by apply (Hold r1)).
          rewrite (reach_agree h h' r2) by (intros y Hy; by apply (Hold r2)).
          by apply Hsep. }
  destruct (dict_get k entries) as [[|r0 rs]|] eqn:Hget;
    destruct (dict_get k tqo) as [[|o os]|] eqn:Hget'; try done;
    try (by apply Forall2_length in Hk).
  - exists h'. split; [done|]. apply Hnew. by right.
  - by exists h.
  - exists h'. split; [done|]. apply Hnew. by left.
Qed.

(** What the store holds for an entry with a first record. *)
Lemma entry_run h l tqo k o rest :
  Heap.table_at h l tqo → dict_get k tqo = Some (o :: rest) →
  ∃ entries r rs fields,
    h !! l = Some (Heap.OTable entries) ∧ dict_get k entries = Some (r :: rs) ∧
    length rs = length rest ∧
    h !! r = Some (Heap.ORecord fields) ∧ Heap.record_at h r o ∧
    Heap.with_convert (convert fields) o = fields ∧
    Heap.entry_list l k h = (Ok (r :: rs), h) ∧
    Heap.first_record l k h = (Ok r, h) ∧
    Heap.get_record r h = (Ok fields, h).
Proof.
  intros (entries & Hl & Hall) Hget'.
  pose proof (entries_lookup h entries tqo k Hall) as Hk. rewrite Hget' in Hk.
  destruct (dict_get k entries) as [[|r rs]|] eqn:Hget; try done;
    [by apply Forall2_length in Hk|].
  apply Forall2_cons_1 in Hk as [Hr Hrs].
  assert (Heap.entry_list l k h = (Ok (r :: rs), h)) as Hlist.
  { unfold Heap.entry_list. rewrite (bind_run _ _ _ _ _ (get_table_run _ _ _ Hl)).
    unfold Heap.lift, dict_item. by rewrite Hget. }
  assert (∃ fields, h !! r = Some (Heap.ORecord fields) ∧
                    Heap.with_convert (convert fields) o = fields) as (fields & Hfields & Hwith).
  { unfold Heap.record_at in Hr. destruct o as [q sy sc zp rr mi ma [cd|]]; simpl in *.
    - destruct Hr as (c & Hr & _). by eexists.
    - by eexists. }
  exists entries, r, rs, fields. split_and!; try done.
  - by apply Forall2_length in Hrs.
  - unfold Heap.first_record. by rewrite (bind_run _ _ _ _ _ Hlist).
  - by apply get_record_run.
Qed.

Lemma entry_run_raise h l tqo k :
  Heap.table_at h l tqo →
  match dict_get k tqo with
  | None => Heap.entry_list l k h = (Raise (KeyError k), h) ∧
            Heap.first_record l k h = (Raise (KeyError k), h)
  | Some [] => Heap.entry_list l k h = (Ok [], h) ∧
               Heap.first_record l k h = (Raise IndexError, h)
  | _ => True
  end.
Proof.
  intros (entries & Hl & Hall).
  pose proof (entries_lookup h entries tqo k Hall) as Hk.
  assert (Heap.entry_list l k h = (dict_item k entries, h)) as Hlist.
  { unfold Heap.entry_list. by rewrite (bind_run _ _ _ _ _ (get_table_run _ _ _ Hl)). }
  unfold Heap.first_record. rewrite Hlist. unfold dict_item.
  destruct (dict_get k tqo) as [[|o os]|] eqn:Hget'; [|done|];
    destruct (dict_get k entries) as [[|r rs]|] eqn:Hget; try done;
    try (by apply Forall2_length in Hk).
  - split; [done|]. rewrite (bind_run _ _ h [] h); [done|].
    rewrite Hlist. unfold dict_item. by rewrite Hget.
  - split; [done|]. rewrite (bind_run_raise _ _ h (KeyError k) h); [done|].
    rewrite Hlist. unfold dict_item. by rewrite Hget.
Qed.

(** A write to the keys of the first record other than [convert]. *)
Lemma put_record_refines h l entries tqo k r rs o rest fields
    (on_store : OverrideOf Heap.loc → OverrideOf Heap.loc) (on_value : Override → Override) :
  Heap.table_at h l tqo → Heap.unshared h l →
  h !! l = Some (Heap.OTable entries) →
  dict_get k entries = Some (r :: rs) → dict_get k tqo = Some (o :: rest) →
  h !! r = Some (Heap.ORecord fields) → Heap.record_at h r o →
  (∀ (c : option Heap.loc) (x : Override),
     on_store (Heap.with_convert c x) = Heap.with_convert c (on_value x)) →
  convert (on_value o) = convert o →
  Heap.table_at (<[r := Heap.ORecord (on_store fields)]> h) l (dict_set k (on_value o :: rest) tqo) ∧
  Heap.unshared (<[r := Heap.ORecord (on_store fields)]> h) l.
Proof.
  intros Htable Hunshared Hl Hget Hget' Hfields Hr Hcomm Hconv.
  set (h' := <[r := Heap.ORecord (on_store fields)]> h).
  assert (h' !! r = Some (Heap.ORecord (on_store fields))) as Hr' by apply lookup_insert_eq.
  assert (∀ x, x ≠ r → h' !! x = h !! x) as Hne.
  { intros x Hx. unfold h'. by rewrite lookup_insert_ne. }
  assert (convert (on_store fields) = convert fields) as Hptr.
  { destruct fields as [q sy sc zp rr mi ma c].
    change (convert (on_store (Heap.with_convert c
              {| quant_type := q; symmetric := sy; scale := sc; zero_point := zp;
                 reduce_range := rr; rmin := mi; rmax := ma;
                 convert := (None : option ConvertDict) |})) = c).
    by rewrite Hcomm. }
  apply (tracks_update h h' l entries tqo k r rs o rest (on_value o)); try done.
  - intros x _ Hx. apply Hne. intros ->. apply Hx, reach_self.
  - unfold Heap.record_at in *. rewrite Hconv. destruct (convert o) as [cd|] eqn:Hcd.
    + destruct Hr as (c & Hr & Hc). exists c. split.
      * rewrite Hr'. rewrite Hfields in Hr. injection Hr as ->. by rewrite Hcomm.
      * apply (convert_at_agree h); [done | |].
        -- apply Hne. intros ->. unfold Heap.convert_at in Hc.
           destruct (recv_nodes cd); [destruct Hc as (? & Hc & _)|]; congruence.
        -- intros q s Hcs. apply Hne. intros ->. unfold Heap.convert_at in Hc.
           destruct (recv_nodes cd); [destruct Hc as (s' & Hc & Hs)|]; congruence.
    + rewrite Hr'. rewrite Hfields in Hr. injection Hr as ->. by rewrite Hcomm.
  - intros x Hx. left. revert Hx. unfold Heap.reach. rewrite Hr', Hfields, Hptr.
    destruct (convert fields) as [c|] eqn:Hc; [|done].
    destruct (decide (c = r)) as [->|Hcr].
    + rewrite Hr', Hfields. done.
    + by rewrite (Hne c Hcr).
Qed.

(** ** The mutators *)

Lemma alloc_run h (x : Heap.obj) :
  Heap.alloc x h = (Ok (fresh (dom h)), <[fresh (dom h) := x]> h).
Proof. done. Qed.

Lemma put_run h l (x : Heap.obj) : Heap.put l x h = (Ok (), <[l := x]> h).
Proof. done. Qed.

Lemma ensure_entry_first (tqo : Overrides) k init :
  ∃ o rest, dict_get k (ensure_entry k init tqo) = Some (o :: rest).
Proof. rewrite ensure_entry_eq. destruct (dict_get k tqo) as [[|]|]; eauto. Qed.

Lemma set_weight_type_refines h l tqo k w sym :
  Heap.table_at h l tqo → Heap.unshared h l →
  Heap.refines h l (Heap._set_weight_type l k w sym) (_set_weight_type tqo k w sym).
Proof.
  intros Htable Hunshared.
  destruct (ensure_entry_refines h l tqo k empty_override eq_refl Htable Hunshared)
    as (h1 & Hrun1 & Htable1 & Hunshared1).
  change (Heap.with_convert None empty_override) with (@empty_override ConvertDict)
    in Htable1.
  unfold Heap.refines, Heap._set_weight_type, _set_weight_type.
  rewrite (bind_run _ _ _ _ _ Hrun1).
  destruct (ensure_entry_first tqo k empty_override) as (o & rest & Hget).
  set (tqo1 := ensure_entry k empty_override tqo) in *.
  destruct (entry_run h1 l tqo1 k o rest Htable1 Hget)
    as (entries & r & rs & fields & Hl & Hgete & Hlen & Hfields & Hr & Hwith & Hlist
        & Hfirst & Hrec).
  rewrite (bind_run _ _ _ _ _ Hlist).
  unfold dict_item, first_record, dict_item. rewrite Hget. cbn [mbind result_bind length].
  rewrite Hlen. destruct (decide (1 < S (length rest))); [by eexists|].
  rewrite (bind_run _ _ _ _ _ Hfirst), (bind_run _ _ _ _ _ Hrec).
  assert (quant_type fields = quant_type o) as -> by (by rewrite <-Hwith).
  assert (symmetric fields = symmetric o) as -> by (by rewrite <-Hwith).
  destruct (negb (has_key (quant_type o)) && negb (has_key (symmetric o))).
  - eexists. split; [apply put_run|].
    by apply (put_record_refines h1 l entries tqo1 k r rs o rest fields
                (λ f, set_symmetric sym (set_quant_type w f))
                (λ f, set_symmetric sym (set_quant_type w f))).
  - by exists h1.
Qed.

Lemma set_scale_zero_point_refines h l tqo k q sc zp :
  Heap.table_at h l tqo → Heap.unshared h l →
  Heap.refines h l (Heap._set_scale_zero_point l k q sc zp)
    (_set_scale_zero_point tqo k q sc zp).
Proof.
  intros Htable Hunshared.
  destruct (ensure_entry_refines h l tqo k empty_override eq_refl Htable Hunshared)
    as (h1 & Hrun1 & Htable1 & Hunshared1).
  change (Heap.with_convert None empty_override) with (@empty_override ConvertDict)
    in Htable1.
  unfold Heap.refines, Heap._set_scale_zero_point, _set_scale_zero_point.
  rewrite (bind_run _ _ _ _ _ Hrun1).
  destruct (ensure_entry_first tqo k empty_override) as (o & rest & Hget).
  set (tqo1 := ensure_entry k empty_override tqo) in *.
  destruct (entry_run h1 l tqo1 k o rest Htable1 Hget)
    as (entries & r & rs & fields & Hl & Hgete & Hlen & Hfields & Hr & Hwith & Hlist
        & Hfirst & Hrec).
  rewrite (bind_run _ _ _ _ _ Hlist).
  unfold dict_item, first_record, dict_item. rewrite Hget. cbn [mbind result_bind length].
  rewrite Hlen. destruct (decide (1 < S (length rest))); [by eexists|].
  rewrite (bind_run _ _ _ _ _ Hfirst), (bind_run _ _ _ _ _ Hrec).
  assert (quant_type fields = quant_type o) as Hq by (by rewrite <-Hwith).
  assert (range_keys_present fields = range_keys_present o) as Hrange
    by (by rewrite <-Hwith).
  rewrite Hq. destruct (quant_type o) as [q0|] eqn:Hqo.
  - rewrite (bind_run _ _ h1 fields h1) by done. rewrite Hq, Hrange, ?Hqo.
    case_bool_decide; [|by eexists].
    destruct (range_keys_present o).
    + exists h1. by rewrite (dict_set_get _ _ _ Hget).
    + eexists. split; [apply put_run|].
      by apply (put_record_refines h1 l entries tqo1 k r rs o rest fields
                  (λ f, set_scale sc (set_zero_point zp f))
                  (λ f, set_scale sc (set_zero_point zp f))).
  - erewrite (bind_run _ _ h1 (set_quant_type q fields));
      [|by rewrite (bind_run _ _ _ _ _ (put_run _ _ _))].
    cbn [quant_type set_quant_type]. rewrite bool_decide_eq_true_2 by done.
    change (range_keys_present (set_quant_type q fields))
      with (range_keys_present fields).
    change (range_keys_present (set_quant_type q o)) with (range_keys_present o).
    rewrite Hrange. destruct (range_keys_present o).
    + eexists. split; [done|].
      by apply (put_record_refines h1 l entries tqo1 k r rs o rest fields
                  (λ f, set_quant_type q f) (λ f, set_quant_type q f)).
    + eexists. split; [apply put_run|]. rewrite insert_insert_eq.
      by apply (put_record_refines h1 l entries tqo1 k r rs o rest fields
                  (λ f, set_scale sc (set_zero_point zp (set_quant_type q f)))
                  (λ f, set_scale sc (set_zero_point zp (set_quant_type q f)))).
Qed.

(** A write through the first record that replaces its convert dictionary
    or writes to the one it has. *)
Lemma convert_update_refines h h' l entries tqo k r rs o rest fields c cd :
  Heap.table_at h l tqo → Heap.unshared h l →
  h !! l = Some (Heap.OTable entries) →
  dict_get k entries = Some (r :: rs) → dict_get k tqo = Some (o :: rest) →
  h !! r = Some (Heap.ORecord fields) → Heap.record_at h r o →
  h' !! r = Some (Heap.ORecord (set_convert c fields)) →
  Heap.convert_at h' c cd →
  (∀ x, is_Some (h !! x) → x ∉ Heap.reach h r → h' !! x = h !! x) →
  (∀ x, x ∈ Heap.reach h' r → x ∈ Heap.reach h r ∨ h !! x = None) →
  Heap.table_at h' l (dict_set k (set_convert cd o :: rest) tqo) ∧ Heap.unshared h' l.
Proof.
  intros Htable Hunshared Hl Hget Hget' Hfields Hr Hr' Hc Hagree Hreach.
  apply (tracks_update h h' l entries tqo k r rs o rest (set_convert cd o)); try done.
  unfold Heap.record_at. simpl. exists c. split; [|done]. rewrite Hr'.
  unfold Heap.record_at in Hr. destruct o as [q sy sc zp rr mi ma [cd0|]]; simpl in *.
  - destruct Hr as (c0 & Hr & _). rewrite Hfields in Hr. by injection Hr as ->.
  - rewrite Hfields in Hr. by injection Hr as ->.
Qed.

Lemma add_to_convert_recv_nodes_refines h l tqo k p ct names :
  Heap.table_at h l tqo → Heap.unshared h l →
  Heap.refines h l (Heap._add_to_convert_recv_nodes l k p ct names)
    (_add_to_convert_recv_nodes tqo k p ct names).
Proof.
  intros Htable Hunshared.
  destruct (ensure_entry_refines h l tqo k (set_quant_type p empty_override) eq_refl
              Htable Hunshared) as (h1 & Hrun1 & Htable1 & Hunshared1).
  change (Heap.with_convert None (set_quant_type p empty_override))
    with (set_quant_type p (@empty_override ConvertDict)) in Htable1.
  unfold Heap.refines, Heap._add_to_convert_recv_nodes, _add_to_convert_recv_nodes.
  rewrite (bind_run _ _ _ _ _ Hrun1).
  destruct (ensure_entry_first tqo k (set_quant_type p empty_override))
    as (o & rest & Hget).
  set (tqo1 := ensure_entry k (set_quant_type p empty_override) tqo) in *.
  destruct (entry_run h1 l tqo1 k o rest Htable1 Hget)
    as (entries & r & rs & fields & Hl & Hgete & Hlen & Hfields & Hr & Hwith & Hlist
        & Hfirst & Hrec).
  unfold first_record, dict_item. rewrite Hget. cbn [mbind result_bind].
  rewrite (bind_run _ _ _ _ _ Hfirst), (bind_run _ _ _ _ _ Hrec).
  pose proof Hr as Hr0. unfold Heap.record_at in Hr0.
  destruct (convert o) as [[q [names0|]]|] eqn:Hcd; simpl in Hr0.
  - (* a convert with a set *)
    destruct Hr0 as (c & Hr0 & s & Hc & Hs). simpl in Hc. rewrite Hfields in Hr0.
    injection Hr0 as ->. cbn [convert Heap.with_convert].
    rewrite (bind_run _ _ h1 c h1) by done.
    rewrite (bind_run _ _ _ _ _ (get_convert_run _ _ _ _ Hc)).
    cbn [convert_quant_type recv_nodes default from_option id].
    destruct (decide (ct = q)) as [->|Hne]; [|by eexists].
    rewrite (bind_run _ _ h1 s h1) by done.
    rewrite (bind_run _ _ _ _ _ (get_set_run _ _ _ Hs)).
    eexists. split; [apply put_run|].
    set (h' := <[s := Heap.OSet (names0 ∪ names)]> h1).
    assert (s ≠ r) as Hsr by congruence. assert (s ≠ c) as Hsc by congruence.
    assert (c ≠ r) as Hcr by congruence.
    assert (Heap.reach h1 r = [r; c; s]) as Hreach.
    { unfold Heap.reach. rewrite Hfields. simpl. by rewrite Hc. }
    assert (Heap.reach h' r = [r; c; s]) as Hreach'.
    { unfold Heap.reach, h'. rewrite lookup_insert_ne, Hfields by done. simpl.
      by rewrite lookup_insert_ne, Hc by done. }
    apply (convert_update_refines h1 h' l entries tqo1 k r rs o rest
             (Heap.with_convert (Some c) o) c); try done.
    + unfold h'. rewrite lookup_insert_ne by done. rewrite Hfields. by destruct o.
    + unfold Heap.convert_at. simpl. exists s. unfold h'.
      by rewrite lookup_insert_ne, lookup_insert_eq.
    + intros x _ Hx. unfold h'. rewrite lookup_insert_ne; [done|].
      intros <-. apply Hx. rewrite Hreach, !elem_of_cons. auto.
    + intros x Hx. left. by rewrite Hreach, <-Hreach'.
  - (* a convert for all consumers *)
    destruct Hr0 as (c & Hr0 & Hc). simpl in Hc. rewrite Hfields in Hr0.
    injection Hr0 as ->. cbn [convert Heap.with_convert].
    rewrite (bind_run _ _ h1 c h1) by done.
    rewrite (bind_run _ _ _ _ _ (get_convert_run _ _ _ _ Hc)).
    cbn [convert_quant_type recv_nodes default from_option id].
    destruct (decide (ct = q)) as [->|Hne]; [|by eexists].
    set (s := fresh (dom h1)).
    assert (h1 !! s = None) as Hs by apply fresh_lookup.
    assert (s ≠ r) as Hsr by congruence. assert (s ≠ c) as Hsc by congruence.
    assert (c ≠ r) as Hcr by congruence.
    set (h2 := <[c := Heap.OConvert q (Some s)]> (<[s := Heap.OSet ∅]> h1)).
    rewrite (bind_run _ _ h1 s h2);
      [|by rewrite (bind_run _ _ _ _ _ (alloc_run _ _)),
                   (bind_run _ _ _ _ _ (put_run _ _ _))].
    rewrite (bind_run _ _ h2 ∅ h2);
      [|apply get_set_run; unfold h2; by rewrite lookup_insert_ne, lookup_insert_eq].
    eexists. split; [apply put_run|].
    set (h' := <[s := Heap.OSet (∅ ∪ names)]> h2).
    assert (h' !! r = Some (Heap.ORecord (Heap.with_convert (Some c) o))) as Hr'.
    { unfold h', h2. by rewrite !lookup_insert_ne. }
    assert (h' !! c = Some (Heap.OConvert q (Some s))) as Hc'.
    { unfold h', h2. by rewrite lookup_insert_ne, lookup_insert_eq. }
    assert (h' !! s = Some (Heap.OSet (∅ ∪ names))) as Hs' by apply lookup_insert_eq.
    apply (convert_update_refines h1 h' l entries tqo1 k r rs o rest
             (Heap.with_convert (Some c) o) c); try done.
    + unfold Heap.convert_at. simpl. by exists s.
    + intros x Hx Hxr. unfold h', h2. rewrite !lookup_insert_ne; [done|..].
      * intros <-. rewrite Hs in Hx. by destruct Hx.
      * intros <-. apply Hxr. unfold Heap.reach. rewrite Hfields. simpl.
        rewrite !elem_of_cons. auto.
      * intros <-. rewrite Hs in Hx. by destruct Hx.
    + intros x. unfold Heap.reach. rewrite Hr', Hfields. simpl. rewrite Hc', Hc.
      rewrite !elem_of_cons, !elem_of_nil. intros [->|[->|[->|[]]]]; auto.
  - (* no convert *)
    rewrite Hfields in Hr0. injection Hr0 as ->. cbn [convert Heap.with_convert].
    set (c := fresh (dom h1)).
    assert (h1 !! c = None) as Hc by apply fresh_lookup.
    assert (c ≠ r) as Hcr by congruence.
    set (h2 := <[r := Heap.ORecord (set_convert c (Heap.with_convert None o))]>
                 (<[c := Heap.OConvert ct None]> h1)).
    rewrite (bind_run _ _ h1 c h2);
      [|by rewrite (bind_run _ _ _ _ _ (alloc_run _ _)),
                   (bind_run _ _ _ _ _ (put_run _ _ _))].
    rewrite (bind_run _ _ h2 (ct, None) h2);
      [|apply get_convert_run; unfold h2; by rewrite lookup_insert_ne, lookup_insert_eq].
    cbn [convert_quant_type recv_nodes default from_option id].
    destruct (decide (ct = ct)); [|done].
    set (s := fresh (dom h2)).
    assert (h2 !! s = None) as Hs2 by apply fresh_lookup.
    assert (s ≠ r ∧ s ≠ c ∧ h1 !! s = None) as (Hsr & Hsc & Hs).
    { unfold h2 in Hs2. apply lookup_insert_None in Hs2 as [Hs2 ?].
      apply lookup_insert_None in Hs2 as [Hs2 ?]. done. }
    set (h3 := <[c := Heap.OConvert ct (Some s)]> (<[s := Heap.OSet ∅]> h2)).
    rewrite (bind_run _ _ h2 s h3);
      [|by rewrite (bind_run _ _ _ _ _ (alloc_run _ _)),
                   (bind_run _ _ _ _ _ (put_run _ _ _))].
    rewrite (bind_run _ _ h3 ∅ h3);
      [|apply get_set_run; unfold h3; by rewrite lookup_insert_ne, lookup_insert_eq].
    eexists. split; [apply put_run|].
    set (h' := <[s := Heap.OSet (∅ ∪ names)]> h3).
    assert (h' !! r = Some (Heap.ORecord (set_convert c (Heap.with_convert None o))))
      as Hr'.
    { unfold h', h3, h2. do 3 (rewrite lookup_insert_ne by done). apply lookup_insert_eq. }
    assert (h' !! c = Some (Heap.OConvert ct (Some s))) as Hc'.
    { unfold h', h3. by rewrite lookup_insert_ne, lookup_insert_eq. }
    assert (h' !! s = Some (Heap.OSet (∅ ∪ names))) as Hs' by apply lookup_insert_eq.
    apply (convert_update_refines h1 h' l entries tqo1 k r rs o rest
             (Heap.with_convert None o) c); try done.
    + unfold Heap.convert_at. simpl. by exists s.
    + intros x Hx Hxr. unfold h', h3, h2. rewrite !lookup_insert_ne; [done|..].
      * intros <-. rewrite Hc in Hx. by destruct Hx.
      * intros <-. apply Hxr. apply reach_self.
      * intros <-. rewrite Hs in Hx. by destruct Hx.
      * intros <-. rewrite Hc in Hx. by destruct Hx.
      * intros <-. rewrite Hs in Hx. by destruct Hx.
    + intros x. unfold Heap.reach. rewrite Hr', Hfields. simpl. rewrite Hc'.
      rewrite !elem_of_cons, !elem_of_nil. intros [->|[->|[->|[]]]]; auto.
Qed.

(** ** The resolver and the policy *)

Lemma get_output_activation_qtype_run h l tqo k act :
  Heap.table_at h l tqo →
  Heap._get_output_activation_qtype k l act h =
    (_get_output_activation_qtype k tqo act, h).
Proof.
  intros Htable. unfold Heap._get_output_activation_qtype.
  by rewrite (bind_run _ _ _ _ _ (snapshot_run _ _ _ Htable)).
Qed.

Lemma check_not_in_convert_recv_nodes_run h l tqo k names :
  Heap.table_at h l tqo →
  Heap._check_not_in_convert_recv_nodes l k names h =
    (Ok (_check_not_in_convert_recv_nodes tqo k names), h).
Proof.
  intros Htable. unfold Heap._check_not_in_convert_recv_nodes.
  by rewrite (bind_run _ _ _ _ _ (snapshot_run _ _ _ Htable)).
Qed.

Lemma refines_ret h l tqo :
  Heap.table_at h l tqo → Heap.unshared h l → Heap.refines h l (mret ()) (Ok tqo).
Proof. intros Htable Hunshared. by exists h. Qed.

Lemma iter_refines {A : Type} l (on_store : A → Heap.M unit)
    (on_value : Overrides → A → result Overrides) (xs : list A) h tqo :
  (∀ h tqo x, Heap.table_at h l tqo → Heap.unshared h l →
              Heap.refines h l (on_store x) (on_value tqo x)) →
  Heap.table_at h l tqo → Heap.unshared h l →
  Heap.refines h l (Heap.iter on_store xs) (for_each on_value xs tqo).
Proof.
  intros Hbody. revert h tqo.
  induction xs as [|x xs IH]; intros h tqo Htable Hunshared; [by apply refines_ret|].
  cbn [Heap.iter for_each]. specialize (Hbody h tqo x Htable Hunshared).
  unfold Heap.refines in *. destruct (on_value tqo x) as [tqo1|e]; cbn [mbind result_bind].
  - destruct Hbody as (h1 & Hrun & Htable1 & Hunshared1).
    rewrite (bind_run _ _ _ _ _ Hrun). by apply IH.
  - destruct Hbody as (h1 & Hrun). rewrite (bind_run_raise _ _ _ _ _ Hrun). by eexists.
Qed.

Lemma process_request_refines h l tqo act consumers item :
  Heap.table_at h l tqo → Heap.unshared h l →
  Heap.refines h l (Heap.process_request act consumers l item)
    (process_request act consumers tqo item).
Proof.
  intros Htable Hunshared. destruct item as [k [[p|] [[ct names]|]]];
    unfold Heap.process_request, process_request;
    cbn [TensorTypeRequest.producer_type TensorTypeRequest.consumers].
  - (* both sides *)
    destruct (decide (p ≠ ct)); [by apply add_to_convert_recv_nodes_refines|].
    destruct (consumers !! k) as [nodes|]; [|by eexists].
    unfold Heap.refines. rewrite (bind_run _ _ h nodes h) by done.
    cbn [mbind result_bind].
    destruct (decide (size _ = 0)); [|by apply add_to_convert_recv_nodes_refines].
    pose proof (entry_run_raise h l tqo k Htable) as Hraise.
    unfold first_record, dict_item.
    destruct (dict_get k tqo) as [[|o rest]|] eqn:Hget; cbn [mbind result_bind].
    + destruct Hraise as [_ Hraise]. rewrite (bind_run_raise _ _ _ _ _ Hraise). by eexists.
    + destruct (entry_run h l tqo k o rest Htable Hget)
        as (entries & r & rs & fields & Hl & Hgete & Hlen & Hfields & Hr & Hwith
            & Hlist & Hfirst & Hrec).
      rewrite (bind_run _ _ _ _ _ Hfirst), (bind_run _ _ _ _ _ Hrec).
      assert (has_key (convert fields) = has_key (convert o)) as ->.
      { unfold Heap.record_at in Hr. destruct (convert o) as [cd|].
        - destruct Hr as (c0 & Hr & _). rewrite Hfields in Hr. by injection Hr as ->.
        - rewrite Hfields in Hr. by injection Hr as ->. }
      destruct (has_key (convert o)); [by eexists | by exists h].
    + destruct Hraise as [_ Hraise]. rewrite (bind_run_raise _ _ _ _ _ Hraise). by eexists.
  - (* the producer side only *)
    unfold Heap.refines.
    pose proof (entry_run_raise h l tqo k Htable) as Hraise.
    unfold first_record, dict_item.
    destruct (dict_get k tqo) as [[|o rest]|] eqn:Hget; cbn [mbind result_bind].
    + destruct Hraise as [_ Hraise]. rewrite (bind_run_raise _ _ _ _ _ Hraise). by eexists.
    + destruct (entry_run h l tqo k o rest Htable Hget)
        as (entries & r & rs & fields & Hl & Hgete & Hlen & Hfields & Hr & Hwith
            & Hlist & Hfirst & Hrec).
      rewrite (bind_run _ _ _ _ _ Hfirst), (bind_run _ _ _ _ _ (alloc_run _ _)).
      set (c := fresh (dom h)).
      assert (h !! c = None) as Hc by apply fresh_lookup.
      assert (c ≠ r) as Hcr by congruence.
      set (h2 := <[c := Heap.OConvert act None]> h).
      rewrite (bind_run _ _ h2 fields h2);
        [|apply get_record_run; unfold h2; by rewrite lookup_insert_ne].
      eexists. split; [apply put_run|].
      set (h' := <[r := Heap.ORecord (set_convert c fields)]> h2).
      assert (h' !! c = Some (Heap.OConvert act None)) as Hc'.
      { unfold h', h2. by rewrite lookup_insert_ne, lookup_insert_eq. }
      apply (convert_update_refines h h' l entries tqo k r rs o rest fields c);
        try done.
      * apply lookup_insert_eq.
      * intros x Hx Hxr. unfold h', h2. rewrite !lookup_insert_ne; [done|..].
        -- intros <-. rewrite Hc in Hx. by destruct Hx.
        -- intros <-. apply Hxr, reach_self.
      * intros x. unfold Heap.reach, h'. rewrite lookup_insert_eq. simpl.
        fold h'. rewrite Hc'.
        rewrite !elem_of_cons, !elem_of_nil. intros [->|[->|[]]]; auto.
    + destruct Hraise as [_ Hraise]. rewrite (bind_run_raise _ _ _ _ _ Hraise). by eexists.
  - (* the consumer side only *)
    pose proof (get_output_activation_qtype_run h l tqo k act Htable) as Hout.
    destruct (_get_output_activation_qtype k tqo act) as [prod|e];
      cbn [mbind result_bind].
    + destruct (decide (prod ≠ ct)).
      * unfold Heap.refines. rewrite (bind_run _ _ _ _ _ Hout).
        destruct (decide (prod ≠ ct)); [|done].
        by apply add_to_convert_recv_nodes_refines.
      * unfold Heap.refines. rewrite (bind_run _ _ _ _ _ Hout).
        destruct (decide (prod ≠ ct)); [done|].
        rewrite (bind_run _ _ _ _ _
                   (check_not_in_convert_recv_nodes_run h l tqo k names Htable)).
        destruct (negb _); [by eexists | by exists h].
    + unfold Heap.refines. rewrite (bind_run_raise _ _ _ _ _ Hout). by eexists.
  - (* neither side *)
    pose proof (get_output_activation_qtype_run h l tqo k act Htable) as Hout.
    unfold Heap.refines.
    destruct (_get_output_activation_qtype k tqo act) as [prod|e];
      cbn [mbind result_bind].
    + rewrite (bind_run _ _ _ _ _ Hout). by eexists.
    + rewrite (bind_run_raise _ _ _ _ _ Hout). by eexists.
Qed.

Lemma add_qtype_converts_refines h l tqo act infos inits producers consumers :
  Heap.table_at h l tqo → Heap.unshared h l →
  Heap.refines h l (Heap._add_qtype_converts l act infos inits producers consumers)
    (_add_qtype_converts tqo act infos inits producers consumers).
Proof.
  intros Htable Hunshared. unfold Heap._add_qtype_converts, _add_qtype_converts.
  destruct (for_each (scan_override act infos inits producers) tqo [])
    as [reqs|e] eqn:Hscan; cbn [mbind result_bind].
  - pose proof (iter_refines l (Heap.process_request act consumers l)
                  (process_request act consumers) reqs h tqo) as Hiter.
    unfold Heap.refines in *.
    rewrite (bind_run _ _ _ _ _ (snapshot_run _ _ _ Htable)).
    rewrite (bind_run _ _ h reqs h) by (unfold Heap.lift; by rewrite Hscan).
    apply Hiter; [|done..]. intros. by apply process_request_refines.
  - unfold Heap.refines. rewrite (bind_run _ _ _ _ _ (snapshot_run _ _ _ Htable)).
    rewrite (bind_run_raise _ _ h e h) by (unfold Heap.lift; by rewrite Hscan).
    by eexists.
Qed.

Lemma layernorm_weight_refines h l tqo inits n w sym i :
  Heap.table_at h l tqo → Heap.unshared h l →
  Heap.refines h l (Heap.layernorm_weight inits n w sym l i)
    (layernorm_weight inits n w sym tqo i).
Proof.
  intros Htable Hunshared. unfold Heap.layernorm_weight, layernorm_weight.
  destruct (input n !! i) as [k|]; [|by eexists].
  destruct (bool_decide _); [by apply set_weight_type_refines | by apply refines_ret].
Qed.

Lemma apply_policy_refines h l tqo act w inits n :
  Heap.table_at h l tqo → Heap.unshared h l →
  Heap.refines h l (Heap.apply_policy act w inits l n) (apply_policy act w inits tqo n).
Proof.
  intros Htable Hunshared. unfold Heap.apply_policy, apply_policy.
  destruct (bool_decide (op_type n = "MatMul") && Q8_TYPES w).
  { unfold Heap.refines. rewrite (bind_run _ _ _ _ _ (snapshot_run _ _ _ Htable)).
    destruct (foldl _ _ _) as [a wgt].
    destruct (truthy a && truthy wgt);
      [by apply set_weight_type_refines | by apply refines_ret]. }
  destruct (bool_decide (op_type n = "LayerNormalization") && Q8_TYPES w).
  { unfold Heap.refines. rewrite (bind_run _ _ _ _ _ (snapshot_run _ _ _ Htable)).
    destruct (has_q16_activation _ _ _ _ _); [|by apply refines_ret].
    apply (iter_refines l (Heap.layernorm_weight inits n w _ l)); [|done..].
    intros. by apply layernorm_weight_refines. }
  assert (∀ sc zp,
    Heap.refines h l
      (out ← Heap.lift (output0 n);
       output_type ← Heap._get_output_activation_qtype out l act;
       if decide (output_type = QUInt16) then
         Heap._set_scale_zero_point l out output_type sc.1 zp.1
       else if decide (output_type = QInt16) then
         Heap._set_scale_zero_point l out output_type sc.2 zp.2
       else mret ())
      (out ← output0 n;
       output_type ← _get_output_activation_qtype out tqo act;
       if decide (output_type = QUInt16) then
         _set_scale_zero_point tqo out output_type sc.1 zp.1
       else if decide (output_type = QInt16) then
         _set_scale_zero_point tqo out output_type sc.2 zp.2
       else Ok tqo)) as Hpin.
  { intros sc zp. unfold Heap.refines. destruct (output0 n) as [out|e];
      cbn [mbind result_bind].
    - rewrite (bind_run _ _ h out h) by done.
      pose proof (get_output_activation_qtype_run h l tqo out act Htable) as Hout.
      destruct (_get_output_activation_qtype out tqo act) as [T|e];
        cbn [mbind result_bind].
      + rewrite (bind_run _ _ _ _ _ Hout).
        destruct (decide (T = QUInt16)); [by apply set_scale_zero_point_refines|].
        destruct (decide (T = QInt16)); [by apply set_scale_zero_point_refines|].
        by apply refines_ret.
      + rewrite (bind_run_raise _ _ _ _ _ Hout). by eexists.
    - rewrite (bind_run_raise _ _ h e h) by done. by eexists. }
  destruct (bool_decide (op_type n = "Sigmoid")).
  { exact (Hpin (1 # 65536, 1 # 32768) (0%Z, 0%Z)). }
  destruct (bool_decide (op_type n = "Tanh")).
  { exact (Hpin (1 # 32768, 1 # 32768) (32768%Z, 0%Z)). }
  by apply refines_ret.
Qed.

Lemma policy_loop_refines h l tqo act w inits nodes :
  Heap.table_at h l tqo → Heap.unshared h l →
  Heap.refines h l (Heap.iter (Heap.apply_policy act w inits l) nodes)
    (for_each (apply_policy act w inits) nodes tqo).
Proof.
  intros Htable Hunshared. apply iter_refines; [|done..].
  intros. by apply apply_policy_refines.
Qed.

(** ** The deep copy *)

Lemma record_at_extend h h' r o :
  (∀ x, is_Some (h !! x) → h' !! x = h !! x) →
  Heap.record_at h r o → Heap.record_at h' r o ∧ Heap.reach h' r = Heap.reach h r.
Proof.
  intros Hext Hr.
  assert (∀ x, x ∈ Heap.reach h r → h' !! x = h !! x) as Hagree.
  { intros x Hx. destruct (record_at_reach _ _ _ _ Hr Hx) as (y & Hy & _).
    apply Hext. by rewrite Hy. }
  split; [by apply (record_at_agree h) | by apply reach_agree].
Qed.

Lemma copied_nil h : Heap.copied h h [].
Proof.
  unfold Heap.copied. split_and!; [done | constructor | | |]; intros; by match goal with
    H : _ ∈ [] |- _ => apply elem_of_nil in H end.
Qed.

Lemma copied_app h h1 h' (rs1 rs2 : list Heap.loc) :
  Heap.copied h h1 rs1 → Heap.copied h1 h' rs2 → Heap.copied h h' (rs1 ++ rs2).
Proof.
  intros (Hext1 & Hnd1 & Hrec1 & Hfresh1 & Hsep1) (Hext2 & Hnd2 & Hrec2 & Hfresh2 & Hsep2).
  assert (∀ r x, r ∈ rs1 → x ∈ Heap.reach h1 r → is_Some (h1 !! x)) as Hdef1.
  { intros r x Hr Hx. destruct (Hrec1 r Hr) as [o Ho].
    destruct (record_at_reach _ _ _ _ Ho Hx) as (y & Hy & _). by rewrite Hy. }
  assert (∀ r, r ∈ rs1 → Heap.reach h' r = Heap.reach h1 r) as Hreach1.
  { intros r Hr. destruct (Hrec1 r Hr) as [o Ho].
    by destruct (record_at_extend h1 h' r o Hext2 Ho). }
  assert (∀ r x, r ∈ rs1 → x ∈ Heap.reach h1 r → r ∈ rs2 → False) as Hmixed_r.
  { intros r x Hr Hx Hr2.
    pose proof (Hfresh2 r r Hr2 (reach_self h' r)) as Hnone.
    destruct (Hdef1 r r Hr (reach_self h1 r)) as [y Hy]. congruence. }
  assert (∀ r1 r2 x, r1 ∈ rs1 → r2 ∈ rs2 →
                     x ∈ Heap.reach h1 r1 → x ∈ Heap.reach h' r2 → False) as Hmixed.
  { intros r1 r2 x Hr1 Hr2 Hx1 Hx2. destruct (Hdef1 r1 x Hr1 Hx1) as [y Hy].
    rewrite (Hfresh2 r2 x Hr2 Hx2) in Hy. done. }
  unfold Heap.copied. split_and!.
  - intros x Hx. rewrite Hext2; [by apply Hext1|]. by rewrite Hext1.
  - apply NoDup_app. split_and!; [done | | done].
    intros r Hr Hr2. by apply (Hmixed_r r r Hr (reach_self h1 r)).
  - intros r [Hr|Hr]%elem_of_app; [|by apply Hrec2].
    destruct (Hrec1 r Hr) as [o Ho]. exists o.
    by destruct (record_at_extend h1 h' r o Hext2 Ho).
  - intros r x [Hr|Hr]%elem_of_app Hx.
    + rewrite (Hreach1 r Hr) in Hx. by apply (Hfresh1 r).
    + pose proof (Hfresh2 r x Hr Hx) as Hnone.
      destruct (h !! x) as [y|] eqn:Hy; [|done].
      rewrite Hext1 in Hnone by (by rewrite Hy). congruence.
  - intros r1 r2 x [Hr1|Hr1]%elem_of_app [Hr2|Hr2]%elem_of_app Hx1 Hx2.
    + rewrite (Hreach1 r1 Hr1) in Hx1. rewrite (Hreach1 r2 Hr2) in Hx2.
      by apply (Hsep1 r1 r2 x).
    + rewrite (Hreach1 r1 Hr1) in Hx1. by destruct (Hmixed r1 r2 x).
    + rewrite (Hreach1 r2 Hr2) in Hx2. by destruct (Hmixed r2 r1 x).
    + by apply (Hsep2 r1 r2 x).
Qed.

(** The copy of one record that the memo does not know. *)
Lemma copy_record_run memo h r o :
  Heap.record_at h r o →
  (∀ x, x ∈ Heap.reach h r → memo !! x = None) →
  ∃ r' memo' h',
    Heap.copy_record memo r h = (Ok (r', memo'), h') ∧
    Heap.copied h h' [r'] ∧ Heap.record_at h' r' o ∧
    ∀ x, is_Some (memo' !! x) → is_Some (memo !! x) ∨ x ∈ Heap.reach h r.
Proof.
  intros Hr Hmemo. pose proof Hr as Hr0. unfold Heap.record_at in Hr0.
  unfold Heap.copy_record. rewrite (Hmemo r (reach_self h r)).
  assert (∀ h' r',
    (∀ x, is_Some (h !! x) → h' !! x = h !! x) → Heap.record_at h' r' o →
    (∀ x, x ∈ Heap.reach h' r' → h !! x = None) → Heap.copied h h' [r']) as Hcopies.
  { intros h' r' Hext Hr' Hfresh. unfold Heap.copied. split_and!; [done | apply NoDup_singleton |..].
    - intros ? ->%list_elem_of_singleton. by exists o.
    - intros ? x ->%list_elem_of_singleton. apply Hfresh.
    - by intros ? ? x ->%list_elem_of_singleton ->%list_elem_of_singleton. }
  destruct (convert o) as [[q [names|]]|] eqn:Hcd; simpl in Hr0.
  - destruct Hr0 as (c & Hfields & s & Hc & Hs).
    assert (Heap.reach h r = [r; c; s]) as Hreach.
    { unfold Heap.reach. rewrite Hfields. simpl. by rewrite Hc. }
    assert (memo !! c = None) as Hmc
      by (apply Hmemo; rewrite Hreach, !elem_of_cons; auto).
    assert (memo !! s = None) as Hms
      by (apply Hmemo; rewrite Hreach, !elem_of_cons; auto).
    set (s' := fresh (dom h)). set (h1 := <[s' := Heap.OSet names]> h).
    set (c' := fresh (dom h1)). set (h2 := <[c' := Heap.OConvert q (Some s')]> h1).
    set (r' := fresh (dom h2)).
    set (h' := <[r' := Heap.ORecord (Heap.with_convert (Some c')
                                      (Heap.with_convert (Some c) o))]> h2).
    assert (h !! s' = None) as Hs' by apply fresh_lookup.
    assert (h1 !! c' = None) as Hc' by apply fresh_lookup.
    assert (h2 !! r' = None) as Hr' by apply fresh_lookup.
    unfold h1 in Hc'. apply lookup_insert_None in Hc' as [Hc' Hsc].
    unfold h2, h1 in Hr'. apply lookup_insert_None in Hr' as [Hr' Hcr].
    apply lookup_insert_None in Hr' as [Hr' Hsr].
    assert (h' !! r' = Some (Heap.ORecord (Heap.with_convert (Some c') o))) as Hr1.
    { unfold h'. rewrite lookup_insert_eq. by destruct o. }
    assert (h' !! c' = Some (Heap.OConvert q (Some s'))) as Hc1.
    { unfold h', h2. by rewrite lookup_insert_ne, lookup_insert_eq. }
    assert (h' !! s' = Some (Heap.OSet names)) as Hs1.
    { unfold h', h2, h1. do 2 (rewrite lookup_insert_ne by done). apply lookup_insert_eq. }
    assert (Heap.record_at h' r' o) as Hrec.
    { unfold Heap.record_at, Heap.convert_at. rewrite Hcd. simpl. eauto. }
    exists r', (<[r := r']> (<[c := c']> (<[s := s']> memo))), h'. split_and!.
    + unfold Heap.copy_convert, Heap.copy_set, mbind, Heap.M_bind, Heap.get_record,
        Heap.get_convert, Heap.get_set, Heap.alloc, mret, Heap.M_ret.
      rewrite Hfields. cbn [convert Heap.with_convert]. rewrite Hmc, Hc, Hms, Hs.
      reflexivity.
    + apply Hcopies; [|done|].
      * intros x Hx. unfold h', h2, h1. rewrite !lookup_insert_ne; [done|..];
          intros <-; destruct Hx; congruence.
      * intros x. unfold Heap.reach. rewrite Hr1. simpl. rewrite Hc1.
        rewrite !elem_of_cons, elem_of_nil. intros [->|[->|[->|[]]]]; done.
    + done.
    + intros x. rewrite Hreach, !lookup_insert_is_Some, !elem_of_cons.
      intros [->|[_ [->|[_ [->|[_ ?]]]]]]; auto.
  - destruct Hr0 as (c & Hfields & Hc).
    assert (Heap.reach h r = [r; c]) as Hreach.
    { unfold Heap.reach. rewrite Hfields. simpl. by rewrite Hc. }
    assert (memo !! c = None) as Hmc
      by (apply Hmemo; rewrite Hreach, !elem_of_cons; auto).
    set (c' := fresh (dom h)). set (h2 := <[c' := Heap.OConvert q None]> h).
    set (r' := fresh (dom h2)).
    set (h' := <[r' := Heap.ORecord (Heap.with_convert (Some c')
                                      (Heap.with_convert (Some c) o))]> h2).
    assert (h !! c' = None) as Hc' by apply fresh_lookup.
    assert (h2 !! r' = None) as Hr' by apply fresh_lookup.
    unfold h2 in Hr'. apply lookup_insert_None in Hr' as [Hr' Hcr].
    assert (h' !! r' = Some (Heap.ORecord (Heap.with_convert (Some c') o))) as Hr1.
    { unfold h'. rewrite lookup_insert_eq. by destruct o. }
    assert (h' !! c' = Some (Heap.OConvert q None)) as Hc1.
    { unfold h', h2. by rewrite lookup_insert_ne, lookup_insert_eq. }
    assert (Heap.record_at h' r' o) as Hrec.
    { unfold Heap.record_at, Heap.convert_at. rewrite Hcd. simpl. eauto. }
    exists r', (<[r := r']> (<[c := c']> memo)), h'. split_and!.
    + unfold Heap.copy_convert, mbind, Heap.M_bind, Heap.get_record,
        Heap.get_convert, Heap.alloc, mret, Heap.M_ret.
      rewrite Hfields. cbn [convert Heap.with_convert]. rewrite Hmc, Hc.
      reflexivity.
    + apply Hcopies; [|done|].
      * intros x Hx. unfold h', h2. rewrite !lookup_insert_ne; [done|..];
          intros <-; destruct Hx; congruence.
      * intros x. unfold Heap.reach. rewrite Hr1. simpl. rewrite Hc1.
        rewrite !elem_of_cons, elem_of_nil. intros [->|[->|[]]]; done.
    + done.
    + intros x. rewrite Hreach, !lookup_insert_is_Some, !elem_of_cons.
      intros [->|[_ [->|[_ ?]]]]; auto.
  - rename Hr0 into Hfields.
    set (r' := fresh (dom h)).
    set (h' := <[r' := Heap.ORecord (Heap.with_convert (D:=Heap.loc) None
                                      (Heap.with_convert (D:=Heap.loc) None o))]> h).
    assert (h !! r' = None) as Hr' by apply fresh_lookup.
    assert (h' !! r' = Some (Heap.ORecord (Heap.with_convert None o))) as Hr1.
    { unfold h'. rewrite lookup_insert_eq. by destruct o. }
    assert (Heap.record_at h' r' o) as Hrec.
    { unfold Heap.record_at. by rewrite Hcd. }
    exists r', (<[r := r']> memo), h'. split_and!.
    + unfold mbind, Heap.M_bind, Heap.get_record, Heap.alloc, mret, Heap.M_ret.
      rewrite Hfields. reflexivity.
    + apply Hcopies; [|done|].
      * intros x Hx. unfold h'. rewrite !lookup_insert_ne; [done|..];
          intros <-; destruct Hx; congruence.
      * intros x. unfold Heap.reach. rewrite Hr1. simpl.
        rewrite !elem_of_cons, elem_of_nil. intros [->|[]]; done.
    + done.
    + intros x. rewrite !lookup_insert_is_Some. intros [->|[_ ?]]; [right|by left].
      apply reach_self.
Qed.

Lemma records_at_elem h (rs : list Heap.loc) (os : list Override) r :
  Forall2 (Heap.record_at h) rs os → r ∈ rs → ∃ o, Heap.record_at h r o.
Proof.
  intros Hall [i Hi]%list_elem_of_lookup.
  destruct (Forall2_lookup_l _ _ _ _ _ Hall Hi) as (o & _ & Ho). by exists o.
Qed.

Lemma records_at_extend h h' (rs : list Heap.loc) (os : list Override) :
  (∀ x, is_Some (h !! x) → h' !! x = h !! x) →
  Forall2 (Heap.record_at h) rs os → Forall2 (Heap.record_at h') rs os.
Proof.
  intros Hext Hall. eapply Forall2_impl; [exact Hall|].
  intros r o Hr. by destruct (record_at_extend h h' r o Hext Hr).
Qed.

Lemma copy_records_run (rs : list Heap.loc) :
  ∀ (os : list Override) memo h,
  Forall2 (Heap.record_at h) rs os → NoDup rs →
  (∀ r1 r2 x, r1 ∈ rs → r2 ∈ rs →
              x ∈ Heap.reach h r1 → x ∈ Heap.reach h r2 → r1 = r2) →
  (∀ r x, r ∈ rs → x ∈ Heap.reach h r → memo !! x = None) →
  ∃ rs' memo' h',
    Heap.copy_records memo rs h = (Ok (rs', memo'), h') ∧
    Heap.copied h h' rs' ∧ Forall2 (Heap.record_at h') rs' os ∧
    ∀ x, is_Some (memo' !! x) →
         is_Some (memo !! x) ∨ ∃ r, r ∈ rs ∧ x ∈ Heap.reach h r.
Proof.
  induction rs as [|r rs IH]; intros os memo h Hall Hnd Hsep Hmemo.
  - apply Forall2_nil_inv_l in Hall as ->. exists [], memo, h.
    split_and!; [done | apply copied_nil | done | by left].
  - apply Forall2_cons_inv_l in Hall as (o & os' & Hr & Hrs & ->).
    apply NoDup_cons in Hnd as [Hrnew Hnd].
    destruct (copy_record_run memo h r o Hr) as (r' & memo1 & h1 & Hrun1 & Hcop1 & Hrec1
                                                 & Hmemo1).
    { intros x. apply Hmemo. by left. }
    pose proof Hcop1 as [Hext1 _].
    assert (∀ r0, r0 ∈ rs → Heap.reach h1 r0 = Heap.reach h r0) as Hreach.
    { intros r0 Hr0. destruct (records_at_elem h rs os' r0 Hrs Hr0) as [o0 Ho0].
      by destruct (record_at_extend h h1 r0 o0 Hext1 Ho0). }
    destruct (IH os' memo1 h1) as (rs' & memo' & h' & Hrun & Hcop & Hrecs & Hmemo').
    { by apply (records_at_extend h). }
    { done. }
    { intros r1 r2 x Hr1 Hr2. rewrite (Hreach r1 Hr1), (Hreach r2 Hr2).
      apply Hsep; by right. }
    { intros r0 x Hr0. rewrite (Hreach r0 Hr0). intros Hx.
      apply eq_None_not_Some. intros [Hold|Hnew]%Hmemo1.
      - rewrite (Hmemo r0 x) in Hold; [by destruct Hold | by right | done].
      - apply Hrnew. rewrite (Hsep r r0 x); [done | by left | by right | done..]. }
    pose proof Hcop as [Hext _].
    exists (r' :: rs'), memo', h'. split_and!.
    + cbn [Heap.copy_records]. rewrite (bind_run _ _ _ _ _ Hrun1).
      cbn beta iota. by rewrite (bind_run _ _ _ _ _ Hrun).
    + by apply (copied_app h h1 h' [r'] rs').
    + constructor; [|done]. by destruct (record_at_extend h1 h' r' o Hext Hrec1).
    + intros x [Hx|(r0 & Hr0 & Hx)]%Hmemo'.
      * destruct (Hmemo1 x Hx) as [?|?]; [by left|]. right. exists r. split; [by left|done].
      * right. exists r0. split; [by right|]. by rewrite <-(Hreach r0 Hr0).
Qed.

Lemma copy_entries_run (entries : list (string * list Heap.loc)) :
  ∀ (tqo : Overrides) memo h,
  Forall2 (Heap.entry_at h) entries tqo → NoDup (Heap.record_locs entries) →
  (∀ r1 r2 x, r1 ∈ Heap.record_locs entries → r2 ∈ Heap.record_locs entries →
              x ∈ Heap.reach h r1 → x ∈ Heap.reach h r2 → r1 = r2) →
  (∀ r x, r ∈ Heap.record_locs entries → x ∈ Heap.reach h r → memo !! x = None) →
  ∃ entries' memo' h',
    Heap.copy_entries memo entries h = (Ok (entries', memo'), h') ∧
    Heap.copied h h' (Heap.record_locs entries') ∧
    Forall2 (Heap.entry_at h') entries' tqo ∧
    ∀ x, is_Some (memo' !! x) →
         is_Some (memo !! x) ∨
         ∃ r, r ∈ Heap.record_locs entries ∧ x ∈ Heap.reach h r.
Proof.
  induction entries as [|[k rs] entries IH]; intros tqo memo h Hall Hnd Hsep Hmemo.
  - apply Forall2_nil_inv_l in Hall as ->. exists [], memo, h.
    split_and!; [done | apply copied_nil | done | by left].
  - apply Forall2_cons_inv_l in Hall as ([k' os] & tqo' & [Hk Hrs] & Hrest & ->).
    simpl in Hk, Hrs. subst k'. rewrite record_locs_cons in Hnd, Hsep, Hmemo.
    apply NoDup_app in Hnd as (Hnd1 & Hdisj & Hnd2).
    destruct (copy_records_run rs os memo h) as (rs' & memo1 & h1 & Hrun1 & Hcop1 & Hrec1
                                                 & Hmemo1); [done..| | |].
    { intros r1 r2 x Hr1 Hr2. apply Hsep; apply elem_of_app; by left. }
    { intros r x Hr. apply Hmemo. apply elem_of_app. by left. }
    pose proof Hcop1 as [Hext1 _].
    assert (∀ r0, r0 ∈ Heap.record_locs entries → Heap.reach h1 r0 = Heap.reach h r0)
      as Hreach.
    { intros r0 (k0 & rs0 & Hin & Hr0)%elem_of_record_locs.
      apply list_elem_of_lookup in Hin as [i Hi].
      destruct (Forall2_lookup_l _ _ _ _ _ Hrest Hi) as ([k1 os1] & _ & _ & Hrs0).
      destruct (records_at_elem h rs0 os1 r0 Hrs0 Hr0) as [o0 Ho0].
      by destruct (record_at_extend h h1 r0 o0 Hext1 Ho0). }
    destruct (IH tqo' memo1 h1) as (entries' & memo' & h' & Hrun & Hcop & Hrecs & Hmemo').
    { eapply Forall2_impl; [exact Hrest|]. intros [k1 rs1] [k2 os2] [? ?].
      split; [done|]. by apply (records_at_extend h). }
    { done. }
    { intros r1 r2 x Hr1 Hr2. rewrite (Hreach r1 Hr1), (Hreach r2 Hr2).
      apply Hsep; apply elem_of_app; by right. }
    { intros r0 x Hr0. rewrite (Hreach r0 Hr0). intros Hx.
      apply eq_None_not_Some. intros [Hold|(r & Hr & Hnew)]%Hmemo1.
      - rewrite (Hmemo r0 x) in Hold; [by destruct Hold | | done].
        apply elem_of_app. by right.
      - apply (Hdisj r Hr). rewrite (Hsep r r0 x); [done | | | done..];
          apply elem_of_app; [by left | by right]. }
    pose proof Hcop as [Hext _].
    exists ((k, rs') :: entries'), memo', h'. split_and!.
    + cbn [Heap.copy_entries]. rewrite (bind_run _ _ _ _ _ Hrun1).
      cbn beta iota. by rewrite (bind_run _ _ _ _ _ Hrun).
    + rewrite record_locs_cons. by apply (copied_app h h1 h').
    + constructor; [|done]. split; [done|]. by apply (records_at_extend h1).
    + intros x [Hx|(r0 & Hr0 & Hx)]%Hmemo'.
      * destruct (Hmemo1 x Hx) as [?|(r & Hr & ?)]; [by left|]. right. exists r.
        split; [|done]. apply elem_of_app. by left.
      * right. exists r0. split; [apply elem_of_app; by right|].
        by rewrite <-(Hreach r0 Hr0).
Qed.

(** The copy of a table without shared objects is such a table, with the
    same value, made of objects the store did not have; the objects the
    store had are as they were. *)
Lemma deepcopy_run h l tqo :
  Heap.table_at h l tqo → Heap.unshared h l →
  ∃ l' h',
    Heap.deepcopy l h = (Ok l', h') ∧
    Heap.table_at h' l' tqo ∧ Heap.unshared h' l' ∧
    h !! l' = None ∧ ∀ x, is_Some (h !! x) → h' !! x = h !! x.
Proof.
  intros (entries & Hl & Hall) (entries0 & Hl0 & Hnd & Hsep).
  assert (entries0 = entries) as -> by congruence.
  destruct (copy_entries_run entries tqo ∅ h Hall Hnd Hsep)
    as (entries' & memo' & h1 & Hrun & Hcop & Hrecs & _); [done|].
  destruct Hcop as (Hext & Hnd' & Hrec' & Hfresh & Hsep').
  set (l' := fresh (dom h1)). set (h' := <[l' := Heap.OTable entries']> h1).
  assert (h1 !! l' = None) as Hl' by apply fresh_lookup.
  assert (∀ x, is_Some (h1 !! x) → h' !! x = h1 !! x) as Hext'.
  { intros x Hx. unfold h'. rewrite lookup_insert_ne; [done|].
    intros <-. rewrite Hl' in Hx. by destruct Hx. }
  exists l', h'. split_and!.
  - unfold Heap.deepcopy. rewrite (bind_run _ _ _ _ _ (get_table_run _ _ _ Hl)).
    by rewrite (bind_run _ _ _ _ _ Hrun).
  - exists entries'. split; [apply lookup_insert_eq|].
    eapply Forall2_impl; [exact Hrecs|]. intros [k1 rs1] [k2 os2] [? ?].
    split; [done|]. by apply (records_at_extend h1).
  - exists entries'. split; [apply lookup_insert_eq|]. split; [done|].
    assert (∀ r, r ∈ Heap.record_locs entries' → Heap.reach h' r = Heap.reach h1 r)
      as Hreach.
    { intros r Hr. destruct (Hrec' r Hr) as [o Ho].
      by destruct (record_at_extend h1 h' r o Hext' Ho). }
    intros r1 r2 x Hr1 Hr2. rewrite (Hreach r1 Hr1), (Hreach r2 Hr2). by apply Hsep'.
  - destruct (h !! l') as [y|] eqn:Hy; [|done].
    rewrite <-Hext in Hy by (by rewrite Hy). congruence.
  - intros x Hx. rewrite Hext'; [by apply Hext|]. by rewrite Hext.
Qed.

(** ** The entry point *)

Lemma table_at_nil h l tqo entries :
  h !! l = Some (Heap.OTable entries) → Heap.table_at h l tqo →
  bool_decide (entries ≠ []) = bool_decide (tqo ≠ []).
Proof.
  intros Hl (entries' & Hl' & Hall). assert (entries' = entries) as -> by congruence.
  destruct Hall; [|done]. by rewrite !bool_decide_eq_false_2 by (by intros []).
Qed.

Lemma get_qnn_qdq_config_refines {Reader Method : Type} (model : GraphProto)
    (reader : Reader) (method : Method) act w h init table add per_channel :
  Heap.init_at h init table →
  match get_qnn_qdq_config model reader method act w table add per_channel with
  | Ok cfg =>
      ∃ cfg' h',
        Heap.get_qnn_qdq_config model reader method act w init add per_channel h
          = (Ok cfg', h') ∧
        Heap.table_at h' (TensorQuantOverrides (cfg_extra_options cfg'))
          (TensorQuantOverrides (cfg_extra_options cfg)) ∧
        Heap.unshared h' (TensorQuantOverrides (cfg_extra_options cfg'))
  | Raise e =>
      ∃ h', Heap.get_qnn_qdq_config model reader method act w init add per_channel h
            = (Raise e, h')
  end.
Proof.
  intros Hinit. unfold Heap.get_qnn_qdq_config, get_qnn_qdq_config.
  destruct per_channel; [by eexists|].
  destruct (for_each index_node (node model) (∅, ∅, ∅))
    as [[[op_types consumers] producers]|e] eqn:Hindex; cbn [mbind result_bind];
    [|rewrite (bind_run_raise _ _ h e h) by done; by eexists].
  rewrite (bind_run _ _ h (op_types, consumers, producers) h) by done.
  cbn beta iota.
  assert (∃ l' h1,
    match init with
    | None => Heap.alloc (Heap.OTable [])
    | Some l =>
        entries ← Heap.get_table l;
        if bool_decide (entries ≠ []) then Heap.deepcopy l
        else Heap.alloc (Heap.OTable [])
    end h = (Ok l', h1) ∧
    Heap.table_at h1 l' (default [] table) ∧ Heap.unshared h1 l')
    as (l' & h1 & Hcopy & Htable1 & Hunshared1).
  { assert (Heap.table_at (<[fresh (dom h) := Heap.OTable []]> h) (fresh (dom h)) [] ∧
            Heap.unshared (<[fresh (dom h) := Heap.OTable []]> h) (fresh (dom h)))
      as [Hempty1 Hempty2].
    { split.
      - exists []. split; [apply lookup_insert_eq | constructor].
      - exists []. split; [apply lookup_insert_eq|]. split; [constructor|].
        intros r1 r2 x Hr1. by apply elem_of_nil in Hr1. }
    destruct init as [l|], table as [table|]; try done.
    - destruct Hinit as [Htable Hunshared]. pose proof Htable as (entries & Hl & Hall).
      rewrite (bind_run _ _ _ _ _ (get_table_run _ _ _ Hl)).
      rewrite (table_at_nil h l table entries Hl Htable).
      destruct table as [|item table].
      + rewrite bool_decide_eq_false_2 by (by intros []). by eexists _, _.
      + rewrite bool_decide_eq_true_2 by done.
        destruct (deepcopy_run h l _ Htable Hunshared) as (l' & h1 & ? & ? & ? & _).
        by exists l', h1.
    - by eexists _, _. }
  rewrite (bind_run _ _ _ _ _ Hcopy).
  pose proof Htable1 as (entries1 & Hl1 & _).
  rewrite (bind_run _ _ _ _ _ (get_table_run _ _ _ Hl1)).
  rewrite (table_at_nil h1 l' _ entries1 Hl1 Htable1).
  set (tqo := default [] table) in *.
  assert (Heap.refines h1 l'
            (if bool_decide (tqo ≠ []) && add
             then Heap._add_qtype_converts l' act (graph_value_infos model)
                    (graph_initializers model) producers consumers
             else mret ())
            (if bool_decide (tqo ≠ []) && add
             then _add_qtype_converts tqo act (graph_value_infos model)
                    (graph_initializers model) producers consumers
             else Ok tqo)) as Hresolve.
  { destruct (_ && _); [by apply add_qtype_converts_refines | by apply refines_ret]. }
  unfold Heap.refines in Hresolve.
  destruct (if bool_decide (tqo ≠ []) && add then _ else _) as [tqo1|e];
    cbn [mbind result_bind].
  - destruct Hresolve as (h2 & Hrun2 & Htable2 & Hunshared2).
    rewrite (bind_run _ _ _ _ _ Hrun2).
    pose proof (policy_loop_refines h2 l' tqo1 act w (graph_initializers model)
                  (node model) Htable2 Hunshared2) as Hpolicy.
    unfold Heap.refines in Hpolicy.
    destruct (for_each _ (node model) tqo1) as [tqo2|e]; cbn [mbind result_bind].
    + destruct Hpolicy as (h3 & Hrun3 & Htable3 & Hunshared3).
      rewrite (bind_run _ _ _ _ _ Hrun3). by eexists _, h3.
    + destruct Hpolicy as (h3 & Hrun3).
      rewrite (bind_run_raise _ _ _ _ _ Hrun3). by eexists.
  - destruct Hresolve as (h2 & Hrun2).
    rewrite (bind_run_raise _ _ _ _ _ Hrun2). by eexists.
Qed.

(** ** From a run on the store to the run on values *)

Lemma refines_Ok h l (m : Heap.M unit) (v : result Overrides) h' :
  Heap.refines h l m v → m h = (Ok (), h') →
  ∃ tqo', v = Ok tqo' ∧ Heap.table_at h' l tqo' ∧ Heap.unshared h' l.
Proof.
  unfold Heap.refines. destruct v as [tqo'|e].
  - intros (h1 & Hrun & Htable & Hunshared) Hrun'. exists tqo'.
    rewrite Hrun in Hrun'. by injection Hrun' as <-.
  - intros (h1 & Hrun) Hrun'. by rewrite Hrun in Hrun'.
Qed.

Lemma refines_Raise h l (m : Heap.M unit) (v : result Overrides) e h' :
  Heap.refines h l m v → m h = (Raise e, h') → v = Raise e.
Proof.
  unfold Heap.refines. destruct v as [tqo'|e'].
  - intros (h1 & Hrun & _) Hrun'. by rewrite Hrun in Hrun'.
  - intros (h1 & Hrun) Hrun'. rewrite Hrun in Hrun'. by injection Hrun' as <-.
Qed.

Lemma table_at_keys h l tqo entries :
  h !! l = Some (Heap.OTable entries) → Heap.table_at h l tqo →
  dict_keys entries = dict_keys tqo.
Proof.
  intros Hl (entries' & Hl' & Hall). assert (entries' = entries) as -> by congruence.
  clear Hl Hl'. unfold dict_keys.
  induction Hall as [|[k rs] [k' os] ? ? [Hk _] _ IH]; [done|].
  rewrite !fmap_cons. simpl in Hk. simpl. congruence.
Qed.

(** *** A table that can be read is a table of the store *)

Lemma map_each_Ok {A B : Type} (f : A → Heap.M B) (P : A → B → Prop) h :
  (∀ x y h', f x h = (Ok y, h') → h' = h ∧ P x y) →
  ∀ xs ys h', Heap.map_each f xs h = (Ok ys, h') → h' = h ∧ Forall2 P xs ys.
Proof.
  intros Hf. induction xs as [|x xs IH]; intros ys h'; cbn [Heap.map_each].
  - intros [= <- <-]. by split.
  - unfold mbind, Heap.M_bind. destruct (f x h) as [[y|e] h1] eqn:Hx; [|done].
    destruct (Hf x y h1 Hx) as [-> Hy].
    destruct (Heap.map_each f xs h) as [[ys'|e] h2] eqn:Hxs; [|done].
    destruct (IH ys' h2 eq_refl) as [-> Hys]. intros [= <- <-]. split; [done|].
    by constructor.
Qed.

Lemma snapshot_record_Ok h r o h' :
  Heap.snapshot_record r h = (Ok o, h') → h' = h ∧ Heap.record_at h r o.
Proof.
  unfold Heap.snapshot_record, Heap.snapshot_convert, Heap.get_record,
    Heap.get_convert, Heap.get_set, mbind, Heap.M_bind, Heap.record_at, Heap.convert_at.
  destruct (h !! r) as [[|fields| |]|] eqn:Hr; try done.
  destruct fields as [q sy sc zp rr mi ma [c|]]; simpl.
  - destruct (h !! c) as [[| |qc [s|]|]|] eqn:Hc; try done.
    + destruct (h !! s) as [[| | |names]|] eqn:Hs; try done.
      intros [= <- <-]. simpl. split; [done|]. exists c. split; [done|]. by exists s.
    + intros [= <- <-]. simpl. split; [done|]. by exists c.
  - by intros [= <- <-].
Qed.

Lemma snapshot_Ok h l tqo h' :
  Heap.snapshot l h = (Ok tqo, h') → h' = h ∧ Heap.table_at h l tqo.
Proof.
  unfold Heap.snapshot, Heap.get_table, mbind at 1, Heap.M_bind at 1.
  destruct (h !! l) as [[entries| | |]|] eqn:Hl; try done.
  intros Hrun.
  apply (map_each_Ok _ (Heap.entry_at h)) in Hrun as [-> Hall].
  - split; [done|]. by exists entries.
  - intros [k rs] [k' os] h1. unfold mbind, Heap.M_bind.
    destruct (Heap.map_each Heap.snapshot_record rs h) as [[os'|e] h2] eqn:Hrs; [|done].
    apply (map_each_Ok _ (Heap.record_at h)) in Hrs as [-> Hrs].
    + intros [= <- <- <-]. by split.
    + intros. by apply snapshot_record_Ok.
Qed.

(** *** A sufficient condition that can be computed *)

Lemma reach_lists_NoDup h (rs : list Heap.loc) :
  NoDup (mjoin (Heap.reach h <$> rs)) →
  NoDup rs ∧
  ∀ r1 r2 x, r1 ∈ rs → r2 ∈ rs → x ∈ Heap.reach h r1 → x ∈ Heap.reach h r2 → r1 = r2.
Proof.
  induction rs as [|r rs IH].
  - intros _. split; [constructor|]. intros r1 r2 x Hr1. by apply elem_of_nil in Hr1.
  - change (mjoin (Heap.reach h <$> r :: rs))
      with (Heap.reach h r ++ mjoin (Heap.reach h <$> rs))%list.
    intros (Hnd1 & Hdisj & Hnd2)%NoDup_app. destruct (IH Hnd2) as [Hnd Hsep].
    assert (∀ r0 x, r0 ∈ rs → x ∈ Heap.reach h r → x ∈ Heap.reach h r0 → False)
      as Hhead.
    { intros r0 x Hr0 Hx Hx0. apply (Hdisj x Hx). apply list_elem_of_join.
      exists (Heap.reach h r0). split; [done|]. apply list_elem_of_fmap. by exists r0. }
    split.
    + apply NoDup_cons. split; [|done]. intros Hr.
      apply (Hhead r r Hr); apply reach_self.
    + intros r1 r2 x [->|Hr1]%elem_of_cons [->|Hr2]%elem_of_cons Hx1 Hx2; try done.
      * by destruct (Hhead r2 x).
      * by destruct (Hhead r1 x).
      * by apply (Hsep r1 r2 x).
Qed.

Lemma unshared_intro h l entries :
  h !! l = Some (Heap.OTable entries) →
  NoDup (mjoin (Heap.reach h <$> Heap.record_locs entries)) →
  Heap.unshared h l.
Proof.
  intros Hl [Hnd Hsep]%reach_lists_NoDup. by exists entries.
Qed.

(** *** The entry point *)

Lemma get_qnn_qdq_config_Ok_on_store {Reader Method : Type} (model : GraphProto)
    (reader : Reader) (method : Method) act w h init table add per_channel cfg' h' :
  Heap.init_at h init table →
  Heap.get_qnn_qdq_config model reader method act w init add per_channel h
    = (Ok cfg', h') →
  ∃ cfg,
    get_qnn_qdq_config model reader method act w table add per_channel = Ok cfg ∧
    Heap.table_at h' (TensorQuantOverrides (cfg_extra_options cfg'))
      (TensorQuantOverrides (cfg_extra_options cfg)) ∧
    Heap.unshared h' (TensorQuantOverrides (cfg_extra_options cfg')).
Proof.
  intros Hinit Hrun.
  pose proof (get_qnn_qdq_config_refines model reader method act w h init table add
                per_channel Hinit) as Href.
  destruct (get_qnn_qdq_config model reader method act w table add per_channel)
    as [cfg|e].
  - destruct Href as (cfg1 & h1 & Hrun1 & Htable1 & Hunshared1).
    rewrite Hrun in Hrun1. injection Hrun1 as <- <-. by exists cfg.
  - destruct Href as (h1 & Hrun1). by rewrite Hrun in Hrun1.
Qed.

Lemma get_qnn_qdq_config_Raise_on_store {Reader Method : Type} (model : GraphProto)
    (reader : Reader) (method : Method) act w h init table add per_channel e h' :
  Heap.init_at h init table →
  Heap.get_qnn_qdq_config model reader method act w init add per_channel h
    = (Raise e, h') →
  get_qnn_qdq_config model reader method act w table add per_channel = Raise e.
Proof.
  intros Hinit Hrun.
  pose proof (get_qnn_qdq_config_refines model reader method act w h init table add
                per_channel Hinit) as Href.
  destruct (get_qnn_qdq_config model reader method act w table add per_channel)
    as [cfg|e'].
  - destruct Href as (cfg1 & h1 & Hrun1 & _). by rewrite Hrun in Hrun1.
  - destruct Href as (h1 & Hrun1). rewrite Hrun in Hrun1. by injection Hrun1 as <-.
Qed.

Lemma table_at_intro h l tqo :
  Heap.snapshot l h = (Ok tqo, h) → Heap.table_at h l tqo.
Proof. by intros [_ ?]%snapshot_Ok. Qed.
End unshared_tables.

(** ** Resolution of the requests on a table without shared objects (C3, C1) *)







(** ** LayerNormalization weight promotion on a table without shared objects (C6) *)

(** When [gamma] and [beta] hold the same record object, the promotion of
    [gamma], the input in position 1, shows in the entry of [beta], the
    input in position 2. *)
Lemma shared_record_promotes_the_bias :
  Heap.snapshot 0 Ex.layernorm_shared_heap
    = (Ok Ex.layernorm_shared_tqo, Ex.layernorm_shared_heap) ∧
  input Ex.layernorm = ["x"; "gamma"; "beta"] ∧
  ∃ h' tqo',
    Heap.apply_policy QUInt8 QUInt8 Ex.layernorm_inits 0 Ex.layernorm
      Ex.layernorm_shared_heap = (Ok (), h') ∧
    Heap.snapshot 0 h' = (Ok tqo', h') ∧
    dict_get "beta" tqo' =
      Some [set_symmetric false (set_quant_type QUInt8 Ex.reduced)].
Proof.
  split; [by vm_compute|]. split; [done|].
  eexists _, _. split; [vm_compute; reflexivity|]. split; [vm_compute; reflexivity|].
  by vm_compute.
Qed.

(** C6, as amended. Let the table hold no object twice. For a
    LayerNormalization node with an 8-bit weight type and some
    non-initializer input whose effective type at this node is 16-bit, the
    policy step looks at the inputs in positions 0 and 1 only: each of the
    two that is an initializer gets [quant_type = weight_type] and
    [symmetric = (weight_type = QInt8)] written on its record unless the
    record already has one of these keys, and the entry of every other
    tensor, the input in position 2 (the bias) included, is left as it was.
    The step succeeds whenever the two entries hold at most one record. *)
Theorem layernorm_promotes_initializers_among_first_two_inputs_unshared :
  ∀ (h : Heap.heap) (tqo_ref : Heap.loc) (tqo : Overrides)
    (activation_type weight_type : QuantType)
    (name_to_initializer : gmap string TensorProto)
    (n : NodeProto) (i0 i1 : string) (others : list string),
    Heap.table_at h tqo_ref tqo → Heap.unshared h tqo_ref →
    op_type n = "LayerNormalization" →
    Q8_TYPES weight_type = true →
    input n = i0 :: i1 :: others →
    (∃ x, x ∈ input n ∧ name_to_initializer !! x = None ∧
          Q16_TYPES (_get_input_activation_qtype tqo x (name n) activation_type)
          = true) →
    (∀ i l, i ∈ [i0; i1] → is_Some (name_to_initializer !! i) →
            dict_get i tqo = Some l → (length l ≤ 1)%nat) →
    ∃ h' tqo',
      Heap.apply_policy activation_type weight_type name_to_initializer tqo_ref n h
        = (Ok (), h') ∧
      Heap.table_at h' tqo_ref tqo' ∧ Heap.unshared h' tqo_ref ∧
      ∀ t, dict_get t tqo' =
           if bool_decide (t ∈ [i0; i1] ∧ is_Some (name_to_initializer !! t))
           then Some [promoted weight_type (bool_decide (weight_type = QInt8))
                        (entry_record tqo t)]
           else dict_get t tqo.
Proof.
  intros h l tqo act wt inits n i0 i1 others Htable Hunshared Hop Hnarrow Hin Hx Hlen.
  destruct (layernorm_promotes_initializers_among_first_two_inputs act wt inits tqo n
              i0 i1 others Hop Hnarrow Hin Hx Hlen) as (tqo' & Hrun & Hget).
  pose proof (apply_policy_refines h l tqo act wt inits n Htable Hunshared) as Href.
  unfold Heap.refines in Href. rewrite Hrun in Href.
  destruct Href as (h' & Hrun' & Htable' & Hunshared'). by exists h', tqo'.
Qed.

Lemma layernorm_promotes_initializers_among_first_two_inputs_unshared_witness :
  ∃ h' (tqo' : Overrides),
    Heap.apply_policy QUInt8 QUInt8 Ex.layernorm_inits 0 Ex.layernorm Ex.layernorm_heap
      = (Ok (), h') ∧
    Heap.table_at h' 0 tqo' ∧ Heap.unshared h' 0 ∧
    ∀ t, dict_get t tqo' =
         if bool_decide (t ∈ ["x"; "gamma"] ∧ is_Some (Ex.layernorm_inits !! t))
         then Some [promoted QUInt8 (bool_decide (QUInt8 = QInt8))
                      (entry_record Ex.layernorm_tqo t)]
         else dict_get t Ex.layernorm_tqo.
Proof.
  apply (layernorm_promotes_initializers_among_first_two_inputs_unshared
           Ex.layernorm_heap 0 Ex.layernorm_tqo QUInt8 QUInt8 Ex.layernorm_inits
           Ex.layernorm "x" "gamma" ["beta"]).
  - apply table_at_intro. vm_compute. reflexivity.
  - apply (unshared_intro _ _ [("x", [1])]); [reflexivity|].
    vm_compute. by apply (bool_decide_unpack _).
  - reflexivity.
  - reflexivity.
  - reflexivity.
  - exists "x". split; [by left | split; reflexivity].
  - intros i l Hi _. apply elem_of_cons in Hi as [->|Hi].
    + intros [= <-]. simpl. lia.
    + apply elem_of_cons in Hi as [->|Hi]; [discriminate | by apply elem_of_nil in Hi].
Defined.

(** ** The properties of runs, on a table without shared objects *)

(** X16. After a successful resolution on a table with unique keys that
    holds no object twice, a node reads each of its inputs at the type it
    asked for: if the node produces a tensor whose entry makes the scan
    record requests at type [q], and [x] is one of its inputs that receive
    a request, then [_get_input_activation_qtype] gives [q] for [x] and
    that node - provided that the caller's entry for [x] does not hold a
    [convert] without [recv_nodes] to another type than [q]. *)
Theorem requesting_node_reads_the_requested_type_unshared :
  ∀ (h h' : Heap.heap) (tqo_ref : Heap.loc) (tqo : Overrides)
    (activation_type : QuantType)
    (value_infos : gmap string ValueInfoProto)
    (name_to_initializer : gmap string TensorProto)
    (producers : gmap string NodeProto) (consumers : gmap string (list NodeProto))
    (nd : NodeProto) (x : string) (q : QuantType),
    Heap.table_at h tqo_ref tqo → Heap.unshared h tqo_ref →
    NoDup (dict_keys tqo) →
    Heap._add_qtype_converts tqo_ref activation_type value_infos name_to_initializer
      producers consumers h = (Ok (), h') →
    node_requests_input tqo activation_type value_infos name_to_initializer producers
      nd x q →
    (∀ o rest cd, dict_get x tqo = Some (o :: rest) → convert o = Some cd →
                  recv_nodes cd = None → convert_quant_type cd = q) →
    ∃ tqo',
      Heap.table_at h' tqo_ref tqo' ∧
      _get_input_activation_qtype tqo' x (name nd) activation_type = q.
Proof.
  intros h h' l tqo act infos inits prods cons nd x q Htable Hunshared Hnd Hrun Hreq Hall.
  destruct (refines_Ok _ _ _ _ _
              (add_qtype_converts_refines h l tqo act infos inits prods cons
                 Htable Hunshared) Hrun) as (tqo' & Hrun' & Htable' & _).
  exists tqo'. split; [done|].
  by apply (requesting_node_reads_the_requested_type tqo tqo' act infos inits prods cons).
Qed.

Lemma requesting_node_reads_the_requested_type_unshared_witness :
  ∃ tqo' : Overrides,
    Heap.table_at
      (Heap._add_qtype_converts 0 QUInt8 Ex.chain_infos ∅ Ex.chain_producers
         Ex.chain_consumers Ex.caller_heap).2 0 tqo' ∧
    _get_input_activation_qtype tqo' "X" (name Ex.P) QUInt8 = QInt16.
Proof.
  eapply (requesting_node_reads_the_requested_type_unshared Ex.caller_heap _ 0
            Ex.scenario_c_tqo QUInt8 Ex.chain_infos ∅ Ex.chain_producers
            Ex.chain_consumers Ex.P "X" QInt16).
  - apply table_at_intro. vm_compute. reflexivity.
  - apply (unshared_intro _ _ [("X", [1]); ("Y", [2])]); [reflexivity|].
    vm_compute. by apply (bool_decide_unpack _).
  - compute_done.
  - vm_compute. reflexivity.
  - exists "Y". split_and!; [|done|by left|done].
    exists (Ex.with_type QInt16). split_and!; try done. right. by left.
  - intros o rest cd [= <- <-]. done.
Defined.

(** X20. With overrides whose keys are unique and that hold no object
    twice, the function raises one of these and nothing else: the
    [ValueError] for [per_channel]; an [AssertionError] of the indexing
    loop or of [_add_to_convert_recv_nodes]; the [ValueError] of the
    consumer conflict, of the convert conflict, or for an entry with
    several records; an [IndexError]; or a [KeyError], which then names a
    tensor with a single-record override that is quantizable, not an
    initializer, and produced by no node of the graph. It never raises
    [TypeError], and the assertion of line 228 is never the one that
    fails. *)
Theorem configuration_raises_only_these_unshared :
  ∀ {Reader Method : Type} (model : GraphProto) (reader : Reader) (method : Method)
    (activation_type weight_type : QuantType)
    (h h' : Heap.heap) (init_overrides : option Heap.loc) (table : option Overrides)
    (add_qtype_converts per_channel : bool) (e : Error),
    Heap.init_at h init_overrides table →
    NoDup (dict_keys (default [] table)) →
    Heap.get_qnn_qdq_config model reader method activation_type weight_type
      init_overrides add_qtype_converts per_channel h = (Raise e, h') →
    (per_channel = true ∧
     e = ValueError "QNN EP does not yet support per-channel quantization.") ∨
    (∃ msg, e = AssertionError msg ∧
            msg ∈ ["Node output name cannot be empty";
                   "Tensor can only be generated by a single node";
                   "Consumer type doesn't match convert type"]) ∨
    (∃ k o, e = KeyError k ∧ (k, [o]) ∈ default [] table ∧
            _is_tensor_quantizable k (graph_value_infos model) (graph_initializers model)
              = true ∧
            graph_initializers model !! k = None ∧
            k ∉ graph_outputs (node model)) ∨
    (∃ x, e = ValueError (different_types_msg x)) ∨
    e = ValueError convert_conflict_msg ∨ e = ValueError per_tensor_msg ∨
    e = IndexError.
Proof.
  intros R M model reader method act wt h h' init table add per_channel e
    Hinit Hnd Hrun.
  apply (get_qnn_qdq_config_Raise_on_store _ _ _ _ _ _ _ table) in Hrun; [|done].
  by apply (configuration_raises_only_these model reader method act wt table add
              per_channel).
Qed.

Lemma configuration_raises_only_these_unshared_witness :
  ∃ k o, KeyError "in" = KeyError k ∧ (k, [o]) ∈ Ex.input_then_conflict_tqo ∧
         k ∉ graph_outputs (node Ex.chain).
Proof.
  destruct (configuration_raises_only_these_unshared Ex.chain tt tt QUInt8 QUInt8
              (Heap.store_table Ex.input_then_conflict_tqo ∅).2
              (Heap.get_qnn_qdq_config Ex.chain tt tt QUInt8 QUInt8 (Some 3) true false
                 (Heap.store_table Ex.input_then_conflict_tqo ∅).2).2
              (Some 3) (Some Ex.input_then_conflict_tqo) true false (KeyError "in"))
    as [[? _]|[(msg & ? & _)|[(k & o & Hk & Hin & _ & _ & Hout)|[[x ?]|[?|[?|?]]]]]];
    try discriminate.
  - split.
    + apply table_at_intro. vm_compute. reflexivity.
    + apply (unshared_intro _ _ [("in", [0]); ("Y", [1]); ("Z", [2])]);
        [vm_compute; reflexivity|].
      vm_compute. by apply (bool_decide_unpack _).
  - compute_done.
  - vm_compute. reflexivity.
  - by exists k, o.
Defined.

(** X25. The saturating outputs in the returned configuration. Let the
    overrides have unique keys and hold no object twice, and let a
    configuration be returned. For every Sigmoid or Tanh node of the graph
    whose first output is not an initializer, has a 16-bit effective type
    in the caller's overrides and none of the range-related keys there,
    the record of that output in the returned table has the type, and
    scale and zero point pinned: Sigmoid/QUInt16 to 1/65536 and 0,
    Sigmoid/QInt16 to 1/32768 and 0, Tanh/QUInt16 to 1/32768 and 32768,
    Tanh/QInt16 to 1/32768 and 0 - whatever the resolver and the rules of
    the other nodes have done. *)
Theorem saturating_outputs_are_pinned_in_the_configuration_unshared :
  ∀ {Reader Method : Type} (model : GraphProto) (reader : Reader) (method : Method)
    (activation_type weight_type : QuantType)
    (h h' : Heap.heap) (init_overrides : option Heap.loc) (table : option Overrides)
    (add_qtype_converts per_channel : bool)
    (cfg : StaticQuantConfig Reader Method Heap.loc)
    (n : NodeProto) (out op : string) (T : QuantType) (sc : Q) (zp : Z),
    Heap.init_at h init_overrides table →
    NoDup (dict_keys (default [] table)) →
    Heap.get_qnn_qdq_config model reader method activation_type weight_type
      init_overrides add_qtype_converts per_channel h = (Ok cfg, h') →
    n ∈ node model →
    (op, T, sc, zp) ∈ [("Sigmoid", QUInt16, 1 # 65536, 0%Z);
                       ("Sigmoid", QInt16, 1 # 32768, 0%Z);
                       ("Tanh", QUInt16, 1 # 32768, 32768%Z);
                       ("Tanh", QInt16, 1 # 32768, 0%Z)] →
    op_type n = op → head (output n) = Some out →
    graph_initializers model !! out = None →
    _get_output_activation_qtype out (default [] table) activation_type = Ok T →
    range_keys_present (entry_record (default [] table) out) = false →
    ∃ (tqo' : Overrides) o',
      Heap.table_at h' (TensorQuantOverrides (cfg_extra_options cfg)) tqo' ∧
      dict_get out tqo' = Some [o'] ∧
      quant_type o' = Some T ∧ scale o' = Some sc ∧ zero_point o' = Some zp.
Proof.
  intros R M model reader method act wt h h' init table add per_channel cfg n out op
    T sc zp Hinit Hnd Hrun Hn Hcase Hop Hout Hnoinit Hty Hrange.
  destruct (get_qnn_qdq_config_Ok_on_store _ _ _ _ _ _ _ table _ _ _ _ Hinit Hrun)
    as (cfg0 & Hrun0 & Htable' & _).
  destruct (saturating_outputs_are_pinned_in_the_configuration model reader method act
              wt table add per_channel cfg0 n out op T sc zp Hnd Hrun0 Hn Hcase Hop Hout
              Hnoinit Hty Hrange) as (o' & ?).
  by exists (TensorQuantOverrides (cfg_extra_options cfg0)), o'.
Qed.

Lemma saturating_outputs_are_pinned_in_the_configuration_unshared_witness :
  ∃ (tqo' : Overrides) o',
    Heap.table_at
      (Heap.get_qnn_qdq_config Ex.mlp tt tt QUInt8 QInt8 (Some 0) true false
         Ex.mlp_heap).2 5 tqo' ∧
    dict_get "s" tqo' = Some [o'] ∧
    quant_type o' = Some QUInt16 ∧ scale o' = Some (1 # 65536) ∧
    zero_point o' = Some 0%Z.
Proof.
  eapply (saturating_outputs_are_pinned_in_the_configuration_unshared Ex.mlp tt tt
            QUInt8 QInt8 Ex.mlp_heap _ (Some 0) (Some Ex.mlp_tqo) true false
            {| cfg_calibration_data_reader := tt; cfg_calibrate_method := tt;
               cfg_activation_type := QUInt8; cfg_weight_type := QInt8;
               cfg_op_types_to_quantize := {["Relu"; "MatMul"; "Sigmoid"]};
               cfg_extra_options :=
                 {| MinimumRealRange := 1 # 10000; DedicatedQDQPair := false;
                    TensorQuantOverrides := 5; UseQDQContribOps := None |} |}
            {| op_type := "Sigmoid"; name := "sig"; input := ["O"]; output := ["s"] |}
            "s" "Sigmoid" QUInt16 (1 # 65536) 0%Z).
  - split.
    + apply table_at_intro. vm_compute. reflexivity.
    + apply (unshared_intro _ _ [("A", [1]); ("s", [2])]); [reflexivity|].
      vm_compute. by apply (bool_decide_unpack _).
  - compute_done.
  - vm_compute. reflexivity.
  - do 2 right. by left.
  - by left.
  - reflexivity.
  - reflexivity.
  - reflexivity.
  - reflexivity.
  - reflexivity.
Defined.

(** X26. On a table that holds no object twice, the policy loop does not
    change the type at which a node reads an input that is not an
    initializer: the rules write [quant_type] on initializers, or on an
    output the type it already has, and never write [convert]. So the test
    of the MatMul and LayerNormalization rules for a 16-bit input gives the
    same answer at every point of the loop. *)
Theorem policy_keeps_the_types_read_for_activations_unshared :
  ∀ (h h' : Heap.heap) (tqo_ref : Heap.loc) (tqo : Overrides)
    (activation_type weight_type : QuantType)
    (name_to_initializer : gmap string TensorProto) (nodes : list NodeProto)
    (input_name node_name : string),
    Heap.table_at h tqo_ref tqo → Heap.unshared h tqo_ref →
    Heap.iter (Heap.apply_policy activation_type weight_type name_to_initializer tqo_ref)
      nodes h = (Ok (), h') →
    name_to_initializer !! input_name = None →
    ∃ tqo',
      Heap.table_at h' tqo_ref tqo' ∧
      _get_input_activation_qtype tqo' input_name node_name activation_type
      = _get_input_activation_qtype tqo input_name node_name activation_type.
Proof.
  intros h h' l tqo act wt inits nodes x m Htable Hunshared Hrun Hx.
  destruct (refines_Ok _ _ _ _ _
              (policy_loop_refines h l tqo act wt inits nodes Htable Hunshared) Hrun)
    as (tqo' & Hrun' & Htable' & _).
  exists tqo'. split; [done|]. by apply (policy_loop_reads act wt inits nodes).
Qed.

Lemma policy_keeps_the_types_read_for_activations_unshared_witness :
  ∃ tqo' : Overrides,
    Heap.table_at
      (Heap.iter (Heap.apply_policy QUInt8 QInt8 (graph_initializers Ex.mlp) 0)
         (node Ex.mlp) Ex.mlp_heap).2 0 tqo' ∧
    _get_input_activation_qtype tqo' "s" "next" QUInt8
    = _get_input_activation_qtype Ex.mlp_tqo "s" "next" QUInt8.
Proof.
  eapply (policy_keeps_the_types_read_for_activations_unshared Ex.mlp_heap _ 0
            Ex.mlp_tqo QUInt8 QInt8 (graph_initializers Ex.mlp) (node Ex.mlp)).
  - apply table_at_intro. vm_compute. reflexivity.
  - apply (unshared_intro _ _ [("A", [1]); ("s", [2])]); [reflexivity|].
    vm_compute. by apply (bool_decide_unpack _).
  - vm_compute. reflexivity.
  - vm_compute. reflexivity.
Defined.

(** * The entries of the returned table (C9)

    Which keys the table has does not depend on the objects being shared
    or not: an entry is added by [Heap.ensure_entry] only, for the tensor
    a mutator is called for. *)

Section entries_added.
Context (tqo : Heap.loc) (t : string).
Abbreviation keeps := (Heap.adds_no_entry tqo t).
Abbreviation whatever := (λ _, True).
Abbreviation elsewhere := (λ l : Heap.loc, l ≠ tqo).

Lemma keeps_ret {A : Type} (P : A → Prop) (a : A) : P a → keeps P (mret a).
Proof. intros Ha h Hh. split; [done|]. by intros a' [= <-]. Qed.

Lemma keeps_raise {A : Type} (P : A → Prop) e : keeps P (Heap.raise e).
Proof. by intros h Hh. Qed.

Lemma keeps_lift {A : Type} (r : result A) : keeps whatever (Heap.lift r).
Proof. by intros h Hh. Qed.

Lemma keeps_bind {A B : Type} (Q : A → Prop) (P : B → Prop) (m : Heap.M A)
    (f : A → Heap.M B) :
  keeps Q m → (∀ a, Q a → keeps P (f a)) → keeps P (m ≫= f).
Proof.
  intros Hm Hf h Hh. unfold mbind, Heap.M_bind. destruct (Hm h Hh) as [Hinv Hpost].
  destruct (m h) as [[a|e] h']; simpl in *; [|done].
  by apply Hf; [apply Hpost|].
Qed.

Lemma keeps_weaken {A : Type} (Q P : A → Prop) (m : Heap.M A) :
  keeps Q m → (∀ a, Q a → P a) → keeps P m.
Proof.
  intros Hm HQP h Hh. destruct (Hm h Hh) as [Hinv Hpost]. split; [done|].
  intros a Ha. by apply HQP, Hpost.
Qed.

Lemma keeps_alloc (x : Heap.obj) : keeps elsewhere (Heap.alloc x).
Proof.
  intros h (entries & Hl & Ht). unfold Heap.alloc. simpl.
  assert (fresh (dom h) ≠ tqo) as Hne.
  { intros Heq. pose proof (fresh_lookup h) as Hfresh. rewrite Heq in Hfresh.
    congruence. }
  split.
  - exists entries. by rewrite lookup_insert_ne.
  - by intros a [= <-].
Qed.

Lemma keeps_put l (x : Heap.obj) : l ≠ tqo → keeps whatever (Heap.put l x).
Proof.
  intros Hne h (entries & Hl & Ht). split; [|done].
  exists entries. unfold Heap.put. simpl. by rewrite lookup_insert_ne.
Qed.

Lemma keeps_put_table entries :
  dict_get t entries = None → keeps whatever (Heap.put tqo (Heap.OTable entries)).
Proof.
  intros Ht h _. split; [|done].
  exists entries. unfold Heap.put. simpl. by rewrite lookup_insert_eq.
Qed.

Lemma keeps_get_table :
  keeps (λ entries, dict_get t entries = None) (Heap.get_table tqo).
Proof.
  intros h Hh. pose proof Hh as (entries & Hl & Ht). unfold Heap.get_table.
  rewrite Hl. simpl. split; [done|]. by intros a [= <-].
Qed.

Lemma keeps_get_record l : keeps (λ _, l ≠ tqo) (Heap.get_record l).
Proof.
  intros h Hh. pose proof Hh as (entries & Hl & Ht). unfold Heap.get_record.
  destruct (h !! l) as [[]|] eqn:Hobj; simpl; try done.
  split; [done|]. intros a _ ->. congruence.
Qed.

Lemma keeps_get_convert l : keeps (λ _, l ≠ tqo) (Heap.get_convert l).
Proof.
  intros h Hh. pose proof Hh as (entries & Hl & Ht). unfold Heap.get_convert.
  destruct (h !! l) as [[]|] eqn:Hobj; simpl; try done.
  split; [done|]. intros a _ ->. congruence.
Qed.

Lemma keeps_get_set l : keeps (λ _, l ≠ tqo) (Heap.get_set l).
Proof.
  intros h Hh. pose proof Hh as (entries & Hl & Ht). unfold Heap.get_set.
  destruct (h !! l) as [[]|] eqn:Hobj; simpl; try done.
  split; [done|]. intros a _ ->. congruence.
Qed.

Lemma keeps_iter {A : Type} (body : A → Heap.M unit) (l : list A) :
  (∀ x, x ∈ l → keeps whatever (body x)) → keeps whatever (Heap.iter body l).
Proof.
  induction l as [|x l IH]; intros Hbody; simpl; [by apply keeps_ret|].
  apply (keeps_bind whatever); [apply Hbody; by left|].
  intros _ _. apply IH. intros y Hy. apply Hbody. by right.
Qed.

(** A computation that only reads leaves the store as it was. *)
Lemma keeps_reads {A : Type} (m : Heap.M A) :
  (∀ h, (m h).2 = h) → keeps whatever (m).
Proof. intros Hm h Hh. by rewrite Hm. Qed.

Lemma snapshot_store (l : Heap.loc) h : (Heap.snapshot l h).2 = h.
Proof.
  assert (∀ {A B : Type} (f : A → Heap.M B) (xs : list A),
            (∀ x h, (f x h).2 = h) → ∀ h, (Heap.map_each f xs h).2 = h) as Hmap.
  { intros A B f xs Hf. induction xs as [|x xs IH]; intros h1; [done|].
    cbn [Heap.map_each]. unfold mbind, Heap.M_bind.
    pose proof (Hf x h1) as Hx. destruct (f x h1) as [[y|e] h2]; simpl in Hx; subst h2;
      [|done].
    pose proof (IH h1) as Hxs. by destruct (Heap.map_each f xs h1) as [[ys|e] h2]. }
  unfold Heap.snapshot, Heap.get_table, mbind at 1, Heap.M_bind at 1.
  destruct (h !! l) as [[entries| | |]|]; try done.
  apply Hmap. intros [k rs] h1. unfold mbind, Heap.M_bind.
  assert ((Heap.map_each Heap.snapshot_record rs h1).2 = h1) as Hrs.
  { apply Hmap. intros r h2.
    unfold Heap.snapshot_record, Heap.snapshot_convert, Heap.get_record,
      Heap.get_convert, Heap.get_set, mbind, Heap.M_bind.
    destruct (h2 !! r) as [[|fields| |]|]; try done.
    destruct (convert fields) as [c|]; [|done].
    destruct (h2 !! c) as [[| |q [s|]|]|]; try done.
    by destruct (h2 !! s) as [[| | |names]|]. }
  by destruct (Heap.map_each Heap.snapshot_record rs h1) as [[os|e] h2].
Qed.

Lemma keeps_get_output_activation_qtype k act :
  keeps whatever (Heap._get_output_activation_qtype k tqo act).
Proof.
  apply keeps_reads. intros h. unfold Heap._get_output_activation_qtype, mbind, Heap.M_bind.
  pose proof (snapshot_store tqo h) as Hs.
  by destruct (Heap.snapshot tqo h) as [[view|e] h1].
Qed.

Lemma keeps_check_not_in_convert_recv_nodes k names :
  keeps whatever (Heap._check_not_in_convert_recv_nodes tqo k names).
Proof.
  apply keeps_reads. intros h.
  unfold Heap._check_not_in_convert_recv_nodes, mbind, Heap.M_bind.
  pose proof (snapshot_store tqo h) as Hs.
  by destruct (Heap.snapshot tqo h) as [[view|e] h1].
Qed.

(** *** The mutators, called for another tensor *)

Lemma keeps_ensure_entry k init :
  k ≠ t → keeps whatever (Heap.ensure_entry tqo k init).
Proof.
  intros Hk. unfold Heap.ensure_entry.
  eapply keeps_bind; [apply keeps_get_table|]. intros entries Ht.
  assert (keeps whatever (r ← Heap.alloc (Heap.ORecord init);
                          Heap.put tqo (Heap.OTable (dict_set k [r] entries)))) as Hnew.
  { eapply keeps_bind; [apply keeps_alloc|]. intros r _.
    apply keeps_put_table. by rewrite dict_get_set_ne. }
  destruct (dict_get k entries) as [[|r rs]|]; [done| |done]. by apply keeps_ret.
Qed.

Lemma keeps_entry_list k : keeps whatever (Heap.entry_list tqo k).
Proof.
  unfold Heap.entry_list. eapply keeps_bind; [apply keeps_get_table|].
  intros entries _. apply keeps_lift.
Qed.

Lemma keeps_first_record k : keeps whatever (Heap.first_record tqo k).
Proof.
  unfold Heap.first_record. eapply keeps_bind; [apply keeps_entry_list|].
  intros [|r rs] _; [apply keeps_raise | by apply keeps_ret].
Qed.

Lemma keeps_set_weight_type k w sym :
  k ≠ t → keeps whatever (Heap._set_weight_type tqo k w sym).
Proof.
  intros Hk. unfold Heap._set_weight_type.
  apply (keeps_bind whatever); [by apply keeps_ensure_entry|]. intros _ _.
  eapply keeps_bind; [apply keeps_entry_list|]. intros rs _.
  case_decide; [apply keeps_raise|].
  eapply keeps_bind; [apply keeps_first_record|]. intros r _.
  eapply keeps_bind; [apply keeps_get_record|]. intros fields Hr.
  destruct (_ && _); [by apply keeps_put | by apply keeps_ret].
Qed.

Lemma keeps_set_scale_zero_point k q sc zp :
  k ≠ t → keeps whatever (Heap._set_scale_zero_point tqo k q sc zp).
Proof.
  intros Hk. unfold Heap._set_scale_zero_point.
  apply (keeps_bind whatever); [by apply keeps_ensure_entry|]. intros _ _.
  eapply keeps_bind; [apply keeps_entry_list|]. intros rs _.
  case_decide; [apply keeps_raise|].
  eapply keeps_bind; [apply keeps_first_record|]. intros r _.
  eapply keeps_bind; [apply keeps_get_record|]. intros fields Hr.
  apply (keeps_bind whatever).
  { destruct (quant_type fields); [by apply keeps_ret|].
    apply (keeps_bind whatever); [by apply keeps_put|]. intros _ _. by apply keeps_ret. }
  intros fields' _. destruct (bool_decide _); [|apply keeps_raise].
  destruct (range_keys_present fields'); [by apply keeps_ret | by apply keeps_put].
Qed.

Lemma keeps_add_to_convert_recv_nodes k p c names :
  k ≠ t → keeps whatever (Heap._add_to_convert_recv_nodes tqo k p c names).
Proof.
  intros Hk. unfold Heap._add_to_convert_recv_nodes.
  apply (keeps_bind whatever); [by apply keeps_ensure_entry|]. intros _ _.
  eapply keeps_bind; [apply keeps_first_record|]. intros r _.
  eapply keeps_bind; [apply keeps_get_record|]. intros fields Hr.
  apply (keeps_bind whatever).
  { destruct (convert fields) as [cv|]; [by apply keeps_ret|].
    eapply keeps_bind; [apply keeps_alloc|]. intros cv _.
    apply (keeps_bind whatever); [by apply keeps_put|]. intros _ _. by apply keeps_ret. }
  intros cv _. eapply keeps_bind; [apply keeps_get_convert|].
  intros [q recv] Hcv. case_decide; [|apply keeps_raise].
  apply (keeps_bind whatever).
  { destruct recv as [s|]; [by apply keeps_ret|].
    eapply keeps_bind; [apply keeps_alloc|]. intros s _.
    apply (keeps_bind whatever); [by apply keeps_put|]. intros _ _. by apply keeps_ret. }
  intros s _. eapply keeps_bind; [apply keeps_get_set|]. intros ns Hs.
  by apply keeps_put.
Qed.

Lemma keeps_process_request act consumers item :
  item.1 ≠ t → keeps whatever (Heap.process_request act consumers tqo item).
Proof.
  destruct item as [k [[p|] [[ct names]|]]]; simpl; intros Hk;
    unfold Heap.process_request; simpl.
  - case_decide; [by apply keeps_add_to_convert_recv_nodes|].
    apply (keeps_bind whatever).
    { destruct (consumers !! k); [by apply keeps_ret | apply keeps_raise]. }
    intros nodes _. case_decide; [|by apply keeps_add_to_convert_recv_nodes].
    eapply keeps_bind; [apply keeps_first_record|]. intros r _.
    eapply keeps_bind; [apply keeps_get_record|]. intros fields _.
    destruct (has_key _); [apply keeps_raise | by apply keeps_ret].
  - eapply keeps_bind; [apply keeps_first_record|]. intros r _.
    eapply keeps_bind; [apply keeps_alloc|]. intros c _.
    eapply keeps_bind; [apply keeps_get_record|]. intros fields Hr.
    by apply keeps_put.
  - apply (keeps_bind whatever); [apply keeps_get_output_activation_qtype|].
    intros pt _.
    case_decide; [by apply keeps_add_to_convert_recv_nodes|].
    apply (keeps_bind whatever); [apply keeps_check_not_in_convert_recv_nodes|].
    intros [] _; [by apply keeps_ret | apply keeps_raise].
  - apply (keeps_bind whatever); [apply keeps_get_output_activation_qtype|].
    intros pt _. apply keeps_raise.
Qed.

Lemma keeps_process_requests act consumers (reqs : TypeRequests) :
  dict_get t reqs = None →
  keeps whatever (Heap.iter (Heap.process_request act consumers tqo) reqs).
Proof.
  intros Ht. apply keeps_iter. intros [k req] Hin. apply keeps_process_request.
  simpl. intros ->. apply dict_get_None in Ht. apply Ht.
  apply list_elem_of_fmap. by exists (t, req).
Qed.
End entries_added.

Lemma copy_entries_keys (entries : list (string * list Heap.loc)) :
  ∀ memo h entries' memo' h',
    Heap.copy_entries memo entries h = (Ok (entries', memo'), h') →
    dict_keys entries' = dict_keys entries.
Proof.
  induction entries as [|[k rs] entries IH]; intros memo h entries' memo' h'.
  - by intros [= <- _ _].
  - cbn [Heap.copy_entries]. unfold mbind, Heap.M_bind.
    destruct (Heap.copy_records memo rs h) as [[[rs' memo1]|e] h1]; [|done].
    destruct (Heap.copy_entries memo1 entries h1) as [[[entries1 memo2]|e] h2] eqn:Hrest;
      [|done].
    intros [= <- _ _]. unfold dict_keys. rewrite !fmap_cons. simpl. f_equal.
    by apply (IH memo1 h1 entries1 memo2 h2).
Qed.

Lemma no_entry_empty h t :
  Heap.no_entry (<[fresh (dom h) := Heap.OTable []]> h) (fresh (dom h)) t.
Proof. exists []. by rewrite lookup_insert_eq. Qed.

(** The table the function works on has the keys of the caller's table. *)
Lemma working_copy_no_entry init h tqo h1 t :
  (∀ l entries, init = Some l → h !! l = Some (Heap.OTable entries) →
                dict_get t entries = None) →
  Heap.working_copy init h = (Ok tqo, h1) →
  Heap.no_entry h1 tqo t.
Proof.
  intros Hinit. unfold Heap.working_copy. destruct init as [l|].
  - unfold mbind at 1, Heap.M_bind at 1, Heap.get_table.
    destruct (h !! l) as [[entries| | |]|] eqn:Hl; try done.
    pose proof (Hinit l entries eq_refl Hl) as Ht.
    case_bool_decide.
    + unfold Heap.deepcopy, mbind, Heap.M_bind, Heap.get_table. rewrite Hl.
      destruct (Heap.copy_entries ∅ entries h) as [[[entries' memo]|e] h0] eqn:Hcopy;
        [|done].
      intros [= <- <-]. exists entries'. rewrite lookup_insert_eq. split; [done|].
      apply dict_get_None. rewrite (copy_entries_keys _ _ _ _ _ _ Hcopy).
      by apply dict_get_None.
    + intros [= <- <-]. apply no_entry_empty.
  - intros [= <- <-]. apply no_entry_empty.
Qed.

Lemma iter_app {A : Type} (body : A → Heap.M unit) (l1 l2 : list A) h h1 :
  Heap.iter body l1 h = (Ok (), h1) →
  Heap.iter body (l1 ++ l2) h = Heap.iter body l2 h1.
Proof.
  revert h. induction l1 as [|x l1 IH]; intros h; simpl.
  - by intros [= ->].
  - unfold mbind, Heap.M_bind. destruct (body x h) as [[[]|e] h2]; [|done]. apply IH.
Qed.

(** The phases of a call that returned a configuration. *)
Lemma get_qnn_qdq_config_phases {Reader Method : Type} (model : GraphProto)
    (reader : Reader) (method : Method) act wt init add per_channel h cfg h' :
  Heap.get_qnn_qdq_config model reader method act wt init add per_channel h
    = (Ok cfg, h') →
  ∃ op_types consumers producers h1 h2,
    for_each index_node (node model) (∅, ∅, ∅) = Ok (op_types, consumers, producers) ∧
    Heap.working_copy init h
      = (Ok (TensorQuantOverrides (cfg_extra_options cfg)), h1) ∧
    Heap.resolve model act producers consumers add
      (TensorQuantOverrides (cfg_extra_options cfg)) h1 = (Ok (), h2) ∧
    Heap.iter (Heap.apply_policy act wt (graph_initializers model)
                 (TensorQuantOverrides (cfg_extra_options cfg))) (node model) h2
      = (Ok (), h').
Proof.
  intros Hrun. unfold Heap.get_qnn_qdq_config in Hrun. destruct per_channel; [done|].
  unfold mbind at 1, Heap.M_bind at 1, Heap.lift in Hrun.
  destruct (for_each index_node (node model) (∅, ∅, ∅))
    as [[[op_types consumers] producers]|e] eqn:Hindex; [|done].
  change (match init with
          | Some l => Heap.get_table l ≫= _
          | None => Heap.alloc (Heap.OTable [])
          end) with (Heap.working_copy init) in Hrun.
  unfold mbind at 1, Heap.M_bind at 1 in Hrun.
  destruct (Heap.working_copy init h) as [[tqo|e] h1] eqn:Hcopy; [|done].
  unfold mbind at 1, Heap.M_bind at 1 in Hrun.
  destruct (Heap.get_table tqo h1) as [[entries|e] h1'] eqn:Htable; [|done].
  unfold mbind at 1, Heap.M_bind at 1 in Hrun.
  match type of Hrun with
  | match ?m h1' with _ => _ end = _ => destruct (m h1') as [[[]|e] h2] eqn:Hresolve
  end; [|done].
  unfold mbind at 1, Heap.M_bind at 1 in Hrun.
  destruct (Heap.iter _ (node model) h2) as [[[]|e] h3] eqn:Hloop; [|done].
  injection Hrun as <- <-. simpl.
  exists op_types, consumers, producers, h1, h2. split_and!; try done.
  unfold Heap.resolve, mbind, Heap.M_bind. by rewrite Htable.
Qed.

Lemma resolve_no_entry model act producers consumers add tqo h1 h2 t :
  Heap.resolve model act producers consumers add tqo h1 = (Ok (), h2) →
  Heap.no_entry h1 tqo t →
  (∀ view (type_requests : TypeRequests),
     add = true →
     Heap.snapshot tqo h1 = (Ok view, h1) →
     for_each (scan_override act (graph_value_infos model) (graph_initializers model)
                 producers) view [] = Ok type_requests →
     dict_get t type_requests = None) →
  Heap.no_entry h2 tqo t.
Proof.
  intros Hrun Hno Hreq. unfold Heap.resolve in Hrun.
  unfold mbind at 1, Heap.M_bind at 1 in Hrun.
  destruct (Heap.get_table tqo h1) as [[entries|e] h1'] eqn:Htable; [|done].
  assert (h1' = h1) as ->.
  { unfold Heap.get_table in Htable. destruct (h1 !! tqo) as [[]|]; congruence. }
  destruct (bool_decide (entries ≠ []) && add) eqn:Hon; [|by injection Hrun as <-].
  apply andb_prop in Hon as [_ ->].
  unfold Heap._add_qtype_converts in Hrun.
  unfold mbind at 1, Heap.M_bind at 1 in Hrun.
  pose proof (snapshot_store tqo h1) as Hstore.
  destruct (Heap.snapshot tqo h1) as [[view|e] h1'] eqn:Hview; [|done].
  simpl in Hstore. subst h1'.
  unfold mbind at 1, Heap.M_bind at 1, Heap.lift in Hrun.
  destruct (for_each _ view []) as [reqs|e] eqn:Hscan; [|done].
  pose proof (keeps_process_requests tqo t act consumers reqs
                (Hreq view reqs eq_refl eq_refl Hscan) h1 Hno) as [Hno2 _].
  by rewrite Hrun in Hno2.
Qed.

Lemma policy_loop_no_entry (body : NodeProto → Heap.M unit) (P : Heap.heap → Prop)
    (nodes : list NodeProto) h2 :
  (∀ before nd after h3 h4,
     nodes = (before ++ nd :: after)%list →
     Heap.iter body before h2 = (Ok (), h3) → body nd h3 = (Ok (), h4) →
     P h3 → P h4) →
  ∀ h', P h2 → Heap.iter body nodes h2 = (Ok (), h') → P h'.
Proof.
  intros Hstep.
  assert (∀ rest before h3,
            nodes = (before ++ rest)%list → Heap.iter body before h2 = (Ok (), h3) →
            ∀ h', P h3 → Heap.iter body rest h3 = (Ok (), h') → P h') as Hgen.
  { induction rest as [|nd rest IH]; intros before h3 Hnodes Hbefore h' HP Hrun.
    - by injection Hrun as <-.
    - cbn [Heap.iter] in Hrun. unfold mbind, Heap.M_bind in Hrun.
      destruct (body nd h3) as [[[]|e] h4] eqn:Hnd; [|done].
      apply (IH (before ++ [nd])%list h4); [by rewrite <-app_assoc | | |done].
      + rewrite (iter_app _ _ _ _ _ Hbefore). simpl. unfold mbind, Heap.M_bind.
        by rewrite Hnd.
      + by apply (Hstep before nd rest h3 h4). }
  intros h'. by apply (Hgen nodes [] h2).
Qed.

(** C9, as amended. A tensor that has no entry in the caller's overrides,
    for which the scan of this run records no type request, and to which
    no policy step of this run gives an entry, has no entry in the override
    table of the returned configuration. The second condition is about
    the table the resolver scans, and is asked for only when the resolver
    is switched on; the third is about the stores the policy loop goes
    through in this run. *)
Theorem no_entry_without_override_request_or_policy :
  ∀ {Reader Method : Type} (model : GraphProto) (reader : Reader) (method : Method)
    (activation_type weight_type : QuantType) (init_overrides : option Heap.loc)
    (add_qtype_converts per_channel : bool) (h h' : Heap.heap)
    (cfg : StaticQuantConfig Reader Method Heap.loc) (t : string),
    Heap.get_qnn_qdq_config model reader method activation_type weight_type
      init_overrides add_qtype_converts per_channel h = (Ok cfg, h') →
    (∀ l entries, init_overrides = Some l → h !! l = Some (Heap.OTable entries) →
                  dict_get t entries = None) →
    (∀ op_types consumers producers tqo h1 view (type_requests : TypeRequests),
       add_qtype_converts = true →
       for_each index_node (node model) (∅, ∅, ∅) = Ok (op_types, consumers, producers) →
       Heap.working_copy init_overrides h = (Ok tqo, h1) →
       Heap.snapshot tqo h1 = (Ok view, h1) →
       for_each (scan_override activation_type (graph_value_infos model)
                   (graph_initializers model) producers) view [] = Ok type_requests →
       dict_get t type_requests = None) →
    (∀ op_types consumers producers tqo h1 h2 before nd after h3 h4,
       for_each index_node (node model) (∅, ∅, ∅) = Ok (op_types, consumers, producers) →
       Heap.working_copy init_overrides h = (Ok tqo, h1) →
       Heap.resolve model activation_type producers consumers add_qtype_converts tqo h1
         = (Ok (), h2) →
       node model = (before ++ nd :: after)%list →
       Heap.iter (Heap.apply_policy activation_type weight_type
                    (graph_initializers model) tqo) before h2 = (Ok (), h3) →
       Heap.apply_policy activation_type weight_type (graph_initializers model) tqo nd h3
         = (Ok (), h4) →
       Heap.no_entry h3 tqo t → Heap.no_entry h4 tqo t) →
    Heap.no_entry h' (TensorQuantOverrides (cfg_extra_options cfg)) t.
Proof.
  intros R M model reader method act wt init add per_channel h h' cfg t
    Hrun Hinit Hreq Hpolicy.
  apply get_qnn_qdq_config_phases in Hrun
    as (op_types & consumers & producers & h1 & h2 & Hindex & Hcopy & Hresolve & Hloop).
  set (tqo := TensorQuantOverrides (cfg_extra_options cfg)) in *.
  pose proof (working_copy_no_entry init h tqo h1 t Hinit Hcopy) as Hno1.
  assert (Heap.no_entry h2 tqo t) as Hno2.
  { apply (resolve_no_entry _ _ _ _ _ _ _ _ _ Hresolve Hno1).
    intros view reqs Hadd. by apply (Hreq op_types consumers producers tqo h1). }
  apply (policy_loop_no_entry
           (Heap.apply_policy act wt (graph_initializers model) tqo)
           (λ h0, Heap.no_entry h0 tqo t) (node model) h2); [|done..].
  intros before nd after h3 h4.
  by apply (Hpolicy op_types consumers producers tqo h1 h2).
Qed.

Lemma no_entry_without_override_request_or_policy_witness :
  Heap.no_entry
    (Heap.get_qnn_qdq_config Ex.chain tt tt QUInt8 QUInt8 (Some 0) true false
       Ex.chain_y_heap).2 3 "Z".
Proof.
  apply (no_entry_without_override_request_or_policy Ex.chain tt tt QUInt8 QUInt8
           (Some 0) true false Ex.chain_y_heap _
           {| cfg_calibration_data_reader := tt; cfg_calibrate_method := tt;
              cfg_activation_type := QUInt8; cfg_weight_type := QUInt8;
              cfg_op_types_to_quantize := {["Relu"]};
              cfg_extra_options :=
                {| MinimumRealRange := 1 # 10000; DedicatedQDQPair := false;
                   TensorQuantOverrides := 3; UseQDQContribOps := None |} |} "Z").
  - vm_compute. reflexivity.
  - intros l entries [= <-] [= <-]. reflexivity.
  - intros op_types consumers producers tqo h1 view reqs _ Hindex Hcopy Hview Hscan.
    vm_compute in Hindex. injection Hindex as <- <- <-.
    vm_compute in Hcopy. injection Hcopy as <- <-.
    vm_compute in Hview. injection Hview as <-.
    vm_compute in Hscan. by injection Hscan as <-.
  - intros op_types consumers producers tqo h1 h2 before nd after h3 h4 _ _ _ Hnodes
      _ Hstep.
    assert (nd ∈ node Ex.chain) as Hnd.
    { rewrite Hnodes. apply elem_of_app. right. by left. }
    repeat (apply elem_of_cons in Hnd as [->|Hnd]);
      [by injection Hstep as <-..|].
    by apply elem_of_nil in Hnd.
Defined.
